(** * tar2sqfs: a shallow embedding of the tar-to-SquashFS front end

    The development follows the C sources of squashfs-tools-ng:

    - [lib/compat/path_sep.c]      path separator helpers
    - [lib/compat/getopt.c]        fallback [getopt]
    - [lib/compat/getopt_long.c]   fallback [getopt_long]
    - [tar/tar2sqfs.c]             option table, [process_args],
                                   [write_file], [process_tar_ball], [main]
    - [lib/sqfs/id_table_write.c]  [id_table_write]
    - [lib/common/serialize_fstree.c]  the tree serialiser

    C integers are modelled as [Z] with the wrap-around of their width
    written out, C strings as [string] read up to the first NUL, arrays as
    lists with bounds-checked access, mutable objects by explicit state
    passing. *)

From Stdlib Require Import ZArith List String Ascii Bool Lia Arith Permutation.
Import ListNotations.

Local Open Scope string_scope.
Local Open Scope Z_scope.

(* ===================================================================== *)
(** * Machine integers *)
(* ===================================================================== *)

Module Int.

Definition two32 : Z := 2 ^ 32.
Definition two64 : Z := 2 ^ 64.

(** Conversion to an unsigned type of the given width is reduction modulo
    [2 ^ width]. *)
Definition u16 (z : Z) : Z := z mod 2 ^ 16.
Definition u32 (z : Z) : Z := z mod two32.
Definition u64 (z : Z) : Z := z mod two64.

(** Conversion to [int] (32 bit, two's complement). *)
Definition s32 (z : Z) : Z :=
  let r := z mod two32 in
  if r <? 2 ^ 31 then r else r - two32.

Definition LONG_MAX : Z := 2 ^ 63 - 1.
Definition LONG_MIN : Z := - 2 ^ 63.

End Int.

(* ===================================================================== *)
(** * C strings *)
(* ===================================================================== *)

Module CStr.

Definition NUL : ascii := zero.

(** The code of a character, as the [int] a C [char] promotes to. *)
Definition code (c : ascii) : Z := Z.of_N (N_of_ascii c).

(** [s[i]]: the character at offset [i]; the terminating NUL at the end. *)
Definition char_at (s : string) (i : nat) : ascii :=
  match String.get i s with
  | Some c => c
  | None => NUL
  end.

(** [s + i]: the string a pointer advanced by [i] characters points to. *)
Fixpoint advance (s : string) (i : nat) : string :=
  match i, s with
  | O, _ => s
  | S i', String _ r => advance r i'
  | S _, EmptyString => EmptyString
  end.

(** [strlen]: the number of characters before the first NUL. *)
Fixpoint strlen (s : string) : nat :=
  match s with
  | EmptyString => O
  | String c r => if Ascii.eqb c NUL then O else S (strlen r)
  end.

(** [strncmp(a, b, n)]: compares at most [n] characters and stops after a
    common NUL; the sign of the difference of the first differing pair. *)
Fixpoint strncmp (a b : string) (n : nat) : Z :=
  match n with
  | O => 0
  | S n' =>
      let ca := char_at a 0 in
      let cb := char_at b 0 in
      if negb (Ascii.eqb ca cb) then code ca - code cb
      else if Ascii.eqb ca NUL then 0
      else strncmp (advance a 1) (advance b 1) n'
  end.

(** [strcmp(a, b) == 0]. *)
Definition streq (a b : string) : bool := String.eqb a b.

(** [strchr(s, c)] for [c <> NUL]: the offset of the first occurrence. *)
Fixpoint strchr_from (s : string) (c : ascii) (i : nat) : option nat :=
  match s with
  | EmptyString => None
  | String d r =>
      if Ascii.eqb d NUL then None
      else if Ascii.eqb d c then Some i
      else strchr_from r c (S i)
  end.

Definition strchr (s : string) (c : ascii) : option nat := strchr_from s c 0.

End CStr.

(* ===================================================================== *)
(** * lib/compat/path_sep.c *)
(* ===================================================================== *)

Module PathSep.
Import CStr.

(** [__is_windows_path_sep(arg)]: [arg == '\\'] on a Windows build, the
    constant [false] elsewhere. *)
Definition __is_windows_path_sep (windows : bool) (arg : ascii) : bool :=
  if windows then Ascii.eqb arg "\"%char else false.

(** [#define __is_path_sep(c) (c == '/' && __is_windows_path_sep(c))] *)
Definition __is_path_sep (windows : bool) (c : ascii) : bool :=
  Ascii.eqb c "/"%char && __is_windows_path_sep windows c.

(** The loop of [skip_path_seps], with [cur] the offset of the cursor from
    [in] and [s] the string the cursor points to. *)
Fixpoint skip_path_seps_loop (windows : bool) (s : string) (cur : nat) : nat :=
  match s with
  | EmptyString => cur
  | String c r =>
      if Ascii.eqb c NUL then cur
      else if __is_path_sep windows c then skip_path_seps_loop windows r (S cur)
      else cur
  end.

(** [skip_path_seps(in)], as the offset of the returned pointer from [in]. *)
Definition skip_path_seps (windows : bool) (s : string) : nat :=
  skip_path_seps_loop windows s 0.

Fixpoint next_path_sep_loop (windows : bool) (s : string) (cur : nat) : nat :=
  match s with
  | EmptyString => cur
  | String c r =>
      if Ascii.eqb c NUL then cur
      else if __is_path_sep windows c then cur
      else next_path_sep_loop windows r (S cur)
  end.

(** [next_path_sep(in)], as the offset of the returned pointer from [in]. *)
Definition next_path_sep (windows : bool) (s : string) : nat :=
  next_path_sep_loop windows s 0.

End PathSep.

(* ===================================================================== *)
(** * The C library's [strtol] *)
(* ===================================================================== *)

Module Libc.
Import CStr.

(** [isspace] in the C locale. *)
Definition isspace (c : ascii) : bool :=
  let n := code c in (n =? 32) || ((9 <=? n) && (n <=? 13)).

(** The value of a digit in bases up to 36. *)
Definition digit_val (c : ascii) : option Z :=
  let n := code c in
  if (48 <=? n) && (n <=? 57) then Some (n - 48)
  else if (97 <=? n) && (n <=? 122) then Some (n - 87)
  else if (65 <=? n) && (n <=? 90) then Some (n - 55)
  else None.

Fixpoint skip_spaces (s : string) : string :=
  match s with
  | String c r => if isspace c then skip_spaces r else s
  | EmptyString => s
  end.

(** The longest run of digits of [base] read as a number. *)
Fixpoint digits (base : Z) (s : string) (acc : Z) : Z :=
  match s with
  | EmptyString => acc
  | String c r =>
      match digit_val c with
      | Some d => if d <? base then digits base r (acc * base + d) else acc
      | None => acc
      end
  end.

Definition is_hex_prefix (s : string) : bool :=
  match s with
  | String z (String x (String d _)) =>
      Ascii.eqb z "0"%char
      && (Ascii.eqb x "x"%char || Ascii.eqb x "X"%char)
      && match digit_val d with Some v => v <? 16 | None => false end
  | _ => false
  end.

(** The magnitude [strtol(s, NULL, 0)] reads after blanks and sign: a
    [0x] prefix selects base 16, a leading [0] base 8, anything else
    base 10. *)
Definition magnitude (s : string) : Z :=
  if is_hex_prefix s then digits 16 (advance s 2) 0
  else if Ascii.eqb (char_at s 0) "0"%char then digits 8 s 0
  else digits 10 s 0.

Definition clamp_long (z : Z) : Z :=
  if z <? Int.LONG_MIN then Int.LONG_MIN
  else if Int.LONG_MAX <? z then Int.LONG_MAX
  else z.

(** [strtol(s, NULL, 0)] on an LP64 platform: the value is clamped to the
    range of [long]. *)
Definition strtol (s : string) : Z :=
  let s := skip_spaces s in
  match s with
  | String c r =>
      if Ascii.eqb c "-"%char then clamp_long (- magnitude r)
      else if Ascii.eqb c "+"%char then clamp_long (magnitude r)
      else clamp_long (magnitude s)
  | EmptyString => 0
  end.

End Libc.

(* ===================================================================== *)
(** * lib/compat/getopt.c and lib/compat/getopt_long.c *)
(* ===================================================================== *)

Module Getopt.
Import CStr.

Definition newline : string := String (ascii_of_nat 10) EmptyString.

(** The globals of getopt.c: [optind], [optarg], the static cursor
    [current] into the argument being read, and what was printed to
    [stderr]. *)
Record getopt_state := mk_getopt_state {
  optind : Z;
  optarg : option string;
  current : string;
  stderr : list string
}.

Definition getopt_init : getopt_state :=
  {| optind := 1; optarg := None; current := ""; stderr := [] |}.

(** [argv[i]]. *)
Definition arg_at (argv : list string) (i : Z) : string :=
  nth (Z.to_nat i) argv "".

Definition argc_of (argv : list string) : Z := Z.of_nat (List.length argv).

Definition QUESTION : Z := code "?"%char.

(** [getopt(argc, argv, optstr)]: the value returned and the new globals. *)
Definition getopt (argv : list string) (optstr : string)
    (st : getopt_state) : Z * getopt_state :=
  let argc := argc_of argv in
  let enter :=
    (* the block guarded by [*current == '\0'] *)
    if Ascii.eqb (char_at (current st) 0) NUL then
      let a := arg_at argv (optind st) in
      if (optind st >=? argc) || negb (Ascii.eqb (char_at a 0) "-"%char)
      then inl (-1, st)
      else if Ascii.eqb (char_at a 1) "-"%char && Ascii.eqb (char_at a 2) NUL
      then inl (-1, mk_getopt_state (optind st + 1) (optarg st) (current st) (stderr st))
      else if Ascii.eqb (char_at a 1) NUL
      then inl (-1, st)
      else inr (mk_getopt_state (optind st) (optarg st) (advance a 1) (stderr st))
    else inr st in
  match enter with
  | inl r => r
  | inr st =>
      let optchr := char_at (current st) 0 in
      let cur := advance (current st) 1 in
      let unknown :=
        (QUESTION,
         mk_getopt_state (optind st) (optarg st) cur
           (stderr st ++ [arg_at argv 0 ++ ": unknown option `-"
                          ++ String optchr EmptyString ++ "`" ++ newline])) in
      if Ascii.eqb optchr ":"%char then unknown
      else
        match strchr optstr optchr with
        | None => unknown
        | Some p =>
            if Ascii.eqb (char_at optstr (S p)) ":"%char then
              if negb (Ascii.eqb (char_at cur 0) NUL) then
                (code optchr,
                 mk_getopt_state (optind st + 1) (Some cur) "" (stderr st))
              else
                let oi := optind st + 1 in
                if oi >=? argc then
                  (QUESTION,
                   mk_getopt_state oi (optarg st) cur
                     (stderr st ++ [arg_at argv 0
                                    ++ ": missing argument for option `-"
                                    ++ String optchr EmptyString ++ "`"
                                    ++ newline]))
                else
                  (code optchr,
                   mk_getopt_state (oi + 1) (Some (arg_at argv oi)) ""
                     (stderr st))
            else
              (code optchr,
               mk_getopt_state
                 (if Ascii.eqb (char_at cur 0) NUL then optind st + 1
                  else optind st)
                 None cur (stderr st))
        end
  end.

(** [struct option]; [name] and [flag] are pointers, [None] is [NULL]. *)
Record option_t := mk_option {
  name : option string;
  has_arg : Z;
  flag : option Z;
  val : Z
}.

Definition no_argument : Z := 0.
Definition required_argument : Z := 1.

(** [for (len = 0; ptr[len] != '\0' && ptr[len] != '='; ++len);] *)
Fixpoint name_len (ptr : string) : nat :=
  match ptr with
  | EmptyString => O
  | String c r =>
      if Ascii.eqb c NUL || Ascii.eqb c "="%char then O else S (name_len r)
  end.

(** How the search loop over [longopts] ends: at an index it read inside
    the array, or by reading past the array's last element. *)
Inductive lookup_result :=
| Lookup_stop (i : nat) (o : option_t)
| Lookup_fault (i : nat).

(** [for (i = 0; longopts[i].name != NULL; ++i)] with the array given by
    its elements from index [i] on. The loop is left at the first entry
    whose name is [NULL] or equals the [len] characters at [ptr]; the only
    other way out is the read of [longopts[i]] behind the last element. *)
Fixpoint lookup_loop (rest : list option_t) (i : nat) (ptr : string)
    (len : nat) : lookup_result :=
  match rest with
  | [] => Lookup_fault i
  | o :: rest' =>
      match name o with
      | None => Lookup_stop i o
      | Some nm =>
          if negb (strncmp nm ptr len =? 0) then lookup_loop rest' (S i) ptr len
          else if Ascii.eqb (char_at nm len) NUL then Lookup_stop i o
          else lookup_loop rest' (S i) ptr len
      end
  end.

(** The indices of [longopts] the loop reads, in order. *)
Fixpoint lookup_reads (rest : list option_t) (i : nat) (ptr : string)
    (len : nat) : list nat :=
  match rest with
  | [] => [i]
  | o :: rest' =>
      match name o with
      | None => [i]
      | Some nm =>
          if negb (strncmp nm ptr len =? 0)
          then i :: lookup_reads rest' (S i) ptr len
          else if Ascii.eqb (char_at nm len) NUL then [i]
          else i :: lookup_reads rest' (S i) ptr len
      end
  end.

Inductive gl_result :=
| GL_ret (v : Z) (st : getopt_state)
| GL_fault (i : nat).

(** [getopt_long(argc, argv, optstr, longopts, NULL)]. *)
Definition getopt_long (argv : list string) (optstr : string)
    (longopts : list option_t) (st : getopt_state) : gl_result :=
  let argc := argc_of argv in
  let a := arg_at argv (optind st) in
  if (optind st >=? argc)
     || negb (Ascii.eqb (char_at a 0) "-"%char)
     || negb (Ascii.eqb (char_at a 1) "-"%char)
     || Ascii.eqb (char_at a 2) NUL
  then let (v, st') := getopt argv optstr st in GL_ret v st'
  else
    let ptr := advance a 2 in
    let len := name_len ptr in
    let say (msg : string) : list string :=
      (stderr st ++ [(arg_at argv 0 ++ msg ++ ptr ++ "`" ++ newline)%string])%list in
    match lookup_loop longopts 0 ptr len with
    | Lookup_fault i => GL_fault i
    | Lookup_stop i o =>
        match name o with
        | None =>
            GL_ret QUESTION
              (mk_getopt_state (optind st) None (current st)
                 (say ": unknown option `--"))
        | Some _ =>
            if Ascii.eqb (char_at ptr len) "="%char then
              if has_arg o =? 0 then
                GL_ret QUESTION
                  (mk_getopt_state (optind st) None (current st)
                     (say ": no argument expected for option `--"))
              else
                GL_ret (val o)
                  (mk_getopt_state (optind st + 1)
                     (Some (advance ptr (S len))) (current st) (stderr st))
            else if negb (has_arg o =? 0) then
              let oi := optind st + 1 in
              if oi >=? argc then
                GL_ret QUESTION
                  (mk_getopt_state oi None (current st)
                     (say ": missing argument for option `--"))
              else
                GL_ret (val o)
                  (mk_getopt_state (oi + 1) (Some (arg_at argv oi))
                     (current st) (stderr st))
            else
              GL_ret (val o)
                (mk_getopt_state (optind st + 1) None (current st) (stderr st))
        end
    end.

(** How [optstr] lists the character [c]: not at all, as an option
    without an argument, or as one with an argument ([true]). The colon
    itself is never an option. *)
Definition listed (optstr : string) (c : ascii) : option bool :=
  if Ascii.eqb c ":"%char then None
  else
    match strchr optstr c with
    | None => None
    | Some p => Some (Ascii.eqb (char_at optstr (S p)) ":"%char)
    end.

(** [n] calls of [getopt] in a row: the values returned, in order, and
    the globals after the last call. *)
Fixpoint getopt_calls (n : nat) (argv : list string) (optstr : string)
    (st : getopt_state) : list Z * getopt_state :=
  match n with
  | O => ([], st)
  | S n' =>
      let (v, st1) := getopt argv optstr st in
      let (vs, st2) := getopt_calls n' argv optstr st1 in
      (v :: vs, st2)
  end.

(** The string made of the characters [cs]. *)
Definition word (cs : list ascii) : string := string_of_list_ascii cs.

(** A measure of a list of words: one for each word and one for each of
    its characters. *)
Definition weight (args : list string) : nat :=
  fold_right (fun a n => S (String.length a + n)) O args.

(** What of the command line is still to be read: the words from
    [optind] on, or, with the cursor inside a word, the rest of that word
    and the words behind it. *)
Definition pending (argv : list string) (st : getopt_state) : nat :=
  if Ascii.eqb (char_at (current st) 0) NUL
  then weight (skipn (Z.to_nat (optind st)) argv)
  else (weight (skipn (S (Z.to_nat (optind st))) argv)
        + S (String.length (current st)))%nat.

(** Whether [getopt_long] takes the word at [optind] for a long option,
    that is, does not hand the call to [getopt]. *)
Definition long_word (argv : list string) (st : getopt_state) : bool :=
  let a := arg_at argv (optind st) in
  negb ((optind st >=? argc_of argv)
        || negb (Ascii.eqb (char_at a 0) "-"%char)
        || negb (Ascii.eqb (char_at a 1) "-"%char)
        || Ascii.eqb (char_at a 2) NUL).

(** The cursor stands inside a word only if that word is no long
    option. *)
Definition cursor_in_short_word (argv : list string) (st : getopt_state)
    : Prop :=
  0 <= optind st
  /\ (char_at (current st) 0 <> NUL -> long_word argv st = false).

(** A word that ends the options without being one: it does not start
    with a dash, or it is the dash alone. *)
Definition operand (f : string) : Prop :=
  char_at f 0 <> "-"%char \/ char_at f 1 = NUL.

(** The globals are in step with the command line: [optind] lies between
    0 and [argc], and below [argc] while the cursor stands inside an
    argument. *)
Definition in_step (argv : list string) (st : getopt_state) : Prop :=
  0 <= optind st <= argc_of argv
  /\ (char_at (current st) 0 <> NUL -> optind st < argc_of argv).

End Getopt.

(* ===================================================================== *)
(** * tar/tar2sqfs.c: the option table and [process_args] *)
(* ===================================================================== *)

Module Args.
Import CStr Getopt.

Definition EXIT_SUCCESS : Z := 0.
Definition EXIT_FAILURE : Z := 1.

Definition opt (n : string) (a : Z) (c : ascii) : option_t :=
  {| name := Some n; has_arg := a; flag := None; val := code c |}.

(** [static struct option long_opts[]], element by element as the
    initialiser lists them. *)
Definition long_opts : list option_t :=
  [ opt "compressor" required_argument "c";
    opt "block-size" required_argument "b";
    opt "dev-block-size" required_argument "B";
    opt "defaults" required_argument "d";
    opt "num-jobs" required_argument "j";
    opt "queue-backlog" required_argument "Q";
    opt "comp-extra" required_argument "X";
    opt "no-skip" no_argument "s";
    opt "no-xattr" no_argument "x";
    opt "keep-time" no_argument "k";
    opt "exportable" no_argument "e";
    opt "force" no_argument "f";
    opt "quiet" no_argument "q";
    opt "help" no_argument "h";
    opt "version" no_argument "V" ].

Definition short_opts : string := "c:b:B:d:X:j:Q:sxekfqhV".

(** What [process_args] takes from headers and libraries outside the
    sources at hand: three constants and the compressor registry. *)
Record sqfs_env := mk_sqfs_env {
  SQFS_DEFAULT_BLOCK_SIZE : Z;
  SQFS_DEVBLK_SIZE : Z;
  SQFS_FILE_OPEN_OVERWRITE : Z;
  compressor_get_default : Z;
  (* name, current value of [*out] |-> return value, new value of [*out] *)
  sqfs_compressor_id_from_name : string -> Z -> Z * Z;
  sqfs_compressor_exists : Z -> bool
}.

(** The file-scope variables of tar2sqfs.c. *)
Record options := mk_options {
  filename : option string;
  block_size : Z;        (* int *)
  devblksize : Z;        (* size_t *)
  quiet : bool;
  outmode : Z;           (* int *)
  num_jobs : Z;          (* unsigned int *)
  max_backlog : Z;       (* size_t *)
  comp_id : Z;
  comp_extra : option string;
  fs_defaults : option string;
  dont_skip : bool;
  no_xattr : bool;
  exportable : bool;
  keep_time : bool
}.

Definition initial_options (E : sqfs_env) : options :=
  {| filename := None;
     block_size := SQFS_DEFAULT_BLOCK_SIZE E;
     devblksize := SQFS_DEVBLK_SIZE E;
     quiet := false;
     outmode := 0;
     num_jobs := 1;
     max_backlog := 0;
     comp_id := 0;
     comp_extra := None;
     fs_defaults := None;
     dont_skip := false;
     no_xattr := false;
     exportable := false;
     keep_time := false |}.

Definition set_block_size (o : options) (v : Z) : options :=
  mk_options (filename o) v (devblksize o) (quiet o) (outmode o) (num_jobs o)
    (max_backlog o) (comp_id o) (comp_extra o) (fs_defaults o) (dont_skip o)
    (no_xattr o) (exportable o) (keep_time o).
Definition set_devblksize (o : options) (v : Z) : options :=
  mk_options (filename o) (block_size o) v (quiet o) (outmode o) (num_jobs o)
    (max_backlog o) (comp_id o) (comp_extra o) (fs_defaults o) (dont_skip o)
    (no_xattr o) (exportable o) (keep_time o).
Definition set_quiet (o : options) (v : bool) : options :=
  mk_options (filename o) (block_size o) (devblksize o) v (outmode o)
    (num_jobs o) (max_backlog o) (comp_id o) (comp_extra o) (fs_defaults o)
    (dont_skip o) (no_xattr o) (exportable o) (keep_time o).
Definition set_outmode (o : options) (v : Z) : options :=
  mk_options (filename o) (block_size o) (devblksize o) (quiet o) v
    (num_jobs o) (max_backlog o) (comp_id o) (comp_extra o) (fs_defaults o)
    (dont_skip o) (no_xattr o) (exportable o) (keep_time o).
Definition set_num_jobs (o : options) (v : Z) : options :=
  mk_options (filename o) (block_size o) (devblksize o) (quiet o) (outmode o)
    v (max_backlog o) (comp_id o) (comp_extra o) (fs_defaults o) (dont_skip o)
    (no_xattr o) (exportable o) (keep_time o).
Definition set_max_backlog (o : options) (v : Z) : options :=
  mk_options (filename o) (block_size o) (devblksize o) (quiet o) (outmode o)
    (num_jobs o) v (comp_id o) (comp_extra o) (fs_defaults o) (dont_skip o)
    (no_xattr o) (exportable o) (keep_time o).
Definition set_comp_id (o : options) (v : Z) : options :=
  mk_options (filename o) (block_size o) (devblksize o) (quiet o) (outmode o)
    (num_jobs o) (max_backlog o) v (comp_extra o) (fs_defaults o) (dont_skip o)
    (no_xattr o) (exportable o) (keep_time o).
Definition set_comp_extra (o : options) (v : option string) : options :=
  mk_options (filename o) (block_size o) (devblksize o) (quiet o) (outmode o)
    (num_jobs o) (max_backlog o) (comp_id o) v (fs_defaults o) (dont_skip o)
    (no_xattr o) (exportable o) (keep_time o).
Definition set_fs_defaults (o : options) (v : option string) : options :=
  mk_options (filename o) (block_size o) (devblksize o) (quiet o) (outmode o)
    (num_jobs o) (max_backlog o) (comp_id o) (comp_extra o) v (dont_skip o)
    (no_xattr o) (exportable o) (keep_time o).
Definition set_dont_skip (o : options) (v : bool) : options :=
  mk_options (filename o) (block_size o) (devblksize o) (quiet o) (outmode o)
    (num_jobs o) (max_backlog o) (comp_id o) (comp_extra o) (fs_defaults o) v
    (no_xattr o) (exportable o) (keep_time o).
Definition set_no_xattr (o : options) (v : bool) : options :=
  mk_options (filename o) (block_size o) (devblksize o) (quiet o) (outmode o)
    (num_jobs o) (max_backlog o) (comp_id o) (comp_extra o) (fs_defaults o)
    (dont_skip o) v (exportable o) (keep_time o).
Definition set_exportable (o : options) (v : bool) : options :=
  mk_options (filename o) (block_size o) (devblksize o) (quiet o) (outmode o)
    (num_jobs o) (max_backlog o) (comp_id o) (comp_extra o) (fs_defaults o)
    (dont_skip o) (no_xattr o) v (keep_time o).
Definition set_keep_time (o : options) (v : bool) : options :=
  mk_options (filename o) (block_size o) (devblksize o) (quiet o) (outmode o)
    (num_jobs o) (max_backlog o) (comp_id o) (comp_extra o) (fs_defaults o)
    (dont_skip o) (no_xattr o) (exportable o) v.
Definition set_filename (o : options) (v : option string) : options :=
  mk_options v (block_size o) (devblksize o) (quiet o) (outmode o)
    (num_jobs o) (max_backlog o) (comp_id o) (comp_extra o) (fs_defaults o)
    (dont_skip o) (no_xattr o) (exportable o) (keep_time o).

(** How [process_args] ends: it returns with the variables set, it calls
    [exit], or [getopt_long] has read behind the end of [long_opts]; the
    last case says that the bounded model of the loop ran out of steps. *)
Inductive pa_result :=
| PA_return (o : options) (g : getopt_state)
| PA_exit (status : Z) (err : list string)
| PA_fault (index : nat)
| PA_out_of_steps.

Section ProcessArgs.
Variable E : sqfs_env.

Definition the_arg (g : getopt_state) : string :=
  match optarg g with Some s => s | None => "" end.

Definition try_help : string :=
  "Try `tar2sqfs --help' for more information." ++ newline.

(** One pass through the [switch (i)]: the variables after it, or the
    status and message of the [exit] it runs into. *)
Definition switch_case (i : Z) (g : getopt_state) (o : options)
    : options + (Z * list string) :=
  if i =? code "b" then
    inl (set_block_size o (Int.s32 (Libc.strtol (the_arg g))))
  else if i =? code "B" then
    let v := Int.u64 (Libc.strtol (the_arg g)) in
    if v <? 1024 then
      inr (EXIT_FAILURE,
           ["Device block size must be at least 1024" ++ newline])
    else inl (set_devblksize o v)
  else if i =? code "c" then
    let '(r, id) := sqfs_compressor_id_from_name E (the_arg g) (comp_id o) in
    let have_compressor := true in
    let have_compressor := if negb (r =? 0) then false else have_compressor in
    let have_compressor :=
      if negb (sqfs_compressor_exists E id) then false else have_compressor in
    if negb have_compressor then
      inr (EXIT_FAILURE,
           ["Unsupported compressor '" ++ the_arg g ++ "'" ++ newline])
    else inl (set_comp_id o id)
  else if i =? code "j" then
    inl (set_num_jobs o (Int.u32 (Libc.strtol (the_arg g))))
  else if i =? code "Q" then
    inl (set_max_backlog o (Int.u64 (Libc.strtol (the_arg g))))
  else if i =? code "X" then inl (set_comp_extra o (optarg g))
  else if i =? code "d" then inl (set_fs_defaults o (optarg g))
  else if i =? code "x" then inl (set_no_xattr o true)
  else if i =? code "k" then inl (set_keep_time o true)
  else if i =? code "s" then inl (set_dont_skip o true)
  else if i =? code "e" then inl (set_exportable o true)
  else if i =? code "f" then
    inl (set_outmode o (Z.lor (outmode o) (SQFS_FILE_OPEN_OVERWRITE E)))
  else if i =? code "q" then inl (set_quiet o true)
  else if i =? code "h" then inr (EXIT_SUCCESS, [])
  else if i =? code "V" then inr (EXIT_SUCCESS, [])
  else inr (EXIT_FAILURE, [try_help]).

(** The [for (;;)] loop around [getopt_long], at most [steps] calls. *)
Fixpoint option_loop (steps : nat) (argv : list string) (o : options)
    (g : getopt_state) : pa_result :=
  match steps with
  | O => PA_out_of_steps
  | S steps' =>
      match getopt_long argv short_opts long_opts g with
      | GL_fault i => PA_fault i
      | GL_ret i g' =>
          if i =? -1 then PA_return o g'
          else
            match switch_case i g' o with
            | inl o' => option_loop steps' argv o' g'
            | inr (status, msg) => PA_exit status (stderr g' ++ msg)
            end
      end
  end.

(** Every call of [getopt_long] that does not end the loop consumes a
    character of an argument or an argument, so this many steps do. *)
Definition enough_steps (argv : list string) : nat :=
  S (List.length argv
     + fold_right (fun a n => (String.length a + n)%nat) O argv).

(** What follows the loop. *)
Definition after_loop (argv : list string) (o : options)
    (g : getopt_state) : pa_result :=
  let o := if num_jobs o <? 1 then set_num_jobs o 1 else o in
  let o :=
    if max_backlog o <? 1
    then set_max_backlog o (Int.u64 (Int.u32 (10 * num_jobs o)))
    else o in
  let is_help :=
    match comp_extra o with
    | Some s => streq s "help"
    | None => false
    end in
  if is_help then PA_exit EXIT_SUCCESS (stderr g)
  else if optind g >=? argc_of argv then
    PA_exit EXIT_FAILURE
      (stderr g ++ ["Missing argument: squashfs image" ++ newline; try_help])
  else
    let o := set_filename o (Some (arg_at argv (optind g))) in
    let g := mk_getopt_state (optind g + 1) (optarg g) (current g) (stderr g) in
    if optind g <? argc_of argv then
      PA_exit EXIT_FAILURE
        (stderr g ++ ["Unknown extra arguments" ++ newline; try_help])
    else PA_return o g.

(** [process_args(argc, argv)], started with the variables as the
    program's start leaves them. *)
Definition process_args (argv : list string) : pa_result :=
  let o := set_comp_id (initial_options E) (compressor_get_default E) in
  match option_loop (enough_steps argv) argv o getopt_init with
  | PA_return o g => after_loop argv o g
  | r => r
  end.

End ProcessArgs.

(** The variables [process_args] leaves for [tar2sqfs f]. *)
Definition default_options (E : sqfs_env) (f : string) : options :=
  set_filename
    (set_max_backlog
       (set_comp_id (initial_options E) (compressor_get_default E)) 10)
    (Some f).

(** The variables [process_args] leaves for [tar2sqfs -b v f]. *)
Definition with_block_size (E : sqfs_env) (v f : string) : options :=
  set_filename
    (set_max_backlog
       (set_block_size
          (set_comp_id (initial_options E) (compressor_get_default E))
          (Int.s32 (Libc.strtol v)))
       10)
    (Some f).

End Args.

(* ===================================================================== *)
(** * tar/tar2sqfs.c: [write_file], [copy_xattr],
      [create_node_and_repack_data], [process_tar_ball] *)
(* ===================================================================== *)

Module Tar.
Import CStr.

Definition newline : string := Getopt.newline.

Definition S_IFMT : Z := 61440.     (* 0170000 *)
Definition S_IFREG : Z := 32768.    (* 0100000 *)
Definition S_ISREG (m : Z) : bool := Z.land m S_IFMT =? S_IFREG.

(** [struct stat], the fields the tar reader fills. *)
Record stat := mk_stat {
  st_mode : Z;
  st_uid : Z;
  st_gid : Z;
  st_size : Z;
  st_mtime : Z;
  st_rdev : Z
}.

(** One element of the [sqfs_sparse_map_t] list; the list itself is a
    Rocq list, [NULL] the empty one. [offset] and [count] are 64 bit
    unsigned. *)
Record sparse_map_t := mk_sparse {
  offset : Z;
  count : Z
}.

Record tar_xattr_t := mk_xattr {
  key : string;
  value : string
}.

(** [tar_header_decoded_t]. *)
Record tar_header_decoded_t := mk_hdr {
  sb : stat;
  name : option string;
  link_target : option string;
  sparse : list sparse_map_t;
  actual_size : Z;
  record_size : Z;
  unknown_record : bool;
  xattr : list tar_xattr_t
}.

(** Standard input: the bytes of the archive, their number, and how many
    of them have been read. *)
Record stdin_t := mk_stdin {
  content : Z -> Z;
  size : Z;
  pos : Z
}.

(** Reading or skipping [n] bytes moves the position; it fails when fewer
    than [n] bytes are left. *)
Definition skip_bytes (s : stdin_t) (n : Z) : Z * stdin_t :=
  if pos s + n <=? size s then (0, mk_stdin (content s) (size s) (pos s + n))
  else (-1, s).

(** Modelled from the spec: [skip_padding(fd, size)] of the tar library,
    which is not among the sources. "Each file body is followed by padding
    to the next 512-byte boundary; after each file the decoder advances
    past that padding." *)
Definition skip_padding (s : stdin_t) (size : Z) : Z * stdin_t :=
  let tail := Int.u64 size mod 512 in
  if tail =? 0 then (0, s) else skip_bytes s (512 - tail).

(** Modelled from the spec: [skip_entry(fd, size)] of the tar library,
    which is not among the sources. "On skip, consumes the same padded
    length": [size] bytes and the padding behind them. *)
Definition skip_entry (s : stdin_t) (size : Z) : Z * stdin_t :=
  let size := Int.u64 size in
  let tail := size mod 512 in
  skip_bytes s (if tail =? 0 then size else size + 512 - tail).

(** [n] rounded up to the next multiple of 512. *)
Definition padded (n : Z) : Z :=
  if n mod 512 =? 0 then n else n + 512 - n mod 512.

(** The bytes a file object made by [sqfs_get_stdin_file(size)] stands
    for: [size] bytes of standard input from the position at its
    creation. *)
Record stdin_file := mk_stdin_file {
  file_src : Z -> Z;
  file_start : Z;
  file_size : Z
}.

(** [file_info_t], as far as tar2sqfs.c looks at it. *)
Record file_info_t := mk_file_info {
  fi_size : Z
}.

(** The functions [process_tar_ball] and what it calls take from the tar
    reader, the tree and the data writer, for a tree of type [FS], node
    handles [N] and a data writer [D]. *)
Record tar_env (FS N D : Type) := mk_tar_env {
  read_header : stdin_t -> Z * tar_header_decoded_t * stdin_t;
  canonicalize_name : string -> Z * string;
  fs_defaults_mtime : FS -> Z;
  fstree_add_generic :
    FS -> option string -> stat -> option string -> option (FS * N);
  node_data_file : FS -> N -> file_info_t;
  sqfs_has_xattr : string -> bool;
  fstree_add_xattr : FS -> N -> string -> string -> Z * FS;
  write_data_from_file : D -> file_info_t -> stdin_file -> Z * D;
  write_data_from_file_condensed :
    D -> stdin_file -> file_info_t -> list sparse_map_t -> Z * D
}.

Arguments read_header {FS N D}.
Arguments canonicalize_name {FS N D}.
Arguments fs_defaults_mtime {FS N D}.
Arguments fstree_add_generic {FS N D}.
Arguments node_data_file {FS N D}.
Arguments sqfs_has_xattr {FS N D}.
Arguments fstree_add_xattr {FS N D}.
Arguments write_data_from_file {FS N D}.
Arguments write_data_from_file_condensed {FS N D}.

(** What the functions of this part work on: standard input, the tree,
    the data writer and the two output streams. *)
Record tar_state (FS D : Type) := mk_tar_state {
  stdin : stdin_t;
  fs : FS;
  data : D;
  stderr : list string;
  stdout : list string
}.

Arguments mk_tar_state {FS D}.
Arguments stdin {FS D}.
Arguments fs {FS D}.
Arguments data {FS D}.
Arguments stderr {FS D}.
Arguments stdout {FS D}.

Section TarBall.
Context {FS N D : Type}.
Variable T : tar_env FS N D.
Variable opts : Args.options.

Local Abbreviation tar_state := (tar_state FS D).

Definition say_err (st : tar_state) (msg : string) : tar_state :=
  mk_tar_state (stdin st) (fs st) (data st) (stderr st ++ [msg]) (stdout st).
Definition say_out (st : tar_state) (msg : string) : tar_state :=
  mk_tar_state (stdin st) (fs st) (data st) (stderr st) (stdout st ++ [msg]).
Definition with_stdin (st : tar_state) (s : stdin_t) : tar_state :=
  mk_tar_state s (fs st) (data st) (stderr st) (stdout st).
Definition with_fs (st : tar_state) (f : FS) : tar_state :=
  mk_tar_state (stdin st) f (data st) (stderr st) (stdout st).
Definition with_data (st : tar_state) (d : D) : tar_state :=
  mk_tar_state (stdin st) (fs st) d (stderr st) (stdout st).

(** [for (sum = 0, it = hdr->sparse; it != NULL; it = it->next)
       sum += it->count;] in 64 bit unsigned arithmetic. *)
Definition sparse_sum (m : list sparse_map_t) : Z :=
  fold_left (fun sum it => Int.u64 (sum + count it)) m 0.

(** Modelled from the spec: what [sqfs_get_stdin_file(size)] and the
    call of the data writer on the file it makes do to standard input;
    neither is among the sources. The file stands for the next [size]
    bytes of the stream ("bytes of body payload in the stream"), and a
    writer that succeeds has read them all; the read fails when the stream
    ends before. What the writer does with the bytes is [pack]. *)
Definition pack_from_stdin (st : tar_state) (n : Z)
    (pack : D -> stdin_file -> Z * D) : Z * tar_state :=
  let f := mk_stdin_file (content (stdin st)) (pos (stdin st)) n in
  let '(r, s') := skip_bytes (stdin st) n in
  if negb (r =? 0) then (-1, st)
  else
    let '(ret, d') := pack (data st) f in
    (ret, with_data (with_stdin st s') d').

(** [write_file(hdr, fi, data)]. *)
Definition write_file (hdr : tar_header_decoded_t) (fi : file_info_t)
    (st : tar_state) : Z * tar_state :=
  match sparse hdr with
  | _ :: _ =>
      let sum := sparse_sum (sparse hdr) in
      let '(ret, st) :=
        pack_from_stdin st sum
          (fun d f => write_data_from_file_condensed T d f fi (sparse hdr)) in
      if negb (ret =? 0) then (-1, st)
      else
        let '(r, s') := skip_padding (stdin st) (record_size hdr) in
        (r, with_stdin st s')
  | [] =>
      let '(ret, st) :=
        pack_from_stdin st (fi_size fi)
          (fun d f => write_data_from_file T d fi f) in
      if negb (ret =? 0) then (-1, st)
      else
        let '(r, s') := skip_padding (stdin st) (fi_size fi) in
        (r, with_stdin st s')
  end.

(** [copy_xattr(fs, node, hdr)], over the rest of the list. *)
Fixpoint copy_xattr (node : N) (xs : list tar_xattr_t) (st : tar_state)
    : Z * tar_state :=
  match xs with
  | [] => (0, st)
  | x :: xs' =>
      if negb (sqfs_has_xattr T (key x)) then
        if Args.dont_skip opts then
          (-1, say_err st ("Cannot encode xattr key '" ++ key x
                           ++ "' in squashfs" ++ newline))
        else
          copy_xattr node xs'
            (say_err st ("WARNING: squashfs does not support xattr prefix of "
                         ++ key x ++ newline))
      else
        let '(r, f') := fstree_add_xattr T (fs st) node (key x) (value x) in
        if negb (r =? 0) then (-1, with_fs st f')
        else copy_xattr node xs' (with_fs st f')
  end.

Definition shown (n : option string) : string :=
  match n with Some s => s | None => "(null)" end.

(** [create_node_and_repack_data(hdr, fs, data)]. *)
Definition create_node_and_repack_data (hdr : tar_header_decoded_t)
    (st : tar_state) : Z * tar_state :=
  let sb' :=
    if negb (Args.keep_time opts) then
      mk_stat (st_mode (sb hdr)) (st_uid (sb hdr)) (st_gid (sb hdr))
        (st_size (sb hdr)) (fs_defaults_mtime T (fs st)) (st_rdev (sb hdr))
    else sb hdr in
  match fstree_add_generic T (fs st) (name hdr) sb' (link_target hdr) with
  | None => (-1, say_err st (shown (name hdr) ++ ": error" ++ newline))
  | Some (f', node) =>
      let st := with_fs st f' in
      let st :=
        if negb (Args.quiet opts)
        then say_out st ("Packing " ++ shown (name hdr) ++ newline)
        else st in
      let '(r, st) :=
        if negb (Args.no_xattr opts) then copy_xattr node (xattr hdr) st
        else (0, st) in
      if negb (r =? 0) then (-1, st)
      else if S_ISREG (st_mode sb') then
        let '(r, st) := write_file hdr (node_data_file T (fs st) node) st in
        if negb (r =? 0) then (-1, st) else (0, st)
      else (0, st)
  end.

(** The loop over the sparse map in [process_tar_ball], entered with
    [offset] and [count]: whether it was left by [break], and [count]
    at its end. *)
Fixpoint sparse_scan (m : list sparse_map_t) (off cnt : Z) : bool * Z :=
  match m with
  | [] => (false, cnt)
  | e :: m' =>
      if offset e <? off then (true, cnt)
      else sparse_scan m' (Int.u64 (offset e + count e)) (Int.u64 (cnt + count e))
  end.

(** The value of [skip] after the three tests of one pass of the loop,
    the header with its name canonicalised, and the diagnostics. *)
Definition check_record (hdr : tar_header_decoded_t)
    : bool * tar_header_decoded_t * list string :=
  let '(bad_name, nm) :=
    match name hdr with
    | None => (true, None)
    | Some n =>
        let '(r, n') := canonicalize_name T n in (negb (r =? 0), Some n')
    end in
  let hdr :=
    mk_hdr (sb hdr) nm (link_target hdr) (sparse hdr) (actual_size hdr)
      (record_size hdr) (unknown_record hdr) (xattr hdr) in
  if bad_name then
    (true, hdr, ["skipping '" ++ shown nm ++ "' (invalid name)" ++ newline])
  else if unknown_record hdr then
    (true, hdr, [shown nm ++ ": unknown entry type" ++ newline])
  else
    match sparse hdr with
    | [] => (false, hdr, [])
    | first :: _ =>
        let '(broke, cnt) := sparse_scan (sparse hdr) (offset first) 0 in
        let skip := broke in
        let skip := if negb (cnt =? record_size hdr) then true else skip in
        if skip then
          (true, hdr, [shown nm ++ ": broken sparse file layout)" ++ newline])
        else (false, hdr, [])
    end.

(** One pass of the [for (;;)] loop: the loop goes on, or the function
    returns. *)
Inductive pass_result :=
| Pass_next (st : tar_state)
| Pass_return (ret : Z) (st : tar_state).

Definition one_pass (st : tar_state) : pass_result :=
  let '(ret, hdr, s') := read_header T (stdin st) in
  let st := with_stdin st s' in
  if ret >? 0 then Pass_return 0 st
  else if ret <? 0 then Pass_return (-1) st
  else
    let '(skip, hdr, msgs) := check_record hdr in
    let st := fold_left say_err msgs st in
    if skip then
      if Args.dont_skip opts then Pass_return (-1) st
      else
        let '(r, s') := skip_entry (stdin st) (st_size (sb hdr)) in
        if negb (r =? 0) then Pass_return (-1) (with_stdin st s')
        else Pass_next (with_stdin st s')
    else
      let '(r, st) := create_node_and_repack_data hdr st in
      if negb (r =? 0) then Pass_return (-1) st
      else Pass_next st.

(** [process_tar_ball(fs, data)], at most [passes] passes of the loop;
    [None] when they do not reach the end of the archive. *)
Fixpoint process_tar_ball (passes : nat) (st : tar_state)
    : option (Z * tar_state) :=
  match passes with
  | O => None
  | S p =>
      match one_pass st with
      | Pass_next st' => process_tar_ball p st'
      | Pass_return ret st' => Some (ret, st')
      end
  end.

End TarBall.

(** The lines [create_node_and_repack_data] prints for nodes added under
    the given names. *)
Definition packing_lines (names : list (option string)) : list string :=
  map (fun n => "Packing " ++ shown n ++ newline) names.

(** The tar environment [T] with a tree that keeps, beside the tree of
    [T], the names under which [fstree_add_generic] has added a node, in
    the order of the calls. Every function is the one of [T] on the tree of
    [T]. *)
Definition logged {FS N D : Type} (T : tar_env FS N D)
    : tar_env (FS * list (option string)) N D :=
  mk_tar_env (FS * list (option string)) N D
    (read_header T)
    (canonicalize_name T)
    (fun f => fs_defaults_mtime T (fst f))
    (fun f n sb l =>
       match fstree_add_generic T (fst f) n sb l with
       | Some (f', node) => Some ((f', (snd f ++ [n])%list), node)
       | None => None
       end)
    (fun f node => node_data_file T (fst f) node)
    (sqfs_has_xattr T)
    (fun f node k v =>
       let '(r, f') := fstree_add_xattr T (fst f) node k v in (r, (f', snd f)))
    (write_data_from_file T)
    (write_data_from_file_condensed T).

(** A state of a run over [logged T] without the names. *)
Definition unlogged {FS D : Type}
    (st : tar_state (FS * list (option string)) D) : tar_state FS D :=
  mk_tar_state (stdin st) (fst (fs st)) (data st) (stderr st) (stdout st).

End Tar.

(* ===================================================================== *)
(** * The output file and the super block *)
(* ===================================================================== *)

Module Sink.
Local Open Scope list_scope.

(** The output file: its bytes, in order. *)
Definition sink := list Z.

Definition get_size (f : sink) : Z := Z.of_nat (List.length f).

Definition zeros (n : nat) : list Z := repeat 0 n.

(** [write_at(file, offset, data)]: the bytes at [offset] on are replaced,
    the file grows as far as [data] reaches; a gap between the old end and
    [offset] reads as zero. *)
Definition write_at (f : sink) (off : nat) (data : list Z) : sink :=
  firstn off (f ++ zeros (off - List.length f)%nat)
  ++ data ++ skipn (off + List.length data)%nat f.

(** [n] bytes of [v], least significant first. *)
Fixpoint le_bytes (n : nat) (v : Z) : list Z :=
  match n with
  | O => []
  | S n' => (v mod 256) :: le_bytes n' (v / 256)
  end.

(** The number [n] little-endian bytes stand for. *)
Fixpoint le_value (bs : list Z) : Z :=
  match bs with
  | [] => 0
  | b :: r => b + 256 * le_value r
  end.

(** [sqfs_super_t]. *)
Record sqfs_super_t := mk_super {
  magic : Z;
  inode_count : Z;
  modification_time : Z;
  block_size : Z;
  fragment_entry_count : Z;
  compression_id : Z;
  block_log : Z;
  flags : Z;
  id_count : Z;
  version_major : Z;
  version_minor : Z;
  root_inode_ref : Z;
  bytes_used : Z;
  id_table_start : Z;
  xattr_id_table_start : Z;
  inode_table_start : Z;
  directory_table_start : Z;
  fragment_table_start : Z;
  export_table_start : Z
}.

Definition set_flags (s : sqfs_super_t) (v : Z) : sqfs_super_t :=
  mk_super (magic s) (inode_count s) (modification_time s) (block_size s)
    (fragment_entry_count s) (compression_id s) (block_log s) v
    (id_count s) (version_major s) (version_minor s) (root_inode_ref s)
    (bytes_used s) (id_table_start s) (xattr_id_table_start s)
    (inode_table_start s) (directory_table_start s) (fragment_table_start s)
    (export_table_start s).
Definition set_inode_count (s : sqfs_super_t) (v : Z) : sqfs_super_t :=
  mk_super (magic s) v (modification_time s) (block_size s)
    (fragment_entry_count s) (compression_id s) (block_log s) (flags s)
    (id_count s) (version_major s) (version_minor s) (root_inode_ref s)
    (bytes_used s) (id_table_start s) (xattr_id_table_start s)
    (inode_table_start s) (directory_table_start s) (fragment_table_start s)
    (export_table_start s).
Definition set_id_count (s : sqfs_super_t) (v : Z) : sqfs_super_t :=
  mk_super (magic s) (inode_count s) (modification_time s) (block_size s)
    (fragment_entry_count s) (compression_id s) (block_log s) (flags s)
    v (version_major s) (version_minor s) (root_inode_ref s)
    (bytes_used s) (id_table_start s) (xattr_id_table_start s)
    (inode_table_start s) (directory_table_start s) (fragment_table_start s)
    (export_table_start s).
Definition set_root_inode_ref (s : sqfs_super_t) (v : Z) : sqfs_super_t :=
  mk_super (magic s) (inode_count s) (modification_time s) (block_size s)
    (fragment_entry_count s) (compression_id s) (block_log s) (flags s)
    (id_count s) (version_major s) (version_minor s) v
    (bytes_used s) (id_table_start s) (xattr_id_table_start s)
    (inode_table_start s) (directory_table_start s) (fragment_table_start s)
    (export_table_start s).
Definition set_bytes_used (s : sqfs_super_t) (v : Z) : sqfs_super_t :=
  mk_super (magic s) (inode_count s) (modification_time s) (block_size s)
    (fragment_entry_count s) (compression_id s) (block_log s) (flags s)
    (id_count s) (version_major s) (version_minor s) (root_inode_ref s)
    v (id_table_start s) (xattr_id_table_start s)
    (inode_table_start s) (directory_table_start s) (fragment_table_start s)
    (export_table_start s).
Definition set_id_table_start (s : sqfs_super_t) (v : Z) : sqfs_super_t :=
  mk_super (magic s) (inode_count s) (modification_time s) (block_size s)
    (fragment_entry_count s) (compression_id s) (block_log s) (flags s)
    (id_count s) (version_major s) (version_minor s) (root_inode_ref s)
    (bytes_used s) v (xattr_id_table_start s)
    (inode_table_start s) (directory_table_start s) (fragment_table_start s)
    (export_table_start s).
Definition set_inode_table_start (s : sqfs_super_t) (v : Z) : sqfs_super_t :=
  mk_super (magic s) (inode_count s) (modification_time s) (block_size s)
    (fragment_entry_count s) (compression_id s) (block_log s) (flags s)
    (id_count s) (version_major s) (version_minor s) (root_inode_ref s)
    (bytes_used s) (id_table_start s) (xattr_id_table_start s)
    v (directory_table_start s) (fragment_table_start s)
    (export_table_start s).
Definition set_directory_table_start (s : sqfs_super_t) (v : Z)
    : sqfs_super_t :=
  mk_super (magic s) (inode_count s) (modification_time s) (block_size s)
    (fragment_entry_count s) (compression_id s) (block_log s) (flags s)
    (id_count s) (version_major s) (version_minor s) (root_inode_ref s)
    (bytes_used s) (id_table_start s) (xattr_id_table_start s)
    (inode_table_start s) v (fragment_table_start s)
    (export_table_start s).

(** Modelled from the spec: the bytes of the super block, whose encoder
    is not among the sources. "Fixed 96-byte record at offset 0 holding
    magic, block size, compressor identifier, flags, inode count,
    modification time, fragment/inode/directory/id/xattr/export table
    start offsets, root inode reference, and total bytes used", little
    endian throughout, the fields in the order of the SquashFS 4.0
    format. *)
Definition super_bytes (s : sqfs_super_t) : list Z :=
  le_bytes 4 (magic s) ++ le_bytes 4 (inode_count s)
  ++ le_bytes 4 (modification_time s) ++ le_bytes 4 (block_size s)
  ++ le_bytes 4 (fragment_entry_count s) ++ le_bytes 2 (compression_id s)
  ++ le_bytes 2 (block_log s) ++ le_bytes 2 (flags s)
  ++ le_bytes 2 (id_count s) ++ le_bytes 2 (version_major s)
  ++ le_bytes 2 (version_minor s) ++ le_bytes 8 (root_inode_ref s)
  ++ le_bytes 8 (bytes_used s) ++ le_bytes 8 (id_table_start s)
  ++ le_bytes 8 (xattr_id_table_start s) ++ le_bytes 8 (inode_table_start s)
  ++ le_bytes 8 (directory_table_start s)
  ++ le_bytes 8 (fragment_table_start s) ++ le_bytes 8 (export_table_start s).

(** The [bytes_used] field of the super block an image starts with. *)
Definition stored_bytes_used (f : sink) : Z :=
  le_value (firstn 8 (skipn 40 f)).

(** Modelled from the spec: [sqfs_super_write(super, file)], which is not
    among the sources. "Rewrite the superblock at offset 0." *)
Definition sqfs_super_write (s : sqfs_super_t) (f : sink) : Z * sink :=
  (0, write_at f 0 (super_bytes s)).

(** Modelled from the spec: [padd_sqfs(file, size, blocksize)], which is
    not among the sources. "Pad to a multiple of [devblksize] with zero
    bytes": for a file of [size] bytes, the zero bytes that lead to the
    next multiple of [blocksize] are written at its end. *)
Definition padd_sqfs (f : sink) (size : Z) (blocksize : Z) : Z * sink :=
  let padd_sz := size mod blocksize in
  if padd_sz =? 0 then (0, f)
  else
    (0, write_at f (List.length f) (zeros (Z.to_nat (blocksize - padd_sz)))).

End Sink.

(* ===================================================================== *)
(** * The identifier table and lib/sqfs/id_table_write.c *)
(* ===================================================================== *)

Module IdTable.
Import Sink.
Local Open Scope list_scope.

(** [id_table_t]: the array [ids]; [num_ids] is its length. *)
Record id_table_t := mk_id_table {
  ids : list Z
}.

Definition num_ids (tbl : id_table_t) : Z := Z.of_nat (List.length (ids tbl)).

Definition id_table_create : id_table_t := mk_id_table [].

Fixpoint find_index (l : list Z) (id : Z) (i : Z) : option Z :=
  match l with
  | [] => None
  | x :: r => if x =? id then Some i else find_index r id (i + 1)
  end.

(** Modelled from the spec: [id_to_index(id) -> index], which is not among
    the sources. "Linear lookup; on miss, append and return new index."
    The identifier is a 32 bit value. The result is the return value, the
    index and the table. *)
Definition id_to_index (tbl : id_table_t) (id : Z) : Z * Z * id_table_t :=
  let id := Int.u32 id in
  match find_index (ids tbl) id 0 with
  | Some i => (0, i, tbl)
  | None => (0, num_ids tbl, mk_id_table (ids tbl ++ [id]))
  end.

(** The table after the identifiers of [l] were looked up in order. *)
Definition insert_all (tbl : id_table_t) (l : list Z) : id_table_t :=
  fold_left (fun t id => snd (id_to_index t id)) l tbl.

(** The distinct elements of a list, each at its first occurrence. *)
Fixpoint distinct (seen : list Z) (l : list Z) : list Z :=
  match l with
  | [] => []
  | x :: r =>
      if existsb (Z.eqb x) seen then distinct seen r
      else x :: distinct (seen ++ [x]) r
  end.

(** A 32 bit value with its bytes in reverse order. *)
Definition bswap32 (v : Z) : Z := le_value (rev (le_bytes 4 v)).

(** [htole32] and [le32toh] on a host of the given byte order. *)
Definition htole32 (big_endian : bool) (v : Z) : Z :=
  if big_endian then bswap32 v else v.
Definition le32toh (big_endian : bool) (v : Z) : Z :=
  if big_endian then bswap32 v else v.

(** The bytes a [uint32_t] occupies in the host's memory. *)
Definition host_bytes32 (big_endian : bool) (v : Z) : list Z :=
  if big_endian then rev (le_bytes 4 v) else le_bytes 4 v.

(** [sqfs_write_table(outfd, super, data, entsize, count, startblock,
    cmp)], which is not among the sources: it is given the file and
    compressor [W], the super block, the bytes at [data], the entry size
    and count, and [startblock] as the means to store through it. *)
Definition write_table_fn (W : Type) : Type :=
  W -> sqfs_super_t -> list Z -> Z -> Z ->
  (sqfs_super_t -> Z -> sqfs_super_t) -> Z * W * sqfs_super_t.

(** [id_table_write(tbl, outfd, super, cmp)]. [super->id_count] is a 16
    bit unsigned field, the one [super_bytes] stores in two bytes, so the
    assignment of [tbl->num_ids], a [size_t], keeps its low 16 bits. *)
Definition id_table_write {W : Type} (big_endian : bool)
    (sqfs_write_table : write_table_fn W)
    (tbl : id_table_t) (w : W) (super : sqfs_super_t)
    : Z * id_table_t * W * sqfs_super_t :=
  let tbl := mk_id_table (map (htole32 big_endian) (ids tbl)) in
  let super := set_id_count super (Int.u16 (num_ids tbl)) in
  let '(ret, w, super) :=
    sqfs_write_table w super (flat_map (host_bytes32 big_endian) (ids tbl))
      4 (num_ids tbl) set_id_table_start in
  let tbl := mk_id_table (map (le32toh big_endian) (ids tbl)) in
  (ret, tbl, w, super).

(** The [n] 32 bit values that the first [4 * n] of the bytes [data]
    stand for, each with its least significant byte first. *)
Fixpoint le32_values (n : nat) (data : list Z) : list Z :=
  match n with
  | O => []
  | S n' => le_value (firstn 4 data) :: le32_values n' (skipn 4 data)
  end.

End IdTable.

(* ===================================================================== *)
(** * lib/common/serialize_fstree.c *)
(* ===================================================================== *)

Module Serialize.
Import Sink.
Local Open Scope list_scope.

Definition S_IFMT : Z := 61440.     (* 0170000 *)
Definition S_IFSOCK : Z := 49152.   (* 0140000 *)
Definition S_IFLNK : Z := 40960.    (* 0120000 *)
Definition S_IFREG : Z := 32768.    (* 0100000 *)
Definition S_IFBLK : Z := 24576.    (* 0060000 *)
Definition S_IFDIR : Z := 16384.    (* 0040000 *)
Definition S_IFCHR : Z := 8192.     (* 0020000 *)
Definition S_IFIFO : Z := 4096.     (* 0010000 *)

Definition S_ISDIR (m : Z) : bool := Z.land m S_IFMT =? S_IFDIR.
Definition S_ISREG (m : Z) : bool := Z.land m S_IFMT =? S_IFREG.
Definition S_ISLNK (m : Z) : bool := Z.land m S_IFMT =? S_IFLNK.

(** The error codes of libsquashfs the serialiser returns by name. *)
Definition SQFS_ERROR_ALLOC : Z := -1.
Definition SQFS_ERROR_INTERNAL : Z := -4.

Inductive inode_type :=
| SQFS_INODE_NONE
| SQFS_INODE_DIR | SQFS_INODE_FILE | SQFS_INODE_SLINK
| SQFS_INODE_BDEV | SQFS_INODE_CDEV | SQFS_INODE_FIFO | SQFS_INODE_SOCKET
| SQFS_INODE_EXT_DIR | SQFS_INODE_EXT_FILE | SQFS_INODE_EXT_SLINK
| SQFS_INODE_EXT_BDEV | SQFS_INODE_EXT_CDEV | SQFS_INODE_EXT_FIFO
| SQFS_INODE_EXT_SOCKET.

(** [sqfs_inode_t], the part every inode starts with. *)
Record sqfs_inode_t := mk_base {
  type : inode_type;
  imode : Z;
  uid_idx : Z;
  gid_idx : Z;
  imod_time : Z;
  inode_number : Z
}.

(** The union [data] of an inode; [fields] stands for the members this
    file never touches. *)
Inductive inode_data :=
| data_zero
| data_ipc (nlink : Z)
| data_slink (nlink target_size : Z)
| data_dev (nlink devno : Z)
| data_dir (nlink : Z) (fields : list Z)
| data_dir_ext (nlink : Z) (fields : list Z)
| data_file (fields : list Z).

(** [sqfs_inode_generic_t]. *)
Record sqfs_inode_generic_t := mk_inode {
  base : sqfs_inode_t;
  data : inode_data;
  extra : string
}.

(** The union [data] of a tree node over nodes of type [T]. *)
Inductive node_data (T : Type) :=
| D_dir (children : list T)
| D_file (user_ptr : option sqfs_inode_generic_t)
| D_target (target : string)
| D_devno (devno : Z)
| D_none.

Arguments D_dir {T}.
Arguments D_file {T}.
Arguments D_target {T}.
Arguments D_devno {T}.
Arguments D_none {T}.

(** [tree_node_t]. The [next] pointers make the child list, the [parent]
    pointer is the node the list hangs on. *)
#[warnings="-register-all"]
Inductive tree_node := mk_node {
  name : string;
  mode : Z;
  uid : Z;
  gid : Z;
  mod_time : Z;
  link_count : Z;
  xattr_idx : Z;
  inode_num : Z;
  inode_ref : Z;
  ndata : node_data tree_node
}.

(** [n->data.dir.children] *)
Definition dir_children (n : tree_node) : list tree_node :=
  match ndata n with D_dir c => c | _ => [] end.

Definition set_children (n : tree_node) (c : list tree_node) : tree_node :=
  mk_node (name n) (mode n) (uid n) (gid n) (mod_time n) (link_count n)
    (xattr_idx n) (inode_num n) (inode_ref n)
    (match ndata n with D_dir _ => D_dir c | d => d end).

Definition set_inode_ref (n : tree_node) (r : Z) : tree_node :=
  mk_node (name n) (mode n) (uid n) (gid n) (mod_time n) (link_count n)
    (xattr_idx n) (inode_num n) r (ndata n).

Definition set_inode_num (n : tree_node) (i : Z) : tree_node :=
  mk_node (name n) (mode n) (uid n) (gid n) (mod_time n) (link_count n)
    (xattr_idx n) i (inode_ref n) (ndata n).

(** [n->data.file.user_ptr = NULL] *)
Definition clear_user_ptr (n : tree_node) : tree_node :=
  mk_node (name n) (mode n) (uid n) (gid n) (mod_time n) (link_count n)
    (xattr_idx n) (inode_num n) (inode_ref n)
    (match ndata n with D_file _ => D_file None | d => d end).

(** The children the serialiser sees: those of a node whose mode says
    directory. *)
Definition children_of (n : tree_node) : list tree_node :=
  if S_ISDIR (mode n) then dir_children n else [].

(** All nodes of a tree, the root first. *)
Fixpoint nodes_of (n : tree_node) : list tree_node :=
  n :: (if S_ISDIR (mode n) then
          match ndata n with
          | D_dir c => flat_map nodes_of c
          | _ => []
          end
        else []).

(** The nodes below a node. *)
Definition below (n : tree_node) : list tree_node :=
  match ndata n with D_dir c => flat_map nodes_of c | _ => [] end.

(** A node without what the serialiser stores in the tree: the inode
    references and the inodes of the files. *)
Fixpoint strip (n : tree_node) : tree_node :=
  mk_node (name n) (mode n) (uid n) (gid n) (mod_time n) (link_count n)
    (xattr_idx n) (inode_num n) 0
    (match ndata n with
     | D_dir c => D_dir (map strip c)
     | D_file _ => D_file None
     | d => d
     end).

(** Induction on trees: a property holds for a node when it holds for
    the members of its child list. *)
Fixpoint tree_induction (P : tree_node -> Prop)
    (step : forall n, Forall P (dir_children n) -> P n) (n : tree_node)
    : P n :=
  step n
    (match n as n0 return Forall P (dir_children n0) with
     | mk_node _ _ _ _ _ _ _ _ _ d =>
         match d as d0
           return Forall P (match d0 with D_dir c => c | _ => [] end) with
         | D_dir c =>
             (fix all (l : list tree_node) : Forall P l :=
                match l with
                | [] => Forall_nil P
                | x :: r => Forall_cons x (tree_induction P step x) (all r)
                end) c
         | _ => Forall_nil P
         end
     end).

(** [x] stands before [y] in [l]. *)
Definition before {A : Type} (x y : A) (l : list A) : Prop :=
  exists l1 l2 l3, l = l1 ++ x :: l2 ++ y :: l3.

Inductive meta_writer_id := IM | DM.

(** The calls the serialiser makes into the writer's components, with
    the arguments or results that matter. *)
Inductive event :=
| Ev_get_size (sz : Z)
| Ev_dir_begin
| Ev_dir_add_entry (nm : string) (inum iref md : Z)
| Ev_dir_end
| Ev_dir_create_inode (xattr parent : Z)
| Ev_id_to_index (id : Z)
| Ev_get_position (block offset : Z)
| Ev_write_inode (inode : sqfs_inode_generic_t)
| Ev_flush (m : meta_writer_id)
| Ev_write_to_file (m : meta_writer_id)
| Ev_perror (ret : Z)
| Ev_libc_perror (msg : string).

(** The components behind [sqfs_writer_t] whose code is not among the
    sources: the output file, the two meta data writers and the directory
    writer as one state [W], the identifier table as [IDT]. The state [W]
    also says whether [calloc] has memory for an inode with [extra] bytes
    behind it. *)
Record writer_ops (W IDT : Type) := mk_writer_ops {
  outfile_get_size : W -> Z;
  sqfs_dir_writer_begin : W -> Z * W;
  sqfs_dir_writer_add_entry : W -> string -> Z -> Z -> Z -> Z * W;
  sqfs_dir_writer_end : W -> Z * W;
  sqfs_dir_writer_create_inode :
    W -> Z -> Z -> Z -> option sqfs_inode_generic_t;
  sqfs_inode_set_xattr_index :
    inode_type -> inode_data -> Z -> inode_type * inode_data;
  sqfs_id_table_id_to_index : IDT -> Z -> Z * Z * IDT;
  sqfs_meta_writer_get_position : W -> meta_writer_id -> Z * Z;
  sqfs_meta_writer_write_inode :
    W -> meta_writer_id -> sqfs_inode_generic_t -> Z * W;
  sqfs_meta_writer_flush : W -> meta_writer_id -> Z * W;
  sqfs_meta_write_write_to_file : W -> meta_writer_id -> Z * W;
  calloc : W -> nat -> bool
}.

Arguments outfile_get_size {W IDT}.
Arguments sqfs_dir_writer_begin {W IDT}.
Arguments sqfs_dir_writer_add_entry {W IDT}.
Arguments sqfs_dir_writer_end {W IDT}.
Arguments sqfs_dir_writer_create_inode {W IDT}.
Arguments sqfs_inode_set_xattr_index {W IDT}.
Arguments sqfs_id_table_id_to_index {W IDT}.
Arguments sqfs_meta_writer_get_position {W IDT}.
Arguments sqfs_meta_writer_write_inode {W IDT}.
Arguments sqfs_meta_writer_flush {W IDT}.
Arguments sqfs_meta_write_write_to_file {W IDT}.
Arguments calloc {W IDT}.

(** [sqfs_writer_t] without the tree, which is passed beside it. *)
Record sqfs_writer_t (W IDT : Type) := mk_writer {
  world : W;
  idtbl : IDT;
  super : sqfs_super_t;
  trace : list event
}.

Arguments mk_writer {W IDT}.
Arguments world {W IDT}.
Arguments idtbl {W IDT}.
Arguments super {W IDT}.
Arguments trace {W IDT}.

(** The inode reference of a position: [(block << 16) | offset] as a 64
    bit unsigned value. *)
Definition inode_ref_of (block offset : Z) : Z :=
  Z.lor (Int.u64 (Z.shiftl (Int.u64 block) 16)) (Int.u32 offset).

(** A function either returns or the program is aborted by a failed
    [assert]. *)
Inductive res (A : Type) :=
| Ret (a : A)
| Aborted.

Arguments Ret {A}.
Arguments Aborted {A}.

(** The inodes written, in the order of a trace. *)
Fixpoint written (tr : list event) : list sqfs_inode_generic_t :=
  match tr with
  | [] => []
  | Ev_write_inode i :: r => i :: written r
  | _ :: r => written r
  end.

(** The identifiers looked up, in the order of a trace. *)
Fixpoint looked_up (tr : list event) : list Z :=
  match tr with
  | [] => []
  | Ev_id_to_index id :: r => id :: looked_up r
  | _ :: r => looked_up r
  end.

(** The positions of the inode writer read, in the order of a trace. *)
Fixpoint positions (tr : list event) : list (Z * Z) :=
  match tr with
  | [] => []
  | Ev_get_position block offset :: r => (block, offset) :: positions r
  | _ :: r => positions r
  end.

(** The events of the emission of inodes: every event but the reading of
    the file size, the flushes, the writing of a buffer to the file and
    the report of an error. *)
Definition inner (e : event) : bool :=
  match e with
  | Ev_get_size _ | Ev_flush _ | Ev_write_to_file _ | Ev_perror _
  | Ev_libc_perror _ => false
  | _ => true
  end.

(** The numbers of the inodes written. *)
Definition numbers (tr : list event) : list Z :=
  map (fun i => inode_number (base i)) (written tr).

Section Serialiser.
Context {W IDT : Type}.
Variable E : writer_ops W IDT.

Local Abbreviation writer := (sqfs_writer_t W IDT).

Definition log (wr : writer) (w : W) (e : event) : writer :=
  mk_writer w (idtbl wr) (super wr) (trace wr ++ [e]).

Definition with_super (wr : writer) (s : sqfs_super_t) : writer :=
  mk_writer (world wr) (idtbl wr) s (trace wr).

(** [node->data.target] and [node->data.devno] *)
Definition target_of (n : tree_node) : string :=
  match ndata n with D_target t => t | _ => EmptyString end.
Definition devno_of (n : tree_node) : Z :=
  match ndata n with D_devno d => d | _ => 0 end.
Definition user_ptr_of (n : tree_node) : option sqfs_inode_generic_t :=
  match ndata n with D_file p => p | _ => None end.

(** The first [n] characters of a string, as [memcpy] copies them. *)
Fixpoint take (n : nat) (s : string) : string :=
  match n, s with
  | S n', String c r => String c (take n' r)
  | _, _ => EmptyString
  end.

Definition zero_base (t : inode_type) : sqfs_inode_t :=
  mk_base t 0 0 0 0 0.

(** [tree_node_to_inode(node)]: without memory from [calloc] the
    function reports and returns [NULL]; the [default] case is the failed
    [assert(0)]. *)
Definition tree_node_to_inode (node : tree_node) (wr : writer)
    : res (option sqfs_inode_generic_t * writer) :=
  let extra :=
    if S_ISLNK (mode node) then CStr.strlen (target_of node) else O in
  if negb (calloc E (world wr) extra) then
    Ret (None, log wr (world wr) (Ev_libc_perror "creating inode"))
  else
  let t := Z.land (mode node) S_IFMT in
  if t =? S_IFSOCK then
    Ret (Some (mk_inode (zero_base SQFS_INODE_SOCKET)
                 (data_ipc (link_count node)) EmptyString), wr)
  else if t =? S_IFIFO then
    Ret (Some (mk_inode (zero_base SQFS_INODE_FIFO)
                 (data_ipc (link_count node)) EmptyString), wr)
  else if t =? S_IFLNK then
    Ret (Some (mk_inode (zero_base SQFS_INODE_SLINK)
                 (data_slink (link_count node) (Z.of_nat extra))
                 (take extra (target_of node))), wr)
  else if t =? S_IFBLK then
    Ret (Some (mk_inode (zero_base SQFS_INODE_BDEV)
                 (data_dev (link_count node) (devno_of node)) EmptyString), wr)
  else if t =? S_IFCHR then
    Ret (Some (mk_inode (zero_base SQFS_INODE_CDEV)
                 (data_dev (link_count node) (devno_of node)) EmptyString), wr)
  else Aborted.

(** The loop of [write_dir_entries] over the child list. *)
Fixpoint add_entries (l : list tree_node) (wr : writer) : Z * writer :=
  match l with
  | [] => (0, wr)
  | it :: rest =>
      let '(ret, w) :=
        sqfs_dir_writer_add_entry E (world wr) (name it) (inode_num it)
          (inode_ref it) (mode it) in
      let wr :=
        log wr w (Ev_dir_add_entry (name it) (inode_num it) (inode_ref it)
                    (mode it)) in
      if negb (ret =? 0) then (ret, wr) else add_entries rest wr
  end.

(** [inode->data.dir.nlink = n] and [inode->data.dir_ext.nlink = n] *)
Definition set_dir_nlink (i : sqfs_inode_generic_t) (n : Z)
    : sqfs_inode_generic_t :=
  mk_inode (base i)
    (match data i with data_dir _ f => data_dir n f | d => d end) (extra i).
Definition set_dir_ext_nlink (i : sqfs_inode_generic_t) (n : Z)
    : sqfs_inode_generic_t :=
  mk_inode (base i)
    (match data i with data_dir_ext _ f => data_dir_ext n f | d => d end)
    (extra i).

Definition is_dir_type (t : inode_type) : bool :=
  match t with SQFS_INODE_DIR => true | _ => false end.

(** [write_dir_entries(filename, dirw, node)], with the inode number of
    [node->parent] when there is a parent. *)
Definition write_dir_entries (parent : option Z) (node : tree_node)
    (wr : writer) : option sqfs_inode_generic_t * writer :=
  let fail (ret : Z) (wr : writer) :=
    (@None sqfs_inode_generic_t, log wr (world wr) (Ev_perror ret)) in
  let '(ret, w) := sqfs_dir_writer_begin E (world wr) in
  let wr := log wr w Ev_dir_begin in
  if negb (ret =? 0) then fail ret wr
  else
    let '(ret, wr) := add_entries (dir_children node) wr in
    if negb (ret =? 0) then fail ret wr
    else
      let '(ret, w) := sqfs_dir_writer_end E (world wr) in
      let wr := log wr w Ev_dir_end in
      if negb (ret =? 0) then fail ret wr
      else
        let xattr := xattr_idx node in
        let parent_inode := match parent with None => 0 | Some p => p end in
        let wr' := log wr (world wr) (Ev_dir_create_inode xattr parent_inode) in
        match sqfs_dir_writer_create_inode E (world wr) 0 xattr parent_inode
        with
        | None => fail SQFS_ERROR_ALLOC wr'
        | Some inode =>
            if is_dir_type (type (base inode))
            then (Some (set_dir_nlink inode (link_count node)), wr')
            else (Some (set_dir_ext_nlink inode (link_count node)), wr')
        end.

Definition id_to_index (id : Z) (wr : writer) : Z * Z * writer :=
  let '(ret, idx, t) := sqfs_id_table_id_to_index E (idtbl wr) id in
  (ret, idx,
   mk_writer (world wr) t (super wr) (trace wr ++ [Ev_id_to_index id])).

(** [serialize_tree_node] from the assignments to [inode->base] on, for
    the inode the first part has found. *)
Definition finish_inode (inode : sqfs_inode_generic_t) (n : tree_node)
    (wr : writer) : res (Z * tree_node * writer) :=
  let '(ty, d) :=
    sqfs_inode_set_xattr_index E (type (base inode)) (data inode)
      (xattr_idx n) in
  let '(ret, uidx, wr) := id_to_index (uid n) wr in
  if negb (ret =? 0) then Ret (ret, n, wr)
  else
    let '(ret, gidx, wr) := id_to_index (gid n) wr in
    if negb (ret =? 0) then Ret (ret, n, wr)
    else
      let inode :=
        mk_inode
          (mk_base ty (mode n) (Int.u16 uidx) (Int.u16 gidx) (mod_time n)
             (inode_num n))
          d (extra inode) in
      let '(block, offset) :=
        sqfs_meta_writer_get_position E (world wr) IM in
      let wr := log wr (world wr) (Ev_get_position block offset) in
      let n := set_inode_ref n (inode_ref_of block offset) in
      let '(ret, w) := sqfs_meta_writer_write_inode E (world wr) IM inode in
      Ret (ret, n, log wr w (Ev_write_inode inode)).

(** [serialize_tree_node(filename, wr, n)]: the return value, the node
    as the call leaves it, and the writer. *)
Definition serialize_tree_node (parent : option Z) (n : tree_node)
    (wr : writer) : res (Z * tree_node * writer) :=
  let first : res (option sqfs_inode_generic_t * Z * tree_node * writer) :=
    if S_ISDIR (mode n) then
      let '(i, wr) := write_dir_entries parent n wr in
      Ret (i, SQFS_ERROR_INTERNAL, n, wr)
    else if S_ISREG (mode n) then
      Ret (user_ptr_of n, SQFS_ERROR_INTERNAL, clear_user_ptr n, wr)
    else
      match tree_node_to_inode n wr with
      | Aborted => Aborted
      | Ret (i, wr) => Ret (i, SQFS_ERROR_ALLOC, n, wr)
      end in
  match first with
  | Aborted => Aborted
  | Ret (None, ret, n, wr) => Ret (ret, n, wr)
  | Ret (Some inode, _, n, wr) => finish_inode inode n wr
  end.

(** The third loop of [serialize_recursive]: every child in list order. *)
Fixpoint serialize_children (parent : option Z) (l : list tree_node)
    (wr : writer) : res (Z * list tree_node * writer) :=
  match l with
  | [] => Ret (0, [], wr)
  | it :: rest =>
      match serialize_tree_node parent it wr with
      | Aborted => Aborted
      | Ret (ret, it', wr) =>
          if negb (ret =? 0) then Ret (ret, it' :: rest, wr)
          else
            match serialize_children parent rest wr with
            | Aborted => Aborted
            | Ret (ret, rest', wr) => Ret (ret, it' :: rest', wr)
            end
      end
  end.

(** The second loop of [serialize_recursive]: [serialize_recursive],
    here [rec], on every child that is a directory, in list order. *)
Fixpoint visit_subdirs (rec : tree_node -> writer -> res (Z * tree_node * writer))
    (l : list tree_node) (wr : writer) : res (Z * list tree_node * writer) :=
  match l with
  | [] => Ret (0, [], wr)
  | it :: rest =>
      if S_ISDIR (mode it) then
        match rec it wr with
        | Aborted => Aborted
        | Ret (ret, it', wr) =>
            if negb (ret =? 0) then Ret (ret, it' :: rest, wr)
            else
              match visit_subdirs rec rest wr with
              | Aborted => Aborted
              | Ret (ret, rest', wr) => Ret (ret, it' :: rest', wr)
              end
        end
      else
        match visit_subdirs rec rest wr with
        | Aborted => Aborted
        | Ret (ret, rest', wr) => Ret (ret, it :: rest', wr)
        end
  end.

(** [serialize_recursive(filename, wr, root)]. *)
Fixpoint serialize_recursive (root : tree_node) (wr : writer)
    : res (Z * tree_node * writer) :=
  let second : res (Z * list tree_node * writer) :=
    match ndata root with
    | D_dir c =>
        let has_subdirs := existsb (fun it => S_ISDIR (mode it)) c in
        if has_subdirs then visit_subdirs serialize_recursive c wr
        else Ret (0, c, wr)
    | _ => Ret (0, [], wr)
    end in
  match second with
  | Aborted => Aborted
  | Ret (ret, kids, wr) =>
      if negb (ret =? 0) then Ret (ret, set_children root kids, wr)
      else
        match serialize_children (Some (inode_num root)) kids wr with
        | Aborted => Aborted
        | Ret (ret, kids, wr) => Ret (ret, set_children root kids, wr)
        end
  end.

(** [sqfs_serialize_fstree(filename, wr)] with [wr->fs.root] as [root]. *)
Definition sqfs_serialize_fstree (root : tree_node) (wr : writer)
    : res (Z * tree_node * writer) :=
  let out (ret : Z) (root : tree_node) (wr : writer) :=
    if negb (ret =? 0)
    then Ret (ret, root, log wr (world wr) (Ev_perror ret))
    else Ret (ret, root, wr) in
  let sz := outfile_get_size E (world wr) in
  let wr := log (with_super wr (set_inode_table_start (super wr) sz))
              (world wr) (Ev_get_size sz) in
  let rec : res (Z * tree_node * writer) :=
    if S_ISDIR (mode root) then serialize_recursive root wr
    else Ret (0, root, wr) in
  match rec with
  | Aborted => Aborted
  | Ret (ret, root, wr) =>
      if negb (ret =? 0) then out ret root wr
      else
        match serialize_tree_node None root wr with
        | Aborted => Aborted
        | Ret (ret, root, wr) =>
            if negb (ret =? 0) then out ret root wr
            else
              let '(ret, w) := sqfs_meta_writer_flush E (world wr) IM in
              let wr := log wr w (Ev_flush IM) in
              if negb (ret =? 0) then out ret root wr
              else
                let '(ret, w) := sqfs_meta_writer_flush E (world wr) DM in
                let wr := log wr w (Ev_flush DM) in
                if negb (ret =? 0) then out ret root wr
                else
                  let wr :=
                    with_super wr
                      (set_root_inode_ref (super wr) (inode_ref root)) in
                  let sz := outfile_get_size E (world wr) in
                  let wr :=
                    log (with_super wr
                           (set_directory_table_start (super wr) sz))
                      (world wr) (Ev_get_size sz) in
                  let '(ret, w) :=
                    sqfs_meta_write_write_to_file E (world wr) DM in
                  let wr := log wr w (Ev_write_to_file DM) in
                  out ret root wr
        end
  end.

(** The identifier table after the identifiers [l] were looked up in
    it, in order. *)
Definition lookups (l : list Z) (t : IDT) : IDT :=
  fold_left (fun t id => snd (sqfs_id_table_id_to_index E t id)) l t.

(** The state in which the call [e], made in the state [w], leaves the
    components. *)
Definition after (w : W) (e : event) : W :=
  match e with
  | Ev_dir_begin => snd (sqfs_dir_writer_begin E w)
  | Ev_dir_add_entry nm inum iref md =>
      snd (sqfs_dir_writer_add_entry E w nm inum iref md)
  | Ev_dir_end => snd (sqfs_dir_writer_end E w)
  | Ev_write_inode i => snd (sqfs_meta_writer_write_inode E w IM i)
  | Ev_flush m => snd (sqfs_meta_writer_flush E w m)
  | Ev_write_to_file m => snd (sqfs_meta_write_write_to_file E w m)
  | _ => w
  end.

(** The state after the calls [evs], made one after the other from the
    state [w] on. *)
Definition replay (evs : list event) (w : W) : W := fold_left after evs w.

(** What the call [e] returns in the state [w]. For the making of a
    directory inode, which returns a pointer, [SQFS_ERROR_ALLOC] stands
    for [NULL]; a call that returns no status counts as 0. *)
Definition status (w : W) (e : event) : Z :=
  match e with
  | Ev_dir_begin => fst (sqfs_dir_writer_begin E w)
  | Ev_dir_add_entry nm inum iref md =>
      fst (sqfs_dir_writer_add_entry E w nm inum iref md)
  | Ev_dir_end => fst (sqfs_dir_writer_end E w)
  | Ev_dir_create_inode xattr parent =>
      match sqfs_dir_writer_create_inode E w 0 xattr parent with
      | Some _ => 0
      | None => SQFS_ERROR_ALLOC
      end
  | Ev_write_inode i => fst (sqfs_meta_writer_write_inode E w IM i)
  | Ev_flush m => fst (sqfs_meta_writer_flush E w m)
  | Ev_write_to_file m => fst (sqfs_meta_write_write_to_file E w m)
  | _ => 0
  end.

(** Every one of the calls [evs], made one after the other from the
    state [w] on, returns 0. *)
Fixpoint succeeded (evs : list event) (w : W) : Prop :=
  match evs with
  | [] => True
  | e :: r => status w e = 0 /\ succeeded r (after w e)
  end.

(** From [wr] to [wr'] the calls [evs] were made, all of them part of
    the emission of inodes, the super block was left alone, the
    identifier table is what the look-ups among the calls made of it, and
    the components are in the state in which the calls leave them. *)
Definition Run (wr wr' : writer) (evs : list event) : Prop :=
  trace wr' = trace wr ++ evs
  /\ super wr' = super wr
  /\ forallb inner evs = true
  /\ idtbl wr' = lookups (looked_up evs) (idtbl wr)
  /\ world wr' = replay evs (world wr).

(** The inode of [n] was written at the place its reference names. The
    calls [tr], made from the state [w0] on, hold the reading of the inode
    writer's position, in the state the calls before it have led to,
    followed at once by the writing, in the same state, of an inode with
    the number of [n]; the writing returns 0; and the reference of [n] is
    [(block << 16) | offset] of the position read, [block] a 64 bit and
    [offset] a 32 bit unsigned number. *)
Definition Emitted (w0 : W) (tr : list event) (n : tree_node) : Prop :=
  exists pre post ino,
    let w := replay pre w0 in
    let block := fst (sqfs_meta_writer_get_position E w IM) in
    let offset := snd (sqfs_meta_writer_get_position E w IM) in
    tr = pre ++ Ev_get_position block offset :: Ev_write_inode ino :: post
    /\ fst (sqfs_meta_writer_write_inode E w IM ino) = 0
    /\ inode_number (base ino) = inode_num n
    /\ inode_ref n
       = Z.lor (Z.shiftl (block mod 2 ^ 64) 16 mod 2 ^ 64) (offset mod 2 ^ 32).

(** From [wr] to [wr'] calls were added to the trace, and the super
    block was left alone. *)
Definition Grown (wr wr' : writer) : Prop :=
  (exists evs, trace wr' = trace wr ++ evs) /\ super wr' = super wr.

End Serialiser.

(** Whether the type bits of a mode name one of the seven file types. *)
Definition known_type (m : Z) : bool :=
  let t := Z.land m S_IFMT in
  (t =? S_IFDIR) || (t =? S_IFREG) || (t =? S_IFSOCK) || (t =? S_IFIFO)
  || (t =? S_IFLNK) || (t =? S_IFBLK) || (t =? S_IFCHR).

(** A writer none of whose components fails, in a process in which
    [calloc] has memory. *)
Definition Cooperative {W IDT : Type} (E : writer_ops W IDT) : Prop :=
  (forall w, fst (sqfs_dir_writer_begin E w) = 0)
  /\ (forall w nm inum iref md,
        fst (sqfs_dir_writer_add_entry E w nm inum iref md) = 0)
  /\ (forall w, fst (sqfs_dir_writer_end E w) = 0)
  /\ (forall w f x p, sqfs_dir_writer_create_inode E w f x p <> None)
  /\ (forall t id, fst (fst (sqfs_id_table_id_to_index E t id)) = 0)
  /\ (forall w m i, fst (sqfs_meta_writer_write_inode E w m i) = 0)
  /\ (forall w m, fst (sqfs_meta_writer_flush E w m) = 0)
  /\ (forall w m, fst (sqfs_meta_write_write_to_file E w m) = 0)
  /\ (forall w n, calloc E w n = true).

(** A node the serialiser can make an inode for: its mode names one of
    the seven file types, and a regular file holds the inode the data
    writer has made for it. *)
Definition Ready (n : tree_node) : Prop :=
  known_type (mode n) = true
  /\ (S_ISREG (mode n) = true -> user_ptr_of n <> None).

(** [Q] holds of every node below [n], each with the inode number of
    the directory it hangs on. *)
Definition AllBelow (Q : option Z -> tree_node -> Prop) (n : tree_node)
    : Prop :=
  forall p c, In p (nodes_of n) -> In c (children_of p) ->
              Q (Some (inode_num p)) c.

(** The call that adds the entry of the child [c] to a directory. *)
Definition entry_of (c : tree_node) : event :=
  Ev_dir_add_entry (name c) (inode_num c) (inode_ref c) (mode c).

(** The calls [write_dir_entries] makes for the directory [n], hanging
    on the directory with the inode number [parent], when none of them
    fails. *)
Definition listing (parent : option Z) (n : tree_node) : list event :=
  Ev_dir_begin :: map entry_of (dir_children n)
  ++ [Ev_dir_end;
      Ev_dir_create_inode (xattr_idx n)
        (match parent with Some p => p | None => 0 end)].

(** The calls that list the directory [n], hanging on the directory with
    the inode number [parent], stand in the trace one behind the other:
    the opening, an entry for every child in list order, the closing, and
    the making of the inode. *)
Definition Listed (tr : list event) (parent : option Z) (n : tree_node)
    : Prop :=
  S_ISDIR (mode n) = true ->
  exists pre post,
    tr = pre
         ++ Ev_dir_begin :: map entry_of (dir_children n)
         ++ [Ev_dir_end;
             Ev_dir_create_inode (xattr_idx n)
               (match parent with Some p => p | None => 0 end)]
         ++ post.

(** The trace writes an inode with the number, the mode and the
    modification time of [n], and, when [n] is a symbolic link, with the
    target of [n] behind it, as far as its first NUL. *)
Definition Headed (tr : list event) (n : tree_node) : Prop :=
  exists ino,
    In (Ev_write_inode ino) tr
    /\ inode_number (base ino) = inode_num n
    /\ imode (base ino) = mode n
    /\ imod_time (base ino) = mod_time n
    /\ (S_ISLNK (mode n) = true ->
        extra ino = take (CStr.strlen (target_of n)) (target_of n)).

(** A regular file that holds no inode. *)
Definition Spent (n : tree_node) : Prop :=
  S_ISREG (mode n) = true -> user_ptr_of n = None.

(** The order in which [serialize_recursive] reaches the nodes below
    [root]: the nodes below each sub-directory, then the children. *)
Fixpoint below_order (root : tree_node) : list tree_node :=
  match ndata root with
  | D_dir c =>
      flat_map (fun it => if S_ISDIR (mode it) then below_order it else []) c
      ++ c
  | _ => []
  end.

(** The trace [evs] writes the inodes of the nodes [order], and looks up
    their owners and groups, in this order. *)
Definition Ordered (evs : list event) (order : list tree_node) : Prop :=
  numbers evs = map inode_num order
  /\ looked_up evs = flat_map (fun n => [uid n; gid n]) order.

(** The order in which [sqfs_serialize_fstree] reaches the nodes. *)
Definition serialize_order (root : tree_node) : list tree_node :=
  (if S_ISDIR (mode root) then below_order root else []) ++ [root].

(** What a call of [serialize_recursive], here [rec], does for the
    directory [it] when it returns 0: the inodes of the nodes below [it]
    are written in the order of [below_order], each at the place its
    reference names, and the tree is changed in nothing but what the
    serialiser stores in it. *)
Definition below_written {W IDT : Type} (E : writer_ops W IDT)
    (rec : tree_node -> sqfs_writer_t W IDT
           -> res (Z * tree_node * sqfs_writer_t W IDT))
    (it : tree_node) : Prop :=
  forall wr r' wr',
    rec it wr = Ret (0, r', wr') ->
    exists evs,
      Run E wr wr' evs /\ Ordered evs (below_order it) /\ strip r' = strip it
      /\ Forall (Emitted E (world wr) evs) (below r').

(** The number of members of a child list that are no directories. *)
Definition files (l : list tree_node) : nat :=
  List.length (filter (fun it => negb (S_ISDIR (mode it))) l).

Definition count_files (l : list tree_node) : Z := Z.of_nat (files l).

(** The walk over the children of a directory: [nf] is the next number
    for a child that is no directory, [nd] the next one for the
    sub-directories, numbered by [rec]. *)
Fixpoint number_children (rec : tree_node -> Z -> tree_node * Z)
    (l : list tree_node) (nf nd : Z) : list tree_node * Z * Z :=
  match l with
  | [] => ([], nf, nd)
  | it :: rest =>
      if S_ISDIR (mode it) then
        let '(it', nd') := rec it nd in
        let '(rest', nf', nd'') := number_children rec rest nf nd' in
        (it' :: rest', nf', nd'')
      else
        let '(rest', nf', nd') := number_children rec rest (nf + 1) nd in
        (set_inode_num it nf :: rest', nf', nd')
  end.

(** Modelled from the spec: the numbering of [gen_inode_table], which is
    not among the sources. It "assigns dense inode numbers by traversing
    directories children-first within each directory, then the directory
    itself, in a pre-order recursion that visits non-directory children
    of a directory before descending into its sub-directories, then
    visits the directory last". For a directory entered with [next] free,
    its non-directory children take [next], [next + 1], ... in list order,
    the sub-directories follow from the number after them, each numbered
    by the same rule, and the directory takes the number after all of
    them. The result is the numbered tree and the first number left. *)
Fixpoint number_node (n : tree_node) (next : Z) : tree_node * Z :=
  match ndata n with
  | D_dir c =>
      if S_ISDIR (mode n) then
        let '(c', _, nd) :=
          number_children number_node c next (next + count_files c) in
        (set_inode_num (set_children n c') nd, nd + 1)
      else (set_inode_num n next, next + 1)
  | _ => (set_inode_num n next, next + 1)
  end.

(** The [n] numbers from [lo] on. *)
Definition zrange (lo : Z) (n : nat) : list Z :=
  map (fun i => lo + Z.of_nat i) (seq 0 n).

(** The numbers of a tree [n'] numbered from [next] on, with [next'] the
    first number left: the numbers are those from [next] to [next' - 1],
    each on one node, the root holds the last of them, and every node
    holds a greater number than each of its children. *)
Definition Numbered (next : Z) (n' : tree_node) (next' : Z) : Prop :=
  next' = next + Z.of_nat (List.length (nodes_of n'))
  /\ Permutation (map inode_num (nodes_of n'))
       (zrange next (List.length (nodes_of n')))
  /\ inode_num n' = next' - 1
  /\ (forall p c, In p (nodes_of n') -> In c (children_of p) ->
                  inode_num c < inode_num p).

(** Modelled from the spec: [gen_inode_table(root) -> count], which is
    not among the sources: the tree numbered from 1 on, and the count of
    the numbers given. *)
Definition gen_inode_table (root : tree_node) : tree_node * Z :=
  let '(root', next) := number_node root 1 in (root', next - 1).

End Serialize.

(* ===================================================================== *)
(** * tar/tar2sqfs.c: [main] *)
(* ===================================================================== *)

Module Main.
Import Sink Args.
Local Open Scope list_scope.

(** A write to the output file: the offset and the bytes. *)
Definition write := (nat * list Z)%type.

Definition apply_writes (f : sink) (ws : list write) : sink :=
  fold_left (fun f w => write_at f (fst w) (snd w)) ws f.

(** A stage of [main] that works on the super block and the output file:
    from the rest of the program's state [R], the super block and the file
    as it stands, the return value, the new state and super block, and
    the writes it made to the file through [write_at], in order. *)
Definition stage (R : Type) : Type :=
  R -> sqfs_super_t -> sink -> Z * R * sqfs_super_t * list write.

(** The functions [main] calls, for a state [R] holding what [main]
    keeps beside the super block and the output file: compressor, tree,
    data writer, identifier table and standard input. A function that
    returns a pointer is given by whether the pointer is not [NULL]. *)
Record main_env (R : Type) := mk_main_env {
  compressor_cfg_init_options : options -> R -> Z * R;
  sqfs_open_file : options -> option sink;
  fstree_init : options -> R -> Z * R;
  sqfs_compressor_create : R -> bool * R;
  fs_defaults_st_mtime : R -> Z;
  sqfs_super_init : Z -> Z -> Z -> Z * sqfs_super_t;
  cmp_write_options : stage R;
  SQFS_FLAG_COMPRESSOR_OPTIONS : Z;
  data_writer_create : options -> sqfs_super_t -> R -> bool * R;
  sqfs_id_table_create : R -> bool * R;
  process_tar_ball : stage R;
  data_writer_sync : stage R;
  tree_node_sort_recursive : R -> R;
  fstree_gen_inode_table : R -> Z * R;
  fs_inode_tbl_size : R -> Z;
  fstree_xattr_deduplicate : R -> R;
  sqfs_serialize_fstree : stage R;
  data_writer_write_fragment_table : stage R;
  write_export_table : stage R;
  sqfs_id_table_write : stage R;
  write_xattr : stage R
}.

Arguments compressor_cfg_init_options {R}.
Arguments sqfs_open_file {R}.
Arguments fstree_init {R}.
Arguments sqfs_compressor_create {R}.
Arguments fs_defaults_st_mtime {R}.
Arguments sqfs_super_init {R}.
Arguments cmp_write_options {R}.
Arguments SQFS_FLAG_COMPRESSOR_OPTIONS {R}.
Arguments data_writer_create {R}.
Arguments sqfs_id_table_create {R}.
Arguments process_tar_ball {R}.
Arguments data_writer_sync {R}.
Arguments tree_node_sort_recursive {R}.
Arguments fstree_gen_inode_table {R}.
Arguments fs_inode_tbl_size {R}.
Arguments fstree_xattr_deduplicate {R}.
Arguments sqfs_serialize_fstree {R}.
Arguments data_writer_write_fragment_table {R}.
Arguments write_export_table {R}.
Arguments sqfs_id_table_write {R}.
Arguments write_xattr {R}.

(** The labels [main] leaves through. *)
Inductive label := out_fd | out_fs | out_cmp | out_data | out.

(** How [main] ends: by a [return] before the output file is open, by a
    [goto] to a label, or by running to its last statement; [status] is
    the value it returns, the file is as [main] leaves it. *)
Inductive main_result :=
| Main_early (status : Z)
| Main_goto (l : label) (status : Z) (f : sink)
| Main_end (status : Z) (super : sqfs_super_t) (f : sink).

Definition exit_status (r : main_result) : Z :=
  match r with
  | Main_early s => s
  | Main_goto _ s _ => s
  | Main_end s _ _ => s
  end.

Section MainBody.
Context {R : Type}.
Variable M : main_env R.

(** A stage run on the state: its writes are applied to the file. *)
Definition run (g : stage R) (r : R) (s : sqfs_super_t) (f : sink)
    : Z * R * sqfs_super_t * sink :=
  let '(ret, r, s, ws) := g r s f in (ret, r, s, apply_writes f ws).

(** [main] from the call of [compressor_cfg_init_options] to the call of
    [write_xattr]: the way the function is left, or the super block and the
    file with which it goes on. *)
Definition main_head (status : Z) (o : options) (r : R)
    : main_result + sqfs_super_t * sink :=
  let leave (l : label) (f : sink) := inl (Main_goto l status f) in
  let '(ret, r) := compressor_cfg_init_options M o r in
  if negb (ret =? 0) then inl (Main_early EXIT_FAILURE)
  else
  match sqfs_open_file M o with
  | None => inl (Main_early EXIT_FAILURE)
  | Some f =>
  let '(ret, r) := fstree_init M o r in
  if negb (ret =? 0) then leave out_fd f
  else
  let '(ok, r) := sqfs_compressor_create M r in
  if negb ok then leave out_fs f
  else
  let '(ret, super) :=
    sqfs_super_init M (block_size o) (fs_defaults_st_mtime M r) (comp_id o) in
  if negb (ret =? 0) then leave out_cmp f
  else
  let '(ret, f) := sqfs_super_write super f in
  if negb (ret =? 0) then leave out_cmp f
  else
  let '(ret, r, super, f) := run (cmp_write_options M) r super f in
  if ret <? 0 then leave out_cmp f
  else
  let super :=
    if ret >? 0
    then set_flags super (Z.lor (flags super) (SQFS_FLAG_COMPRESSOR_OPTIONS M))
    else super in
  let '(ok, r) := data_writer_create M o super r in
  if negb ok then leave out_cmp f
  else
  let '(ok, r) := sqfs_id_table_create M r in
  if negb ok then leave out_data f
  else
  let '(ret, r, super, f) := run (process_tar_ball M) r super f in
  if negb (ret =? 0) then leave out f
  else
  let '(ret, r, super, f) := run (data_writer_sync M) r super f in
  if negb (ret =? 0) then leave out f
  else
  let r := tree_node_sort_recursive M r in
  let '(ret, r) := fstree_gen_inode_table M r in
  if negb (ret =? 0) then leave out f
  else
  let super := set_inode_count super (fs_inode_tbl_size M r - 2) in
  let r := fstree_xattr_deduplicate M r in
  let '(ret, r, super, f) := run (sqfs_serialize_fstree M) r super f in
  if negb (ret =? 0) then leave out f
  else
  let '(ret, r, super, f) :=
    run (data_writer_write_fragment_table M) r super f in
  if negb (ret =? 0) then leave out f
  else
  let '(ret, r, super, f) :=
    if exportable o then run (write_export_table M) r super f
    else (0, r, super, f) in
  if negb (ret =? 0) then leave out f
  else
  let '(ret, r, super, f) := run (sqfs_id_table_write M) r super f in
  if negb (ret =? 0) then leave out f
  else
  let '(ret, r, super, f) := run (write_xattr M) r super f in
  if negb (ret =? 0) then leave out f
  else
  inr (super, f)
  end.

(** [main] from the assignment to [super.bytes_used] to its end. *)
Definition main_tail (status : Z) (o : options) (super : sqfs_super_t)
    (f : sink) : main_result :=
  let super := set_bytes_used super (get_size f) in
  let '(ret, f) := sqfs_super_write super f in
  if negb (ret =? 0) then Main_goto out status f
  else
  let '(ret, f) := padd_sqfs f (bytes_used super) (devblksize o) in
  if negb (ret =? 0) then Main_goto out status f
  else
  let status := EXIT_SUCCESS in
  Main_end status super f.

(** The body of [main] after [process_args] has returned, from the
    declaration of [status] on. *)
Definition main_body (o : options) (r : R) : main_result :=
  let status := EXIT_SUCCESS in
  match main_head status o r with
  | inl res => res
  | inr (super, f) => main_tail status o super f
  end.


(** How the process ends: with the status of [exit] or of [main]'s
    [return], or in the read behind the end of [long_opts]. *)
Inductive process_result :=
| Exited (status : Z)
| Faulted (index : nat)
| Out_of_steps.

(** [main(argc, argv)]. *)
Definition main (A : sqfs_env) (argv : list string) (r : R)
    : process_result :=
  match process_args A argv with
  | PA_exit status _ => Exited status
  | PA_fault i => Faulted i
  | PA_out_of_steps => Out_of_steps
  | PA_return o _ => Exited (exit_status (main_body o r))
  end.

End MainBody.

End Main.

(* ===================================================================== *)
(** * Concrete environments and inputs *)
(* ===================================================================== *)

Module Samples.
Import Sink.
Local Open Scope list_scope.

(** A build with gzip as the only compressor, the default block size of
    128 KiB and the default device block size of 4 KiB. *)
Definition gzip_build : Args.sqfs_env :=
  Args.mk_sqfs_env 131072 4096 2 1
    (fun n c => if CStr.streq n "gzip" then (0, 1) else (-1, c))
    (fun i => i =? 1).

(** Command lines. *)
Definition small_block_argv : list string :=
  ["tar2sqfs"; "-b"; "1024"; "out.sqfs"].
Definition bogus_option_argv : list string :=
  ["tar2sqfs"; "--bogus"; "out.sqfs"].

(** An environment for [main] over a state without content. The tar
    stage writes [body] behind the super block and returns [tar_ret]; the
    serialiser writes 40 bytes of tables at the end of the file; every
    other stage succeeds and writes nothing. *)
Definition quiet_stage : Main.stage unit :=
  fun r s f => (0, r, s, []).

Definition tar_stage (tar_ret : Z) (body : list Z) : Main.stage unit :=
  fun r s f => (tar_ret, r, s, [(List.length f, body)]).

Definition table_stage : Main.stage unit :=
  fun r s f =>
    (0, r, set_inode_table_start s (get_size f), [(List.length f, zeros 40)]).

Definition blank_super : sqfs_super_t :=
  mk_super 1936814952 0 0 131072 0 1 17 0 0 4 0 0 0 0 0 0 0 0 0.

Definition scripted_main (tar_ret : Z) (body : list Z) : Main.main_env unit :=
  Main.mk_main_env unit
    (fun _ r => (0, r))
    (fun _ => Some [])
    (fun _ r => (0, r))
    (fun r => (true, r))
    (fun _ => 0)
    (fun _ _ _ => (0, blank_super))
    quiet_stage
    1024
    (fun _ _ r => (true, r))
    (fun r => (true, r))
    (tar_stage tar_ret body)
    quiet_stage
    (fun r => r)
    (fun r => (0, r))
    (fun _ => 3)
    (fun r => r)
    table_stage
    quiet_stage
    quiet_stage
    quiet_stage
    quiet_stage.

(** The options [process_args] leaves for [tar2sqfs out.sqfs]. *)
Definition plain_options : Args.options :=
  Args.set_filename
    (Args.set_max_backlog
       (Args.set_comp_id (Args.initial_options gzip_build) 1) 10)
    (Some "out.sqfs").

(** The decoded header of the sparse test archive, as tests/tar_sparse.c
    expects it. *)
Definition sparse_fixture : Tar.tar_header_decoded_t :=
  Tar.mk_hdr
    (Tar.mk_stat 33188 1000 1000 2097152 0 0)
    (Some "input.bin") None
    [ Tar.mk_sparse 0 4096; Tar.mk_sparse 262144 4096;
      Tar.mk_sparse 524288 4096; Tar.mk_sparse 786432 4096;
      Tar.mk_sparse 1048576 4096; Tar.mk_sparse 1310720 4096;
      Tar.mk_sparse 1572864 4096; Tar.mk_sparse 1835008 4096;
      Tar.mk_sparse 2097152 0 ]
    2097152 32768 false [].

(** A header whose sparse map places an extent of one byte at the last
    offset a 64 bit number can hold, and the next extent at offset 0. *)
Definition wrapping_sparse : Tar.tar_header_decoded_t :=
  Tar.mk_hdr
    (Tar.mk_stat 33188 0 0 1 0 0)
    (Some "wrap.bin") None
    [ Tar.mk_sparse 18446744073709551615 1; Tar.mk_sparse 0 0 ]
    1 1 false [].

(** The sparse test archive's header with the second and third extent
    in each other's place. *)
Definition unordered_sparse : Tar.tar_header_decoded_t :=
  Tar.mk_hdr
    (Tar.mk_stat 33188 1000 1000 2097152 0 0)
    (Some "input.bin") None
    [ Tar.mk_sparse 0 4096; Tar.mk_sparse 524288 4096;
      Tar.mk_sparse 262144 4096; Tar.mk_sparse 786432 4096;
      Tar.mk_sparse 1048576 4096; Tar.mk_sparse 1310720 4096;
      Tar.mk_sparse 1572864 4096; Tar.mk_sparse 1835008 4096;
      Tar.mk_sparse 2097152 0 ]
    2097152 32768 false [].

(** The sum of the lengths of the extents, as a number. *)
Definition total_count (m : list Tar.sparse_map_t) : Z :=
  fold_right (fun e n => Tar.count e + n) 0 m.

(** Offsets, lengths, the end of every extent and the sum of the lengths
    are 64 bit unsigned numbers. *)
Definition fits_64_bit (m : list Tar.sparse_map_t) : Prop :=
  Forall (fun e => 0 <= Tar.offset e /\ 0 <= Tar.count e
                   /\ Tar.offset e + Tar.count e < Int.two64) m
  /\ total_count m < Int.two64.

(** Whether the offsets of a sparse map ascend, as numbers. *)
Fixpoint ascending (m : list Tar.sparse_map_t) : bool :=
  match m with
  | a :: ((b :: _) as r) => (Tar.offset a <=? Tar.offset b) && ascending r
  | _ => true
  end.

(** Whether the extents of a sparse map follow each other from [off] on:
    each starts at or behind the end of the one before it. *)
Fixpoint follows (off : Z) (m : list Tar.sparse_map_t) : bool :=
  match m with
  | [] => true
  | e :: r =>
      (off <=? Tar.offset e) && follows (Tar.offset e + Tar.count e) r
  end.

Definition in_sequence (m : list Tar.sparse_map_t) : bool :=
  match m with
  | [] => true
  | e :: r => follows (Tar.offset e + Tar.count e) r
  end.

(** A tar reader that finds the given header in the first 512 bytes of
    the archive and the end of the archive behind the first record, a name
    check that accepts a name or not as [name_ok] says, a tree that is the
    list of the names added, and a data writer that counts the bytes it
    was handed. *)
Definition one_record_reader (hdr : Tar.tar_header_decoded_t)
    (name_ok : bool) : Tar.tar_env (list string) unit Z :=
  Tar.mk_tar_env (list string) unit Z
    (fun s =>
       if Tar.pos s =? 0
       then (0, hdr, Tar.mk_stdin (Tar.content s) (Tar.size s) 512)
       else (1, hdr, s))
    (fun n => (if name_ok then 0 else -1, n))
    (fun _ => 0)
    (fun fs n _ _ =>
       Some (match n with Some s => fs ++ [s] | None => fs end, tt))
    (fun _ _ => Tar.mk_file_info 2097152)
    (fun _ => true)
    (fun fs _ _ _ => (0, fs))
    (fun d _ f => (0, d + Tar.file_size f))
    (fun d f _ _ => (0, d + Tar.file_size f)).

(** The reader above with a tree that takes extended attributes of the
    [user.] name space only. *)
Definition user_xattr_reader (hdr : Tar.tar_header_decoded_t)
    : Tar.tar_env (list string) unit Z :=
  Tar.mk_tar_env (list string) unit Z
    (Tar.read_header (one_record_reader hdr true))
    (Tar.canonicalize_name (one_record_reader hdr true))
    (Tar.fs_defaults_mtime (one_record_reader hdr true))
    (Tar.fstree_add_generic (one_record_reader hdr true))
    (Tar.node_data_file (one_record_reader hdr true))
    (fun k => String.prefix "user." k)
    (fun fs _ k v => (0, fs ++ [(k ++ "=" ++ v)%string]))
    (Tar.write_data_from_file (one_record_reader hdr true))
    (Tar.write_data_from_file_condensed (one_record_reader hdr true)).

(** A directory with three extended attributes. *)
Definition labelled_dir : Tar.tar_header_decoded_t :=
  Tar.mk_hdr
    (Tar.mk_stat 16877 0 0 0 0 0)
    (Some "etc") None [] 0 0 false
    [ Tar.mk_xattr "user.mime" "text";
      Tar.mk_xattr "security.selinux" "etc_t";
      Tar.mk_xattr "user.note" "x" ].

(** An archive of 4 MiB of zero bytes, nothing read yet. *)
Definition archive : Tar.stdin_t := Tar.mk_stdin (fun _ => 0) 4194304 0.

Definition tar_start : Tar.tar_state (list string) Z :=
  Tar.mk_tar_state archive [] 0 [] [].

(** A writer whose state is the size of the output file, the position of
    the inode writer and the bytes the directory writer holds. Inodes take
    32 bytes, directory entries 16, a block is full at 8192 bytes; the
    identifier table is the one of [IdTable]. *)
Record plain_world := mk_plain_world {
  file_size : Z;
  im_block : Z;
  im_offset : Z;
  dm_bytes : Z
}.

Definition plain_writer : Serialize.writer_ops plain_world IdTable.id_table_t :=
  Serialize.mk_writer_ops plain_world IdTable.id_table_t
    file_size
    (fun w => (0, w))
    (fun w _ _ _ _ =>
       (0, mk_plain_world (file_size w) (im_block w) (im_offset w)
             (dm_bytes w + 16)))
    (fun w => (0, w))
    (fun w _ _ _ =>
       Some (Serialize.mk_inode
               (Serialize.zero_base Serialize.SQFS_INODE_DIR)
               (Serialize.data_dir 0 [dm_bytes w]) EmptyString))
    (fun t d _ => (t, d))
    IdTable.id_to_index
    (fun w m =>
       match m with
       | Serialize.IM => (im_block w, im_offset w)
       | Serialize.DM => (0, dm_bytes w)
       end)
    (fun w _ _ =>
       if im_offset w + 32 >=? 8192
       then (0, mk_plain_world (file_size w + 8194) (im_block w + 8194) 0
                  (dm_bytes w))
       else (0, mk_plain_world (file_size w) (im_block w) (im_offset w + 32)
                  (dm_bytes w)))
    (fun w m =>
       match m with
       | Serialize.IM =>
           (0, mk_plain_world (file_size w + im_offset w + 2)
                 (im_block w + im_offset w + 2) 0 (dm_bytes w))
       | Serialize.DM => (0, w)
       end)
    (fun w _ =>
       (0, mk_plain_world (file_size w + dm_bytes w + 2) (im_block w)
             (im_offset w) 0))
    (fun _ _ => true).

Definition leaf (nm : string) (md : Z) (u g : Z)
    (d : Serialize.node_data Serialize.tree_node) : Serialize.tree_node :=
  Serialize.mk_node nm md u g 0 1 4294967295 0 0 d.

(** A tree: [/] holds the file [a], the directory [d] and the link [l];
    [d] holds the fifo [p]. The file carries the inode the data writer
    made for it. *)
Definition small_tree : Serialize.tree_node :=
  leaf "" 16877 0 0
    (Serialize.D_dir
       [ leaf "a" 33188 1000 100
           (Serialize.D_file
              (Some (Serialize.mk_inode
                       (Serialize.zero_base Serialize.SQFS_INODE_FILE)
                       (Serialize.data_file [0; 5]) EmptyString)));
         leaf "d" 16877 0 0
           (Serialize.D_dir [ leaf "p" 4516 1000 0 Serialize.D_none ]);
         leaf "l" 41471 0 0 (Serialize.D_target "a") ]).

(** The tree with the inode numbers of [gen_inode_table]. *)
Definition numbered_tree : Serialize.tree_node :=
  fst (Serialize.gen_inode_table small_tree).

(** A regular file for which the data writer has made no inode, a
    tree of its own. *)
Definition bare_file : Serialize.tree_node :=
  leaf "f" 33188 0 0 (Serialize.D_file None).

(** The writer above with a directory writer that refuses every entry
    with the code -7. *)
Definition refusing_writer
    : Serialize.writer_ops plain_world IdTable.id_table_t :=
  Serialize.mk_writer_ops plain_world IdTable.id_table_t
    (Serialize.outfile_get_size plain_writer)
    (Serialize.sqfs_dir_writer_begin plain_writer)
    (fun w _ _ _ _ => (-7, w))
    (Serialize.sqfs_dir_writer_end plain_writer)
    (Serialize.sqfs_dir_writer_create_inode plain_writer)
    (Serialize.sqfs_inode_set_xattr_index plain_writer)
    (Serialize.sqfs_id_table_id_to_index plain_writer)
    (Serialize.sqfs_meta_writer_get_position plain_writer)
    (Serialize.sqfs_meta_writer_write_inode plain_writer)
    (Serialize.sqfs_meta_writer_flush plain_writer)
    (Serialize.sqfs_meta_write_write_to_file plain_writer)
    (Serialize.calloc plain_writer).

(** The writer above in a process that has no memory left for [calloc]. *)
Definition starved_writer
    : Serialize.writer_ops plain_world IdTable.id_table_t :=
  Serialize.mk_writer_ops plain_world IdTable.id_table_t
    (Serialize.outfile_get_size plain_writer)
    (Serialize.sqfs_dir_writer_begin plain_writer)
    (Serialize.sqfs_dir_writer_add_entry plain_writer)
    (Serialize.sqfs_dir_writer_end plain_writer)
    (Serialize.sqfs_dir_writer_create_inode plain_writer)
    (Serialize.sqfs_inode_set_xattr_index plain_writer)
    (Serialize.sqfs_id_table_id_to_index plain_writer)
    (Serialize.sqfs_meta_writer_get_position plain_writer)
    (Serialize.sqfs_meta_writer_write_inode plain_writer)
    (Serialize.sqfs_meta_writer_flush plain_writer)
    (Serialize.sqfs_meta_write_write_to_file plain_writer)
    (fun _ _ => false).

(** A node whose mode names none of the seven file types. *)
Definition odd_node : Serialize.tree_node :=
  leaf "o" 420 0 0 Serialize.D_none.

(** A directory with one entry. *)
Definition small_dir : Serialize.tree_node :=
  leaf "d" 16877 0 0
    (Serialize.D_dir [ leaf "p" 4516 1000 0 Serialize.D_none ]).

Definition plain_start
    : Serialize.sqfs_writer_t plain_world IdTable.id_table_t :=
  Serialize.mk_writer (mk_plain_world 96 0 0 0) IdTable.id_table_create
    blank_super [].

(** A start in which the inode writer has written one block of 8194
    bytes to the file and stands 64 bytes before the end of the next. *)
Definition late_start
    : Serialize.sqfs_writer_t plain_world IdTable.id_table_t :=
  Serialize.mk_writer (mk_plain_world 8290 8194 8128 0)
    IdTable.id_table_create blank_super [].

(** A stage of [main] that succeeds and does nothing. *)
Definition idle_stage {R : Type} : Main.stage R :=
  fun r s f => (0, r, s, []).

(** An environment for [main] over a state that is the tree alone.
    [fstree_gen_inode_table] numbers the tree as [gen_inode_table] does,
    and the inode table it leaves has a slot for every node and two more,
    so that the tree of the root alone has the table of size 3 with which
    [main] stores the [inode_count] of 1 the spec gives for the empty
    archive. Every other function succeeds and does nothing. *)
Definition tree_main : Main.main_env Serialize.tree_node :=
  Main.mk_main_env Serialize.tree_node
    (fun _ r => (0, r))
    (fun _ => Some [])
    (fun _ r => (0, r))
    (fun r => (true, r))
    (fun _ => 0)
    (fun _ _ _ => (0, blank_super))
    idle_stage
    1024
    (fun _ _ r => (true, r))
    (fun r => (true, r))
    idle_stage
    idle_stage
    (fun r => r)
    (fun r => (0, fst (Serialize.gen_inode_table r)))
    (fun r => Z.of_nat (List.length (Serialize.nodes_of r)) + 2)
    (fun r => r)
    idle_stage
    idle_stage
    idle_stage
    idle_stage
    idle_stage.

End Samples.

(* ===================================================================== *)
(** * Properties *)
(* ===================================================================== *)

(** ** Machine integers *)

Lemma u64_range (z : Z) : 0 <= Int.u64 z < Int.two64.
Proof. unfold Int.u64, Int.two64. apply Z.mod_pos_bound. reflexivity. Qed.

Lemma u32_range (z : Z) : 0 <= Int.u32 z < Int.two32.
Proof. unfold Int.u32, Int.two32. apply Z.mod_pos_bound. reflexivity. Qed.

Lemma u64_small (z : Z) : 0 <= z < Int.two64 -> Int.u64 z = z.
Proof. intros H. unfold Int.u64. now apply Z.mod_small. Qed.

Lemma u32_small (z : Z) : 0 <= z < Int.two32 -> Int.u32 z = z.
Proof. intros H. unfold Int.u32. now apply Z.mod_small. Qed.

Lemma u32_idem (z : Z) : Int.u32 (Int.u32 z) = Int.u32 z.
Proof. apply u32_small, u32_range. Qed.

(** ** Path separators *)

Section PathSepFacts.
Import CStr PathSep.

Lemma is_path_sep_posix (c : ascii) : __is_path_sep false c = false.
Proof. unfold __is_path_sep, __is_windows_path_sep. apply andb_false_r. Qed.

Lemma skip_path_seps_loop_posix (s : string) (cur : nat) :
  skip_path_seps_loop false s cur = cur.
Proof.
  destruct s as [|c r]; simpl; [reflexivity|].
  rewrite is_path_sep_posix. now destruct (Ascii.eqb c NUL).
Qed.

Lemma next_path_sep_loop_posix (s : string) (cur : nat) :
  next_path_sep_loop false s cur = (cur + strlen s)%nat.
Proof.
  revert cur. induction s as [|c r IH]; intros cur; simpl.
  - now rewrite Nat.add_0_r.
  - rewrite is_path_sep_posix. destruct (Ascii.eqb c NUL).
    + now rewrite Nat.add_0_r.
    + rewrite IH. now rewrite Nat.add_succ_r.
Qed.

(** C9: on a build that is not for Windows [__is_path_sep] is false for
    every character, so [skip_path_seps] returns its argument (offset 0,
    also when the string starts with a slash) and [next_path_sep] returns
    the position of the terminating NUL. *)
Theorem path_sep_helpers_see_no_separator (s : string) :
  skip_path_seps false s = O
  /\ next_path_sep false s = strlen s
  /\ (forall c, __is_path_sep false c = false).
Proof.
  split; [|split].
  - apply skip_path_seps_loop_posix.
  - unfold next_path_sep. now rewrite next_path_sep_loop_posix.
  - exact is_path_sep_posix.
Qed.

End PathSepFacts.

(** ** The option table *)

Section GetoptFacts.
Import CStr Getopt Args.

(** No entry of [long_opts] has a [NULL] name. *)
Lemma long_opts_has_no_sentinel :
  forallb (fun o => match name o with Some _ => true | None => false end)
    long_opts = true.
Proof. reflexivity. Qed.

(** Without an entry whose name is [NULL] the search can only end at a
    matching entry or behind the array. *)
Lemma lookup_loop_without_sentinel (tbl : list option_t) (i : nat)
    (ptr : string) (len : nat) :
  forallb (fun o => match name o with Some _ => true | None => false end)
    tbl = true ->
  (exists j o, lookup_loop tbl i ptr len = Lookup_stop j o
               /\ (exists nm, name o = Some nm
                              /\ strncmp nm ptr len = 0
                              /\ char_at nm len = NUL))
  \/ lookup_loop tbl i ptr len = Lookup_fault (i + List.length tbl).
Proof.
  revert i. induction tbl as [|o r IH]; intros i Hall; simpl.
  - right. now rewrite Nat.add_0_r.
  - simpl in Hall. apply andb_true_iff in Hall as [Ho Hr].
    destruct (name o) as [nm|] eqn:En; [|discriminate].
    destruct (strncmp nm ptr len =? 0) eqn:Ec; simpl.
    + destruct (Ascii.eqb (char_at nm len) NUL) eqn:Ez.
      * left. exists i, o. split; [reflexivity|]. exists nm.
        repeat split; [assumption| |].
        -- now apply Z.eqb_eq.
        -- now apply Ascii.eqb_eq.
      * destruct (IH (S i) Hr) as [H|H]; [now left|right].
        rewrite H. f_equal. lia.
    + destruct (IH (S i) Hr) as [H|H]; [now left|right].
      rewrite H. f_equal. lia.
Qed.

(** C10: for [tar2sqfs --bogus out.sqfs] the search loop of
    [getopt_long] reads the indices 0 to 15 of [long_opts], which has 15
    elements: the last read is behind the array, and the call ends in it
    without returning. *)
Theorem getopt_long_reads_behind_long_opts :
  List.length long_opts = 15%nat
  /\ lookup_reads long_opts 0 "bogus" (name_len "bogus") = seq 0 16
  /\ getopt_long Samples.bogus_option_argv short_opts long_opts getopt_init
     = GL_fault 15
  /\ process_args Samples.gzip_build Samples.bogus_option_argv = PA_fault 15.
Proof. repeat split; reflexivity. Qed.

End GetoptFacts.

(** ** Argument processing *)

Section ArgsFacts.
Import CStr Getopt Args.

(** The case ['b'] of the switch stores the number and goes on. *)
Lemma switch_case_b (E : sqfs_env) (g : getopt_state) (o : options) :
  switch_case E (code "b") g o
  = inl (set_block_size o (Int.s32 (Libc.strtol (the_arg g)))).
Proof. reflexivity. Qed.

Lemma first_call_reads_b (v f : string) :
  getopt_long ["tar2sqfs"; "-b"; v; f] short_opts long_opts getopt_init
  = GL_ret (code "b") (mk_getopt_state 3 (Some v) "" []).
Proof. reflexivity. Qed.

Lemma second_call_ends_options (v f : string) :
  char_at f 0 <> "-"%char ->
  getopt_long ["tar2sqfs"; "-b"; v; f] short_opts long_opts
    (mk_getopt_state 3 (Some v) "" [])
  = GL_ret (-1) (mk_getopt_state 3 (Some v) "" []).
Proof.
  intros Hf.
  assert (Hneg : Ascii.eqb (char_at f 0) "-" = false)
    by now apply Ascii.eqb_neq.
  unfold getopt_long, getopt. cbn [optind current optarg stderr].
  change (arg_at ["tar2sqfs"; "-b"; v; f] 3) with f.
  rewrite Hneg. reflexivity.
Qed.

(** C8, as the code has it: argument processing does not check the
    block size. The case of the switch for [-b] and [--block-size] stores
    the number [strtol] reads, converted to [int], and goes on; and for
    every value [v] and every image name [f] that is no option the command
    line [tar2sqfs -b v f] is accepted with [block_size] set to that
    number, whatever it is. *)
Theorem block_size_is_stored_unchecked (E : sqfs_env) (v f : string) :
  char_at f 0 <> "-"%char ->
  (forall g o, exists o',
      switch_case E (code "b") g o = inl o'
      /\ block_size o' = Int.s32 (Libc.strtol (the_arg g)))
  /\ exists g, process_args E ["tar2sqfs"; "-b"; v; f]
               = PA_return (with_block_size E v f) g.
Proof.
  intros Hf. split.
  - intros g o. eexists. split; [apply switch_case_b|reflexivity].
  - unfold process_args, enough_steps.
    cbn [List.length Nat.add option_loop].
    rewrite first_call_reads_b.
    change (code "b" =? -1) with false. cbv iota.
    rewrite switch_case_b, second_call_ends_options by assumption.
    change (-1 =? -1) with true. cbv iota.
    eexists. reflexivity.
Qed.

(** For [tar2sqfs -b 1024 out.sqfs], with 1024 below 4096,
    [process_args] returns with [block_size] 1024. *)
Lemma block_size_1024_is_accepted :
  Libc.strtol "1024" = 1024
  /\ 1024 < 4096
  /\ match process_args Samples.gzip_build Samples.small_block_argv with
     | PA_return o _ => block_size o = 1024
     | _ => False
     end.
Proof. repeat split. Qed.

Lemma block_size_is_stored_unchecked_witness :
  char_at "out.sqfs" 0 <> "-"%char
  /\ ((forall g o, exists o',
          switch_case Samples.gzip_build (code "b") g o = inl o'
          /\ block_size o' = Int.s32 (Libc.strtol (the_arg g)))
      /\ exists g, process_args Samples.gzip_build
                     ["tar2sqfs"; "-b"; "1024"; "out.sqfs"]
                   = PA_return
                       (with_block_size Samples.gzip_build "1024" "out.sqfs")
                       g).
Proof.
  assert (H : char_at "out.sqfs" 0 <> "-"%char) by discriminate.
  split; [exact H|].
  exact (block_size_is_stored_unchecked Samples.gzip_build "1024" "out.sqfs" H).
Defined.

End ArgsFacts.

(** ** The exit status of [main] *)

Section MainStatus.
Import Sink Args Main.

Ltac split_run :=
  match goal with
  | |- context [run ?g ?r ?s ?f] =>
      let ret := fresh "ret" in
      let r' := fresh "r" in
      let s' := fresh "s" in
      let f' := fresh "f" in
      destruct (run g r s f) as [[[ret r'] s'] f'] eqn:?
  | |- context [match ?x with (_, _) => _ end] => destruct x eqn:?
  | |- context [match ?x with Some _ => _ | None => _ end] => destruct x eqn:?
  | |- context [if ?b then _ else _] => destruct b eqn:?
  end.

(** Whichever way [main] is left once [process_args] has returned, the
    status is [EXIT_FAILURE] for the two early returns and [EXIT_SUCCESS]
    for every [goto] and for the end of the function. *)
Lemma main_body_status {R : Type} (M : main_env R) (o : options) (r : R) :
  match main_body M o r with
  | Main_early s => s = EXIT_FAILURE
  | Main_goto _ s _ => s = EXIT_SUCCESS
  | Main_end s _ _ => s = EXIT_SUCCESS
  end.
Proof.
  unfold main_body, main_head, main_tail, sqfs_super_write, padd_sqfs.
  repeat (split_run; cbv iota beta zeta; try reflexivity).
Qed.

(** C1: a run of [tar2sqfs out.sqfs] in which [process_tar_ball] returns
    -1 leaves [main] through the label [out] with status [EXIT_SUCCESS],
    so the process exits with 0; and so does every run that fails after
    the output file was opened. *)
Theorem main_exits_with_success_after_a_fatal_error :
  (exists f,
      main_body (Samples.scripted_main (-1) [1; 2; 3]) Samples.plain_options tt
      = Main_goto out EXIT_SUCCESS f)
  /\ main (Samples.scripted_main (-1) [1; 2; 3]) Samples.gzip_build
       ["tar2sqfs"; "out.sqfs"] tt = Exited 0
  /\ (forall (R : Type) (M : main_env R) (o : options) (r : R) l s f,
         main_body M o r = Main_goto l s f -> s = 0).
Proof.
  split; [|split].
  - eexists. vm_compute. reflexivity.
  - vm_compute. reflexivity.
  - intros R M o r l s f H.
    pose proof (main_body_status M o r) as Hs. rewrite H in Hs. exact Hs.
Qed.

End MainStatus.

(** ** The output file *)

Section SinkFacts.
Import Sink.
Local Open Scope list_scope.

Lemma length_zeros (n : nat) : List.length (zeros n) = n.
Proof. apply repeat_length. Qed.

Lemma length_write_at (f : sink) (off : nat) (d : list Z) :
  List.length (write_at f off d)
  = Nat.max (List.length f) (off + List.length d).
Proof.
  unfold write_at.
  rewrite !length_app, length_firstn, length_skipn, length_app, length_zeros.
  lia.
Qed.

Lemma write_at_end (f : sink) (d : list Z) :
  write_at f (List.length f) d = f ++ d.
Proof.
  unfold write_at. rewrite Nat.sub_diag. simpl. rewrite app_nil_r.
  rewrite firstn_all, skipn_all2 by lia. now rewrite app_nil_r.
Qed.

Lemma write_at_start (f : sink) (d : list Z) :
  write_at f 0 d = d ++ skipn (List.length d) f.
Proof. reflexivity. Qed.

Lemma length_le_bytes (n : nat) (v : Z) : List.length (le_bytes n v) = n.
Proof. revert v. induction n; intros v; simpl; [reflexivity|now rewrite IHn]. Qed.

Lemma length_super_bytes (s : sqfs_super_t) :
  List.length (super_bytes s) = 96%nat.
Proof. unfold super_bytes. now rewrite !length_app, !length_le_bytes. Qed.

Lemma le_value_le_bytes (n : nat) (v : Z) :
  le_value (le_bytes n v) = v mod 256 ^ Z.of_nat n.
Proof.
  revert v. induction n as [|n IH]; intros v.
  - simpl. now rewrite Z.mod_1_r.
  - cbn [le_bytes le_value]. rewrite IH.
    rewrite Nat2Z.inj_succ, Z.pow_succ_r by lia.
    rewrite Z.rem_mul_r by (try apply Z.pow_pos_nonneg; lia). reflexivity.
Qed.

Lemma le_bytes_range (n : nat) (v : Z) :
  Forall (fun b => 0 <= b < 256) (le_bytes n v).
Proof.
  revert v. induction n as [|n IH]; intros v; simpl; constructor.
  - apply Z.mod_pos_bound. lia.
  - apply IH.
Qed.

Lemma le_bytes_le_value (bs : list Z) :
  Forall (fun b => 0 <= b < 256) bs ->
  le_bytes (List.length bs) (le_value bs) = bs.
Proof.
  induction 1 as [|b r Hb Hr IH]; [reflexivity|].
  cbn [List.length le_bytes le_value].
  replace ((b + 256 * le_value r) mod 256) with b.
  - replace ((b + 256 * le_value r) / 256) with (le_value r).
    + now rewrite IH.
    + rewrite Z.mul_comm, Z.div_add by lia. rewrite Z.div_small by lia. lia.
  - rewrite Z.mul_comm, Z.mod_add by lia. now rewrite Z.mod_small.
Qed.

Lemma skipn_le_bytes_app (k n : nat) (v : Z) (r : list Z) :
  (n <= k)%nat -> skipn k (le_bytes n v ++ r) = skipn (k - n) r.
Proof.
  intros H. rewrite skipn_app, length_le_bytes.
  rewrite skipn_all2 by (rewrite length_le_bytes; lia). reflexivity.
Qed.

Lemma firstn_le_bytes_app (n : nat) (v : Z) (r : list Z) :
  firstn n (le_bytes n v ++ r) = le_bytes n v.
Proof.
  rewrite firstn_app, length_le_bytes, Nat.sub_diag.
  rewrite firstn_all2 by (rewrite length_le_bytes; lia).
  cbn [firstn]. apply app_nil_r.
Qed.

(** The field [bytes_used] of an image that starts with the bytes of
    [s]. *)
Lemma stored_bytes_used_of_super (s : sqfs_super_t) (rest : list Z) :
  stored_bytes_used (super_bytes s ++ rest) = bytes_used s mod 2 ^ 64.
Proof.
  unfold stored_bytes_used, super_bytes.
  repeat rewrite <- app_assoc.
  repeat (rewrite skipn_le_bytes_app by lia; cbn [Nat.sub]).
  cbn [skipn]. rewrite firstn_le_bytes_app.
  now rewrite le_value_le_bytes.
Qed.

Lemma apply_writes_grows (ws : list Main.write) (f : sink) :
  (List.length f <= List.length (Main.apply_writes f ws))%nat.
Proof.
  unfold Main.apply_writes. revert f.
  induction ws as [|w ws IH]; intros f; simpl; [lia|].
  etransitivity; [|apply IH]. rewrite length_write_at. lia.
Qed.

Lemma run_grows {R : Type} (g : Main.stage R) (r r' : R)
    (s s' : sqfs_super_t) (f f' : sink) (ret : Z) :
  Main.run g r s f = (ret, r', s', f') ->
  (List.length f <= List.length f')%nat.
Proof.
  unfold Main.run. destruct (g r s f) as [[[a b] c] ws].
  intros H. injection H as _ _ _ <-. apply apply_writes_grows.
Qed.

End SinkFacts.

(** ** The end of a successful run *)

Section ImageEnd.
Import Sink Args Main.
Local Open Scope list_scope.

Ltac split_head :=
  match goal with
  | |- context [run ?g ?r ?s ?f] =>
      let ret := fresh "ret" in
      let r' := fresh "r" in
      let s' := fresh "s" in
      let f' := fresh "f" in
      let H := fresh "Hrun" in
      destruct (run g r s f) as [[[ret r'] s'] f'] eqn:H;
      apply run_grows in H
  | |- context [match ?x with (_, _) => _ end] => destruct x eqn:?
  | |- context [match ?x with Some _ => _ | None => _ end] => destruct x eqn:?
  | |- context [if ?b then _ else _] => destruct b eqn:?
  end.

(** When [main] reaches the assignment to [super.bytes_used], the file
    holds at least the 96 bytes of the super block written at the start:
    every stage in between only writes to the file. *)
Lemma main_head_keeps_super_block {R : Type} (M : main_env R) (st : Z)
    (o : options) (r : R) (s0 : sqfs_super_t) (f0 : sink) :
  main_head M st o r = inr (s0, f0) -> (96 <= List.length f0)%nat.
Proof.
  unfold main_head, sqfs_super_write.
  destruct (exportable o).
  all: repeat (split_head; cbv iota beta zeta; try discriminate).
  all: intros H; injection H as _ <-.
  all: match goal with
       | H0 : context [write_at ?f 0 (super_bytes ?s)] |- _ =>
           pose proof (length_write_at f 0 (super_bytes s)) as Hw;
           rewrite length_super_bytes in Hw
       end.
  all: lia.
Qed.

Lemma pad_reaches_multiple (n b : Z) :
  0 < b -> n mod b <> 0 -> (n + (b - n mod b)) mod b = 0.
Proof.
  intros Hb Hn.
  replace (n + (b - n mod b)) with (n - n mod b + 1 * b) by lia.
  rewrite Z.mod_add by lia.
  rewrite (Z.div_mod n b) at 1 by lia.
  replace (b * (n / b) + n mod b - n mod b) with ((n / b) * b) by lia.
  apply Z.mod_mul. lia.
Qed.

(** C6: at the end of a successful run the field [bytes_used] of the
    super block is the size the file had when [main] assigned it, just
    before the final rewrite of the super block and the padding; the
    rewrite replaces the first 96 bytes and leaves the size as it was, the
    super block stored in the image holds the same [bytes_used], and the
    final image is that file followed by fewer than [devblksize] zero
    bytes, its size a multiple of [devblksize]. *)
Theorem bytes_used_is_the_size_before_padding {R : Type} (M : main_env R)
    (o : options) (r : R) (st : Z) (s : sqfs_super_t) (f : sink) :
  0 < devblksize o ->
  main_body M o r = Main_end st s f ->
  exists s0 f0 pad,
    main_head M EXIT_SUCCESS o r = inr (s0, f0)
    /\ s = set_bytes_used s0 (get_size f0)
    /\ bytes_used s = get_size f0
    /\ f = write_at f0 0 (super_bytes s) ++ zeros pad
    /\ List.length (write_at f0 0 (super_bytes s)) = List.length f0
    /\ skipn 96 (write_at f0 0 (super_bytes s)) = skipn 96 f0
    /\ stored_bytes_used f = bytes_used s mod 2 ^ 64
    /\ Z.of_nat pad < devblksize o
    /\ get_size f mod devblksize o = 0.
Proof.
  intros Hblk. unfold main_body.
  destruct (main_head M EXIT_SUCCESS o r) as [res|[s0 f0]] eqn:Hhead.
  - intros ->. pose proof (main_body_status M o r) as Hs.
    unfold main_body in Hs. rewrite Hhead in Hs.
    exfalso. revert Hhead. unfold main_head, sqfs_super_write.
    destruct (exportable o).
    all: repeat (split_head; cbv iota beta zeta; try discriminate).
  - pose proof (main_head_keeps_super_block M _ o r s0 f0 Hhead) as Hlen.
    unfold main_tail, sqfs_super_write, padd_sqfs. cbv iota beta zeta.
    set (s1 := set_bytes_used s0 (get_size f0)).
    set (f1 := write_at f0 0 (super_bytes s1)).
    assert (Hf1 : List.length f1 = List.length f0).
    { unfold f1. rewrite length_write_at, length_super_bytes. lia. }
    assert (Hskip : skipn 96 f1 = skipn 96 f0).
    { unfold f1. rewrite write_at_start, length_super_bytes.
      rewrite skipn_app, length_super_bytes, Nat.sub_diag.
      rewrite skipn_all2 by (rewrite length_super_bytes; lia). reflexivity. }
    assert (Hstored : forall z, stored_bytes_used (f1 ++ z) = get_size f0 mod 2 ^ 64).
    { intros z. unfold f1. rewrite write_at_start, <- app_assoc.
      now rewrite stored_bytes_used_of_super. }
    change (bytes_used s1) with (get_size f0).
    destruct (get_size f0 mod devblksize o =? 0) eqn:Hmod; cbv iota beta.
    + intros H. injection H as _ <- <-.
      exists s0, f0, O. simpl zeros. rewrite app_nil_r.
      repeat split; try assumption; try reflexivity.
      * rewrite <- (app_nil_r f1). apply Hstored.
      * unfold get_size. rewrite Hf1. now apply Z.eqb_eq.
    + intros H. injection H as _ <- <-.
      apply Z.eqb_neq in Hmod.
      pose proof (Z.mod_pos_bound (get_size f0) (devblksize o) Hblk) as Hb.
      exists s0, f0, (Z.to_nat (devblksize o - get_size f0 mod devblksize o)).
      rewrite write_at_end.
      repeat split; try assumption; try reflexivity.
      * apply Hstored.
      * rewrite Z2Nat.id by lia. lia.
      * unfold get_size in *. rewrite length_app, length_zeros, Hf1.
        rewrite Nat2Z.inj_add, Z2Nat.id by lia.
        now apply pad_reaches_multiple.
Qed.

Lemma bytes_used_is_the_size_before_padding_witness :
  exists st s f,
    main_body (Samples.scripted_main 0 [1; 2; 3]) Samples.plain_options tt
    = Main_end st s f
    /\ 0 < devblksize Samples.plain_options
    /\ bytes_used s = 139
    /\ get_size f = 4096
    /\ exists s0 f0 pad,
         main_head (Samples.scripted_main 0 [1; 2; 3]) EXIT_SUCCESS
           Samples.plain_options tt = inr (s0, f0)
         /\ s = set_bytes_used s0 (get_size f0)
         /\ bytes_used s = get_size f0
         /\ f = write_at f0 0 (super_bytes s) ++ zeros pad
         /\ List.length (write_at f0 0 (super_bytes s)) = List.length f0
         /\ skipn 96 (write_at f0 0 (super_bytes s)) = skipn 96 f0
         /\ stored_bytes_used f = bytes_used s mod 2 ^ 64
         /\ Z.of_nat pad < devblksize Samples.plain_options
         /\ get_size f mod devblksize Samples.plain_options = 0.
Proof.
  do 3 eexists.
  split; [vm_compute; reflexivity|].
  split; [reflexivity|].
  split; [reflexivity|].
  split; [reflexivity|].
  eapply (bytes_used_is_the_size_before_padding
            (Samples.scripted_main 0 [1; 2; 3]) Samples.plain_options tt).
  - reflexivity.
  - vm_compute. reflexivity.
Defined.

End ImageEnd.

(** ** Tar records *)

Section TarFacts.
Import Tar Samples.
Local Open Scope list_scope.

Context {FS N D : Type}.
Variable T : tar_env FS N D.
Variable opts : Args.options.

Lemma skip_bytes_advance (s s' : stdin_t) (n : Z) :
  skip_bytes s n = (0, s') -> pos s' = pos s + n.
Proof.
  unfold skip_bytes. destruct (pos s + n <=? size s); [|discriminate].
  intros H. injection H as <-. reflexivity.
Qed.

(** Skipping an entry takes its size, rounded up to 512 bytes, from
    standard input. *)
Lemma skip_entry_advance (s s' : stdin_t) (n : Z) :
  skip_entry s n = (0, s') -> pos s' = pos s + padded (Int.u64 n).
Proof.
  unfold skip_entry, padded. intros H. apply skip_bytes_advance in H.
  exact H.
Qed.

(** Skipping the padding takes what leads from the size to the next
    multiple of 512. *)
Lemma skip_padding_advance (s s' : stdin_t) (n : Z) :
  skip_padding s n = (0, s') ->
  pos s' = pos s + (padded (Int.u64 n) - Int.u64 n).
Proof.
  unfold skip_padding, padded.
  destruct (Int.u64 n mod 512 =? 0).
  - intros H. injection H as <-. lia.
  - intros H. apply skip_bytes_advance in H. lia.
Qed.

Lemma pack_from_stdin_advance (st st' : tar_state FS D) (n : Z)
    (pack : D -> stdin_file -> Z * D) :
  pack_from_stdin st n pack = (0, st') ->
  pos (stdin st') = pos (stdin st) + n.
Proof.
  unfold pack_from_stdin.
  destruct (skip_bytes (stdin st) n) as [r s'] eqn:Hs.
  destruct (negb (r =? 0)) eqn:Hr; [discriminate|].
  apply negb_false_iff, Z.eqb_eq in Hr. subst r.
  apply skip_bytes_advance in Hs.
  destruct (pack (data st) _) as [ret d']. intros H. injection H as -> <-.
  exact Hs.
Qed.

(** A file that is written takes from standard input the sum of the
    lengths of its extents and the padding behind [record_size] when it is
    sparse, and its size with the padding when it is not. *)
Lemma write_file_advance (hdr : tar_header_decoded_t) (fi : file_info_t)
    (st st' : tar_state FS D) :
  write_file T hdr fi st = (0, st') ->
  pos (stdin st') - pos (stdin st)
  = match sparse hdr with
    | [] => padded (Int.u64 (fi_size fi)) + (fi_size fi - Int.u64 (fi_size fi))
    | _ :: _ =>
        sparse_sum (sparse hdr)
        + (padded (Int.u64 (record_size hdr)) - Int.u64 (record_size hdr))
    end.
Proof.
  unfold write_file. destruct (sparse hdr) as [|e m].
  - destruct (pack_from_stdin st (fi_size fi) _) as [ret st1] eqn:Hp.
    destruct (negb (ret =? 0)) eqn:Hr; [discriminate|].
    apply negb_false_iff, Z.eqb_eq in Hr. subst ret.
    apply pack_from_stdin_advance in Hp.
    destruct (skip_padding (stdin st1) (fi_size fi)) as [r s'] eqn:Hs.
    intros H. injection H as -> <-.
    apply skip_padding_advance in Hs. simpl. lia.
  - destruct (pack_from_stdin st (sparse_sum (e :: m)) _) as [ret st1] eqn:Hp.
    destruct (negb (ret =? 0)) eqn:Hr; [discriminate|].
    apply negb_false_iff, Z.eqb_eq in Hr. subst ret.
    apply pack_from_stdin_advance in Hp.
    destruct (skip_padding (stdin st1) (record_size hdr)) as [r s'] eqn:Hs.
    intros H. injection H as -> <-.
    apply skip_padding_advance in Hs. simpl. lia.
Qed.

Lemma stdin_after_messages (msgs : list string) (t : tar_state FS D) :
  stdin (fold_left say_err msgs t) = stdin t.
Proof.
  revert t. induction msgs as [|m r IH]; intros t; simpl; [reflexivity|].
  now rewrite IH.
Qed.

(** What one pass of the loop does with a record the three tests have
    marked: with [dont_skip] the function returns -1; without it
    [skip_entry] is called with [st_size], and the loop goes on, tree and
    data writer untouched, when that call succeeds. *)
Lemma marked_record_is_skipped_or_fatal (st : tar_state FS D)
    (hdr hdr' : tar_header_decoded_t) (s1 : stdin_t) (msgs : list string) :
  read_header T (stdin st) = (0, hdr, s1) ->
  check_record T hdr = (true, hdr', msgs) ->
  let st1 := fold_left say_err msgs (with_stdin st s1) in
  one_pass T opts st
  = if Args.dont_skip opts then Pass_return (-1) st1
    else
      match skip_entry s1 (st_size (sb hdr')) with
      | (0, s2) => Pass_next (with_stdin st1 s2)
      | (_, s2) => Pass_return (-1) (with_stdin st1 s2)
      end.
Proof.
  intros Hr Hc. unfold one_pass. rewrite Hr. cbv iota beta. simpl (0 >? 0).
  simpl (0 <? 0). cbv iota. rewrite Hc. cbv iota beta zeta.
  destruct (Args.dont_skip opts); [reflexivity|].
  rewrite stdin_after_messages. simpl (stdin (with_stdin st s1)).
  destruct (skip_entry s1 (st_size (sb hdr'))) as [r s2].
  destruct r; reflexivity.
Qed.

End TarFacts.

Section SparseCheck.
Import Tar Samples.
Local Open Scope list_scope.

Lemma sparse_scan_sound (m : list sparse_map_t) (off cnt : Z) (c : Z) :
  Forall (fun e => 0 <= offset e /\ 0 <= count e
                   /\ offset e + count e < Int.two64) m ->
  0 <= cnt -> cnt + total_count m < Int.two64 ->
  sparse_scan m off cnt = (false, c) ->
  c = cnt + total_count m
  /\ ascending m = true
  /\ match m with [] => True | e :: _ => off <= offset e end.
Proof.
  intros Hall. revert off cnt.
  induction Hall as [|e m [Ho [Hc He]] Hm IH]; intros off cnt Hcnt Htot.
  - simpl. intros H. injection H as <-. repeat split. lia.
  - cbn [sparse_scan] in *.
    change (total_count (e :: m)) with (count e + total_count m) in *.
    destruct (offset e <? off) eqn:Hlt; [discriminate|].
    apply Z.ltb_ge in Hlt.
    assert (Hm0 : 0 <= total_count m).
    { clear - Hm. induction Hm as [|x r [_ [Hx _]] _ IHr]; simpl; lia. }
    rewrite !u64_small by lia.
    intros H. apply IH in H; [|lia|lia].
    destruct H as [-> [Hasc Hhd]].
    repeat split; [lia| |assumption].
    destruct m as [|b r]; [reflexivity|].
    change (ascending (e :: b :: r))
      with ((offset e <=? offset b) && ascending (b :: r)).
    rewrite Hasc, andb_true_r.
    apply Z.leb_le. lia.
Qed.

(** As long as the ends of the extents and the sum of their lengths fit
    in 64 bits, the three tests mark every record whose name is refused,
    whose type is unknown, or whose sparse map does not ascend or does not
    add up to [record_size]. *)
Lemma check_record_marks_invalid {FS N D : Type} (T : tar_env FS N D)
    (hdr : tar_header_decoded_t) :
  fits_64_bit (sparse hdr) ->
  (match name hdr with
   | None => True
   | Some n => fst (canonicalize_name T n) <> 0
   end
   \/ unknown_record hdr = true
   \/ (sparse hdr <> []
       /\ (ascending (sparse hdr) = false
           \/ total_count (sparse hdr) <> record_size hdr))) ->
  fst (fst (check_record T hdr)) = true.
Proof.
  intros [Hall Htot] Hbad. unfold check_record.
  destruct (name hdr) as [n|] eqn:En; [|reflexivity].
  destruct (canonicalize_name T n) as [r n'] eqn:Ec.
  destruct (negb (r =? 0)) eqn:Hr; [reflexivity|].
  apply negb_false_iff, Z.eqb_eq in Hr. subst r.
  cbn [unknown_record sparse record_size].
  destruct (unknown_record hdr) eqn:Eu; [reflexivity|].
  destruct Hbad as [Hbad|[Hbad|[Hne Hbad]]];
    [simpl in Hbad; congruence|discriminate|].
  destruct (sparse hdr) as [|e m] eqn:Es; [congruence|].
  destruct (sparse_scan (e :: m) (offset e) 0) as [broke cnt] eqn:Hscan.
  destruct broke;
    [now destruct (negb (cnt =? record_size hdr))|].
  apply sparse_scan_sound in Hscan; [|assumption|lia|lia].
  destruct Hscan as [-> [Hasc _]].
  destruct Hbad as [Hbad|Hbad]; [congruence|].
  destruct (0 + total_count (e :: m) =? record_size hdr) eqn:Heq.
  - apply Z.eqb_eq in Heq. lia.
  - reflexivity.
Qed.

End SparseCheck.

Section TarRuns.
Import Tar Samples.
Local Open Scope list_scope.

(** C5: for the record of the sparse test archive, whose body takes
    [record_size] = 32768 bytes of the stream and whose [st_size] is
    2097152, the pass that packs the record takes 32768 bytes behind the
    header, and the pass that skips it, the name being refused, takes
    2097152 bytes. *)
Theorem skipping_a_sparse_record_takes_st_size :
  record_size sparse_fixture = 32768
  /\ st_size (sb sparse_fixture) = 2097152
  /\ (exists st,
         one_pass (one_record_reader sparse_fixture true) plain_options
           tar_start = Pass_next st
         /\ pos (stdin st) = 512 + 32768)
  /\ (exists st,
         one_pass (one_record_reader sparse_fixture false) plain_options
           tar_start = Pass_next st
         /\ pos (stdin st) = 512 + 2097152).
Proof.
  repeat split; eexists; split; vm_compute; reflexivity.
Qed.

(** C4: two records with a broken sparse map. The extents of the first
    do not ascend, the end of its first extent is 2 ^ 64, and the tests of
    [process_tar_ball] let it pass: with [dont_skip] set the record is
    packed and the loop goes on. The second is the record of the sparse
    test archive with two extents exchanged; it is marked and skipped with
    a diagnostic, and the skip takes 2097152 bytes behind the header where
    the body takes 32768, so the loop does not go on at the next record. *)
Theorem broken_sparse_map_passes_or_overruns :
  ascending (sparse wrapping_sparse) = false
  /\ fst (fst (check_record (one_record_reader wrapping_sparse true)
                 wrapping_sparse)) = false
  /\ (exists st,
         one_pass (one_record_reader wrapping_sparse true)
           (Args.set_dont_skip plain_options true) tar_start = Pass_next st
         /\ fs st = ["wrap.bin"])
  /\ ascending (sparse unordered_sparse) = false
  /\ record_size unordered_sparse = 32768
  /\ (exists st,
         one_pass (one_record_reader unordered_sparse true) plain_options
           tar_start = Pass_next st
         /\ pos (stdin st) = 512 + 2097152
         /\ List.length (stderr st) = 1%nat).
Proof.
  repeat split; try (eexists; repeat split; vm_compute; reflexivity).
Qed.

End TarRuns.

(** ** The identifier table *)

Section IdTableFacts.
Import Sink IdTable.
Local Open Scope list_scope.

Lemma find_index_none (l : list Z) (id i : Z) :
  find_index l id i = None <-> existsb (Z.eqb id) l = false.
Proof.
  revert i. induction l as [|x r IH]; intros i; simpl; [tauto|].
  rewrite (Z.eqb_sym id x). destruct (x =? id); simpl.
  - split; discriminate.
  - apply IH.
Qed.

Lemma existsb_eqb_in (x : Z) (l : list Z) :
  existsb (Z.eqb x) l = true <-> In x l.
Proof.
  rewrite existsb_exists. split.
  - intros [y [Hy He]]. apply Z.eqb_eq in He. now subst.
  - intros H. exists x. split; [assumption|apply Z.eqb_refl].
Qed.

(** Looking up a list of identifiers appends the new ones, each once,
    in the order of their first occurrence. *)
Lemma insert_all_ids (l : list Z) (tbl : id_table_t) :
  ids (insert_all tbl l) = ids tbl ++ distinct (ids tbl) (map Int.u32 l).
Proof.
  unfold insert_all. revert tbl.
  induction l as [|x r IH]; intros tbl; simpl.
  - now rewrite app_nil_r.
  - rewrite IH. unfold id_to_index.
    destruct (find_index (ids tbl) (Int.u32 x) 0) as [i|] eqn:Hf.
    + simpl.
      destruct (existsb (Z.eqb (Int.u32 x)) (ids tbl)) eqn:He; [reflexivity|].
      apply (proj2 (find_index_none (ids tbl) (Int.u32 x) 0)) in He.
      congruence.
    + apply find_index_none in Hf. rewrite Hf. simpl.
      now rewrite <- app_assoc.
Qed.

Lemma in_distinct (v : Z) (l seen : list Z) :
  In v (distinct seen l) <-> In v l /\ ~ In v seen.
Proof.
  revert seen. induction l as [|x r IH]; intros seen; simpl; [tauto|].
  destruct (existsb (Z.eqb x) seen) eqn:He.
  - apply existsb_eqb_in in He. rewrite IH. split.
    + intros [H1 H2]. tauto.
    + intros [[->|H1] H2]; [contradiction|tauto].
  - assert (Hx : ~ In x seen).
    { intros H. apply existsb_eqb_in in H. congruence. }
    simpl. rewrite IH, in_app_iff. simpl. split.
    + intros [<-|[H1 H2]]; [tauto|]. split; [tauto|]. tauto.
    + intros [[<-|H1] H2]; [tauto|].
      destruct (Z.eq_dec x v) as [->|Hn]; [tauto|]. right. tauto.
Qed.

Lemma nodup_distinct (l seen : list Z) : NoDup (distinct seen l).
Proof.
  revert seen. induction l as [|x r IH]; intros seen; simpl; [constructor|].
  destruct (existsb (Z.eqb x) seen); [apply IH|].
  constructor; [|apply IH].
  rewrite in_distinct, in_app_iff. simpl. tauto.
Qed.

Lemma bswap32_bytes (v : Z) : le_bytes 4 (bswap32 v) = rev (le_bytes 4 v).
Proof.
  unfold bswap32.
  pose proof (le_bytes_le_value (rev (le_bytes 4 v))) as H.
  rewrite length_rev, length_le_bytes in H. apply H.
  apply Forall_rev, le_bytes_range.
Qed.

(** The bytes of a value converted by [htole32], as they lie in the
    memory of the host, are the value's four bytes, least significant
    first, whatever the byte order of the host. *)
Lemma host_bytes_of_htole32 (big_endian : bool) (v : Z) :
  host_bytes32 big_endian (htole32 big_endian v) = le_bytes 4 v.
Proof.
  destruct big_endian; unfold host_bytes32, htole32; [|reflexivity].
  rewrite bswap32_bytes. apply rev_involutive.
Qed.

Lemma le32toh_htole32 (big_endian : bool) (v : Z) :
  0 <= v < Int.two32 -> le32toh big_endian (htole32 big_endian v) = v.
Proof.
  intros Hv. destruct big_endian; unfold le32toh, htole32; [|reflexivity].
  unfold bswap32 at 1. rewrite bswap32_bytes, rev_involutive.
  rewrite le_value_le_bytes. apply Z.mod_small. exact Hv.
Qed.

Lemma distinct_range (l seen : list Z) :
  Forall (fun v => 0 <= v < Int.two32) (distinct seen (map Int.u32 l)).
Proof.
  apply Forall_forall. intros v Hv. apply in_distinct in Hv as [Hv _].
  apply in_map_iff in Hv as [x [<- _]]. apply u32_range.
Qed.

Lemma host_bytes_of_table (big_endian : bool) (l : list Z) :
  flat_map (host_bytes32 big_endian) (map (htole32 big_endian) l)
  = flat_map (le_bytes 4) l.
Proof.
  induction l as [|x r IH]; [reflexivity|].
  cbn [map flat_map]. now rewrite host_bytes_of_htole32, IH.
Qed.

Lemma le32toh_of_table (big_endian : bool) (l : list Z) :
  Forall (fun v => 0 <= v < Int.two32) l ->
  map (le32toh big_endian) (map (htole32 big_endian) l) = l.
Proof.
  induction 1 as [|x r Hx Hr IH]; [reflexivity|].
  cbn [map]. now rewrite le32toh_htole32, IH.
Qed.

(** [id_table_write] on a table of 32 bit values: [sqfs_write_table] is
    called with [id_count] set to the low 16 bits of the number of entries
    and with the entries' bytes, four for each, least significant first,
    in the order of the table, and the table is left as it was. *)
Lemma id_table_write_spec {W : Type} (big_endian : bool)
    (sqfs_write_table : write_table_fn W) (tbl : id_table_t) (w : W)
    (super : sqfs_super_t) :
  Forall (fun v => 0 <= v < Int.two32) (ids tbl) ->
  id_table_write big_endian sqfs_write_table tbl w super
  = let '(ret, w', super') :=
      sqfs_write_table w (set_id_count super (Int.u16 (num_ids tbl)))
        (flat_map (le_bytes 4) (ids tbl)) 4 (num_ids tbl)
        set_id_table_start in
    (ret, tbl, w', super').
Proof.
  intros Hr. unfold id_table_write, num_ids. cbn [ids].
  rewrite length_map.
  rewrite host_bytes_of_table, le32toh_of_table by assumption.
  destruct tbl as [l]. reflexivity.
Qed.

(** The bytes of a table of 32 bit values, read back four at a time. *)
Lemma le32_values_le_bytes (l : list Z) :
  Forall (fun v => 0 <= v < Int.two32) l ->
  le32_values (List.length l) (flat_map (le_bytes 4) l) = l.
Proof.
  induction 1 as [|x r Hx Hr IH]; [reflexivity|].
  cbn [List.length flat_map le32_values].
  rewrite firstn_le_bytes_app, skipn_le_bytes_app by lia.
  rewrite Nat.sub_diag. cbn [skipn]. rewrite IH, le_value_le_bytes.
  f_equal. apply Z.mod_small. exact Hx.
Qed.

Lemma length_table_bytes (l : list Z) :
  List.length (flat_map (le_bytes 4) l) = (4 * List.length l)%nat.
Proof.
  induction l as [|x r IH]; [reflexivity|].
  cbn [flat_map List.length]. rewrite length_app, length_le_bytes, IH. lia.
Qed.

Lemma table_bytes_range (l : list Z) :
  Forall (fun b => 0 <= b < 256) (flat_map (le_bytes 4) l).
Proof.
  induction l as [|x r IH]; [constructor|].
  cbn [flat_map]. apply Forall_app. split; [apply le_bytes_range|exact IH].
Qed.

Lemma id_count_set_back (s : sqfs_super_t) (v : Z) :
  set_id_count (set_id_count s v) (id_count s) = s.
Proof. destruct s. reflexivity. Qed.

(** A list without repetitions, none of whose members was seen, is its
    own list of distinct members. *)
Lemma distinct_fresh (l : list Z) :
  forall seen, NoDup l -> (forall x, In x l -> ~ In x seen) ->
               distinct seen l = l.
Proof.
  induction l as [|x r IH]; intros seen Hn Hs; [reflexivity|].
  cbn [distinct]. inversion Hn as [|? ? Hx Hr]; subst.
  destruct (existsb (Z.eqb x) seen) eqn:He.
  - apply existsb_eqb_in in He. elim (Hs x); [now left|exact He].
  - f_equal. apply IH; [exact Hr|].
    intros y Hy Hin. apply in_app_or in Hin as [Hin|[<-|[]]].
    + elim (Hs y); [now right|exact Hin].
    + contradiction.
Qed.

End IdTableFacts.

(** ** Trees *)

Section TreeFacts.
Import Serialize.
Local Open Scope list_scope.

Lemma nodes_of_eq (n : tree_node) :
  nodes_of n = n :: (if S_ISDIR (mode n) then below n else []).
Proof. destruct n as [nm md u g mt lc xi inum iref d]. reflexivity. Qed.

Lemma below_order_eq (n : tree_node) :
  below_order n
  = flat_map (fun it => if S_ISDIR (mode it) then below_order it else [])
      (dir_children n)
    ++ dir_children n.
Proof.
  destruct n as [nm md u g mt lc xi inum iref d].
  destruct d; reflexivity.
Qed.

Lemma below_eq (n : tree_node) : below n = flat_map nodes_of (dir_children n).
Proof.
  destruct n as [nm md u g mt lc xi inum iref d]. destruct d; reflexivity.
Qed.

Lemma strip_eq (n : tree_node) :
  strip n
  = mk_node (name n) (mode n) (uid n) (gid n) (mod_time n) (link_count n)
      (xattr_idx n) (inode_num n) 0
      (match ndata n with
       | D_dir c => D_dir (map strip c)
       | D_file _ => D_file None
       | d => d
       end).
Proof. destruct n as [nm md u g mt lc xi inum iref d]. reflexivity. Qed.

Lemma strip_mode (a b : tree_node) : strip a = strip b -> mode a = mode b.
Proof. rewrite !strip_eq. intros H. now injection H. Qed.

Lemma strip_inode_num (a b : tree_node) :
  strip a = strip b -> inode_num a = inode_num b.
Proof. rewrite !strip_eq. intros H. now injection H. Qed.

Lemma strip_uid_gid (a b : tree_node) :
  strip a = strip b -> uid a = uid b /\ gid a = gid b.
Proof. rewrite !strip_eq. intros H. injection H. intros. now split. Qed.

Lemma strip_children (a b : tree_node) :
  strip a = strip b ->
  map strip (dir_children a) = map strip (dir_children b).
Proof.
  rewrite !strip_eq. unfold dir_children. intros H. injection H as _ _ _ _ _ _ _ _ H.
  destruct (ndata a), (ndata b); try discriminate; try reflexivity.
  now injection H.
Qed.

Lemma strip_set_inode_ref (n : tree_node) (r : Z) :
  strip (set_inode_ref n r) = strip n.
Proof. rewrite !strip_eq. reflexivity. Qed.

Lemma strip_clear_user_ptr (n : tree_node) :
  strip (clear_user_ptr n) = strip n.
Proof.
  rewrite !strip_eq. unfold clear_user_ptr. cbn.
  destruct (ndata n); reflexivity.
Qed.

Lemma strip_set_children (n : tree_node) (c : list tree_node) :
  map strip c = map strip (dir_children n) ->
  strip (set_children n c) = strip n.
Proof.
  rewrite !strip_eq. unfold set_children, dir_children. cbn.
  destruct (ndata n); intros H; try reflexivity. now rewrite H.
Qed.

Lemma below_set_inode_ref (n : tree_node) (r : Z) :
  below (set_inode_ref n r) = below n.
Proof. reflexivity. Qed.

Lemma below_clear_user_ptr (n : tree_node) :
  below (clear_user_ptr n) = below n.
Proof. unfold below, clear_user_ptr. cbn. destruct (ndata n); reflexivity. Qed.

Lemma dir_children_set_children (n : tree_node) (c : list tree_node) :
  dir_children (set_children n c)
  = match ndata n with D_dir _ => c | _ => [] end.
Proof. unfold dir_children, set_children. cbn. destruct (ndata n); reflexivity. Qed.

Lemma no_subdirs (l : list tree_node) (f : tree_node -> list tree_node) :
  existsb (fun it => S_ISDIR (mode it)) l = false ->
  flat_map (fun it => if S_ISDIR (mode it) then f it else []) l = [].
Proof.
  induction l as [|x r IH]; simpl; [reflexivity|].
  intros H. apply orb_false_iff in H as [Hx Hr]. rewrite Hx. simpl. auto.
Qed.

(** The order of the serialiser is read off the stripped tree. *)
Lemma below_order_strip (n : tree_node) :
  map strip (below_order n) = below_order (strip n).
Proof.
  induction n as [n IH] using tree_induction.
  rewrite (below_order_eq n), (below_order_eq (strip n)).
  assert (Hc : dir_children (strip n) = map strip (dir_children n)).
  { rewrite strip_eq. unfold dir_children. cbn. destruct (ndata n); reflexivity. }
  rewrite Hc, map_app. clear Hc. f_equal.
  induction IH as [|x r Hx Hr IHr]; [reflexivity|].
  cbn [flat_map map]. rewrite map_app, IHr.
  assert (Hm : mode (strip x) = mode x) by (rewrite strip_eq; reflexivity).
  rewrite Hm. destruct (S_ISDIR (mode x)); [now rewrite Hx|reflexivity].
Qed.

Lemma inode_num_strip (l : list tree_node) :
  map inode_num (map strip l) = map inode_num l.
Proof.
  rewrite map_map. apply map_ext. intros a. rewrite strip_eq. reflexivity.
Qed.

Lemma below_order_numbers (a b : tree_node) :
  strip a = strip b ->
  map inode_num (below_order a) = map inode_num (below_order b).
Proof.
  intros H.
  rewrite <- (inode_num_strip (below_order a)), <- (inode_num_strip (below_order b)).
  now rewrite !below_order_strip, H.
Qed.

End TreeFacts.

(** ** The serialiser *)

Section SerialiserFacts.
Import Sink Serialize.
Local Open Scope list_scope.

Context {W IDT : Type}.
Variable E : writer_ops W IDT.

Local Abbreviation writer := (sqfs_writer_t W IDT).

Lemma written_app (a b : list event) : written (a ++ b) = written a ++ written b.
Proof.
  induction a as [|e a IH]; [reflexivity|].
  destruct e; simpl; rewrite IH; reflexivity.
Qed.

Lemma looked_up_app (a b : list event) :
  looked_up (a ++ b) = looked_up a ++ looked_up b.
Proof.
  induction a as [|e a IH]; [reflexivity|].
  destruct e; simpl; rewrite IH; reflexivity.
Qed.

Lemma numbers_app (a b : list event) : numbers (a ++ b) = numbers a ++ numbers b.
Proof. unfold numbers. now rewrite written_app, map_app. Qed.

Lemma replay_app (a b : list event) (w : W) :
  replay E (a ++ b) w = replay E b (replay E a w).
Proof. unfold replay. apply fold_left_app. Qed.

Lemma Run_refl (wr : writer) : Run E wr wr [].
Proof. unfold Run. rewrite app_nil_r. repeat split. Qed.

Lemma Run_trans (a b c : writer) (e1 e2 : list event) :
  Run E a b e1 -> Run E b c e2 -> Run E a c (e1 ++ e2).
Proof.
  intros [H1 [H2 [H3 [H7 H9]]]] [H4 [H5 [H6 [H8 H10]]]]. unfold Run.
  rewrite H4, H1, H5, H2, forallb_app, H3, H6, app_assoc, H8, H7, H10, H9.
  rewrite looked_up_app, replay_app. unfold lookups. rewrite fold_left_app.
  auto.
Qed.

Lemma Run_log (wr : writer) (w : W) (e : event) :
  inner e = true -> looked_up [e] = [] -> w = after E (world wr) e ->
  Run E wr (log wr w e) [e].
Proof.
  intros H Hl Hw. unfold Run, log. rewrite Hl. simpl. rewrite H.
  repeat split. exact Hw.
Qed.

Lemma Ordered_nil : Ordered [] [].
Proof. split; reflexivity. Qed.

Lemma Ordered_app (e1 e2 : list event) (o1 o2 : list tree_node) :
  Ordered e1 o1 -> Ordered e2 o2 -> Ordered (e1 ++ e2) (o1 ++ o2).
Proof.
  intros [H1 H2] [H3 H4]. unfold Ordered.
  rewrite numbers_app, looked_up_app, map_app, flat_map_app.
  now rewrite H1, H2, H3, H4.
Qed.

Lemma Ordered_strip (evs : list event) (a b : list tree_node) :
  map strip a = map strip b -> Ordered evs a -> Ordered evs b.
Proof.
  intros H [H1 H2]. unfold Ordered.
  assert (Hn : map inode_num a = map inode_num b).
  { rewrite <- (inode_num_strip a), <- (inode_num_strip b). now rewrite H. }
  assert (Hi : flat_map (fun n => [uid n; gid n]) a
               = flat_map (fun n => [uid n; gid n]) b).
  { clear - H. revert b H. induction a as [|x a IH]; intros [|y b] H;
      try discriminate; [reflexivity|].
    simpl in H. injection H as Hx Hr. simpl.
    destruct (strip_uid_gid x y Hx) as [-> ->]. now rewrite (IH b Hr). }
  now rewrite <- Hn, <- Hi.
Qed.

Lemma Emitted_app (w0 : W) (pre post evs : list event) (n : tree_node) :
  Emitted E (replay E pre w0) evs n -> Emitted E w0 (pre ++ evs ++ post) n.
Proof.
  intros (p & q & ino & H). cbv zeta in H. destruct H as (-> & H1 & H2 & H3).
  exists (pre ++ p), (q ++ post), ino. cbv zeta.
  rewrite replay_app.
  repeat split; try assumption.
  rewrite <- !app_assoc. simpl. reflexivity.
Qed.

Lemma Emitted_left (w0 : W) (evs post : list event) (n : tree_node) :
  Emitted E w0 evs n -> Emitted E w0 (evs ++ post) n.
Proof. intros H. exact (Emitted_app w0 [] post evs n H). Qed.

Lemma Emitted_right (w0 : W) (pre evs : list event) (n : tree_node) :
  Emitted E (replay E pre w0) evs n -> Emitted E w0 (pre ++ evs) n.
Proof.
  intros H. apply (Emitted_app w0 pre []) in H. now rewrite app_nil_r in H.
Qed.

(** What was emitted after a run was emitted by the run and what came
    after it. *)
Lemma Emitted_after (a b : writer) (e1 e2 : list event) (n : tree_node) :
  Run E a b e1 -> Emitted E (world b) e2 n -> Emitted E (world a) (e1 ++ e2) n.
Proof.
  intros (_ & _ & _ & _ & Hw) H. apply Emitted_right. now rewrite <- Hw.
Qed.

(** The directory writer's calls are part of the emission; they write no
    inode and look up no identifier. *)
Lemma add_entries_run (l : list tree_node) (wr wr' : writer) (ret : Z) :
  add_entries E l wr = (ret, wr') ->
  exists evs, Run E wr wr' evs /\ written evs = [] /\ looked_up evs = []
              /\ idtbl wr' = idtbl wr.
Proof.
  revert wr. induction l as [|it rest IH]; intros wr; simpl.
  - intros H. injection H as _ <-. exists []. split; [apply Run_refl|auto].
  - destruct (sqfs_dir_writer_add_entry E (world wr) (name it) (inode_num it)
                (inode_ref it) (mode it)) as [r w] eqn:Hcall.
    set (e := Ev_dir_add_entry (name it) (inode_num it) (inode_ref it) (mode it)).
    assert (Hlog : Run E wr (log wr w e) [e]).
    { apply Run_log; [reflexivity|reflexivity|].
      unfold e. cbn [after]. now rewrite Hcall. }
    destruct (negb (r =? 0)).
    + intros H. injection H as _ <-. exists [e].
      split; [exact Hlog|auto].
    + intros H. apply IH in H as (evs & Hr & Hw & Hl & Hi).
      exists ([e] ++ evs). split; [|split; [|split]].
      * eapply Run_trans; [exact Hlog|exact Hr].
      * rewrite written_app, Hw. reflexivity.
      * rewrite looked_up_app, Hl. reflexivity.
      * rewrite Hi. reflexivity.
Qed.

Lemma write_dir_entries_run (parent : option Z) (n : tree_node)
    (wr wr' : writer) (ino : sqfs_inode_generic_t) :
  write_dir_entries E parent n wr = (Some ino, wr') ->
  exists evs, Run E wr wr' evs /\ written evs = [] /\ looked_up evs = []
              /\ idtbl wr' = idtbl wr.
Proof.
  unfold write_dir_entries.
  destruct (sqfs_dir_writer_begin E (world wr)) as [r0 w0] eqn:Hb.
  destruct (negb (r0 =? 0)); [discriminate|].
  destruct (add_entries E (dir_children n) (log wr w0 Ev_dir_begin))
    as [r1 wr1] eqn:Ha.
  destruct (negb (r1 =? 0)); [discriminate|].
  apply add_entries_run in Ha as (evs & Hr & Hw & Hl & Hi).
  destruct (sqfs_dir_writer_end E (world wr1)) as [r2 w2] eqn:He.
  destruct (negb (r2 =? 0)); [discriminate|].
  set (wr2 := log wr1 w2 Ev_dir_end).
  set (e3 := Ev_dir_create_inode (xattr_idx n)
               match parent with Some p => p | None => 0 end).
  destruct (sqfs_dir_writer_create_inode E (world wr2) 0 (xattr_idx n) _)
    as [i|]; [|discriminate].
  intros H.
  assert (Hwr : wr' = log wr2 (world wr2) e3)
    by (destruct (is_dir_type (type (base i))); now injection H).
  subst wr'.
  exists ([Ev_dir_begin] ++ evs ++ [Ev_dir_end] ++ [e3]).
  split; [|split; [|split]].
  - eapply Run_trans;
      [apply (Run_log wr w0 Ev_dir_begin);
       [reflexivity|reflexivity|cbn [after]; now rewrite Hb]|].
    eapply Run_trans; [exact Hr|].
    eapply Run_trans;
      [apply (Run_log wr1 w2 Ev_dir_end);
       [reflexivity|reflexivity|cbn [after]; now rewrite He]|].
    apply Run_log; reflexivity.
  - rewrite !written_app, Hw. reflexivity.
  - rewrite !looked_up_app, Hl. reflexivity.
  - simpl. rewrite Hi. reflexivity.
Qed.

(** [tree_node_to_inode] makes no call when it returns an inode. *)
Lemma tree_node_to_inode_some (n : tree_node) (wr wr' : writer)
    (i : sqfs_inode_generic_t) :
  tree_node_to_inode E n wr = Ret (Some i, wr') -> wr' = wr.
Proof.
  unfold tree_node_to_inode.
  destruct (negb (calloc E (world wr) _)); [discriminate|].
  repeat match goal with
         | |- context [if ?b then _ else _] => destruct b
         end;
    intros H; first [discriminate|now injection H].
Qed.

(** Without memory [tree_node_to_inode] reports and returns [NULL]. *)
Lemma tree_node_to_inode_none (n : tree_node) (wr wr' : writer) :
  tree_node_to_inode E n wr = Ret (None, wr') ->
  wr' = log wr (world wr) (Ev_libc_perror "creating inode")
  /\ calloc E (world wr)
       (if S_ISLNK (mode n) then CStr.strlen (target_of n) else O) = false.
Proof.
  unfold tree_node_to_inode.
  destruct (calloc E (world wr) _) eqn:Hc; cbn [negb].
  - repeat match goal with
           | |- context [if ?b then _ else _] => destruct b
           end; discriminate.
  - intros H. injection H as <-. now split.
Qed.

(** The second part of [serialize_tree_node]: when it returns 0, the
    identifiers of owner and group were looked up, the position of the
    inode writer was read and stored in the node as its reference, and the
    inode was written with the node's number. *)
Lemma finish_inode_run (ino : sqfs_inode_generic_t) (n n' : tree_node)
    (wr wr' : writer) :
  finish_inode E ino n wr = Ret (0, n', wr') ->
  exists evs,
    Run E wr wr' evs /\ Ordered evs [n] /\ Emitted E (world wr) evs n'
    /\ (exists r, n' = set_inode_ref n r).
Proof.
  unfold finish_inode, id_to_index.
  destruct (sqfs_inode_set_xattr_index E _ _ _) as [ty d].
  destruct (sqfs_id_table_id_to_index E (idtbl wr) (uid n))
    as [[r1 uidx] t1] eqn:Hu.
  destruct (negb (r1 =? 0)) eqn:H1.
  { intros H. injection H as -> _ _. discriminate. }
  cbn [idtbl world super trace].
  destruct (sqfs_id_table_id_to_index E t1 (gid n)) as [[r2 gidx] t2] eqn:Hg.
  destruct (negb (r2 =? 0)) eqn:H2.
  { intros H. injection H as -> _ _. discriminate. }
  cbn [idtbl world super trace].
  destruct (sqfs_meta_writer_get_position E (world wr) IM) as [b o] eqn:Hp.
  unfold log. cbn [idtbl world super trace].
  match goal with
  | |- context [sqfs_meta_writer_write_inode E ?w ?m ?i] =>
      destruct (sqfs_meta_writer_write_inode E w m i) as [r3 w3] eqn:Hw
  end.
  intros H. injection H as -> <- <-.
  eexists. split; [|split; [|split]].
  - unfold Run. cbn [idtbl world super trace].
    rewrite <- !app_assoc. split; [reflexivity|]. split; [reflexivity|].
    split; [reflexivity|]. split.
    + unfold lookups. cbn. rewrite Hu. cbn [snd]. now rewrite Hg.
    + cbn. now rewrite Hw.
  - split; reflexivity.
  - eexists [Ev_id_to_index (uid n); Ev_id_to_index (gid n)], [], _.
    cbv zeta. cbn [replay fold_left after].
    rewrite Hp, Hw. cbn [fst snd]. repeat split; reflexivity.
  - eexists. reflexivity.
Qed.

Lemma serialize_tree_node_run (parent : option Z) (n n' : tree_node)
    (wr wr' : writer) :
  serialize_tree_node E parent n wr = Ret (0, n', wr') ->
  exists evs,
    Run E wr wr' evs /\ Ordered evs [n] /\ Emitted E (world wr) evs n'
    /\ strip n' = strip n /\ below n' = below n.
Proof.
  unfold serialize_tree_node.
  destruct (S_ISDIR (mode n)) eqn:Hd.
  - destruct (write_dir_entries E parent n wr) as [[i|] wr1] eqn:Hw.
    + apply write_dir_entries_run in Hw as (e1 & Hr1 & Hw1 & Hl1 & _).
      intros H. apply finish_inode_run in H as (e2 & Hr2 & Ho & He & [r ->]).
      exists (e1 ++ e2). split; [eapply Run_trans; eassumption|].
      split; [|split; [|split]].
      * destruct Ho as [Ha Hb]. unfold Ordered.
        rewrite numbers_app, looked_up_app. unfold numbers at 1.
        now rewrite Hw1, Hl1.
      * now apply (Emitted_after wr wr1).
      * apply strip_set_inode_ref.
      * reflexivity.
    + intros H. injection H as H _ _. discriminate.
  - destruct (S_ISREG (mode n)).
    + destruct (user_ptr_of n) as [i|].
      * intros H. apply finish_inode_run in H as (e2 & Hr2 & Ho & He & [r ->]).
        exists e2. split; [assumption|]. split; [|split; [|split]].
        -- eapply Ordered_strip; [|exact Ho]. cbn [map].
           now rewrite strip_clear_user_ptr.
        -- assumption.
        -- now rewrite strip_set_inode_ref, strip_clear_user_ptr.
        -- now rewrite below_set_inode_ref, below_clear_user_ptr.
      * intros H. injection H as H _ _. discriminate.
    + destruct (tree_node_to_inode E n wr) as [[[i|] wr1]|] eqn:Hn;
        [| |discriminate].
      * apply tree_node_to_inode_some in Hn. subst wr1.
        intros H. apply finish_inode_run in H as (e2 & Hr2 & Ho & He & [r ->]).
        exists e2. split; [assumption|]. split; [assumption|].
        split; [assumption|].
        split; [apply strip_set_inode_ref|reflexivity].
      * intros H. injection H as H _ _. discriminate.
Qed.

(** The third loop: when it returns 0, the inode of every member of
    the list was written, in list order. *)
Lemma serialize_children_run (parent : option Z) (l l' : list tree_node)
    (wr wr' : writer) :
  serialize_children E parent l wr = Ret (0, l', wr') ->
  exists evs,
    Run E wr wr' evs /\ Ordered evs l /\ Forall (Emitted E (world wr) evs) l'
    /\ Forall2 (fun n n' => strip n' = strip n /\ below n' = below n) l l'.
Proof.
  revert l' wr. induction l as [|it rest IH]; intros l' wr; simpl.
  - intros H. injection H as <- <-. exists [].
    split; [apply Run_refl|]. split; [apply Ordered_nil|]. split; constructor.
  - destruct (serialize_tree_node E parent it wr) as [[[r1 it'] wr1]|] eqn:H1;
      [|discriminate].
    destruct (negb (r1 =? 0)) eqn:Hr1.
    { intros H. injection H as -> _ _. discriminate. }
    apply negb_false_iff, Z.eqb_eq in Hr1. subst r1.
    destruct (serialize_children E parent rest wr1) as [[[r2 rest'] wr2]|] eqn:H2;
      [|discriminate].
    intros H. injection H as -> <- <-.
    apply serialize_tree_node_run in H1 as (e1 & Ha & Hb & Hc & Hd & He).
    apply IH in H2 as (e2 & Hf & Hg & Hh & Hi).
    exists (e1 ++ e2). split; [eapply Run_trans; eassumption|].
    split; [apply (Ordered_app e1 e2 [it] rest); assumption|].
    split.
    + constructor; [now apply Emitted_left|].
      eapply Forall_impl; [|exact Hh]. intros a.
      now apply (Emitted_after wr wr1).
    + constructor; [split; assumption|assumption].
Qed.

Lemma visit_subdirs_run
    (rec : tree_node -> writer -> res (Z * tree_node * writer))
    (l l' : list tree_node) (wr wr' : writer) :
  Forall (below_written E rec) l ->
  visit_subdirs rec l wr = Ret (0, l', wr') ->
  exists evs,
    Run E wr wr' evs
    /\ Ordered evs
         (flat_map (fun it => if S_ISDIR (mode it) then below_order it else [])
            l)
    /\ Forall2 (fun n n' => strip n' = strip n) l l'
    /\ Forall (Emitted E (world wr) evs)
         (flat_map (fun it => if S_ISDIR (mode it) then below it else []) l').
Proof.
  intros Hall. revert l' wr.
  induction Hall as [|it rest Hit Hrest IH]; intros l' wr; simpl.
  - intros H. injection H as <- <-. exists [].
    split; [apply Run_refl|]. split; [apply Ordered_nil|]. split; constructor.
  - destruct (S_ISDIR (mode it)) eqn:Hd.
    + destruct (rec it wr) as [[[r1 it'] wr1]|] eqn:H1; [|discriminate].
      destruct (negb (r1 =? 0)) eqn:Hr1.
      { intros H. injection H as -> _ _. discriminate. }
      apply negb_false_iff, Z.eqb_eq in Hr1. subst r1.
      destruct (visit_subdirs rec rest wr1) as [[[r2 rest'] wr2]|] eqn:H2;
        [|discriminate].
      intros H. injection H as -> <- <-.
      apply Hit in H1 as (e1 & Ha & Hb & Hc & Hd').
      apply IH in H2 as (e2 & Hf & Hg & Hh & Hi).
      exists (e1 ++ e2). split; [eapply Run_trans; eassumption|].
      split; [now apply Ordered_app|].
      split; [now constructor|].
      cbn [flat_map]. rewrite (strip_mode it' it Hc), Hd.
      apply Forall_app. split.
      * eapply Forall_impl; [|exact Hd']. intros a. apply Emitted_left.
      * eapply Forall_impl; [|exact Hi]. intros a.
        now apply (Emitted_after wr wr1).
    + destruct (visit_subdirs rec rest wr) as [[[r2 rest'] wr2]|] eqn:H2;
        [|discriminate].
      intros H. injection H as -> <- <-.
      apply IH in H2 as (e2 & Hf & Hg & Hh & Hi).
      exists e2. split; [assumption|]. split; [assumption|].
      split; [now constructor|].
      cbn [flat_map]. rewrite Hd. exact Hi.
Qed.

Lemma serialize_recursive_eq (root : tree_node) (wr : writer) :
  serialize_recursive E root wr
  = match
      match ndata root with
      | D_dir c =>
          if existsb (fun it => S_ISDIR (mode it)) c
          then visit_subdirs (serialize_recursive E) c wr
          else Ret (0, c, wr)
      | _ => Ret (0, [], wr)
      end
    with
    | Aborted => Aborted
    | Ret (ret, kids, wr) =>
        if negb (ret =? 0) then Ret (ret, set_children root kids, wr)
        else
          match serialize_children E (Some (inode_num root)) kids wr with
          | Aborted => Aborted
          | Ret (ret, kids, wr) => Ret (ret, set_children root kids, wr)
          end
    end.
Proof. destruct root. reflexivity. Qed.

Lemma Forall2_strip (a b : list tree_node) :
  Forall2 (fun n n' => strip n' = strip n) a b -> map strip b = map strip a.
Proof. induction 1 as [|x y a b H _ IH]; simpl; [reflexivity|]. now rewrite H, IH. Qed.

Lemma Forall2_weaken (a b : list tree_node) :
  Forall2 (fun n n' => strip n' = strip n /\ below n' = below n) a b ->
  Forall2 (fun n n' => strip n' = strip n) a b.
Proof. induction 1; constructor; tauto. Qed.

(** The nodes of the children after the third loop are the children and
    what lay below them after the second. *)
Lemma children_emitted (w0 : W) (e2 e3 : list event)
    (k' k'' : list tree_node) :
  Forall2 (fun n n' => strip n' = strip n /\ below n' = below n) k' k'' ->
  Forall (Emitted E (replay E e2 w0) e3) k'' ->
  Forall (Emitted E w0 e2)
    (flat_map (fun it => if S_ISDIR (mode it) then below it else []) k') ->
  Forall (Emitted E w0 (e2 ++ e3)) (flat_map nodes_of k'').
Proof.
  induction 1 as [|x y a b [Hs Hb] _ IH]; intros H3 H2; [constructor|].
  cbn [flat_map] in *. apply Forall_app in H2 as [H2a H2b].
  inversion H3 as [|? ? Hy Hr]; subst.
  apply Forall_app. split; [|now apply IH].
  rewrite nodes_of_eq. constructor; [now apply Emitted_right|].
  rewrite (strip_mode y x Hs), Hb.
  destruct (S_ISDIR (mode x)); [|constructor].
  eapply Forall_impl; [|exact H2a]. intros n. apply Emitted_left.
Qed.

(** [serialize_recursive]: when it returns 0, the inodes of all nodes
    below the root were written, in the order of [below_order], each at
    the place its reference names. *)
Lemma serialize_recursive_run (root : tree_node) :
  below_written E (serialize_recursive E) root.
Proof.
  induction root as [root IH] using tree_induction.
  intros wr root' wr'. rewrite serialize_recursive_eq.
  rewrite below_order_eq, below_eq.
  assert (Hstep : forall kids' wr1 e2,
    Run E wr wr1 e2 ->
    Ordered e2
      (flat_map (fun it => if S_ISDIR (mode it) then below_order it else [])
         (dir_children root)) ->
    Forall2 (fun n n' => strip n' = strip n) (dir_children root) kids' ->
    Forall (Emitted E (world wr) e2)
      (flat_map (fun it => if S_ISDIR (mode it) then below it else []) kids') ->
    (match ndata root with D_dir _ => True | _ => kids' = [] end) ->
    match serialize_children E (Some (inode_num root)) kids' wr1 with
    | Aborted => Aborted
    | Ret (ret, kids, wr) => Ret (ret, set_children root kids, wr)
    end = Ret (0, root', wr') ->
    exists evs,
      Run E wr wr' evs
      /\ Ordered evs
           (flat_map
              (fun it => if S_ISDIR (mode it) then below_order it else [])
              (dir_children root) ++ dir_children root)
      /\ strip root' = strip root
      /\ Forall (Emitted E (world wr) evs)
           (flat_map nodes_of (dir_children root'))).
  { intros kids' wr1 e2 Hr2 Ho2 Hf2 He2 Hnd.
    destruct (serialize_children E (Some (inode_num root)) kids' wr1)
      as [[[r3 kids''] wr2]|] eqn:H3; [|discriminate].
    intros H. injection H as -> <- <-.
    apply serialize_children_run in H3 as (e3 & Hr3 & Ho3 & He3 & Hf3).
    pose proof (Forall2_strip _ _ Hf2) as Hs2.
    pose proof (Forall2_strip _ _ (Forall2_weaken _ _ Hf3)) as Hs3.
    exists (e2 ++ e3). split; [eapply Run_trans; eassumption|].
    split; [|split].
    - apply Ordered_app; [assumption|].
      eapply Ordered_strip; [|exact Ho3]. exact Hs2.
    - apply strip_set_children. now rewrite Hs3, Hs2.
    - rewrite dir_children_set_children.
      destruct (ndata root) eqn:Hn; try (constructor; fail).
      apply (children_emitted (world wr) e2 e3 kids' kids'');
        [assumption| |assumption].
      destruct Hr2 as (_ & _ & _ & _ & <-). exact He3. }
  destruct (ndata root) as [c| | | |] eqn:Hn.
  - assert (Hdc : dir_children root = c)
      by (unfold dir_children; now rewrite Hn).
    rewrite Hdc in *.
    destruct (existsb (fun it => S_ISDIR (mode it)) c) eqn:Hsub.
    + destruct (visit_subdirs (serialize_recursive E) c wr)
        as [[[r2 kids'] wr1]|] eqn:H2; [|discriminate].
      destruct (negb (r2 =? 0)) eqn:Hr2.
      { intros H. injection H as -> _ _. discriminate. }
      apply negb_false_iff, Z.eqb_eq in Hr2. subst r2.
      apply (visit_subdirs_run _ _ _ _ _ IH) in H2 as (e2 & Ha & Hb & Hc & Hd).
      now apply (Hstep kids' wr1 e2).
    + cbv iota beta. simpl (negb (0 =? 0)). cbv iota.
      apply (Hstep c wr []).
      * apply Run_refl.
      * rewrite no_subdirs by assumption. apply Ordered_nil.
      * clear. induction c; constructor; auto.
      * rewrite no_subdirs by assumption. constructor.
      * exact I.
  - assert (Hdc : dir_children root = [])
      by (unfold dir_children; now rewrite Hn).
    rewrite Hdc in *.
    apply (Hstep [] wr []); auto using Run_refl, Ordered_nil.
  - assert (Hdc : dir_children root = [])
      by (unfold dir_children; now rewrite Hn).
    rewrite Hdc in *.
    apply (Hstep [] wr []); auto using Run_refl, Ordered_nil.
  - assert (Hdc : dir_children root = [])
      by (unfold dir_children; now rewrite Hn).
    rewrite Hdc in *.
    apply (Hstep [] wr []); auto using Run_refl, Ordered_nil.
  - assert (Hdc : dir_children root = [])
      by (unfold dir_children; now rewrite Hn).
    rewrite Hdc in *.
    apply (Hstep [] wr []); auto using Run_refl, Ordered_nil.
Qed.

(** The calls of a run of [sqfs_serialize_fstree] that returns 0. *)
Lemma serialize_fstree_run (root root' : tree_node)
    (wr wr' : writer) :
  sqfs_serialize_fstree E root wr = Ret (0, root', wr') ->
  exists body,
    let w1 := replay E body (world wr) in
    let w2 := snd (sqfs_meta_writer_flush E w1 IM) in
    let w3 := snd (sqfs_meta_writer_flush E w2 DM) in
    trace wr'
    = trace wr ++ [Ev_get_size (inode_table_start (super wr'))] ++ body
      ++ [Ev_flush IM; Ev_flush DM;
          Ev_get_size (directory_table_start (super wr'));
          Ev_write_to_file DM]
    /\ inode_table_start (super wr') = outfile_get_size E (world wr)
    /\ forallb inner body = true
    /\ Ordered body (serialize_order root)
    /\ (exists rest, serialize_order root = rest ++ [root])
    /\ Forall (Emitted E (world wr) body) (nodes_of root')
    /\ strip root' = strip root
    /\ fst (sqfs_meta_writer_flush E w1 IM) = 0
    /\ fst (sqfs_meta_writer_flush E w2 DM) = 0
    /\ directory_table_start (super wr') = outfile_get_size E w3
    /\ sqfs_meta_write_write_to_file E w3 DM = (0, world wr')
    /\ root_inode_ref (super wr') = inode_ref root'
    /\ idtbl wr'
       = lookups E (flat_map (fun n => [uid n; gid n]) (serialize_order root))
           (idtbl wr).
Proof.
  unfold sqfs_serialize_fstree.
  set (sz := outfile_get_size E (world wr)).
  set (wr0 := log (with_super wr (set_inode_table_start (super wr) sz))
                (world wr) (Ev_get_size sz)).
  assert (Hrec : forall r1 root1 wr1,
             (if S_ISDIR (mode root) then serialize_recursive E root wr0
              else Ret (0, root, wr0)) = Ret (r1, root1, wr1) ->
             r1 = 0 ->
             exists e1, Run E wr0 wr1 e1
                        /\ Ordered e1 (if S_ISDIR (mode root)
                                       then below_order root else [])
                        /\ strip root1 = strip root
                        /\ Forall (Emitted E (world wr0) e1)
                             (if S_ISDIR (mode root) then below root1 else [])).
  { intros r1 root1 wr1 H ->. destruct (S_ISDIR (mode root)).
    - now apply serialize_recursive_run in H.
    - injection H as <- <-. exists [].
      split; [apply Run_refl|]. split; [apply Ordered_nil|].
      split; [reflexivity|constructor]. }
  destruct (if S_ISDIR (mode root) then serialize_recursive E root wr0
            else Ret (0, root, wr0)) as [[[r1 root1] wr1]|] eqn:H1;
    [|discriminate].
  destruct (negb (r1 =? 0)) eqn:Hr1;
    [intros H; injection H as -> _ _; discriminate|].
  apply negb_false_iff, Z.eqb_eq in Hr1.
  destruct (Hrec r1 root1 wr1 eq_refl Hr1) as (e1 & Ha1 & Ho1 & Hs1 & He1).
  clear Hrec. subst r1.
  destruct (serialize_tree_node E None root1 wr1) as [[[r2 root2] wr2]|] eqn:H2;
    [|discriminate].
  destruct (negb (r2 =? 0)) eqn:Hr2;
    [intros H; injection H as -> _ _; discriminate|].
  apply negb_false_iff, Z.eqb_eq in Hr2. subst r2.
  apply serialize_tree_node_run in H2 as (e2 & Ha2 & Ho2 & He2 & Hs2 & Hb2).
  pose proof (Emitted_after _ _ _ _ _ Ha1 He2) as He12.
  destruct (sqfs_meta_writer_flush E (world wr2) IM) as [r3 w3] eqn:H3.
  destruct (negb (r3 =? 0)) eqn:Hr3;
    [intros H; injection H as -> _ _; discriminate|].
  apply negb_false_iff, Z.eqb_eq in Hr3. subst r3.
  cbn [world log].
  destruct (sqfs_meta_writer_flush E w3 DM) as [r4 w4] eqn:H4.
  destruct (negb (r4 =? 0)) eqn:Hr4;
    [intros H; injection H as -> _ _; discriminate|].
  apply negb_false_iff, Z.eqb_eq in Hr4. subst r4.
  cbn [world log with_super].
  destruct (sqfs_meta_write_write_to_file E w4 DM) as [r5 w5] eqn:H5.
  destruct (negb (r5 =? 0)) eqn:Hr5;
    [intros H; injection H as -> _ _; discriminate|].
  apply negb_false_iff, Z.eqb_eq in Hr5. subst r5.
  intros H. injection H as <- <-.
  destruct Ha1 as [Ht1 [Hu1 [Hi1 [Hd1 Hw1]]]].
  destruct Ha2 as [Ht2 [Hu2 [Hi2 [Hd2 Hw2]]]].
  assert (Hord : Ordered (e1 ++ e2) (serialize_order root)).
  { unfold serialize_order. apply Ordered_app; [assumption|].
    eapply Ordered_strip; [|exact Ho2]. cbn [map]. now rewrite Hs1. }
  assert (Hworld : replay E (e1 ++ e2) (world wr) = world wr2).
  { rewrite replay_app, Hw2, Hw1. reflexivity. }
  exists (e1 ++ e2). cbv zeta. rewrite Hworld, H3. cbn [fst snd].
  rewrite H4. cbn [fst snd].
  cbn [trace super world log with_super idtbl].
  rewrite Hu2, Hu1. unfold wr0 in *. cbn [trace super world log with_super] in *.
  split.
  { rewrite Ht2, Ht1. cbn. rewrite <- !app_assoc. reflexivity. }
  split; [reflexivity|].
  split; [now rewrite forallb_app, Hi1, Hi2|].
  split; [exact Hord|].
  split; [unfold serialize_order; eexists; reflexivity|].
  split.
  { rewrite nodes_of_eq. constructor; [exact He12|].
    rewrite (strip_mode root2 root1 Hs2), (strip_mode root1 root Hs1), Hb2.
    eapply Forall_impl; [|exact He1]. intros n. apply Emitted_left. }
  split; [now rewrite Hs2|].
  do 4 (split; [first [assumption|reflexivity]|]).
  split; [reflexivity|].
  destruct Hord as [_ <-]. rewrite Hd2, Hd1, looked_up_app.
  unfold lookups. now rewrite fold_left_app.
Qed.

(** C3: a run of [sqfs_serialize_fstree] that returns 0 makes its
    calls in this order: it reads the size of the file and stores it as
    [inode_table_start]; it emits the inodes, those of the nodes below the
    root in the order of [serialize_recursive], the root's last, with no
    flush and no other access to the file size in between; it flushes the
    inode writer, then the directory writer, each in the state the calls
    before it have led to; it reads the size of the file as the two
    flushes left it and stores it as [directory_table_start]; it writes the
    directory writer's buffer to the file. Every node of the tree, as the
    run leaves it, holds as its reference [(block << 16) | offset] of the
    position the inode writer reported in the state the calls before had
    led to and in which the node's inode was then written, and the super
    block holds the root's. *)
Theorem serialize_fstree_runs_in_order (root root' : tree_node)
    (wr wr' : writer) :
  sqfs_serialize_fstree E root wr = Ret (0, root', wr') ->
  exists body,
    let w1 := replay E body (world wr) in
    let w2 := snd (sqfs_meta_writer_flush E w1 IM) in
    let w3 := snd (sqfs_meta_writer_flush E w2 DM) in
    trace wr'
    = trace wr ++ [Ev_get_size (inode_table_start (super wr'))] ++ body
      ++ [Ev_flush IM; Ev_flush DM;
          Ev_get_size (directory_table_start (super wr'));
          Ev_write_to_file DM]
    /\ inode_table_start (super wr') = outfile_get_size E (world wr)
    /\ forallb inner body = true
    /\ Ordered body (serialize_order root)
    /\ (exists rest, serialize_order root = rest ++ [root])
    /\ Forall (Emitted E (world wr) body) (nodes_of root')
    /\ strip root' = strip root
    /\ fst (sqfs_meta_writer_flush E w1 IM) = 0
    /\ fst (sqfs_meta_writer_flush E w2 DM) = 0
    /\ directory_table_start (super wr') = outfile_get_size E w3
    /\ sqfs_meta_write_write_to_file E w3 DM = (0, world wr')
    /\ root_inode_ref (super wr') = inode_ref root'.
Proof.
  intros H.
  destruct (serialize_fstree_run root root' wr wr' H) as (body & Hb).
  cbv zeta in Hb.
  destruct Hb as (H1 & H2 & H3 & H4 & H5 & H6 & H7 & H8 & H9
                  & H10 & H11 & H12 & _).
  exists body. cbv zeta.
  do 11 (split; [assumption|]). assumption.
Qed.

End SerialiserFacts.

(** ** The identifier table of a tree *)

Section IdTableOfATree.
Import IdTable Sink Serialize.
Local Open Scope list_scope.

(** With the look-up of [IdTable] as [sqfs_id_table_id_to_index], the
    look-ups of a run are those of [insert_all]. *)
Lemma lookups_insert_all {W : Type} (E : writer_ops W id_table_t)
    (l : list Z) (t : id_table_t) :
  (forall t id, sqfs_id_table_id_to_index E t id = IdTable.id_to_index t id) ->
  lookups E l t = insert_all t l.
Proof.
  intros Hid. unfold lookups, insert_all. revert t.
  induction l as [|x l IH]; intros t; [reflexivity|].
  cbn [fold_left]. now rewrite Hid, IH.
Qed.



End IdTableOfATree.

(** ** Inode numbers *)

Section Numbering.
Import Serialize.
Local Open Scope list_scope.

Lemma zrange_S (lo : Z) (n : nat) : zrange lo (S n) = lo :: zrange (lo + 1) n.
Proof.
  unfold zrange. cbn [seq map]. f_equal; [lia|].
  rewrite <- seq_shift, map_map. apply map_ext. intros i. lia.
Qed.

Lemma zrange_app (lo : Z) (a b : nat) :
  zrange lo (a + b) = zrange lo a ++ zrange (lo + Z.of_nat a) b.
Proof.
  revert lo. induction a as [|a IH]; intros lo.
  - replace (lo + Z.of_nat 0) with lo by lia. reflexivity.
  - cbn [Nat.add]. rewrite !zrange_S, IH. cbn [app].
    replace (lo + 1 + Z.of_nat a) with (lo + Z.of_nat (S a)) by lia.
    reflexivity.
Qed.

Lemma in_zrange (lo : Z) (n : nat) (v : Z) :
  In v (zrange lo n) <-> lo <= v < lo + Z.of_nat n.
Proof.
  unfold zrange. rewrite in_map_iff. split.
  - intros [i [<- Hi]]. apply in_seq in Hi. lia.
  - intros H. exists (Z.to_nat (v - lo)). split; [lia|]. apply in_seq. lia.
Qed.

Lemma zrange_from_1 (n : nat) : zrange 1 n = map Z.of_nat (seq 1 n).
Proof.
  unfold zrange. rewrite <- seq_shift, map_map. apply map_ext. intros i. lia.
Qed.

Lemma nodes_of_length (n : tree_node) : (1 <= List.length (nodes_of n))%nat.
Proof. rewrite nodes_of_eq. simpl. lia. Qed.

Lemma count_files_eq (l : list tree_node) : count_files l = Z.of_nat (files l).
Proof. reflexivity. Qed.

Lemma nodes_of_leaf (n : tree_node) :
  S_ISDIR (mode n) = false -> nodes_of n = [n].
Proof. intros H. rewrite nodes_of_eq, H. reflexivity. Qed.

Lemma children_of_leaf (n : tree_node) :
  S_ISDIR (mode n) = false -> children_of n = [].
Proof. intros H. unfold children_of. now rewrite H. Qed.

(** The walk over the children of a directory, for a numbering [rec] of
    the sub-directories that numbers each of them as [Numbered] says. *)
Lemma number_children_spec (rec : tree_node -> Z -> tree_node * Z)
    (l : list tree_node) :
  Forall (fun it => forall nx,
              mode (fst (rec it nx)) = mode it
              /\ Numbered nx (fst (rec it nx)) (snd (rec it nx))) l ->
  forall nf nd l' nf' nd',
    number_children rec l nf nd = (l', nf', nd') ->
    exists kd : nat,
      nf' = nf + Z.of_nat (files l)
      /\ nd' = nd + Z.of_nat kd
      /\ List.length (flat_map nodes_of l') = (files l + kd)%nat
      /\ Permutation (map inode_num (flat_map nodes_of l'))
           (zrange nf (files l) ++ zrange nd kd)
      /\ (forall x, In x l' ->
            nf <= inode_num x < nf' \/ nd <= inode_num x < nd')
      /\ (forall p c, In p (flat_map nodes_of l') -> In c (children_of p) ->
            inode_num c < inode_num p).
Proof.
  induction 1 as [|it rest Hit Hrest IH]; intros nf nd l' nf' nd'.
  - simpl. intros H. injection H as <- <- <-. exists O.
    repeat split; try lia; try constructor; intros; contradiction.
  - cbn [number_children]. unfold files. cbn [filter].
    destruct (S_ISDIR (mode it)) eqn:Hd; cbn [negb].
    + destruct (rec it nd) as [it' nd1] eqn:Hr.
      destruct (number_children rec rest nf nd1) as [[rest' nf1] nd2] eqn:Hn.
      intros H. injection H as <- <- <-.
      destruct (Hit nd) as [Hm [Hn1 [Hp1 [Hi1 Hc1]]]]. rewrite Hr in *.
      cbn [fst snd] in *.
      destruct (IH _ _ _ _ _ Hn) as [kd [Ha [Hb [Hl [Hp [Hx Hc]]]]]].
      fold (files rest) in *.
      pose proof (nodes_of_length it') as Hlen.
      exists (List.length (nodes_of it') + kd)%nat.
      split; [assumption|]. split; [lia|]. cbn [flat_map].
      split; [rewrite length_app; lia|]. split; [|split].
      * rewrite map_app, zrange_app.
        eapply Permutation_trans;
          [apply Permutation_app; [exact Hp1|exact Hp]|].
        replace (nd + Z.of_nat (List.length (nodes_of it'))) with nd1 by lia.
        rewrite !app_assoc. apply Permutation_app_tail, Permutation_app_comm.
      * intros x [<-|Hin]; [right; lia|].
        destruct (Hx x Hin); [left; lia|right; lia].
      * intros p c Hin. apply in_app_iff in Hin as [Hin|Hin];
          [now apply Hc1|now apply Hc].
    + destruct (number_children rec rest (nf + 1) nd) as [[rest' nf1] nd2] eqn:Hn.
      intros H. injection H as <- <- <-.
      destruct (IH _ _ _ _ _ Hn) as [kd [Ha [Hb [Hl [Hp [Hx Hc]]]]]].
      fold (files rest) in *.
      assert (Hleaf : S_ISDIR (mode (set_inode_num it nf)) = false) by exact Hd.
      exists kd. cbn [List.length flat_map].
      rewrite (nodes_of_leaf _ Hleaf). cbn [app List.length map].
      fold (files rest).
      split; [lia|]. split; [assumption|]. split; [lia|]. split; [|split].
      * rewrite zrange_S. cbn [app]. now constructor.
      * intros x [<-|Hin]; [left; cbn; lia|].
        destruct (Hx x Hin); [left; lia|right; lia].
      * intros p c [<-|Hin]; [|now apply Hc].
        rewrite (children_of_leaf _ Hleaf). contradiction.
Qed.

Lemma number_node_eq (n : tree_node) (next : Z) :
  number_node n next
  = match ndata n with
    | D_dir c =>
        if S_ISDIR (mode n) then
          let '(c', _, nd) :=
            number_children number_node c next (next + count_files c) in
          (set_inode_num (set_children n c') nd, nd + 1)
        else (set_inode_num n next, next + 1)
    | _ => (set_inode_num n next, next + 1)
    end.
Proof. destruct n. reflexivity. Qed.

Lemma numbered_single (n : tree_node) (next : Z) :
  nodes_of (set_inode_num n next) = [set_inode_num n next] ->
  children_of (set_inode_num n next) = [] ->
  Numbered next (set_inode_num n next) (next + 1).
Proof.
  intros Hn Hc. unfold Numbered. rewrite Hn. cbn [List.length map].
  split; [lia|]. split.
  { unfold zrange. cbn. replace (next + 0) with next by lia.
    apply Permutation_refl. }
  split; [cbn; lia|].
  intros p c [<-|[]]. rewrite Hc. contradiction.
Qed.

(** Modelled numbering: every tree is numbered as [Numbered] says. *)
Lemma number_node_spec (n : tree_node) (next : Z) :
  mode (fst (number_node n next)) = mode n
  /\ Numbered next (fst (number_node n next)) (snd (number_node n next)).
Proof.
  revert next. induction n as [n IH] using tree_induction. intros next.
  rewrite number_node_eq. unfold dir_children in IH.
  destruct (ndata n) as [c| | | |] eqn:Hn.
  - destruct (S_ISDIR (mode n)) eqn:Hd.
    + destruct (number_children number_node c next (next + count_files c))
        as [[c' nf'] nd'] eqn:Hc.
      cbn [fst snd]. split; [reflexivity|].
      destruct (number_children_spec number_node c IH _ _ _ _ _ Hc)
        as [kd [Ha [Hb [Hl [Hp [Hx Hch]]]]]].
      rewrite count_files_eq in Hb.
      set (n' := set_inode_num (set_children n c') nd').
      assert (Hnodes : nodes_of n' = n' :: flat_map nodes_of c').
      { rewrite nodes_of_eq. unfold n'. cbn [mode set_inode_num set_children].
        rewrite Hd. rewrite below_eq.
        unfold dir_children, set_inode_num, set_children. cbn [ndata].
        rewrite Hn. reflexivity. }
      assert (Hkids : children_of n' = c').
      { unfold children_of, n'. cbn [mode set_inode_num set_children].
        rewrite Hd. unfold dir_children, set_inode_num, set_children.
        cbn [ndata]. now rewrite Hn. }
      unfold Numbered. rewrite Hnodes. cbn [List.length map].
      rewrite Hl. split; [lia|]. split; [|split].
      * replace (S (files c + kd)) with ((files c + kd) + 1)%nat by lia.
        rewrite (zrange_app next (files c + kd) 1).
        replace (zrange (next + Z.of_nat (files c + kd)) 1) with [nd'].
        2:{ unfold zrange. cbn. f_equal. lia. }
        eapply Permutation_trans; [|apply Permutation_cons_append].
        constructor. rewrite zrange_app.
        replace (next + Z.of_nat (files c)) with (next + count_files c)
          by (rewrite count_files_eq; reflexivity).
        exact Hp.
      * cbn. lia.
      * intros p ch [<-|Hin] Hch'.
        -- rewrite Hkids in Hch'. change (inode_num n') with nd'.
           destruct (Hx ch Hch'); lia.
        -- now apply Hch.
    + cbn [fst snd]. split; [reflexivity|].
      apply numbered_single.
      * apply nodes_of_leaf. exact Hd.
      * apply children_of_leaf. exact Hd.
  - cbn [fst snd]. split; [reflexivity|]. apply numbered_single.
    + rewrite nodes_of_eq, below_eq. unfold dir_children. cbn. rewrite Hn.
      now destruct (S_ISDIR (mode n)).
    + unfold children_of, dir_children. cbn. rewrite Hn.
      now destruct (S_ISDIR (mode n)).
  - cbn [fst snd]. split; [reflexivity|]. apply numbered_single.
    + rewrite nodes_of_eq, below_eq. unfold dir_children. cbn. rewrite Hn.
      now destruct (S_ISDIR (mode n)).
    + unfold children_of, dir_children. cbn. rewrite Hn.
      now destruct (S_ISDIR (mode n)).
  - cbn [fst snd]. split; [reflexivity|]. apply numbered_single.
    + rewrite nodes_of_eq, below_eq. unfold dir_children. cbn. rewrite Hn.
      now destruct (S_ISDIR (mode n)).
    + unfold children_of, dir_children. cbn. rewrite Hn.
      now destruct (S_ISDIR (mode n)).
  - cbn [fst snd]. split; [reflexivity|]. apply numbered_single.
    + rewrite nodes_of_eq, below_eq. unfold dir_children. cbn. rewrite Hn.
      now destruct (S_ISDIR (mode n)).
    + unfold children_of, dir_children. cbn. rewrite Hn.
      now destruct (S_ISDIR (mode n)).
Qed.

End Numbering.

(** ** The order of the serialiser *)

Section Order.
Import Serialize.
Local Open Scope list_scope.

Lemma before_app_in {A : Type} (x y : A) (u v : list A) :
  In x u -> In y v -> before x y (u ++ v).
Proof.
  intros Hx Hy. apply in_split in Hx as (u1 & u2 & ->).
  apply in_split in Hy as (v1 & v2 & ->).
  exists u1, (u2 ++ v1), v2. now rewrite <- !app_assoc.
Qed.

Lemma before_sub {A : Type} (x y : A) (u m v : list A) :
  before x y m -> before x y (u ++ m ++ v).
Proof.
  intros (l1 & l2 & l3 & ->). exists (u ++ l1), l2, (l3 ++ v).
  rewrite <- !app_assoc. cbn [app]. rewrite <- !app_assoc. reflexivity.
Qed.

Lemma before_app_l {A : Type} (x y : A) (m v : list A) :
  before x y m -> before x y (m ++ v).
Proof. intros H. exact (before_sub x y [] m v H). Qed.

Lemma before_map {A B : Type} (f : A -> B) (x y : A) (l : list A) :
  before x y l -> before (f x) (f y) (map f l).
Proof.
  intros (l1 & l2 & l3 & ->). exists (map f l1), (map f l2), (map f l3).
  rewrite !map_app. cbn [map]. rewrite map_app. reflexivity.
Qed.

Lemma in_below (n p : tree_node) :
  In p (below n) ->
  exists ci, In ci (dir_children n)
             /\ (p = ci \/ (S_ISDIR (mode ci) = true /\ In p (below ci))).
Proof.
  rewrite below_eq. intros H. apply in_flat_map in H as (ci & Hci & Hp).
  exists ci. split; [assumption|]. rewrite nodes_of_eq in Hp.
  destruct Hp as [<-|Hp]; [now left|right].
  destruct (S_ISDIR (mode ci)); [now split|contradiction].
Qed.

Lemma in_flat_map_part (f : tree_node -> list tree_node) (ci : tree_node)
    (cs : list tree_node) :
  In ci cs -> exists u v, flat_map f cs = u ++ f ci ++ v.
Proof.
  intros H. apply in_split in H as (a & b & ->).
  exists (flat_map f a), (flat_map f b).
  now rewrite flat_map_app.
Qed.

(** Below a node, every node comes after its children. *)
Lemma children_first_below (n : tree_node) :
  forall p c, In p (below n) -> In c (children_of p) ->
              before c p (below_order n).
Proof.
  induction n as [n IH] using tree_induction. intros p c Hp Hc.
  rewrite below_order_eq.
  set (f := fun it => if S_ISDIR (mode it) then below_order it else []).
  apply in_below in Hp as (ci & Hci & [->|[Hd Hp]]).
  - unfold children_of in Hc.
    destruct (S_ISDIR (mode ci)) eqn:Hd; [|contradiction].
    apply before_app_in; [|assumption].
    apply in_flat_map. exists ci. split; [assumption|].
    unfold f. rewrite Hd, below_order_eq. apply in_or_app. now right.
  - rewrite Forall_forall in IH. specialize (IH ci Hci p c Hp Hc).
    destruct (in_flat_map_part f ci _ Hci) as (u & v & ->).
    apply before_app_l, before_sub. unfold f. now rewrite Hd.
Qed.

Lemma below_order_perm (n : tree_node) : Permutation (below_order n) (below n).
Proof.
  induction n as [n IH] using tree_induction.
  rewrite below_order_eq, below_eq.
  induction IH as [|x r Hx Hr IHr]; [constructor|].
  cbn [flat_map].
  eapply Permutation_trans; [apply Permutation_sym, Permutation_middle|].
  rewrite nodes_of_eq. cbn [app]. constructor. rewrite <- app_assoc.
  apply Permutation_app; [|exact IHr].
  destruct (S_ISDIR (mode x)); [exact Hx|constructor].
Qed.

(** The serialiser reaches every node once. *)
Lemma serialize_order_perm (t : tree_node) :
  Permutation (serialize_order t) (nodes_of t).
Proof.
  unfold serialize_order. rewrite nodes_of_eq.
  eapply Permutation_trans; [apply Permutation_app_comm|]. cbn [app].
  constructor. destruct (S_ISDIR (mode t)); [apply below_order_perm|constructor].
Qed.

(** The serialiser reaches every node after its children. *)
Lemma children_first (t : tree_node) :
  forall p c, In p (nodes_of t) -> In c (children_of p) ->
              before c p (serialize_order t).
Proof.
  intros p c Hp Hc. unfold serialize_order. rewrite nodes_of_eq in Hp.
  destruct Hp as [<-|Hp].
  - unfold children_of in Hc.
    destruct (S_ISDIR (mode t)) eqn:Hd; [|contradiction].
    apply before_app_in; [|now left].
    rewrite below_order_eq. apply in_or_app. now right.
  - destruct (S_ISDIR (mode t)); [|contradiction].
    apply before_app_l. now apply children_first_below.
Qed.

End Order.

(** ** A run across two blocks of the inode writer *)

Section RunAcrossBlocks.
Import Sink Serialize.
Local Open Scope list_scope.

Lemma serialize_fstree_runs_in_order_witness :
  exists root' wr',
    sqfs_serialize_fstree Samples.plain_writer Samples.numbered_tree
      Samples.late_start = Ret (0, root', wr')
    /\ inode_table_start (super wr') = 8290
    /\ directory_table_start (super wr') = 16582
    /\ map name (nodes_of root') = [""; "a"; "d"; "p"; "l"]%string
    /\ positions (trace wr')
       = [(8194, 8128); (8194, 8160); (16388, 0); (16388, 32); (16388, 64)]
    /\ map inode_ref (nodes_of root')
       = [16388 * 65536 + 64; 8194 * 65536 + 8160; 16388 * 65536;
          8194 * 65536 + 8128; 16388 * 65536 + 32]
    /\ root_inode_ref (super wr') = 16388 * 65536 + 64
    /\ exists body,
         let w1 := replay Samples.plain_writer body
                     (world Samples.late_start) in
         let w2 := snd (sqfs_meta_writer_flush Samples.plain_writer w1 IM) in
         let w3 := snd (sqfs_meta_writer_flush Samples.plain_writer w2 DM) in
         trace wr'
         = trace Samples.late_start
           ++ [Ev_get_size (inode_table_start (super wr'))] ++ body
           ++ [Ev_flush IM; Ev_flush DM;
               Ev_get_size (directory_table_start (super wr'));
               Ev_write_to_file DM]
         /\ inode_table_start (super wr')
            = outfile_get_size Samples.plain_writer
                (world Samples.late_start)
         /\ forallb inner body = true
         /\ Ordered body (serialize_order Samples.numbered_tree)
         /\ (exists rest,
                serialize_order Samples.numbered_tree
                = rest ++ [Samples.numbered_tree])
         /\ Forall (Emitted Samples.plain_writer (world Samples.late_start)
                      body) (nodes_of root')
         /\ strip root' = strip Samples.numbered_tree
         /\ fst (sqfs_meta_writer_flush Samples.plain_writer w1 IM) = 0
         /\ fst (sqfs_meta_writer_flush Samples.plain_writer w2 DM) = 0
         /\ directory_table_start (super wr')
            = outfile_get_size Samples.plain_writer w3
         /\ sqfs_meta_write_write_to_file Samples.plain_writer w3 DM
            = (0, world wr')
         /\ root_inode_ref (super wr') = inode_ref root'.
Proof.
  do 2 eexists.
  split; [vm_compute; reflexivity|].
  do 6 (split; [vm_compute; reflexivity|]).
  apply (serialize_fstree_runs_in_order Samples.plain_writer
           Samples.numbered_tree).
  vm_compute. reflexivity.
Defined.

End RunAcrossBlocks.

(** ** The fallback [getopt] *)

Section GetoptCalls.
Import CStr Getopt.
Local Open Scope list_scope.

Ltac split_getopt :=
  repeat match goal with
         | |- context [if ?b then _ else _] => destruct b eqn:?
         | |- context [match strchr ?a ?b with _ => _ end] =>
             destruct (strchr a b) eqn:?
         end.

(** X1: whatever the command line and the globals, a call of [getopt]
    ends in one of three ways. It returns -1 and leaves [optarg], the
    cursor and [stderr] alone; or it returns ['?'] after one line on
    [stderr]; or it returns a character that [optstr] lists, prints
    nothing, and leaves [optarg] set when [optstr] gives the option an
    argument and [NULL] when it does not. A character [optstr] does not
    list is never returned, and neither is the colon. *)
Theorem getopt_returns_end_failure_or_listed_option
    (argv : list string) (optstr : string) (st : getopt_state) :
  let v := fst (getopt argv optstr st) in
  let st' := snd (getopt argv optstr st) in
  (v = -1 /\ stderr st' = stderr st /\ optarg st' = optarg st
   /\ current st' = current st)
  \/ (v = QUESTION /\ exists m, stderr st' = stderr st ++ [m])
  \/ (exists c,
         v = code c /\ stderr st' = stderr st
         /\ match listed optstr c with
            | Some true => exists a, optarg st' = Some a
            | Some false => optarg st' = None
            | None => False
            end).
Proof.
  cbv zeta. unfold getopt.
  split_getopt; cbn [fst snd stderr optarg current] in *;
    try match goal with
        | H : negb true = true |- _ => discriminate H
        | H : negb false = false |- _ => discriminate H
        end;
    first
      [ left; repeat split; reflexivity
      | right; left; split; [reflexivity|eexists; reflexivity]
      | right; right; eexists; split; [reflexivity|];
        split; [reflexivity|]; unfold listed;
        repeat match goal with
               | H : _ = _ |- _ => rewrite H
               end; eauto ].
Qed.

Ltac bools :=
  repeat match goal with
         | H : _ || _ = false |- _ => apply orb_false_iff in H; destruct H
         | H : _ && _ = true |- _ => apply andb_true_iff in H; destruct H
         | H : (_ >=? _) = false |- _ =>
             rewrite Z.geb_leb in H; apply Z.leb_gt in H
         | H : (_ >=? _) = true |- _ =>
             rewrite Z.geb_leb in H; apply Z.leb_le in H
         | H : negb _ = true |- _ => apply negb_true_iff in H
         | H : negb _ = false |- _ => apply negb_false_iff in H
         | H : Ascii.eqb _ _ = true |- _ => apply Ascii.eqb_eq in H
         | H : Ascii.eqb _ _ = false |- _ => apply Ascii.eqb_neq in H
         end.

(** X2: [getopt] keeps [optind] inside the command line. From globals
    that are in step with [argv] a call leaves globals that are in step
    with it, whatever it returns, and [optind] moves forward by at most
    two words and never back. *)
Theorem getopt_keeps_optind_within_argv
    (argv : list string) (optstr : string) (st : getopt_state) :
  in_step argv st ->
  in_step argv (snd (getopt argv optstr st))
  /\ optind st <= optind (snd (getopt argv optstr st)) <= optind st + 2.
Proof.
  intros [Hi Hc]. unfold getopt, in_step.
  split_getopt; cbn [fst snd stderr optarg current optind] in *; bools;
    try (specialize (Hc ltac:(assumption)));
    (split; [split; [lia|]|lia]);
    try (intros Hn; first [lia | contradiction | exfalso; apply Hn; reflexivity]).
Qed.

Lemma getopt_keeps_optind_within_argv_witness :
  in_step ["prog"; "-ab"; "-c"; "v"; "file"] getopt_init
  /\ in_step ["prog"; "-ab"; "-c"; "v"; "file"]
       (snd (getopt ["prog"; "-ab"; "-c"; "v"; "file"] "abc:" getopt_init))
  /\ optind getopt_init
     <= optind (snd (getopt ["prog"; "-ab"; "-c"; "v"; "file"] "abc:"
                       getopt_init))
     <= optind getopt_init + 2.
Proof.
  assert (H : in_step ["prog"; "-ab"; "-c"; "v"; "file"] getopt_init).
  { split; [vm_compute; split; discriminate|].
    intros Hn. exfalso. apply Hn. reflexivity. }
  split; [exact H|].
  exact (getopt_keeps_optind_within_argv
           ["prog"; "-ab"; "-c"; "v"; "file"] "abc:" getopt_init H).
Defined.

Lemma advance_0 (s : string) : advance s 0 = s.
Proof. now destruct s. Qed.

(** A call that finds the cursor at the end of an argument and an option
    word at [optind] goes on as a call with the cursor behind the dash. *)
Lemma getopt_enters_the_word (argv : list string) (optstr : string)
    (st : getopt_state) (c : ascii) (r : string) :
  char_at (current st) 0 = NUL ->
  optind st < argc_of argv ->
  arg_at argv (optind st) = String "-" (String c r) ->
  c <> NUL ->
  String c r <> "-" ->
  (c = "-"%char -> char_at r 0 <> NUL) ->
  getopt argv optstr st
  = getopt argv optstr
      (mk_getopt_state (optind st) (optarg st) (String c r) (stderr st)).
Proof.
  intros Hcur Hlt Ha Hc Hw Hd. unfold getopt.
  cbn [current optind optarg stderr].
  rewrite Ha. change (char_at (String c r) 0) with c.
  change (char_at (String "-" (String c r)) 0) with "-"%char.
  change (char_at (String "-" (String c r)) 1) with c.
  change (char_at (String "-" (String c r)) 2) with (char_at r 0).
  change (advance (String "-" (String c r)) 1) with (String c r).
  apply Ascii.eqb_eq in Hcur. rewrite Hcur.
  apply Z.ltb_lt in Hlt. rewrite Z.geb_leb, Z.leb_antisym, Hlt.
  apply Ascii.eqb_neq in Hc. rewrite Hc.
  cbn [negb orb Ascii.eqb].
  destruct (Ascii.eqb c "-") eqn:Hm.
  - apply Ascii.eqb_eq in Hm. specialize (Hd Hm).
    apply Ascii.eqb_neq in Hd. rewrite Hd. reflexivity.
  - reflexivity.
Qed.

(** With the cursor on a run of options without arguments, as many calls
    as the run has characters return them one by one and take the cursor
    to the end of the word. *)
Lemma getopt_reads_the_rest_of_a_cluster (argv : list string)
    (optstr : string) (cs : list ascii) :
  cs <> [] ->
  Forall (fun c => c <> NUL /\ listed optstr c = Some false) cs ->
  forall st,
    current st = word cs ->
    getopt_calls (List.length cs) argv optstr st
    = (map code cs, mk_getopt_state (optind st + 1) None "" (stderr st)).
Proof.
  induction cs as [|c r IH]; [congruence|].
  intros _ Hall st Hcur. inversion Hall as [|? ? [Hc Hl] Hr]; subst.
  cbn [List.length getopt_calls map].
  assert (Hone : getopt argv optstr st
                 = (code c,
                    mk_getopt_state
                      (if Ascii.eqb (char_at (word r) 0) NUL
                       then optind st + 1 else optind st)
                      None (word r) (stderr st))).
  { unfold getopt. unfold listed in Hl. rewrite Hcur.
    change (char_at (word (c :: r)) 0) with c.
    apply Ascii.eqb_neq in Hc. rewrite Hc. cbv iota beta zeta.
    rewrite Hcur.
    change (char_at (word (c :: r)) 0) with c.
    change (advance (word (c :: r)) 1) with (advance (word r) 0).
    rewrite advance_0.
    destruct (Ascii.eqb c ":"); [discriminate|].
    destruct (strchr optstr c) as [p|]; [|discriminate].
    injection Hl as Hl. rewrite Hl. reflexivity. }
  rewrite Hone. destruct r as [|c' r'].
  - reflexivity.
  - inversion Hr as [|? ? [Hc' _] _]; subst.
    change (char_at (word (c' :: r')) 0) with c'.
    apply Ascii.eqb_neq in Hc'. rewrite Hc'.
    rewrite (IH ltac:(discriminate) Hr
               (mk_getopt_state (optind st) None (word (c' :: r')) (stderr st))
               eq_refl).
    reflexivity.
Qed.

(** X3: a word of several options without arguments, as in [-sxq], is
    read one character per call: with the cursor at the end of an
    argument and the word [-c1...cn] at [optind], every [ci] listed in
    [optstr] without a colon, [n] calls return [c1], ..., [cn] in this
    order, print nothing, and leave [optind] one word further and
    [optarg] at [NULL]. *)
Theorem getopt_reads_a_cluster_of_flags (argv : list string)
    (optstr : string) (st : getopt_state) (cs : list ascii) :
  char_at (current st) 0 = NUL ->
  optind st < argc_of argv ->
  arg_at argv (optind st) = String "-" (word cs) ->
  cs <> [] ->
  word cs <> "-" ->
  Forall (fun c => c <> NUL /\ listed optstr c = Some false) cs ->
  getopt_calls (List.length cs) argv optstr st
  = (map code cs, mk_getopt_state (optind st + 1) None "" (stderr st)).
Proof.
  intros Hcur Hlt Ha Hne Hw Hall.
  destruct cs as [|c r]; [congruence|].
  inversion Hall as [|? ? [Hc _] Hr]; subst.
  pose proof (getopt_reads_the_rest_of_a_cluster argv optstr (c :: r) Hne Hall
                (mk_getopt_state (optind st) (optarg st) (word (c :: r))
                   (stderr st)) eq_refl) as H.
  cbn [List.length getopt_calls optind stderr] in *.
  rewrite (getopt_enters_the_word argv optstr st c (word r)); try assumption.
  intros ->. destruct r as [|c' r']; [now elim Hw|].
  inversion Hr as [|? ? [Hc' _] _]; subst. exact Hc'.
Qed.

Lemma getopt_reads_a_cluster_of_flags_witness :
  getopt_calls 3 ["tar2sqfs"; "-sxq"; "out.sqfs"] "c:b:B:d:X:j:Q:sxekfqhV"
    getopt_init
  = ([code "s"; code "x"; code "q"], mk_getopt_state 2 None "" []).
Proof.
  apply (getopt_reads_a_cluster_of_flags
           ["tar2sqfs"; "-sxq"; "out.sqfs"] "c:b:B:d:X:j:Q:sxekfqhV"
           getopt_init ["s"; "x"; "q"]%char);
    try reflexivity; try discriminate.
  repeat constructor; discriminate.
Defined.

(** X4: an option that [optstr] lists with a colon takes its argument
    from the rest of its word, and from the next word when its word ends
    behind it, whatever that word looks like; when there is no next word
    the call returns ['?'] after a line on [stderr], with [optind] at
    [argc]. *)
Theorem getopt_takes_the_argument_attached_or_next (argv : list string)
    (optstr : string) (st : getopt_state) (c : ascii) (v : string) :
  char_at (current st) 0 = NUL ->
  optind st < argc_of argv ->
  c <> NUL ->
  c <> "-"%char ->
  listed optstr c = Some true ->
  arg_at argv (optind st) = String "-" (String c v) ->
  getopt argv optstr st
  = if negb (Ascii.eqb (char_at v 0) NUL) then
      (code c, mk_getopt_state (optind st + 1) (Some v) "" (stderr st))
    else if optind st + 1 >=? argc_of argv then
      (QUESTION,
       mk_getopt_state (optind st + 1) (optarg st) v
         (stderr st
          ++ [(arg_at argv 0 ++ ": missing argument for option `-"
               ++ String c EmptyString ++ "`" ++ newline)%string]))
    else
      (code c,
       mk_getopt_state (optind st + 2)
         (Some (arg_at argv (optind st + 1))) "" (stderr st)).
Proof.
  intros Hcur Hlt Hc Hd Hl Ha.
  rewrite (getopt_enters_the_word argv optstr st c v); try assumption.
  - unfold getopt. unfold listed in Hl. cbn [current optind optarg stderr].
    change (char_at (String c v) 0) with c.
    apply Ascii.eqb_neq in Hc. rewrite Hc. cbv iota beta zeta.
    cbn [current optind optarg stderr].
    change (char_at (String c v) 0) with c.
    change (advance (String c v) 1) with (advance v 0).
    rewrite advance_0.
    destruct (Ascii.eqb c ":"); [discriminate|].
    destruct (strchr optstr c) as [p|]; [|discriminate].
    injection Hl as Hl. rewrite Hl.
    destruct (negb (Ascii.eqb (char_at v 0) NUL)); [reflexivity|].
    destruct (optind st + 1 >=? argc_of argv); [reflexivity|].
    now replace (optind st + 1 + 1) with (optind st + 2) by lia.
  - intros H. injection H as -> _. now elim Hd.
  - intros ->. now elim Hd.
Qed.

Lemma getopt_takes_the_argument_attached_or_next_witness :
  getopt ["tar2sqfs"; "-B"; "-1"; "out.sqfs"] "c:b:B:d:X:j:Q:sxekfqhV"
    getopt_init
  = (code "B", mk_getopt_state 3 (Some "-1") "" []).
Proof.
  apply (getopt_takes_the_argument_attached_or_next
           ["tar2sqfs"; "-B"; "-1"; "out.sqfs"] "c:b:B:d:X:j:Q:sxekfqhV"
           getopt_init "B"%char "");
    try reflexivity; discriminate.
Defined.

End GetoptCalls.

(** ** The fallback [getopt_long] *)

Section LongOptions.
Import CStr Getopt Args.
Local Open Scope list_scope.

Lemma code_inj (a b : ascii) : code a = code b -> a = b.
Proof.
  unfold code. intros H. apply N2Z.inj in H.
  rewrite <- (ascii_N_embedding a), <- (ascii_N_embedding b). now rewrite H.
Qed.

Lemma char_at_advance (s : string) (k : nat) :
  char_at (advance s 1) k = char_at s (S k).
Proof.
  destruct s as [|c r]; [reflexivity|].
  change (advance (String c r) 1) with (advance r 0). now rewrite advance_0.
Qed.

(** [strncmp] returns 0 only when the strings agree up to the first NUL
    among the characters compared. *)
Lemma strncmp_zero (n : nat) (a b : string) :
  strncmp a b n = 0 ->
  (forall k, (k < n)%nat -> char_at b k <> NUL) ->
  forall k, (k < n)%nat -> char_at a k = char_at b k.
Proof.
  revert a b. induction n as [|n IH]; intros a b Hz Hb k Hk; [lia|].
  cbn [strncmp] in Hz.
  destruct (Ascii.eqb (char_at a 0) (char_at b 0)) eqn:He; cbn [negb] in Hz.
  - apply Ascii.eqb_eq in He.
    destruct (Ascii.eqb (char_at a 0) NUL) eqn:Hn.
    + apply Ascii.eqb_eq in Hn. elim (Hb O); [lia|congruence].
    + destruct k as [|k]; [exact He|].
      rewrite <- !char_at_advance. apply IH; [exact Hz| |lia].
      intros q Hq. rewrite char_at_advance. apply Hb. lia.
  - apply Ascii.eqb_neq in He. elim He. apply code_inj. lia.
Qed.

Lemma strncmp_differs (n : nat) (a b : string) :
  strncmp a b n <> 0 ->
  exists q, (q < n)%nat /\ char_at a q <> char_at b q.
Proof.
  revert a b. induction n as [|n IH]; intros a b Hz; [now elim Hz|].
  cbn [strncmp] in Hz.
  destruct (Ascii.eqb (char_at a 0) (char_at b 0)) eqn:He; cbn [negb] in Hz.
  - destruct (Ascii.eqb (char_at a 0) NUL); [now elim Hz|].
    destruct (IH _ _ Hz) as (q & Hq & Hd).
    exists (S q). rewrite !char_at_advance in Hd. split; [lia|exact Hd].
  - exists O. split; [lia|]. now apply Ascii.eqb_neq.
Qed.

Lemma char_at_strlen (s : string) : char_at s (strlen s) = NUL.
Proof.
  induction s as [|c r IH]; [reflexivity|].
  cbn [strlen]. destruct (Ascii.eqb c NUL) eqn:Hc.
  - now apply Ascii.eqb_eq in Hc.
  - exact IH.
Qed.

Lemma name_len_chars (ptr : string) (k : nat) :
  (k < name_len ptr)%nat -> char_at ptr k <> NUL /\ char_at ptr k <> "="%char.
Proof.
  revert k. induction ptr as [|c r IH]; intros k Hk; cbn [name_len] in Hk;
    [lia|].
  destruct (Ascii.eqb c NUL || Ascii.eqb c "=") eqn:Hc; [lia|].
  apply orb_false_iff in Hc as [H0 He].
  apply Ascii.eqb_neq in H0, He.
  destruct k as [|k]; [now split|].
  apply (IH k). lia.
Qed.

Lemma strlen_chars (n : nat) (s : string) :
  (forall k, (k < n)%nat -> char_at s k <> NUL) ->
  char_at s n = NUL ->
  strlen s = n.
Proof.
  revert s. induction n as [|n IH]; intros s Hs Hn.
  - destruct s as [|c r]; [reflexivity|].
    cbn [strlen]. change (char_at (String c r) 0) with c in Hn.
    now rewrite Hn.
  - destruct s as [|c r]; [elim (Hs O); [lia|reflexivity]|].
    cbn [strlen]. pose proof (Hs O ltac:(lia)) as H0.
    change (char_at (String c r) 0) with c in H0.
    apply Ascii.eqb_neq in H0. rewrite H0. f_equal.
    apply IH; [|exact Hn].
    intros k Hk. apply (Hs (S k)). lia.
Qed.

(** Where the search loop stops inside the table, it stops at the entry
    of that index, which is the sentinel or matches. *)
Lemma lookup_loop_stop (tbl : list option_t) (i j : nat) (ptr : string)
    (len : nat) (o : option_t) :
  lookup_loop tbl i ptr len = Lookup_stop j o ->
  (i <= j)%nat /\ nth_error tbl (j - i) = Some o
  /\ match name o with
     | None => True
     | Some nm => strncmp nm ptr len = 0 /\ char_at nm len = NUL
     end
  /\ forall k o', (k < j - i)%nat -> nth_error tbl k = Some o' ->
       exists nm', name o' = Some nm'
                   /\ (strncmp nm' ptr len <> 0 \/ char_at nm' len <> NUL).
Proof.
  revert i. induction tbl as [|e r IH]; intros i H; cbn [lookup_loop] in H;
    [discriminate|].
  assert (Hnext : lookup_loop r (S i) ptr len = Lookup_stop j o ->
                  forall nm', name e = Some nm' ->
                  strncmp nm' ptr len <> 0 \/ char_at nm' len <> NUL ->
                  (i <= j)%nat /\ nth_error (e :: r) (j - i) = Some o
                  /\ match name o with
                     | None => True
                     | Some nm => strncmp nm ptr len = 0 /\ char_at nm len = NUL
                     end
                  /\ forall k o', (k < j - i)%nat ->
                       nth_error (e :: r) k = Some o' ->
                       exists nm', name o' = Some nm'
                                   /\ (strncmp nm' ptr len <> 0
                                       \/ char_at nm' len <> NUL)).
  { intros Hr nm' Hn Hd. apply IH in Hr as (Hle & Hnth & Hm & Hbefore).
    replace (j - i)%nat with (S (j - S i)) by lia.
    split; [lia|]. split; [exact Hnth|]. split; [exact Hm|].
    intros [|k] o' Hk Ho'.
    - injection Ho' as <-. eauto.
    - apply (Hbefore k); [lia|exact Ho']. }
  destruct (name e) as [nm|] eqn:En.
  - destruct (strncmp nm ptr len =? 0) eqn:Hc; cbn [negb] in H.
    + destruct (Ascii.eqb (char_at nm len) NUL) eqn:Hz.
      * injection H as <- <-. rewrite Nat.sub_diag, En.
        apply Z.eqb_eq in Hc. apply Ascii.eqb_eq in Hz.
        repeat split; try assumption; try lia.
      * apply (Hnext H nm eq_refl). right. now apply Ascii.eqb_neq.
    + apply (Hnext H nm eq_refl). left. now apply Z.eqb_neq.
  - injection H as <- <-. rewrite Nat.sub_diag, En.
    repeat split; try lia.
Qed.

(** X5: a long option is found by its full name only. When the search
    of [getopt_long] for the word at [ptr] stops at an entry with a name,
    that name is, character by character, the word up to its end or its
    [=], no longer and no shorter; the entry is the first one of the
    table of which this is true, and no entry before it is the
    sentinel. An abbreviation of a name is no match. *)
Theorem getopt_long_matches_full_names_only (tbl : list option_t)
    (ptr : string) (i : nat) (o : option_t) (nm : string) :
  lookup_loop tbl 0 ptr (name_len ptr) = Lookup_stop i o ->
  name o = Some nm ->
  nth_error tbl i = Some o
  /\ strlen nm = name_len ptr
  /\ (forall k, (k < name_len ptr)%nat -> char_at nm k = char_at ptr k)
  /\ forall k o', (k < i)%nat -> nth_error tbl k = Some o' ->
       exists nm', name o' = Some nm'
                   /\ (strlen nm' <> name_len ptr
                       \/ exists q, (q < name_len ptr)%nat
                                    /\ char_at nm' q <> char_at ptr q).
Proof.
  intros H Hn. apply lookup_loop_stop in H as (_ & Hnth & Hm & Hbefore).
  rewrite Nat.sub_0_r in *. rewrite Hn in Hm. destruct Hm as [Hc Hz].
  pose proof (fun k Hk => proj1 (name_len_chars ptr k Hk)) as Hp.
  pose proof (strncmp_zero _ _ _ Hc Hp) as Heq.
  split; [exact Hnth|]. split; [|split; [exact Heq|]].
  - apply strlen_chars; [|exact Hz].
    intros k Hk. rewrite (Heq k Hk). now apply Hp.
  - intros k o' Hk Ho'.
    destruct (Hbefore k o' Hk Ho') as (nm' & Hn' & Hd).
    exists nm'. split; [exact Hn'|].
    destruct Hd as [Hd|Hd].
    + right. now apply strncmp_differs.
    + left. intros Hl. apply Hd. rewrite <- Hl. apply char_at_strlen.
Qed.

Lemma getopt_long_matches_full_names_only_witness :
  nth_error (long_opts ++ [mk_option None 0 None 0]) 12
  = Some (opt "quiet" no_argument "q")
  /\ strlen "quiet" = name_len "quiet=yes"
  /\ (forall k, (k < name_len "quiet=yes")%nat ->
        char_at "quiet" k = char_at "quiet=yes" k)
  /\ forall k o', (k < 12)%nat ->
       nth_error (long_opts ++ [mk_option None 0 None 0]) k = Some o' ->
       exists nm', name o' = Some nm'
                   /\ (strlen nm' <> name_len "quiet=yes"
                       \/ exists q, (q < name_len "quiet=yes")%nat
                                    /\ char_at nm' q <> char_at "quiet=yes" q).
Proof.
  apply (getopt_long_matches_full_names_only
           (long_opts ++ [mk_option None 0 None 0]) "quiet=yes" 12
           (opt "quiet" no_argument "q") "quiet");
    reflexivity.
Defined.

Lemma argc_above_1 (a b : string) (rest : list string) :
  (1 >=? argc_of (a :: b :: rest)) = false.
Proof.
  unfold argc_of. rewrite Z.geb_leb. apply Z.leb_gt.
  cbn [List.length]. lia.
Qed.

Lemma argc_above_2 (a b c : string) (rest : list string) :
  (1 + 1 >=? argc_of (a :: b :: c :: rest)) = false.
Proof.
  unfold argc_of. rewrite Z.geb_leb. apply Z.leb_gt.
  cbn [List.length]. lia.
Qed.

(** X6: every entry of [long_opts] stands for a character of
    [short_opts] that takes an argument exactly when the entry does. On
    [tar2sqfs --name ...] an option without an argument is returned as
    that character with [optind] one word on, and with [=value] behind
    it ['?'] is returned after a line on [stderr]; an option with an
    argument takes it from behind the [=] or, without one, from the next
    word, whatever that word looks like. *)
Theorem every_long_option_is_read_as_its_short_form :
  Forall
    (fun o =>
       exists nm c,
         name o = Some nm /\ val o = code c
         /\ listed short_opts c = Some (negb (has_arg o =? 0))
         /\ forall (v : string) (rest : list string),
              if has_arg o =? 0 then
                getopt_long ("tar2sqfs" :: ("--" ++ nm)%string :: rest)
                  short_opts long_opts getopt_init
                = GL_ret (code c) (mk_getopt_state 2 None "" [])
                /\ getopt_long
                     ("tar2sqfs" :: ("--" ++ nm ++ "=" ++ v)%string :: rest)
                     short_opts long_opts getopt_init
                   = GL_ret QUESTION
                       (mk_getopt_state 1 None ""
                          [("tar2sqfs: no argument expected for option `--"
                            ++ nm ++ "=" ++ v ++ "`" ++ newline)%string])
              else
                getopt_long
                  ("tar2sqfs" :: ("--" ++ nm ++ "=" ++ v)%string :: rest)
                  short_opts long_opts getopt_init
                = GL_ret (code c) (mk_getopt_state 2 (Some v) "" [])
                /\ getopt_long
                     ("tar2sqfs" :: ("--" ++ nm)%string :: v :: rest)
                     short_opts long_opts getopt_init
                   = GL_ret (code c) (mk_getopt_state 3 (Some v) "" []))
    long_opts.
Proof.
  unfold long_opts.
  repeat (constructor;
          [do 2 eexists; split; [reflexivity|]; split; [reflexivity|];
           split; [reflexivity|]; intros v rest;
           cbn [has_arg opt Z.eqb required_argument no_argument]; split|]).
  all: try apply Forall_nil.
  all: unfold getopt_long; cbn [optind optarg current stderr getopt_init];
    rewrite ?argc_above_1, ?argc_above_2.
  all: try reflexivity.
  all: match goal with
       | |- _ = GL_ret ?c (mk_getopt_state ?i (Some ?a) ?cu ?e) =>
           transitivity
             (GL_ret c (mk_getopt_state i (Some (advance a 0)) cu e));
           [reflexivity|now rewrite advance_0]
       end.
Qed.

(** In a table with a sentinel the search stops at the sentinel at the
    latest. *)
Lemma lookup_loop_terminated (tbl rest : list option_t) (s : option_t)
    (ptr : string) (len : nat) :
  name s = None ->
  forall i,
    (exists j o,
        lookup_loop (tbl ++ s :: rest) i ptr len = Lookup_stop j o
        /\ (i <= j <= i + List.length tbl)%nat)
    /\ Forall (fun k => (i <= k <= i + List.length tbl)%nat)
         (lookup_reads (tbl ++ s :: rest) i ptr len).
Proof.
  intros Hs. induction tbl as [|e r IH]; intros i;
    cbn [app lookup_loop lookup_reads List.length].
  - rewrite Hs. split; [exists i, s; split; [reflexivity|lia]|].
    constructor; [lia|constructor].
  - destruct (IH (S i)) as [(j & o & Hj & Hle) Hr].
    assert (Hnext : (exists j o,
                        lookup_loop (r ++ s :: rest) (S i) ptr len
                        = Lookup_stop j o
                        /\ (i <= j <= i + S (List.length r))%nat)
                    /\ Forall (fun k => (i <= k <= i + S (List.length r))%nat)
                         (i :: lookup_reads (r ++ s :: rest) (S i) ptr len)).
    { split; [exists j, o; split; [exact Hj|lia]|].
      constructor; [lia|].
      eapply Forall_impl; [|exact Hr]. cbv beta. intros k Hk. lia. }
    assert (Hhere : forall o,
               (exists j o',
                   Lookup_stop i o = Lookup_stop j o'
                   /\ (i <= j <= i + S (List.length r))%nat)
               /\ Forall (fun k => (i <= k <= i + S (List.length r))%nat) [i]).
    { intros o'. split; [exists i, o'; split; [reflexivity|lia]|].
      constructor; [lia|constructor]. }
    destruct (name e) as [nm|]; [|apply Hhere].
    destruct (negb (strncmp nm ptr len =? 0)); [exact Hnext|].
    destruct (Ascii.eqb (char_at nm len) NUL); [apply Hhere|exact Hnext].
Qed.

(** X23: [getopt_long] does not read behind a table that ends in an
    entry whose name is [NULL]. Whatever the word and whatever stands in
    the table before and behind that entry, the search reads no index
    beyond the entry's and stops inside the table, and the call returns a
    value. *)
Theorem getopt_long_stays_within_a_terminated_table
    (tbl rest : list option_t) (a : Z) (f : option Z) (v : Z) :
  (forall (ptr : string) (len : nat),
      (exists j o,
          lookup_loop (tbl ++ mk_option None a f v :: rest) 0 ptr len
          = Lookup_stop j o
          /\ (j <= List.length tbl)%nat)
      /\ Forall (fun k => (k <= List.length tbl)%nat)
           (lookup_reads (tbl ++ mk_option None a f v :: rest) 0 ptr len))
  /\ forall (argv : list string) (optstr : string) (st : getopt_state),
       exists r st',
         getopt_long argv optstr (tbl ++ mk_option None a f v :: rest) st
         = GL_ret r st'.
Proof.
  assert (H : forall ptr len,
             (exists j o,
                 lookup_loop (tbl ++ mk_option None a f v :: rest) 0 ptr len
                 = Lookup_stop j o
                 /\ (j <= List.length tbl)%nat)
             /\ Forall (fun k => (k <= List.length tbl)%nat)
                  (lookup_reads (tbl ++ mk_option None a f v :: rest) 0 ptr
                     len)).
  { intros ptr len.
    destruct (lookup_loop_terminated tbl rest (mk_option None a f v) ptr len
                eq_refl 0) as [(j & o & Hj & Hle) Hr].
    split; [exists j, o; split; [exact Hj|lia]|].
    eapply Forall_impl; [|exact Hr]. cbv beta. intros k Hk. lia. }
  split; [exact H|].
  intros argv optstr st. unfold getopt_long.
  destruct ((optind st >=? argc_of argv) || _ || _ || _).
  - destruct (getopt argv optstr st) as [r st']. eauto.
  - destruct (H (advance (arg_at argv (optind st)) 2)
                (name_len (advance (arg_at argv (optind st)) 2)))
      as [(j & o & -> & _) _].
    repeat match goal with
           | |- context [match ?x with Some _ => _ | None => _ end] =>
               destruct x
           | |- context [if ?b then _ else _] => destruct b
           end; eauto.
Qed.

End LongOptions.

(** ** The option loop ends *)

Section OptionLoopEnds.
Import CStr Getopt Args.
Local Open Scope list_scope.

Lemma weight_skipn_S (l : list string) (k : nat) :
  (weight (skipn (S k) l) <= weight (skipn k l))%nat.
Proof.
  revert l. induction k as [|k IH]; intros [|a r].
  - apply Nat.le_refl.
  - change (skipn 1 (a :: r)) with r. cbn [skipn weight fold_right].
    fold (weight r). lia.
  - apply Nat.le_refl.
  - change (skipn (S (S k)) (a :: r)) with (skipn (S k) r).
    change (skipn (S k) (a :: r)) with (skipn k r). apply IH.
Qed.

Lemma weight_skipn_nth (l : list string) (k : nat) :
  (k < List.length l)%nat ->
  weight (skipn k l)
  = S (String.length (nth k l "") + weight (skipn (S k) l)).
Proof.
  revert l. induction k as [|k IH]; intros [|a r] Hk; cbn [List.length] in Hk;
    try lia.
  - reflexivity.
  - apply (IH r). lia.
Qed.

Lemma weight_sum (l : list string) :
  weight l
  = (List.length l + fold_right (fun a n => (String.length a + n)%nat) O l)%nat.
Proof.
  induction l as [|a r IH]; [reflexivity|].
  cbn [weight fold_right List.length] in *. fold (weight r). lia.
Qed.

Lemma length_advance (s : string) :
  char_at s 0 <> NUL -> String.length s = S (String.length (advance s 1)).
Proof.
  destruct s as [|c r]; [intros H; now elim H|]. intros _.
  change (advance (String c r) 1) with (advance r 0). now rewrite advance_0.
Qed.

Lemma to_nat_succ (z : Z) : 0 <= z -> Z.to_nat (z + 1) = S (Z.to_nat z).
Proof. intros H. lia. Qed.

Lemma below_argc (argv : list string) (z : Z) :
  0 <= z -> (z >=? argc_of argv) = false ->
  (Z.to_nat z < List.length argv)%nat.
Proof.
  unfold argc_of. intros H0 H. rewrite Z.geb_leb in H. apply Z.leb_gt in H. lia.
Qed.

Ltac empty_cursor :=
  change (char_at "" 0) with NUL;
  change (Ascii.eqb NUL NUL) with true;
  cbv iota.

(** A call of [getopt] with the cursor inside a word takes a character
    of that word, or the rest of it, when it returns an option. *)
Lemma getopt_consumes_inside (argv : list string) (optstr : string)
    (st st' : getopt_state) (v : Z) :
  char_at (current st) 0 <> NUL ->
  0 <= optind st ->
  getopt argv optstr st = (v, st') ->
  v <> QUESTION ->
  0 <= optind st'
  /\ (pending argv st' < pending argv st)%nat
  /\ (char_at (current st') 0 <> NUL -> optind st' = optind st).
Proof.
  intros Hcur H0 H Hq.
  pose proof (length_advance _ Hcur) as Hlen.
  pose proof (weight_skipn_S argv (S (Z.to_nat (optind st)))) as Hw.
  unfold pending at 2. unfold getopt in H.
  apply Ascii.eqb_neq in Hcur. rewrite Hcur in *. cbv iota beta zeta in H.
  destruct (Ascii.eqb (char_at (current st) 0) ":");
    [injection H as <- _; now elim Hq|].
  destruct (strchr optstr (char_at (current st) 0)) as [p|];
    [|injection H as <- _; now elim Hq].
  destruct (Ascii.eqb (char_at optstr (S p)) ":").
  - destruct (negb (Ascii.eqb (char_at (advance (current st) 1) 0) NUL)).
    + injection H as _ <-. unfold pending. cbn [current optind].
      empty_cursor. rewrite to_nat_succ by assumption.
      repeat split; [lia|lia|]. intros Hn. now elim Hn.
    + destruct (optind st + 1 >=? argc_of argv);
        [injection H as <- _; now elim Hq|].
      injection H as _ <-. unfold pending. cbn [current optind].
      empty_cursor. rewrite !to_nat_succ by lia.
      repeat split; [lia|lia|]. intros Hn. now elim Hn.
  - injection H as _ <-. unfold pending. cbn [current optind].
    destruct (Ascii.eqb (char_at (advance (current st) 1) 0) NUL) eqn:Hz.
    + rewrite to_nat_succ by assumption.
      repeat split; [lia|lia|].
      intros Hn. apply Ascii.eqb_eq in Hz. contradiction.
    + repeat split; [lia|lia].
Qed.

(** A call of [getopt] that returns an option takes something off the
    command line. *)
Lemma getopt_consumes (argv : list string) (optstr : string)
    (st st' : getopt_state) (v : Z) :
  0 <= optind st ->
  getopt argv optstr st = (v, st') ->
  v <> -1 -> v <> QUESTION ->
  0 <= optind st'
  /\ (pending argv st' < pending argv st)%nat
  /\ (char_at (current st') 0 <> NUL -> optind st' = optind st).
Proof.
  intros H0 H Hm Hq.
  destruct (Ascii.eqb (char_at (current st) 0) NUL) eqn:Hcur.
  - set (a := arg_at argv (optind st)).
    set (g := mk_getopt_state (optind st) (optarg st) (advance a 1) (stderr st)).
    destruct ((optind st >=? argc_of argv)
              || negb (Ascii.eqb (char_at a 0) "-")) eqn:T1.
    { unfold getopt in H. rewrite Hcur in H. fold a in H. rewrite T1 in H.
      injection H as <- _. now elim Hm. }
    destruct (Ascii.eqb (char_at a 1) "-" && Ascii.eqb (char_at a 2) NUL) eqn:T2.
    { unfold getopt in H. rewrite Hcur in H. fold a in H. rewrite T1, T2 in H.
      injection H as <- _. now elim Hm. }
    destruct (Ascii.eqb (char_at a 1) NUL) eqn:T3.
    { unfold getopt in H. rewrite Hcur in H. fold a in H.
      rewrite T1, T2, T3 in H. injection H as <- _. now elim Hm. }
    assert (Hg : getopt argv optstr st = getopt argv optstr g).
    { unfold getopt. rewrite Hcur. fold a. rewrite T1, T2, T3.
      cbv iota beta. unfold g. cbn [current].
      assert (Ht : Ascii.eqb (char_at (advance a 1) 0) NUL = false)
        by (rewrite char_at_advance; exact T3).
      rewrite Ht. reflexivity. }
    assert (Hin : char_at (current g) 0 <> NUL).
    { unfold g. cbn [current]. rewrite char_at_advance.
      now apply Ascii.eqb_neq. }
    rewrite Hg in H.
    destruct (getopt_consumes_inside argv optstr g st' v Hin H0 H Hq)
      as (H0' & Hp & Hsame).
    split; [exact H0'|]. split; [|exact Hsame].
    apply orb_false_iff in T1 as [T0 T1].
    pose proof (below_argc argv _ H0 T0) as Hlt.
    apply negb_false_iff, Ascii.eqb_eq in T1.
    assert (Ha : char_at a 0 <> NUL) by (rewrite T1; discriminate).
    pose proof (length_advance a Ha) as Hla.
    unfold pending at 2. rewrite Hcur. rewrite (weight_skipn_nth _ _ Hlt).
    fold (arg_at argv (optind st)). fold a.
    unfold pending at 2 in Hp. apply Ascii.eqb_neq in Hin. rewrite Hin in Hp.
    unfold g in Hp. cbn [current optind] in Hp. lia.
  - apply Ascii.eqb_neq in Hcur.
    exact (getopt_consumes_inside argv optstr st st' v Hcur H0 H Hq).
Qed.

(** A call of [getopt_long] that returns an option takes something off
    the command line, and leaves the cursor inside a word only if that
    word is no long option. *)
Lemma getopt_long_consumes (argv : list string) (optstr : string)
    (tbl : list option_t) (st st' : getopt_state) (v : Z) :
  cursor_in_short_word argv st ->
  getopt_long argv optstr tbl st = GL_ret v st' ->
  v <> -1 -> v <> QUESTION ->
  cursor_in_short_word argv st'
  /\ (pending argv st' < pending argv st)%nat.
Proof.
  intros [H0 Hw] H Hm Hq. unfold getopt_long in H.
  destruct (long_word argv st) eqn:Hl.
  - unfold long_word in Hl. cbv zeta in Hl. apply negb_true_iff in Hl.
    rewrite Hl in H.
    assert (Hcur : char_at (current st) 0 = NUL).
    { destruct (Ascii.eqb (char_at (current st) 0) NUL) eqn:Hc;
        [now apply Ascii.eqb_eq|].
      apply Ascii.eqb_neq in Hc. specialize (Hw Hc). discriminate. }
    apply orb_false_iff in Hl as [Hl _]. apply orb_false_iff in Hl as [Hl _].
    apply orb_false_iff in Hl as [Hl _].
    pose proof (below_argc argv _ H0 Hl) as Hlt.
    pose proof (weight_skipn_S argv (S (Z.to_nat (optind st)))) as Hws.
    unfold pending at 2. rewrite Hcur. cbn [Ascii.eqb]. unfold NUL.
    change (Ascii.eqb zero zero) with true. cbv iota.
    rewrite (weight_skipn_nth _ _ Hlt).
    assert (Hdone : forall k a,
               (k = 1 \/ k = 2) ->
               st' = mk_getopt_state (optind st + k) a (current st) (stderr st) ->
               cursor_in_short_word argv st'
               /\ (pending argv st'
                   < S (String.length (nth (Z.to_nat (optind st)) argv "")
                        + weight (skipn (S (Z.to_nat (optind st))) argv)))%nat).
    { intros k a Hk ->. split.
      - split; [cbn [optind]; lia|]. cbn [current]. intros Hn. contradiction.
      - unfold pending. cbn [current optind]. rewrite Hcur.
        change (Ascii.eqb NUL NUL) with true. cbv iota.
        destruct Hk as [-> | ->].
        + rewrite to_nat_succ by assumption. lia.
        + replace (optind st + 2) with (optind st + 1 + 1) by lia.
          rewrite !to_nat_succ by lia. lia. }
    destruct (lookup_loop tbl 0 _ _) as [i o|i]; [|discriminate].
    destruct (name o); [|injection H as <- _; now elim Hq].
    destruct (Ascii.eqb _ "=").
    + destruct (has_arg o =? 0); [injection H as <- _; now elim Hq|].
      injection H as _ <-. eapply Hdone; [left; reflexivity|reflexivity].
    + destruct (negb (has_arg o =? 0)).
      * destruct (optind st + 1 >=? argc_of argv);
          [injection H as <- _; now elim Hq|].
        injection H as _ <-. eapply Hdone; [right; reflexivity|].
        f_equal. lia.
      * injection H as _ <-. eapply Hdone; [left; reflexivity|reflexivity].
  - unfold long_word in Hl. cbv zeta in Hl. apply negb_false_iff in Hl. rewrite Hl in H.
    destruct (getopt argv optstr st) as [v0 st0] eqn:Hg.
    injection H as -> ->.
    destruct (getopt_consumes argv optstr st st' v H0 Hg Hm Hq)
      as (H0' & Hp & Hsame).
    split; [|exact Hp]. split; [exact H0'|].
    intros Hn. specialize (Hsame Hn).
    unfold long_word. cbv zeta. rewrite Hsame. now rewrite Hl.
Qed.

Lemma switch_case_question (E : sqfs_env) (g : getopt_state) (o : options) :
  switch_case E QUESTION g o = inr (EXIT_FAILURE, [try_help]).
Proof. reflexivity. Qed.

(** With as many steps as there is left to read, and one more, the loop
    comes to an end. *)
Lemma option_loop_ends (E : sqfs_env) (argv : list string) (steps : nat) :
  forall (o : options) (st : getopt_state),
    cursor_in_short_word argv st ->
    (pending argv st < steps)%nat ->
    option_loop E steps argv o st <> PA_out_of_steps.
Proof.
  induction steps as [|n IH]; intros o st Hc Hp; [lia|].
  cbn [option_loop].
  destruct (getopt_long argv short_opts long_opts st) as [i g|i] eqn:Hg;
    [|discriminate].
  destruct (i =? -1) eqn:Hi; [discriminate|].
  apply Z.eqb_neq in Hi.
  destruct (switch_case E i g o) as [o'|[status msg]] eqn:Hs; [|discriminate].
  assert (Hq : i <> QUESTION).
  { intros ->. rewrite switch_case_question in Hs. discriminate. }
  destruct (getopt_long_consumes _ _ _ _ _ _ Hc Hg Hi Hq) as [Hc' Hp'].
  apply IH; [exact Hc'|lia].
Qed.

(** X7: the option loop of [process_args] comes to an end on every
    command line. A call of [getopt_long] that lets the loop go on takes
    a character or a word off the command line, so after at most as many
    calls as [argv] has words and characters, and one more,
    [process_args] has returned, has called [exit], or has read behind
    the end of [long_opts]. *)
Theorem process_args_ends_within_the_command_line (E : sqfs_env)
    (argv : list string) :
  process_args E argv <> PA_out_of_steps
  /\ forall o st,
       cursor_in_short_word argv st ->
       option_loop E (S (pending argv st)) argv o st <> PA_out_of_steps.
Proof.
  assert (Hloop : forall o,
             option_loop E (enough_steps argv) argv o getopt_init
             <> PA_out_of_steps).
  { intros o. apply option_loop_ends.
    - split; [discriminate|]. intros Hn. now elim Hn.
    - unfold pending, enough_steps. cbn [current getopt_init optind].
      empty_cursor. change (Z.to_nat 1) with 1%nat.
      pose proof (weight_skipn_S argv 0) as Hw.
      change (skipn 0 argv) with argv in Hw.
      rewrite (weight_sum argv) in Hw. lia. }
  split.
  - unfold process_args.
    destruct (option_loop E (enough_steps argv) argv _ getopt_init)
      as [o g|status err|i|] eqn:Hl; try discriminate.
    + unfold after_loop.
      repeat match goal with
             | |- context [if ?b then _ else _] => destruct b
             end; discriminate.
    + now apply Hloop in Hl.
  - intros o st Hc. apply option_loop_ends; [exact Hc|lia].
Qed.

End OptionLoopEnds.

(** ** What [process_args] accepts *)

Section Operands.
Import CStr Getopt Args.
Local Open Scope list_scope.

(** At an operand, and at the end of the command line, [getopt_long]
    returns -1 and changes nothing. *)
Lemma getopt_long_stops_at_an_operand (argv : list string) (optstr : string)
    (tbl : list option_t) (st : getopt_state) :
  char_at (current st) 0 = NUL ->
  argc_of argv <= optind st \/ operand (arg_at argv (optind st)) ->
  getopt_long argv optstr tbl st = GL_ret (-1) st.
Proof.
  intros Hcur Hop. unfold getopt_long, getopt.
  apply Ascii.eqb_eq in Hcur. rewrite Hcur.
  destruct (optind st >=? argc_of argv) eqn:Hge; [reflexivity|].
  rewrite Z.geb_leb in Hge. apply Z.leb_gt in Hge.
  destruct Hop as [Hop|[Hop|Hop]]; [lia| |].
  - apply Ascii.eqb_neq in Hop. rewrite Hop. reflexivity.
  - apply Ascii.eqb_eq in Hop.
    assert (Hd : Ascii.eqb (char_at (arg_at argv (optind st)) 1) "-" = false).
    { apply Ascii.eqb_eq in Hop. rewrite Hop. reflexivity. }
    rewrite Hop, Hd. cbn [negb orb andb].
    rewrite !orb_true_r. cbn [orb].
    now destruct (negb (Ascii.eqb (char_at (arg_at argv (optind st)) 0) "-")).
Qed.

(** X8: [tar2sqfs] takes one operand, the image, and reads no option
    behind it. Without an operand [process_args] exits with
    [EXIT_FAILURE]; with the operand [f] as the first word it returns
    with [filename] set to [f] and every other variable at its default
    when [f] is the last word, and exits with [EXIT_FAILURE] and
    [Unknown extra arguments] when any word follows, an option too; the
    dash alone is an operand; and behind [--] any word is taken as the
    image. *)
Theorem process_args_takes_one_operand (E : sqfs_env) (f : string)
    (rest : list string) :
  operand f ->
  process_args E ["tar2sqfs"]
  = PA_exit EXIT_FAILURE
      [("Missing argument: squashfs image" ++ newline)%string; try_help]
  /\ process_args E ("tar2sqfs" :: f :: rest)
     = match rest with
       | [] => PA_return (default_options E f) (mk_getopt_state 2 None "" [])
       | _ :: _ =>
           PA_exit EXIT_FAILURE
             [("Unknown extra arguments" ++ newline)%string; try_help]
       end
  /\ forall f' : string,
       process_args E ["tar2sqfs"; "--"; f']
       = PA_return (default_options E f') (mk_getopt_state 3 None "" []).
Proof.
  intros Hop. split; [reflexivity|]. split; [|reflexivity].
  unfold process_args, enough_steps. cbn [option_loop].
  rewrite getopt_long_stops_at_an_operand; [|reflexivity|right; exact Hop].
  change (-1 =? -1) with true. cbv iota.
  unfold after_loop. cbn [optind getopt_init comp_extra set_max_backlog
                            set_num_jobs num_jobs max_backlog set_comp_id
                            initial_options].
  change (1 <? 1) with false. change (0 <? 1) with true. cbv iota.
  cbn [optind getopt_init comp_extra set_max_backlog
         set_num_jobs num_jobs max_backlog set_comp_id initial_options].
  rewrite argc_above_1. cbv iota.
  change (arg_at ("tar2sqfs" :: f :: rest) 1) with f.
  destruct rest as [|x r].
  - reflexivity.
  - cbn [optind stderr].
    assert (Hlt : (1 + 1 <? argc_of ("tar2sqfs" :: f :: x :: r)) = true).
    { apply Z.ltb_lt. unfold argc_of. cbn [List.length]. lia. }
    rewrite Hlt. reflexivity.
Qed.

Lemma process_args_takes_one_operand_witness :
  operand "-"
  /\ process_args Samples.gzip_build ["tar2sqfs"; "-"; "-q"]
     = PA_exit EXIT_FAILURE
         [("Unknown extra arguments" ++ newline)%string; try_help].
Proof.
  assert (H : operand "-") by (right; reflexivity).
  split; [exact H|].
  exact (proj1 (proj2 (process_args_takes_one_operand Samples.gzip_build "-"
                         ["-q"] H))).
Defined.

Lemma clamp_long_range (z : Z) :
  Int.LONG_MIN <= Libc.clamp_long z <= Int.LONG_MAX.
Proof.
  unfold Libc.clamp_long.
  destruct (z <? Int.LONG_MIN) eqn:H1; [vm_compute; split; discriminate|].
  destruct (Int.LONG_MAX <? z) eqn:H2; [vm_compute; split; discriminate|].
  apply Z.ltb_ge in H1, H2. lia.
Qed.

Lemma strtol_range (s : string) :
  Int.LONG_MIN <= Libc.strtol s <= Int.LONG_MAX.
Proof.
  unfold Libc.strtol. destruct (Libc.skip_spaces s) as [|c r].
  - vm_compute. split; discriminate.
  - destruct (Ascii.eqb c "-"); [apply clamp_long_range|].
    destruct (Ascii.eqb c "+"); apply clamp_long_range.
Qed.

(** X9: the device block size is checked as an unsigned number. For
    [tar2sqfs -B v f] the number [strtol] reads is converted to [size_t]
    and refused only when the result is below 1024; so every negative
    number passes the check, and [devblksize] is then that number plus
    2 ^ 64, at least 2 ^ 63. *)
Theorem dev_block_size_is_checked_as_unsigned (E : sqfs_env) (v f : string) :
  operand f ->
  process_args E ["tar2sqfs"; "-B"; v; f]
  = (if Int.u64 (Libc.strtol v) <? 1024 then
       PA_exit EXIT_FAILURE
         [("Device block size must be at least 1024" ++ newline)%string]
     else
       PA_return
         (set_filename
            (set_max_backlog
               (set_devblksize
                  (set_comp_id (initial_options E) (compressor_get_default E))
                  (Int.u64 (Libc.strtol v)))
               10)
            (Some f))
         (mk_getopt_state 4 (Some v) "" []))
  /\ (Libc.strtol v < 0 ->
      (Int.u64 (Libc.strtol v) <? 1024) = false
      /\ Int.u64 (Libc.strtol v) = Libc.strtol v + 2 ^ 64
      /\ 2 ^ 63 <= Int.u64 (Libc.strtol v)).
Proof.
  intros Hop. split.
  - unfold process_args, enough_steps. cbn [List.length Nat.add option_loop].
    change (getopt_long ["tar2sqfs"; "-B"; v; f] short_opts long_opts getopt_init)
      with (GL_ret (code "B") (mk_getopt_state 3 (Some v) "" [])).
    change (code "B" =? -1) with false. cbv iota.
    change (switch_case E (code "B") (mk_getopt_state 3 (Some v) "" [])
              (set_comp_id (initial_options E) (compressor_get_default E)))
      with (let d := Int.u64 (Libc.strtol v) in
            if d <? 1024
            then inr (EXIT_FAILURE,
                      [("Device block size must be at least 1024"
                        ++ newline)%string])
            else inl (set_devblksize
                        (set_comp_id (initial_options E)
                           (compressor_get_default E)) d)
            : options + Z * list string).
    cbv zeta. destruct (Int.u64 (Libc.strtol v) <? 1024); [reflexivity|].
    rewrite getopt_long_stops_at_an_operand;
      [|reflexivity|right; exact Hop].
    reflexivity.
  - intros Hneg. pose proof (strtol_range v) as [Hlo _].
    assert (Hu : Int.u64 (Libc.strtol v) = Libc.strtol v + 2 ^ 64).
    { unfold Int.u64, Int.two64.
      symmetry. apply (Z.mod_unique_pos _ _ (-1)).
      - unfold Int.LONG_MIN in Hlo. lia.
      - lia. }
    rewrite Hu. unfold Int.LONG_MIN in Hlo.
    split; [apply Z.ltb_ge; lia|]. split; [reflexivity|lia].
Qed.

Lemma dev_block_size_is_checked_as_unsigned_witness :
  operand "out.sqfs"
  /\ Libc.strtol "-1" < 0
  /\ (exists o g,
        process_args Samples.gzip_build ["tar2sqfs"; "-B"; "-1"; "out.sqfs"]
        = PA_return o g
        /\ devblksize o = 18446744073709551615)
  /\ (Int.u64 (Libc.strtol "-1") <? 1024) = false.
Proof.
  assert (H : operand "out.sqfs") by (left; discriminate).
  assert (Hn : Libc.strtol "-1" < 0) by reflexivity.
  pose proof (dev_block_size_is_checked_as_unsigned Samples.gzip_build "-1"
                "out.sqfs" H) as [Hp Hc].
  split; [exact H|]. split; [exact Hn|]. split.
  - do 2 eexists. split; [exact Hp|reflexivity].
  - exact (proj1 (Hc Hn)).
Defined.

(** X10: when [process_args] returns, one operand was left behind the
    options and is the image: [optind] is [argc], [filename] is the last
    word of the command line, and [comp_extra] is not [help]. The number
    of jobs is at least 1. The backlog is at least 1 as well, unless ten
    times the number of jobs is a multiple of 2 ^ 32: the product is
    taken in [unsigned int], and the backlog is then 0. *)
Theorem process_args_returns_with_the_image (E : sqfs_env)
    (argv : list string) (o : options) (g : getopt_state) :
  process_args E argv = PA_return o g ->
  optind g = argc_of argv
  /\ filename o = Some (arg_at argv (argc_of argv - 1))
  /\ comp_extra o <> Some "help"%string
  /\ 1 <= num_jobs o
  /\ (1 <= max_backlog o
      \/ max_backlog o = 0 /\ (10 * num_jobs o) mod 2 ^ 32 = 0).
Proof.
  unfold process_args.
  destruct (option_loop E (enough_steps argv) argv _ getopt_init)
    as [o0 g0|status err|i|]; try discriminate.
  unfold after_loop.
  set (o1 := if num_jobs o0 <? 1 then set_num_jobs o0 1 else o0).
  set (o2 := if max_backlog o1 <? 1
             then set_max_backlog o1 (Int.u64 (Int.u32 (10 * num_jobs o1)))
             else o1).
  assert (H1 : 1 <= num_jobs o1).
  { unfold o1. destruct (num_jobs o0 <? 1) eqn:Hj; [cbn; lia|].
    apply Z.ltb_ge in Hj. exact Hj. }
  assert (H2 : num_jobs o2 = num_jobs o1 /\ comp_extra o2 = comp_extra o0
               /\ (1 <= max_backlog o2
                   \/ max_backlog o2 = 0
                      /\ (10 * num_jobs o1) mod 2 ^ 32 = 0)).
  { unfold o2. destruct (max_backlog o1 <? 1) eqn:Hb.
    - cbn [num_jobs comp_extra max_backlog set_max_backlog].
      split; [reflexivity|]. split; [unfold o1; now destruct (num_jobs o0 <? 1)|].
      pose proof (u32_range (10 * num_jobs o1)) as Hr.
      rewrite u64_small by (unfold Int.two64, Int.two32 in *; lia).
      unfold Int.u32, Int.two32 in *.
      destruct (Z.eq_dec ((10 * num_jobs o1) mod 2 ^ 32) 0) as [Hz|Hz].
      + right. now split.
      + left. lia.
    - apply Z.ltb_ge in Hb. split; [reflexivity|].
      split; [unfold o1; now destruct (num_jobs o0 <? 1)|]. now left. }
  destruct H2 as (Hj & Hx & Hb).
  destruct (comp_extra o2) as [x|] eqn:Hcx.
  - destruct (streq x "help") eqn:Hh; [discriminate|].
    destruct (optind g0 >=? argc_of argv) eqn:Hge; [discriminate|].
    cbn [optind stderr].
    destruct (optind g0 + 1 <? argc_of argv) eqn:Hlt; [discriminate|].
    intros H. injection H as <- <-.
    rewrite Z.geb_leb in Hge. apply Z.leb_gt in Hge. apply Z.ltb_ge in Hlt.
    cbn [optind filename comp_extra num_jobs max_backlog set_filename].
    rewrite Hcx, Hj.
    split; [lia|]. split; [do 2 f_equal; lia|].
    split; [|split; [exact H1|exact Hb]].
    intros Heq. injection Heq as ->. unfold streq in Hh.
    now rewrite String.eqb_refl in Hh.
  - destruct (optind g0 >=? argc_of argv) eqn:Hge; [discriminate|].
    cbn [optind stderr].
    destruct (optind g0 + 1 <? argc_of argv) eqn:Hlt; [discriminate|].
    intros H. injection H as <- <-.
    rewrite Z.geb_leb in Hge. apply Z.leb_gt in Hge. apply Z.ltb_ge in Hlt.
    cbn [optind filename comp_extra num_jobs max_backlog set_filename].
    rewrite Hcx, Hj.
    split; [lia|]. split; [do 2 f_equal; lia|].
    split; [discriminate|split; [exact H1|exact Hb]].
Qed.

Lemma process_args_returns_with_the_image_witness :
  exists o g,
    process_args Samples.gzip_build
      ["tar2sqfs"; "-j"; "2147483648"; "out.sqfs"] = PA_return o g
    /\ num_jobs o = 2147483648
    /\ max_backlog o = 0
    /\ optind g = 4
    /\ filename o = Some "out.sqfs"%string.
Proof.
  eexists. eexists.
  assert (H : process_args Samples.gzip_build
                ["tar2sqfs"; "-j"; "2147483648"; "out.sqfs"]
              = PA_return
                  (set_max_backlog
                     (set_num_jobs (default_options Samples.gzip_build "out.sqfs")
                        2147483648) 0)
                  (mk_getopt_state 4 (Some "2147483648"%string) "" []))
    by reflexivity.
  split; [exact H|].
  destruct (process_args_returns_with_the_image _ _ _ _ H)
    as (Hi & Hf & _ & _ & _).
  split; [reflexivity|]. split; [reflexivity|].
  split; [exact Hi|exact Hf].
Defined.

End Operands.

(** ** Tar entries *)

Section TarEntries.
Import Tar Samples.
Local Open Scope list_scope.

Context {FS N D : Type}.
Variable T : tar_env FS N D.
Variable opts : Args.options.

(** Whatever [copy_xattr] returns, it has touched nothing but the tree
    and [stderr]. *)
Lemma copy_xattr_frame (node : N) (xs : list tar_xattr_t) :
  forall (st st' : tar_state FS D) (r : Z),
    copy_xattr T opts node xs st = (r, st') ->
    stdin st' = stdin st /\ data st' = data st /\ stdout st' = stdout st.
Proof.
  induction xs as [|x xs IH]; intros st st' r H; cbn [copy_xattr] in H.
  - injection H as _ <-. repeat split.
  - destruct (negb (sqfs_has_xattr T (key x))).
    + destruct (Args.dont_skip opts).
      * injection H as _ <-. repeat split.
      * apply IH in H. exact H.
    + destruct (fstree_add_xattr T (fs st) node (key x) (value x)) as [ra f'].
      destruct (negb (ra =? 0)).
      * injection H as _ <-. repeat split.
      * apply IH in H. exact H.
Qed.

(** X11: when [copy_xattr] returns 0, the attributes whose keys
    [sqfs_has_xattr] accepts were added to the node, all of them and in
    the order of the header, and nothing else was done to the tree;
    standard input, the data writer and [stdout] are untouched. Without
    [dont_skip] every other attribute has left one warning on [stderr],
    in order; with [dont_skip] there was no other attribute and nothing
    was printed. *)
Theorem copy_xattr_copies_the_supported_attributes (node : N)
    (xs : list tar_xattr_t) (st st' : tar_state FS D) :
  copy_xattr T opts node xs st = (0, st') ->
  fs st'
  = fold_left
      (fun f x => snd (fstree_add_xattr T f node (key x) (value x)))
      (filter (fun x => sqfs_has_xattr T (key x)) xs) (fs st)
  /\ stdin st' = stdin st /\ data st' = data st /\ stdout st' = stdout st
  /\ (if Args.dont_skip opts then
        forallb (fun x => sqfs_has_xattr T (key x)) xs = true
        /\ stderr st' = stderr st
      else
        stderr st'
        = stderr st
          ++ map (fun x =>
                    ("WARNING: squashfs does not support xattr prefix of "
                     ++ key x ++ newline)%string)
               (filter (fun x => negb (sqfs_has_xattr T (key x))) xs)).
Proof.
  intros H. pose proof (copy_xattr_frame node xs st st' 0 H) as (Hi & Hd & Ho).
  split; [|split; [exact Hi|split; [exact Hd|split; [exact Ho|]]]];
    revert st st' H Hi Hd Ho.
  - induction xs as [|x xs IH]; intros st st' H _ _ _; cbn [copy_xattr] in H.
    + injection H as <-. reflexivity.
    + cbn [filter]. destruct (sqfs_has_xattr T (key x)); cbn [negb] in H.
      * cbn [fold_left].
        destruct (fstree_add_xattr T (fs st) node (key x) (value x))
          as [ra f'].
        destruct (negb (ra =? 0)); [discriminate|].
        rewrite (IH _ _ H); try reflexivity;
          now apply (copy_xattr_frame node xs _ _ 0).
      * destruct (Args.dont_skip opts); [discriminate|].
        rewrite (IH _ _ H); try reflexivity;
          now apply (copy_xattr_frame node xs _ _ 0).
  - induction xs as [|x xs IH]; intros st st' H _ _ _; cbn [copy_xattr] in H.
    + injection H as <-. destruct (Args.dont_skip opts).
      * now split.
      * cbn. now rewrite app_nil_r.
    + cbn [filter forallb]. destruct (sqfs_has_xattr T (key x)); cbn [negb] in *.
      * destruct (fstree_add_xattr T (fs st) node (key x) (value x))
          as [ra f'].
        destruct (negb (ra =? 0)); [discriminate|].
        specialize (IH _ _ H).
        destruct (Args.dont_skip opts);
          apply IH; now apply (copy_xattr_frame node xs _ _ 0).
      * destruct (Args.dont_skip opts); [discriminate|].
        specialize (IH _ _ H).
        rewrite IH by now apply (copy_xattr_frame node xs _ _ 0).
        cbn [map stderr say_err]. now rewrite <- app_assoc.
Qed.

(** X12: with [dont_skip] set, an attribute whose key [sqfs_has_xattr]
    refuses makes [copy_xattr] return -1: the call does not return 0,
    whatever the other attributes are, and when the attributes before the
    refused one were added the key is named on [stderr]. *)
Theorem copy_xattr_refuses_an_unsupported_key (node : N)
    (pre post : list tar_xattr_t) (x : tar_xattr_t) (st : tar_state FS D) :
  Args.dont_skip opts = true ->
  sqfs_has_xattr T (key x) = false ->
  fst (copy_xattr T opts node (pre ++ x :: post) st) = -1
  /\ (forallb (fun y => sqfs_has_xattr T (key y)) pre = true ->
      (forall f y, In y pre ->
                   fst (fstree_add_xattr T f node (key y) (value y)) = 0) ->
      stderr (snd (copy_xattr T opts node (pre ++ x :: post) st))
      = stderr st
        ++ [("Cannot encode xattr key '" ++ key x ++ "' in squashfs"
             ++ newline)%string]).
Proof.
  intros Hs Hx. revert st.
  induction pre as [|y pre IH]; intros st; cbn [app copy_xattr].
  - rewrite Hx, Hs. cbn [negb]. split; [reflexivity|]. intros _ _. reflexivity.
  - destruct (sqfs_has_xattr T (key y)) eqn:Hy; cbn [negb].
    + destruct (fstree_add_xattr T (fs st) node (key y) (value y))
        as [ra f'] eqn:Ha.
      destruct (negb (ra =? 0)) eqn:Hr.
      * split; [reflexivity|]. intros _ Hadd.
        specialize (Hadd (fs st) y (or_introl eq_refl)).
        rewrite Ha in Hadd. cbn [fst] in Hadd. subst ra. discriminate.
      * destruct (IH (with_fs st f')) as [H1 H2].
        split; [exact H1|]. intros Hall Hadd. cbn [forallb] in Hall.
        rewrite Hy in Hall. cbn [andb] in Hall.
        rewrite H2; [reflexivity|exact Hall|].
        intros f z Hz. apply Hadd. now right.
    + rewrite Hs. split; [reflexivity|]. intros Hall _.
      cbn [forallb] in Hall. rewrite Hy in Hall. discriminate.
Qed.

(** Whatever [write_file] returns, it has touched nothing but
    standard input and the data writer. *)
Lemma write_file_frame (hdr : tar_header_decoded_t) (fi : file_info_t)
    (st st' : tar_state FS D) (r : Z) :
  write_file T hdr fi st = (r, st') ->
  fs st' = fs st /\ stdout st' = stdout st /\ stderr st' = stderr st.
Proof.
  assert (Hp : forall n pack ret st1,
             pack_from_stdin st n pack = (ret, st1) ->
             fs st1 = fs st /\ stdout st1 = stdout st
             /\ stderr st1 = stderr st).
  { intros n pack ret st1. unfold pack_from_stdin.
    destruct (skip_bytes (stdin st) n) as [r0 s'].
    destruct (negb (r0 =? 0)); [intros H; injection H as _ <-; repeat split|].
    destruct (pack (data st) _) as [ret' d'].
    intros H. injection H as _ <-. repeat split. }
  unfold write_file. destruct (sparse hdr) as [|e m].
  - destruct (pack_from_stdin st (fi_size fi) _) as [ret st1] eqn:Hq.
    apply Hp in Hq. destruct (negb (ret =? 0)).
    + intros H. injection H as _ <-. exact Hq.
    + destruct (skip_padding (stdin st1) (fi_size fi)) as [r1 s1].
      intros H. injection H as _ <-. exact Hq.
  - destruct (pack_from_stdin st (sparse_sum (e :: m)) _) as [ret st1] eqn:Hq.
    apply Hp in Hq. destruct (negb (ret =? 0)).
    + intros H. injection H as _ <-. exact Hq.
    + destruct (skip_padding (stdin st1) (record_size hdr)) as [r1 s1].
      intros H. injection H as _ <-. exact Hq.
Qed.

(** X13: only an entry whose mode says regular file has a body that
    [create_node_and_repack_data] reads. For every other entry the call,
    whatever it returns, leaves standard input where it was and does not
    touch the data writer, also when the header gives the entry a size. *)
Theorem only_regular_entries_read_the_archive (hdr : tar_header_decoded_t)
    (st st' : tar_state FS D) (r : Z) :
  create_node_and_repack_data T opts hdr st = (r, st') ->
  S_ISREG (st_mode (sb hdr)) = false ->
  stdin st' = stdin st /\ data st' = data st.
Proof.
  unfold create_node_and_repack_data. intros H Hreg.
  assert (Hm : S_ISREG
                 (st_mode
                    (if negb (Args.keep_time opts)
                     then mk_stat (st_mode (sb hdr)) (st_uid (sb hdr))
                            (st_gid (sb hdr)) (st_size (sb hdr))
                            (fs_defaults_mtime T (fs st)) (st_rdev (sb hdr))
                     else sb hdr)) = false).
  { now destruct (negb (Args.keep_time opts)). }
  rewrite Hm in H.
  destruct (fstree_add_generic T (fs st) (name hdr) _ (link_target hdr))
    as [[f' node]|].
  - destruct (if negb (Args.no_xattr opts) then _ else _) as [rx stx] eqn:Hx.
    assert (Hf : stdin stx = stdin st /\ data stx = data st).
    { destruct (negb (Args.no_xattr opts)).
      - apply copy_xattr_frame in Hx as (Hi & Hd & _).
        rewrite Hi, Hd. now destruct (negb (Args.quiet opts)).
      - injection Hx as _ <-. now destruct (negb (Args.quiet opts)). }
    destruct (negb (rx =? 0)); injection H as _ <-; exact Hf.
  - injection H as _ <-. now split.
Qed.

(** What [create_node_and_repack_data] prints to [stdout]: nothing with
    [quiet], and at most the line for the entry without it. *)
Lemma stdout_after_messages (msgs : list string) (t : tar_state FS D) :
  stdout (fold_left say_err msgs t) = stdout t.
Proof.
  revert t. induction msgs as [|m r IH]; intros t; simpl; [reflexivity|].
  now rewrite IH.
Qed.

(** X24: records that the tests of [process_tar_ball] mark leave no
    trace. When every record the reader finds is marked, for its name,
    its type or its sparse map, then however many records there are and
    however the function ends, the tree and the data writer are as they
    were and nothing was written to [stdout]. *)
Theorem skipped_records_leave_no_trace (passes : nat) :
  (forall s hdr s',
      read_header T s = (0, hdr, s') ->
      fst (fst (check_record T hdr)) = true) ->
  forall (st st' : tar_state FS D) (r : Z),
    process_tar_ball T opts passes st = Some (r, st') ->
    fs st' = fs st /\ data st' = data st /\ stdout st' = stdout st.
Proof.
  intros Hall.
  assert (Hmsgs : forall msgs (t : tar_state FS D),
             fs (fold_left say_err msgs t) = fs t
             /\ data (fold_left say_err msgs t) = data t).
  { induction msgs as [|m ms IH]; intros t; [now split|].
    cbn [fold_left]. destruct (IH (say_err t m)) as [-> ->]. now split. }
  induction passes as [|p IH]; intros st st' r H; [discriminate|].
  cbn [process_tar_ball] in H.
  assert (Hone : match one_pass T opts st with
                 | Pass_next t | Pass_return _ t =>
                     fs t = fs st /\ data t = data st /\ stdout t = stdout st
                 end).
  { unfold one_pass.
    destruct (read_header T (stdin st)) as [[ret hdr] s'] eqn:Hr.
    destruct (ret >? 0) eqn:Hpos; [repeat split|].
    destruct (ret <? 0) eqn:Hneg; [repeat split|].
    assert (ret = 0) by (rewrite Z.gtb_ltb in Hpos;
                         apply Z.ltb_ge in Hpos, Hneg; lia).
    subst ret. specialize (Hall _ _ _ Hr).
    destruct (check_record T hdr) as [[skip hdr'] msgs].
    cbn [fst] in Hall. subst skip.
    destruct (Hmsgs msgs (with_stdin st s')) as [Hf Hd].
    destruct (Args.dont_skip opts).
    - rewrite Hf, Hd, stdout_after_messages. repeat split.
    - destruct (skip_entry _ _) as [rs s2].
      destruct (negb (rs =? 0)); cbn [fs data stdout with_stdin];
        rewrite Hf, Hd, stdout_after_messages; repeat split. }
  destruct (one_pass T opts st) as [t|ret t].
  - destruct Hone as (Hf & Hd & Ho).
    destruct (IH _ _ _ H) as (Hf' & Hd' & Ho').
    repeat split; congruence.
  - injection H as _ <-. exact Hone.
Qed.

End TarEntries.

(** ** The progress lines of [process_tar_ball] *)

Section TarProgress.
Import Tar Samples.
Local Open Scope list_scope.

Context {FS N D : Type}.
Variable T : tar_env FS N D.
Variable opts : Args.options.

Local Abbreviation noted := (tar_state (FS * list (option string)) D).

Ltac unlog :=
  cbn [logged unlogged read_header canonicalize_name fs_defaults_mtime
       fstree_add_generic node_data_file sqfs_has_xattr fstree_add_xattr
       write_data_from_file write_data_from_file_condensed
       stdin fs data stderr stdout say_err say_out with_stdin with_fs
       with_data fst snd].

(** The notes change nothing in what [copy_xattr] does, and [copy_xattr]
    leaves them alone. *)
Lemma copy_xattr_logged (node : N) (xs : list tar_xattr_t) :
  forall st : noted,
    copy_xattr T opts node xs (unlogged st)
    = (fst (copy_xattr (logged T) opts node xs st),
       unlogged (snd (copy_xattr (logged T) opts node xs st)))
    /\ snd (fs (snd (copy_xattr (logged T) opts node xs st))) = snd (fs st).
Proof.
  induction xs as [|x xs IH]; intros st; cbn [copy_xattr]; [now split|].
  unlog.
  destruct (negb (sqfs_has_xattr T (key x))).
  - destruct (Args.dont_skip opts); [now split|].
    exact (IH (say_err st _)).
  - destruct (fstree_add_xattr T (fst (fs st)) node (key x) (value x))
      as [r f'].
    destruct (negb (r =? 0)); [now split|].
    exact (IH (with_fs st (f', snd (fs st)))).
Qed.

Lemma write_file_logged (hdr : tar_header_decoded_t) (fi : file_info_t)
    (st : noted) :
  write_file T hdr fi (unlogged st)
  = (fst (write_file (logged T) hdr fi st),
     unlogged (snd (write_file (logged T) hdr fi st))).
Proof.
  unfold write_file, pack_from_stdin. unlog.
  destruct (sparse hdr) as [|e m].
  - destruct (skip_bytes (stdin st) (fi_size fi)) as [r0 s0].
    destruct (negb (r0 =? 0)); [reflexivity|].
    destruct (write_data_from_file T (data st) fi _) as [r1 d1].
    destruct (negb (r1 =? 0)); [reflexivity|]. unlog.
    destruct (skip_padding s0 (fi_size fi)) as [r2 s2]. reflexivity.
  - destruct (skip_bytes (stdin st) (sparse_sum (e :: m))) as [r0 s0].
    destruct (negb (r0 =? 0)); [reflexivity|].
    destruct (write_data_from_file_condensed T (data st) _ fi (e :: m))
      as [r1 d1].
    destruct (negb (r1 =? 0)); [reflexivity|]. unlog.
    destruct (skip_padding s0 (record_size hdr)) as [r2 s2]. reflexivity.
Qed.

(** [create_node_and_repack_data] over the tree with notes: the run is
    the one without them, and a line is printed exactly when a name was
    noted, the name of the line. *)
Lemma create_node_logged (hdr : tar_header_decoded_t) (st : noted) :
  create_node_and_repack_data T opts hdr (unlogged st)
  = (fst (create_node_and_repack_data (logged T) opts hdr st),
     unlogged (snd (create_node_and_repack_data (logged T) opts hdr st)))
  /\ exists names,
       snd (fs (snd (create_node_and_repack_data (logged T) opts hdr st)))
       = snd (fs st) ++ names
       /\ stdout (snd (create_node_and_repack_data (logged T) opts hdr st))
          = stdout st
            ++ (if Args.quiet opts then [] else packing_lines names).
Proof.
  unfold create_node_and_repack_data. unlog.
  set (sb' := if negb (Args.keep_time opts) then _ else sb hdr).
  destruct (fstree_add_generic T (fst (fs st)) (name hdr) sb'
              (link_target hdr)) as [[f' node]|].
  2:{ split; [reflexivity|]. exists []. unlog.
      destruct (Args.quiet opts); unfold packing_lines; cbn [map];
        rewrite !app_nil_r; now split. }
  set (st0 := with_fs st (f', snd (fs st) ++ [name hdr])).
  set (st1 := if negb (Args.quiet opts)
              then say_out st0 ("Packing " ++ shown (name hdr) ++ newline)
              else st0).
  assert (H1 : snd (fs st1) = snd (fs st) ++ [name hdr]
               /\ stdout st1
                  = stdout st
                    ++ (if Args.quiet opts then []
                        else packing_lines [name hdr])).
  { unfold st1, st0. destruct (Args.quiet opts); unlog;
      [now rewrite app_nil_r|now split]. }
  assert (H0 : (if negb (Args.quiet opts)
                then say_out (with_fs (unlogged st) f')
                       ("Packing " ++ shown (name hdr) ++ newline)
                else with_fs (unlogged st) f') = unlogged st1).
  { unfold st1, st0. destruct (Args.quiet opts); reflexivity. }
  rewrite H0. clear H0.
  destruct (Args.no_xattr opts); cbn [negb].
  - change (0 =? 0) with true. cbn [negb].
    destruct (S_ISREG (st_mode sb')).
    + rewrite write_file_logged.
      pose proof (write_file_frame (logged T) hdr
                    (node_data_file T (fst (fs st1)) node) st1) as Hf.
      destruct (write_file (logged T) hdr _ st1) as [rw stw].
      destruct (Hf _ _ eq_refl) as (Hfs & Ho & _).
      cbn [fst snd].
      destruct (negb (rw =? 0)); (split; [reflexivity|]);
        exists [name hdr]; cbn [fst snd]; rewrite Hfs, Ho; exact H1.
    + split; [reflexivity|]. exists [name hdr]. exact H1.
  - destruct (copy_xattr_logged node (xattr hdr) st1) as [Hx Hn].
    pose proof (copy_xattr_frame (logged T) opts node (xattr hdr) st1) as Hfr.
    rewrite Hx.
    destruct (copy_xattr (logged T) opts node (xattr hdr) st1) as [rx stx].
    cbn [fst snd] in *.
    destruct (Hfr _ _ eq_refl) as (_ & _ & Hox).
    destruct (negb (rx =? 0)).
    { split; [reflexivity|]. exists [name hdr]. cbn [fst snd].
      rewrite Hn, Hox. exact H1. }
    destruct (S_ISREG (st_mode sb')).
    + rewrite write_file_logged.
      pose proof (write_file_frame (logged T) hdr
                    (node_data_file T (fst (fs stx)) node) stx) as Hf.
      destruct (write_file (logged T) hdr _ stx) as [rw stw].
      destruct (Hf _ _ eq_refl) as (Hfs & Ho & _).
      cbn [fst snd].
      destruct (negb (rw =? 0)); (split; [reflexivity|]);
        exists [name hdr]; cbn [fst snd]; rewrite Hfs, Ho, Hn, Hox; exact H1.
    + split; [reflexivity|]. exists [name hdr]. cbn [fst snd].
      rewrite Hn, Hox. exact H1.
Qed.

Lemma messages_logged (msgs : list string) (st : noted) :
  unlogged (fold_left say_err msgs st) = fold_left say_err msgs (unlogged st)
  /\ fs (fold_left say_err msgs st) = fs st.
Proof.
  revert st. induction msgs as [|m r IH]; intros st; [now split|].
  cbn [fold_left]. destruct (IH (say_err st m)) as [-> ->]. now split.
Qed.

(** One pass of the loop over the tree with notes. *)
Lemma one_pass_logged (st : noted) :
  one_pass T opts (unlogged st)
  = match one_pass (logged T) opts st with
    | Pass_next t => Pass_next (unlogged t)
    | Pass_return r t => Pass_return r (unlogged t)
    end
  /\ exists names,
       match one_pass (logged T) opts st with
       | Pass_next t | Pass_return _ t =>
           snd (fs t) = snd (fs st) ++ names
           /\ stdout t
              = stdout st
                ++ (if Args.quiet opts then [] else packing_lines names)
       end.
Proof.
  assert (Hnone : forall t : noted,
             fs t = fs st -> stdout t = stdout st ->
             exists names,
               snd (fs t) = snd (fs st) ++ names
               /\ stdout t
                  = stdout st
                    ++ (if Args.quiet opts then [] else packing_lines names)).
  { intros t Hf Ho. exists []. rewrite Hf, Ho.
    destruct (Args.quiet opts); unfold packing_lines; cbn [map];
      rewrite !app_nil_r; now split. }
  unfold one_pass. unlog.
  destruct (read_header T (stdin st)) as [[ret hdr] s'].
  destruct (ret >? 0); [split; [reflexivity|now apply Hnone]|].
  destruct (ret <? 0); [split; [reflexivity|now apply Hnone]|].
  change (check_record (logged T) hdr) with (check_record T hdr).
  destruct (check_record T hdr) as [[skip hdr'] msgs].
  destruct (messages_logged msgs (with_stdin st s')) as [Hm Hfs].
  change (with_stdin (unlogged st) s') with (unlogged (with_stdin st s')).
  rewrite <- Hm.
  set (stm := fold_left say_err msgs (with_stdin st s')) in *.
  assert (Hom : stdout stm = stdout st)
    by (unfold stm; now rewrite stdout_after_messages).
  destruct skip.
  - destruct (Args.dont_skip opts);
      [split; [reflexivity|now apply Hnone]|].
    unlog.
    destruct (skip_entry (stdin stm) (st_size (sb hdr'))) as [rs s2].
    destruct (negb (rs =? 0)); (split; [reflexivity|]);
      apply Hnone; unlog; assumption.
  - destruct (create_node_logged hdr' stm) as [Hc (names & Hn & Ho)].
    rewrite Hc.
    destruct (create_node_and_repack_data (logged T) opts hdr' stm)
      as [rc stc].
    cbn [fst snd] in *.
    assert (Hres : snd (fs stc) = snd (fs st) ++ names
                   /\ stdout stc
                      = stdout st
                        ++ (if Args.quiet opts then []
                            else packing_lines names)).
    { rewrite Hn, Ho, Hfs, Hom. now split. }
    destruct (negb (rc =? 0)); (split; [reflexivity|]);
      exists names; exact Hres.
Qed.

(** X14: what [process_tar_ball] writes to [stdout] are the lines
    [Packing <name>] of the entries it has added to the tree, and nothing
    else. Run over a tree that notes the name of every node
    [fstree_add_generic] adds, the function, however the archive is read
    and however it ends, has printed one line for each name noted, in the
    order of the additions, and with [quiet] it has printed nothing; a
    record that is skipped or whose node cannot be added leaves no line.
    The notes do not change the run: without them the function returns
    the same value and leaves the same state. *)
Theorem process_tar_ball_prints_progress_only (passes : nat) :
  forall (st st' : noted) (r : Z),
    process_tar_ball (logged T) opts passes st = Some (r, st') ->
    process_tar_ball T opts passes (unlogged st) = Some (r, unlogged st')
    /\ exists names,
         snd (fs st') = snd (fs st) ++ names
         /\ stdout st'
            = stdout st
              ++ (if Args.quiet opts then [] else packing_lines names).
Proof.
  induction passes as [|p IH]; intros st st' r H; [discriminate|].
  cbn [process_tar_ball] in *.
  destruct (one_pass_logged st) as [Hone (n1 & Hn1)]. rewrite Hone.
  destruct (one_pass (logged T) opts st) as [t|ret t].
  - destruct Hn1 as [Hf1 Ho1].
    destruct (IH _ _ _ H) as [Hrun (n2 & Hf2 & Ho2)].
    split; [exact Hrun|]. exists (n1 ++ n2).
    rewrite Hf2, Ho2, Hf1, Ho1, <- !app_assoc.
    split; [reflexivity|].
    destruct (Args.quiet opts); [reflexivity|].
    unfold packing_lines. now rewrite map_app.
  - injection H as <- <-. split; [reflexivity|]. exists n1. exact Hn1.
Qed.

End TarProgress.

Section TarEntriesOnSamples.
Import Tar Samples.
Local Open Scope list_scope.

Lemma copy_xattr_copies_the_supported_attributes_witness :
  exists st',
    copy_xattr (user_xattr_reader labelled_dir) plain_options tt
      (xattr labelled_dir) tar_start = (0, st')
    /\ fs st' = ["user.mime=text"; "user.note=x"]%string
    /\ stderr st'
       = [("WARNING: squashfs does not support xattr prefix of "
           ++ "security.selinux" ++ newline)%string].
Proof.
  eexists. split; [reflexivity|].
  destruct (copy_xattr_copies_the_supported_attributes
              (user_xattr_reader labelled_dir) plain_options tt
              (xattr labelled_dir) tar_start _ eq_refl)
    as (Hf & _ & _ & _ & He).
  split; [exact Hf|exact He].
Defined.

Lemma copy_xattr_refuses_an_unsupported_key_witness :
  fst (copy_xattr (user_xattr_reader labelled_dir)
         (Args.set_dont_skip plain_options true) tt
         (xattr labelled_dir) tar_start) = -1.
Proof.
  exact (proj1 (copy_xattr_refuses_an_unsupported_key
                  (user_xattr_reader labelled_dir)
                  (Args.set_dont_skip plain_options true) tt
                  [mk_xattr "user.mime" "text"] [mk_xattr "user.note" "x"]
                  (mk_xattr "security.selinux" "etc_t") tar_start
                  eq_refl eq_refl)).
Defined.

Lemma only_regular_entries_read_the_archive_witness :
  exists r st',
    create_node_and_repack_data (user_xattr_reader labelled_dir)
      plain_options labelled_dir tar_start = (r, st')
    /\ stdin st' = stdin tar_start /\ data st' = data tar_start.
Proof.
  eexists. eexists. split; [reflexivity|].
  exact (only_regular_entries_read_the_archive
           (user_xattr_reader labelled_dir) plain_options labelled_dir
           tar_start _ _ eq_refl eq_refl).
Defined.

Lemma process_tar_ball_prints_progress_only_witness :
  exists r st',
    process_tar_ball (logged (one_record_reader sparse_fixture true))
      plain_options 2
      (mk_tar_state archive ([], []) 0 [] []) = Some (r, st')
    /\ process_tar_ball (one_record_reader sparse_fixture true)
         plain_options 2 tar_start = Some (r, unlogged st')
    /\ fs st' = (["input.bin"%string], [Some "input.bin"%string])
    /\ stdout st' = [("Packing input.bin" ++ newline)%string].
Proof.
  assert (H : exists r st',
             process_tar_ball (logged (one_record_reader sparse_fixture true))
               plain_options 2
               (mk_tar_state archive ([], []) 0 [] []) = Some (r, st')
             /\ fs st' = (["input.bin"%string], [Some "input.bin"%string])).
  { vm_compute. eexists. eexists. split; reflexivity. }
  destruct H as (r & st' & H & Hf). exists r, st'.
  split; [exact H|].
  destruct (process_tar_ball_prints_progress_only
              (one_record_reader sparse_fixture true)
              plain_options 2 _ st' r H)
    as (Hrun & names & Hn & Hs).
  split; [exact Hrun|]. split; [exact Hf|].
  rewrite Hf in Hn. cbn [snd fs app] in Hn. subst names.
  rewrite Hs. reflexivity.
Defined.

Lemma skipped_records_leave_no_trace_witness :
  exists r st',
    process_tar_ball (one_record_reader sparse_fixture false) plain_options 2
      tar_start = Some (r, st')
    /\ pos (stdin st') = 512 + 2097152
    /\ fs st' = fs tar_start /\ data st' = data tar_start
    /\ stdout st' = stdout tar_start.
Proof.
  assert (H : exists r st',
             process_tar_ball (one_record_reader sparse_fixture false)
               plain_options 2 tar_start = Some (r, st')
             /\ pos (stdin st') = 512 + 2097152).
  { vm_compute. eexists. eexists. split; reflexivity. }
  destruct H as (r & st' & H & Hp). exists r, st'.
  split; [exact H|]. split; [exact Hp|].
  apply (skipped_records_leave_no_trace
           (one_record_reader sparse_fixture false) plain_options 2)
    with (r := r); [|exact H].
  intros s hdr s' Hr. cbn [read_header one_record_reader] in Hr.
  destruct (pos s =? 0); [|discriminate].
  injection Hr as <- _. reflexivity.
Defined.

End TarEntriesOnSamples.

(** ** The test of the sparse map *)

Section SparseMaps.
Import Tar Samples.
Local Open Scope list_scope.

Lemma total_count_nonneg (m : list sparse_map_t) :
  Forall (fun e => 0 <= offset e /\ 0 <= count e
                   /\ offset e + count e < Int.two64) m ->
  0 <= total_count m.
Proof.
  induction 1 as [|e m [_ [Hc _]] _ IH]; [reflexivity|].
  change (total_count (e :: m)) with (count e + total_count m). lia.
Qed.

(** As long as nothing wraps around, the loop over the sparse map is
    left by [break] exactly when an extent starts before the end of the
    one before it, and otherwise ends with the sum of the lengths. *)
Lemma sparse_scan_exact (m : list sparse_map_t) :
  Forall (fun e => 0 <= offset e /\ 0 <= count e
                   /\ offset e + count e < Int.two64) m ->
  forall off cnt,
    0 <= cnt -> cnt + total_count m < Int.two64 ->
    fst (sparse_scan m off cnt) = negb (follows off m)
    /\ (follows off m = true ->
        snd (sparse_scan m off cnt) = cnt + total_count m).
Proof.
  induction 1 as [|e m [Ho [Hc He]] Hm IH]; intros off cnt Hcnt Htot.
  - split; [reflexivity|]. intros _. cbn. lia.
  - cbn [sparse_scan follows].
    change (total_count (e :: m)) with (count e + total_count m) in *.
    pose proof (total_count_nonneg m Hm) as Hm0.
    destruct (offset e <? off) eqn:Hlt.
    + apply Z.ltb_lt in Hlt.
      assert (Hle : (off <=? offset e) = false) by (apply Z.leb_gt; lia).
      rewrite Hle. split; [reflexivity|discriminate].
    + apply Z.ltb_ge in Hlt.
      assert (Hle : (off <=? offset e) = true) by (apply Z.leb_le; lia).
      rewrite Hle. cbn [andb]. rewrite !u64_small by lia.
      destruct (IH (offset e + count e) (cnt + count e)) as [H1 H2];
        [lia|lia|].
      split; [exact H1|]. intros Hf. rewrite (H2 Hf). lia.
Qed.



End SparseMaps.

(** ** Every run of the serialiser *)

Section EveryRun.
Import Sink Serialize.
Local Open Scope list_scope.

Context {W IDT : Type}.
Variable E : writer_ops W IDT.

Local Abbreviation writer := (sqfs_writer_t W IDT).

Lemma Grown_refl (wr : writer) : Grown wr wr.
Proof. split; [exists []; now rewrite app_nil_r|reflexivity]. Qed.

Lemma Grown_trans (a b c : writer) : Grown a b -> Grown b c -> Grown a c.
Proof.
  intros [[e1 H1] H2] [[e2 H3] H4]. split; [|congruence].
  exists (e1 ++ e2). now rewrite H3, H1, app_assoc.
Qed.

Lemma Grown_log (wr : writer) (w : W) (e : event) : Grown wr (log wr w e).
Proof. split; [exists [e]|]; reflexivity. Qed.

Lemma add_entries_any (l : list tree_node) :
  forall (wr wr' : writer) (ret : Z),
    add_entries E l wr = (ret, wr') -> Grown wr wr'.
Proof.
  induction l as [|it rest IH]; intros wr wr' ret; cbn [add_entries].
  - intros H. injection H as _ <-. apply Grown_refl.
  - destruct (sqfs_dir_writer_add_entry E (world wr) (name it) (inode_num it)
                (inode_ref it) (mode it)) as [r w].
    destruct (negb (r =? 0)).
    + intros H. injection H as _ <-. apply Grown_log.
    + intros H. apply IH in H.
      eapply Grown_trans; [apply Grown_log|exact H].
Qed.

Lemma write_dir_entries_any (parent : option Z) (n : tree_node)
    (wr wr' : writer) (o : option sqfs_inode_generic_t) :
  write_dir_entries E parent n wr = (o, wr') -> Grown wr wr'.
Proof.
  unfold write_dir_entries.
  destruct (sqfs_dir_writer_begin E (world wr)) as [r0 w0].
  pose proof (Grown_log wr w0 Ev_dir_begin) as G0.
  destruct (negb (r0 =? 0)).
  { intros H. injection H as _ <-.
    eapply Grown_trans; [exact G0|apply Grown_log]. }
  destruct (add_entries E (dir_children n) (log wr w0 Ev_dir_begin))
    as [r1 wr1] eqn:Ha.
  apply add_entries_any in Ha.
  pose proof (Grown_trans _ _ _ G0 Ha) as G1.
  destruct (negb (r1 =? 0)).
  { intros H. injection H as _ <-.
    eapply Grown_trans; [exact G1|apply Grown_log]. }
  destruct (sqfs_dir_writer_end E (world wr1)) as [r2 w2].
  pose proof (Grown_trans _ _ _ G1 (Grown_log wr1 w2 Ev_dir_end)) as G2.
  destruct (negb (r2 =? 0)).
  { intros H. injection H as _ <-.
    eapply Grown_trans; [exact G2|apply Grown_log]. }
  match goal with
  | |- context [log ?a ?b (Ev_dir_create_inode ?x ?y)] =>
      pose proof (Grown_trans _ _ _ G2
                    (Grown_log a b (Ev_dir_create_inode x y))) as G3
  end.
  destruct (sqfs_dir_writer_create_inode E _ 0 (xattr_idx n) _) as [i|].
  - destruct (is_dir_type (type (base i))); intros H; injection H as _ <-;
      exact G3.
  - intros H. injection H as _ <-.
    eapply Grown_trans; [exact G3|apply Grown_log].
Qed.

Lemma finish_inode_any (ino : sqfs_inode_generic_t) (n n' : tree_node)
    (wr wr' : writer) (ret : Z) :
  finish_inode E ino n wr = Ret (ret, n', wr') ->
  Grown wr wr' /\ strip n' = strip n.
Proof.
  unfold finish_inode, id_to_index.
  destruct (sqfs_inode_set_xattr_index E _ _ _) as [ty d].
  destruct (sqfs_id_table_id_to_index E (idtbl wr) (uid n)) as [[r1 uidx] t1].
  destruct (negb (r1 =? 0)).
  { intros H. injection H as _ <- <-. split; [|reflexivity].
    split; [eexists|]; reflexivity. }
  cbn [idtbl world super trace].
  destruct (sqfs_id_table_id_to_index E t1 (gid n)) as [[r2 gidx] t2].
  destruct (negb (r2 =? 0)).
  { intros H. injection H as _ <- <-. split; [|reflexivity].
    split; [eexists|]; cbn [trace super]; [|reflexivity].
    rewrite <- app_assoc. reflexivity. }
  cbn [idtbl world super trace].
  destruct (sqfs_meta_writer_get_position E (world wr) IM) as [b o].
  unfold log. cbn [idtbl world super trace].
  match goal with
  | |- context [sqfs_meta_writer_write_inode E ?w ?m ?i] =>
      destruct (sqfs_meta_writer_write_inode E w m i) as [r3 w3]
  end.
  intros H. injection H as _ <- <-.
  split; [|apply strip_set_inode_ref].
  split; [eexists|]; cbn [trace super]; [|reflexivity].
  rewrite <- !app_assoc. reflexivity.
Qed.

(** Whatever [serialize_tree_node] returns, it has added calls to the
    trace, left the super block alone, and changed nothing in the node
    but what the serialiser stores there. *)
Lemma serialize_tree_node_any (parent : option Z) (n n' : tree_node)
    (wr wr' : writer) (ret : Z) :
  serialize_tree_node E parent n wr = Ret (ret, n', wr') ->
  Grown wr wr' /\ strip n' = strip n.
Proof.
  unfold serialize_tree_node.
  destruct (S_ISDIR (mode n)).
  - destruct (write_dir_entries E parent n wr) as [[i|] wr1] eqn:Hw;
      apply write_dir_entries_any in Hw.
    + intros H. apply finish_inode_any in H as [G Hs].
      split; [eapply Grown_trans; eassumption|exact Hs].
    + intros H. injection H as _ <- <-. now split.
  - destruct (S_ISREG (mode n)).
    + destruct (user_ptr_of n) as [i|].
      * intros H. apply finish_inode_any in H as [G Hs].
        split; [exact G|]. now rewrite Hs, strip_clear_user_ptr.
      * intros H. injection H as _ <- <-.
        split; [apply Grown_refl|apply strip_clear_user_ptr].
    + destruct (tree_node_to_inode E n wr) as [[[i|] wr1]|] eqn:Hn;
        [| |discriminate].
      * apply (tree_node_to_inode_some E) in Hn. subst wr1.
        intros H. now apply finish_inode_any in H.
      * apply (tree_node_to_inode_none E) in Hn as [-> _].
        intros H. injection H as _ <- <-. split; [apply Grown_log|reflexivity].
Qed.

Lemma serialize_children_any (parent : option Z) (l : list tree_node) :
  forall (l' : list tree_node) (wr wr' : writer) (ret : Z),
    serialize_children E parent l wr = Ret (ret, l', wr') ->
    Grown wr wr' /\ map strip l' = map strip l.
Proof.
  induction l as [|it rest IH]; intros l' wr wr' ret; cbn [serialize_children].
  - intros H. injection H as _ <- <-. split; [apply Grown_refl|reflexivity].
  - destruct (serialize_tree_node E parent it wr) as [[[r1 it'] wr1]|] eqn:H1;
      [|discriminate].
    apply serialize_tree_node_any in H1 as [G1 S1].
    destruct (negb (r1 =? 0)).
    + intros H. injection H as _ <- <-. split; [exact G1|].
      cbn [map]. now rewrite S1.
    + destruct (serialize_children E parent rest wr1)
        as [[[r2 rest'] wr2]|] eqn:H2; [|discriminate].
      apply IH in H2 as [G2 S2].
      intros H. injection H as _ <- <-.
      split; [eapply Grown_trans; eassumption|].
      cbn [map]. now rewrite S1, S2.
Qed.

Lemma visit_subdirs_any
    (rec : tree_node -> writer -> res (Z * tree_node * writer))
    (l : list tree_node) :
  Forall (fun it => forall wr ret it' wr',
              rec it wr = Ret (ret, it', wr') ->
              Grown wr wr' /\ strip it' = strip it) l ->
  forall (l' : list tree_node) (wr wr' : writer) (ret : Z),
    visit_subdirs rec l wr = Ret (ret, l', wr') ->
    Grown wr wr' /\ map strip l' = map strip l.
Proof.
  induction 1 as [|it rest Hit _ IH]; intros l' wr wr' ret;
    cbn [visit_subdirs].
  - intros H. injection H as _ <- <-. split; [apply Grown_refl|reflexivity].
  - destruct (S_ISDIR (mode it)).
    + destruct (rec it wr) as [[[r1 it'] wr1]|] eqn:H1; [|discriminate].
      apply Hit in H1 as [G1 S1].
      destruct (negb (r1 =? 0)).
      * intros H. injection H as _ <- <-. split; [exact G1|].
        cbn [map]. now rewrite S1.
      * destruct (visit_subdirs rec rest wr1) as [[[r2 rest'] wr2]|] eqn:H2;
          [|discriminate].
        apply IH in H2 as [G2 S2].
        intros H. injection H as _ <- <-.
        split; [eapply Grown_trans; eassumption|].
        cbn [map]. now rewrite S1, S2.
    + destruct (visit_subdirs rec rest wr) as [[[r2 rest'] wr2]|] eqn:H2;
        [|discriminate].
      apply IH in H2 as [G2 S2].
      intros H. injection H as _ <- <-. split; [exact G2|].
      cbn [map]. now rewrite S2.
Qed.

(** [serialize_recursive], with the two shapes of its first part put
    together. *)
Lemma serialize_recursive_unfold (root : tree_node) (wr : writer) :
  serialize_recursive E root wr
  = match
      (if existsb (fun it => S_ISDIR (mode it)) (dir_children root)
       then visit_subdirs (serialize_recursive E) (dir_children root) wr
       else Ret (0, dir_children root, wr))
    with
    | Aborted => Aborted
    | Ret (ret, kids, wr) =>
        if negb (ret =? 0) then Ret (ret, set_children root kids, wr)
        else
          match serialize_children E (Some (inode_num root)) kids wr with
          | Aborted => Aborted
          | Ret (ret, kids, wr) => Ret (ret, set_children root kids, wr)
          end
    end.
Proof.
  rewrite serialize_recursive_eq. unfold dir_children.
  destruct (ndata root); reflexivity.
Qed.

Lemma serialize_recursive_any (root : tree_node) :
  forall (wr : writer) (ret : Z) (root' : tree_node) (wr' : writer),
    serialize_recursive E root wr = Ret (ret, root', wr') ->
    Grown wr wr' /\ strip root' = strip root.
Proof.
  induction root as [root IH] using tree_induction.
  intros wr ret root' wr'. rewrite serialize_recursive_unfold.
  assert (Hfirst : forall r kids wr1,
             (if existsb (fun it => S_ISDIR (mode it)) (dir_children root)
              then visit_subdirs (serialize_recursive E) (dir_children root) wr
              else Ret (0, dir_children root, wr)) = Ret (r, kids, wr1) ->
             Grown wr wr1 /\ map strip kids = map strip (dir_children root)).
  { intros r kids wr1.
    destruct (existsb (fun it => S_ISDIR (mode it)) (dir_children root)).
    - apply visit_subdirs_any. exact IH.
    - intros H. injection H as _ <- <-. split; [apply Grown_refl|reflexivity]. }
  destruct (if existsb (fun it => S_ISDIR (mode it)) (dir_children root)
            then _ else _) as [[[r kids] wr1]|]; [|discriminate].
  destruct (Hfirst r kids wr1 eq_refl) as [G1 S1].
  destruct (negb (r =? 0)).
  - intros H. injection H as _ <- <-. split; [exact G1|].
    now apply strip_set_children.
  - destruct (serialize_children E (Some (inode_num root)) kids wr1)
      as [[[r2 kids2] wr2]|] eqn:H2; [|discriminate].
    apply serialize_children_any in H2 as [G2 S2].
    intros H. injection H as _ <- <-.
    split; [eapply Grown_trans; eassumption|].
    apply strip_set_children. now rewrite S2, S1.
Qed.

Lemma super_set_back (s : sqfs_super_t) :
  set_directory_table_start (set_root_inode_ref s (root_inode_ref s))
    (directory_table_start s) = s.
Proof. destruct s. reflexivity. Qed.

(** X16: however [sqfs_serialize_fstree] ends when it returns, it has
    first read the size of the file and stored it as [inode_table_start];
    of the super block it has changed nothing but that field,
    [root_inode_ref] and [directory_table_start]; it has changed nothing
    in the tree but the references and the inodes of the files; and when
    it returns a value other than 0, its last call is the report of that
    value through [sqfs_perror]. *)
Theorem serialize_fstree_reports_every_failure (root root' : tree_node)
    (wr wr' : writer) (ret : Z) :
  sqfs_serialize_fstree E root wr = Ret (ret, root', wr') ->
  strip root' = strip root
  /\ (exists evs,
        trace wr'
        = trace wr ++ Ev_get_size (outfile_get_size E (world wr)) :: evs
        /\ (ret <> 0 -> exists pre, evs = pre ++ [Ev_perror ret]))
  /\ exists a b,
       super wr'
       = set_directory_table_start
           (set_root_inode_ref
              (set_inode_table_start (super wr)
                 (outfile_get_size E (world wr))) a) b.
Proof.
  unfold sqfs_serialize_fstree.
  set (sz := outfile_get_size E (world wr)).
  set (S1 := set_inode_table_start (super wr) sz).
  set (wr0 := log (with_super wr S1) (world wr) (Ev_get_size sz)).
  set (Goal :=
         strip root' = strip root
         /\ (exists evs,
               trace wr' = trace wr ++ Ev_get_size sz :: evs
               /\ (ret <> 0 -> exists pre, evs = pre ++ [Ev_perror ret]))
         /\ exists a b,
              super wr'
              = set_directory_table_start (set_root_inode_ref S1 a) b).
  assert (Hfail : forall retx rootx wrx,
             Grown wr0 wrx -> strip rootx = strip root ->
             Ret (retx, rootx, log wrx (world wrx) (Ev_perror retx))
             = Ret (ret, root', wr') -> Goal).
  { intros retx rootx wrx [[evs Ht] Hs] Hst H. injection H as <- <- <-.
    split; [exact Hst|]. split.
    - exists (evs ++ [Ev_perror retx]). split; [|eauto].
      cbn [trace log]. rewrite Ht. unfold wr0. cbn [trace log with_super].
      rewrite <- !app_assoc. reflexivity.
    - exists (root_inode_ref S1), (directory_table_start S1).
      cbn [super log]. rewrite Hs. unfold wr0. cbn [super log with_super].
      now rewrite super_set_back. }
  assert (Hrec : forall r1 root1 wr1,
             (if S_ISDIR (mode root) then serialize_recursive E root wr0
              else Ret (0, root, wr0)) = Ret (r1, root1, wr1) ->
             Grown wr0 wr1 /\ strip root1 = strip root).
  { intros r1 root1 wr1. destruct (S_ISDIR (mode root)).
    - apply serialize_recursive_any.
    - intros H. injection H as _ <- <-. split; [apply Grown_refl|reflexivity]. }
  destruct (if S_ISDIR (mode root) then serialize_recursive E root wr0
            else Ret (0, root, wr0)) as [[[r1 root1] wr1]|]; [|discriminate].
  destruct (Hrec r1 root1 wr1 eq_refl) as [G1 St1]. clear Hrec.
  fold Goal.
  destruct (negb (r1 =? 0)); [now apply Hfail|].
  destruct (serialize_tree_node E None root1 wr1) as [[[r2 root2] wr2]|] eqn:H2;
    [|discriminate].
  apply serialize_tree_node_any in H2 as [G2 St2].
  pose proof (Grown_trans _ _ _ G1 G2) as G12.
  assert (St12 : strip root2 = strip root) by congruence.
  destruct (negb (r2 =? 0)); [now apply Hfail|].
  destruct (sqfs_meta_writer_flush E (world wr2) IM) as [r3 w3].
  pose proof (Grown_trans _ _ _ G12 (Grown_log wr2 w3 (Ev_flush IM))) as G3.
  destruct (negb (r3 =? 0)); [now apply Hfail|].
  cbn [world log].
  destruct (sqfs_meta_writer_flush E w3 DM) as [r4 w4].
  pose proof (Grown_trans _ _ _ G3
                (Grown_log (log wr2 w3 (Ev_flush IM)) w4 (Ev_flush DM))) as G4.
  destruct (negb (r4 =? 0)); [now apply Hfail|].
  cbn [world log with_super super].
  destruct (sqfs_meta_write_write_to_file E w4 DM) as [r5 w5].
  destruct G4 as [[evs Ht] Hs]. cbn [trace super log] in Ht, Hs.
  unfold wr0 in Ht, Hs. cbn [trace super log with_super] in Ht, Hs.
  assert (Hend : forall tail wrx,
             wrx = wr' -> root2 = root' ->
             trace wrx
             = (trace wr2 ++ [Ev_flush IM]) ++ [Ev_flush DM]
               ++ Ev_get_size (outfile_get_size E w4)
                  :: Ev_write_to_file DM :: tail ->
             (ret <> 0 -> tail = [Ev_perror ret]) ->
             super wrx
             = set_directory_table_start
                 (set_root_inode_ref (super wr2) (inode_ref root2))
                 (outfile_get_size E w4) -> Goal).
  { intros tail wrx <- <- Htr Htail Hsup. split; [exact St12|]. split.
    - exists (evs ++ [Ev_get_size (outfile_get_size E w4); Ev_write_to_file DM]
              ++ tail).
      split.
      + rewrite Htr.
        replace ((trace wr2 ++ [Ev_flush IM]) ++ [Ev_flush DM]
                 ++ Ev_get_size (outfile_get_size E w4)
                    :: Ev_write_to_file DM :: tail)
          with (((trace wr2 ++ [Ev_flush IM]) ++ [Ev_flush DM])
                ++ [Ev_get_size (outfile_get_size E w4); Ev_write_to_file DM]
                ++ tail)
          by (rewrite <- !app_assoc; reflexivity).
        rewrite Ht. rewrite <- !app_assoc. reflexivity.
      + intros Hr. rewrite (Htail Hr).
        exists (evs ++ [Ev_get_size (outfile_get_size E w4);
                        Ev_write_to_file DM]).
        rewrite <- !app_assoc. reflexivity.
    - exists (inode_ref root2), (outfile_get_size E w4).
      rewrite Hsup, Hs. reflexivity. }
  destruct (negb (r5 =? 0)) eqn:Hr5; intros H; injection H as <- Hroot Hwr.
  - eapply (Hend [Ev_perror r5]); [exact Hwr|exact Hroot| | |].
    + cbn [trace log with_super]. rewrite <- !app_assoc. reflexivity.
    + reflexivity.
    + reflexivity.
  - apply negb_false_iff, Z.eqb_eq in Hr5. subst r5.
    eapply (Hend []); [exact Hwr|exact Hroot| | |].
    + cbn [trace log with_super]. rewrite <- !app_assoc. reflexivity.
    + intros Hn. now elim Hn.
    + reflexivity.
Qed.

Lemma known_modes (a b : list tree_node) :
  map strip a = map strip b ->
  Forall (fun n => known_type (mode n) = true) b ->
  Forall (fun n => known_type (mode n) = true) a.
Proof.
  revert b. induction a as [|x a IH]; intros [|y b] H Hb; try discriminate;
    [constructor|].
  cbn [map] in H. injection H as Hx Hr. inversion Hb; subst.
  constructor; [|now apply (IH b)].
  now rewrite (strip_mode x y Hx).
Qed.

(** [serialize_tree_node] runs into the failed [assert] exactly on a
    node whose mode names none of the seven file types, when [calloc] has
    memory for an inode without extra bytes. *)
Lemma serialize_tree_node_aborts (parent : option Z) (n : tree_node)
    (wr : writer) :
  serialize_tree_node E parent n wr = Aborted
  <-> known_type (mode n) = false /\ calloc E (world wr) O = true.
Proof.
  assert (Hfin : forall i m w, finish_inode E i m w <> Aborted).
  { intros i m w. unfold finish_inode, id_to_index.
    destruct (sqfs_inode_set_xattr_index E _ _ _) as [ty d].
    destruct (sqfs_id_table_id_to_index E (idtbl w) (uid m)) as [[r1 u] t1].
    destruct (negb (r1 =? 0)); [discriminate|]. cbn [idtbl world super trace].
    destruct (sqfs_id_table_id_to_index E t1 (gid m)) as [[r2 g] t2].
    destruct (negb (r2 =? 0)); [discriminate|]. cbn [idtbl world super trace].
    destruct (sqfs_meta_writer_get_position E (world w) IM) as [b o].
    match goal with
    | |- context [sqfs_meta_writer_write_inode E ?a ?m ?i] =>
        destruct (sqfs_meta_writer_write_inode E a m i)
    end.
    discriminate. }
  assert (Hno : forall (i : res (Z * tree_node * writer)) (b : bool) (P : Prop),
             i <> Aborted -> b = true ->
             i = Aborted <-> b = false /\ P).
  { intros i b P Hi ->. split; [intros H; now elim Hi|intros [H _]; discriminate H]. }
  unfold serialize_tree_node, known_type, tree_node_to_inode, S_ISDIR, S_ISREG,
    S_ISLNK.
  cbv zeta.
  destruct (Z.land (mode n) S_IFMT =? S_IFDIR).
  { apply Hno; [|reflexivity].
    destruct (write_dir_entries E parent n wr) as [[i|] wr1];
      [apply Hfin|discriminate]. }
  destruct (Z.land (mode n) S_IFMT =? S_IFREG).
  { apply Hno; [|reflexivity].
    destruct (user_ptr_of n) as [i|]; [apply Hfin|discriminate]. }
  destruct (Z.land (mode n) S_IFMT =? S_IFLNK) eqn:Tl.
  { apply Z.eqb_eq in Tl. rewrite Tl.
    apply Hno; [|reflexivity].
    destruct (negb (calloc E (world wr) _)); [discriminate|].
    cbn. apply Hfin. }
  destruct (Z.land (mode n) S_IFMT =? S_IFSOCK).
  { apply Hno; [|reflexivity].
    destruct (negb (calloc E (world wr) O)); [discriminate|apply Hfin]. }
  destruct (Z.land (mode n) S_IFMT =? S_IFIFO).
  { apply Hno; [|reflexivity].
    destruct (negb (calloc E (world wr) O)); [discriminate|apply Hfin]. }
  destruct (Z.land (mode n) S_IFMT =? S_IFBLK).
  { apply Hno; [|reflexivity].
    destruct (negb (calloc E (world wr) O)); [discriminate|apply Hfin]. }
  destruct (Z.land (mode n) S_IFMT =? S_IFCHR).
  { apply Hno; [|reflexivity].
    destruct (negb (calloc E (world wr) O)); [discriminate|apply Hfin]. }
  cbn [orb]. destruct (calloc E (world wr) O); cbn [negb].
  - split; [now split|reflexivity].
  - split; [discriminate|intros [_ H]; discriminate H].
Qed.

Lemma serialize_children_returns (parent : option Z) (l : list tree_node) :
  Forall (fun n => known_type (mode n) = true) l ->
  forall wr : writer, serialize_children E parent l wr <> Aborted.
Proof.
  induction 1 as [|it rest Hit _ IH]; intros wr; cbn [serialize_children];
    [discriminate|].
  destruct (serialize_tree_node E parent it wr) as [[[r1 it'] wr1]|] eqn:H1.
  - destruct (negb (r1 =? 0)); [discriminate|].
    specialize (IH wr1).
    destruct (serialize_children E parent rest wr1) as [[[r2 rest'] wr2]|];
      [discriminate|now elim IH].
  - apply serialize_tree_node_aborts in H1 as [H1 _]. congruence.
Qed.

Lemma visit_subdirs_returns
    (rec : tree_node -> writer -> res (Z * tree_node * writer))
    (l : list tree_node) :
  Forall (fun it => S_ISDIR (mode it) = true ->
                    forall wr, rec it wr <> Aborted) l ->
  forall wr : writer, visit_subdirs rec l wr <> Aborted.
Proof.
  induction 1 as [|it rest Hit _ IH]; intros wr; cbn [visit_subdirs];
    [discriminate|].
  destruct (S_ISDIR (mode it)).
  - specialize (Hit eq_refl wr).
    destruct (rec it wr) as [[[r1 it'] wr1]|]; [|now elim Hit].
    destruct (negb (r1 =? 0)); [discriminate|].
    specialize (IH wr1).
    destruct (visit_subdirs rec rest wr1) as [[[r2 rest'] wr2]|];
      [discriminate|now elim IH].
  - specialize (IH wr).
    destruct (visit_subdirs rec rest wr) as [[[r2 rest'] wr2]|];
      [discriminate|now elim IH].
Qed.

Lemma known_below (n : tree_node) :
  S_ISDIR (mode n) = true ->
  Forall (fun x => known_type (mode x) = true) (nodes_of n) ->
  Forall (fun c => known_type (mode c) = true
                   /\ Forall (fun x => known_type (mode x) = true)
                        (nodes_of c))
    (dir_children n).
Proof.
  intros Hd H. rewrite nodes_of_eq, Hd, below_eq in H.
  inversion H as [|? ? _ Hb]; subst. clear H.
  induction (dir_children n) as [|c r IH]; [constructor|].
  cbn [flat_map] in Hb. apply Forall_app in Hb as [Hc Hr].
  constructor; [|now apply IH].
  split; [|exact Hc].
  rewrite nodes_of_eq in Hc. now inversion Hc.
Qed.

Lemma serialize_recursive_returns (root : tree_node) :
  S_ISDIR (mode root) = true ->
  Forall (fun n => known_type (mode n) = true) (nodes_of root) ->
  forall wr : writer, serialize_recursive E root wr <> Aborted.
Proof.
  induction root as [root IH] using tree_induction.
  intros Hd Hk wr. rewrite serialize_recursive_unfold.
  pose proof (known_below root Hd Hk) as Hc.
  assert (Hkids : Forall (fun n => known_type (mode n) = true)
                    (dir_children root)).
  { eapply Forall_impl; [|exact Hc]. now intros a [Ha _]. }
  destruct (existsb (fun it => S_ISDIR (mode it)) (dir_children root)).
  - assert (Hv : forall w, visit_subdirs (serialize_recursive E)
                             (dir_children root) w <> Aborted).
    { apply visit_subdirs_returns.
      clear - IH Hc. induction IH as [|c r Hc1 _ IHr]; [constructor|].
      inversion Hc as [|? ? [_ Hn] Hr]; subst.
      constructor; [|now apply IHr].
      intros Hdir w. now apply Hc1. }
    destruct (visit_subdirs (serialize_recursive E) (dir_children root) wr)
      as [[[r kids] wr1]|] eqn:H1; [|now elim (Hv wr)].
    destruct (negb (r =? 0)); [discriminate|].
    apply visit_subdirs_any in H1 as [_ Hs];
      [|eapply Forall_impl; [|exact IH]; intros a _ w r0 a' w';
        apply serialize_recursive_any].
    pose proof (serialize_children_returns (Some (inode_num root)) kids
                  (known_modes _ _ Hs Hkids) wr1) as Hn.
    destruct (serialize_children E (Some (inode_num root)) kids wr1)
      as [[[r2 k2] wr2]|]; [discriminate|now elim Hn].
  - change (negb (0 =? 0)) with false. cbv iota.
    pose proof (serialize_children_returns (Some (inode_num root))
                  (dir_children root) Hkids wr) as Hn.
    destruct (serialize_children E (Some (inode_num root)) (dir_children root)
                wr) as [[[r2 k2] wr2]|]; [discriminate|now elim Hn].
Qed.

(** X17: the [assert(0)] of [tree_node_to_inode] is reached exactly
    through a node whose mode names none of the seven file types and for
    which [calloc] has given memory: on such a node, and on no other,
    [serialize_tree_node] does not return. Without memory from [calloc]
    the function reports and [serialize_tree_node] returns
    [SQFS_ERROR_ALLOC] for every node that is neither a directory nor a
    regular file, with the node as it was and no other call. On a tree in
    which every node has one of the seven types [sqfs_serialize_fstree]
    returns, with 0 or with an error, whatever the writer does. *)
Theorem known_file_types_never_reach_the_assert :
  (forall (parent : option Z) (n : tree_node) (wr : writer),
      serialize_tree_node E parent n wr = Aborted
      <-> known_type (mode n) = false /\ calloc E (world wr) O = true)
  /\ (forall (parent : option Z) (n : tree_node) (wr : writer),
        S_ISDIR (mode n) = false -> S_ISREG (mode n) = false ->
        calloc E (world wr)
          (if S_ISLNK (mode n) then CStr.strlen (target_of n) else O) = false ->
        serialize_tree_node E parent n wr
        = Ret (SQFS_ERROR_ALLOC, n,
               log wr (world wr) (Ev_libc_perror "creating inode")))
  /\ forall (root : tree_node) (wr : writer),
       Forall (fun n => known_type (mode n) = true) (nodes_of root) ->
       sqfs_serialize_fstree E root wr <> Aborted.
Proof.
  split; [exact serialize_tree_node_aborts|]. split.
  { intros parent n wr Hd Hr Hc. unfold serialize_tree_node, tree_node_to_inode.
    rewrite Hd, Hr. cbv zeta. rewrite Hc. reflexivity. }
  intros root wr Hk. unfold sqfs_serialize_fstree.
  match goal with
  | |- context [serialize_recursive E root ?w] => set (wr0 := w)
  end.
  assert (Hrec : (if S_ISDIR (mode root) then serialize_recursive E root wr0
                  else Ret (0, root, wr0)) <> Aborted).
  { destruct (S_ISDIR (mode root)) eqn:Hd; [|discriminate].
    now apply serialize_recursive_returns. }
  assert (Hst : forall r1 root1 wr1,
             (if S_ISDIR (mode root) then serialize_recursive E root wr0
              else Ret (0, root, wr0)) = Ret (r1, root1, wr1) ->
             mode root1 = mode root).
  { intros r1 root1 wr1. destruct (S_ISDIR (mode root)).
    - intros H. apply serialize_recursive_any in H as [_ H].
      now apply strip_mode.
    - intros H. now injection H as _ <- _. }
  destruct (if S_ISDIR (mode root) then serialize_recursive E root wr0
            else Ret (0, root, wr0)) as [[[r1 root1] wr1]|];
    [|now elim Hrec].
  specialize (Hst r1 root1 wr1 eq_refl).
  destruct (negb (r1 =? 0)); [discriminate|].
  destruct (serialize_tree_node E None root1 wr1) as [[[r2 root2] wr2]|] eqn:H2.
  - destruct (negb (r2 =? 0)); [discriminate|].
    destruct (sqfs_meta_writer_flush E (world wr2) IM) as [r3 w3].
    destruct (negb (r3 =? 0)); [discriminate|]. cbn [world log].
    destruct (sqfs_meta_writer_flush E w3 DM) as [r4 w4].
    destruct (negb (r4 =? 0)); [discriminate|]. cbn [world log with_super].
    destruct (sqfs_meta_write_write_to_file E w4 DM) as [r5 w5].
    destruct (negb (r5 =? 0)); discriminate.
  - apply serialize_tree_node_aborts in H2 as [H2 _]. rewrite Hst in H2.
    rewrite nodes_of_eq in Hk. inversion Hk; subst. congruence.
Qed.

Lemma succeeded_app (a b : list event) (w : W) :
  succeeded E (a ++ b) w <-> succeeded E a w /\ succeeded E b (replay E a w).
Proof.
  revert w. induction a as [|e a IH]; intros w; cbn [app succeeded].
  - unfold replay. cbn. tauto.
  - rewrite IH. unfold replay. cbn [fold_left]. tauto.
Qed.

(** The loop of [write_dir_entries]: it has added the entries of the
    children in list order, all of them when it returns 0, and otherwise
    up to the first one that the directory writer refuses, whose status it
    returns. *)
Lemma add_entries_calls (l : list tree_node) :
  forall (wr wr' : writer) (ret : Z),
    add_entries E l wr = (ret, wr') ->
    (ret = 0
     /\ trace wr' = trace wr ++ map entry_of l
     /\ succeeded E (map entry_of l) (world wr)
     /\ world wr' = replay E (map entry_of l) (world wr))
    \/ (ret <> 0
        /\ exists done it rest,
             l = done ++ it :: rest
             /\ trace wr' = trace wr ++ map entry_of done ++ [entry_of it]
             /\ succeeded E (map entry_of done) (world wr)
             /\ status E (replay E (map entry_of done) (world wr))
                  (entry_of it) = ret).
Proof.
  induction l as [|x r IH]; intros wr wr' ret; cbn [add_entries].
  - intros H. injection H as <- <-. left.
    split; [reflexivity|]. split; [now rewrite app_nil_r|]. now split.
  - destruct (sqfs_dir_writer_add_entry E (world wr) (name x) (inode_num x)
                (inode_ref x) (mode x)) as [r0 w] eqn:Hcall.
    assert (Hst : status E (world wr) (entry_of x) = r0)
      by (unfold entry_of; cbn [status]; now rewrite Hcall).
    assert (Haf : after E (world wr) (entry_of x) = w)
      by (unfold entry_of; cbn [after]; now rewrite Hcall).
    destruct (negb (r0 =? 0)) eqn:Hr.
    + intros H. injection H as <- <-. right.
      split; [apply negb_true_iff in Hr; now apply Z.eqb_neq|].
      exists [], x, r. repeat split; assumption.
    + apply negb_false_iff, Z.eqb_eq in Hr. subst r0.
      intros H. apply IH in H. cbn [trace world log] in H.
      destruct H as [(-> & Ht & Hs & Hw)
                    |(Hn & done & it & rest & -> & Ht & Hs & Hc)].
      * left. split; [reflexivity|]. cbn [map succeeded].
        unfold replay in *. cbn [fold_left]. rewrite Haf.
        split; [rewrite Ht, <- app_assoc; reflexivity|]. now repeat split.
      * right. split; [exact Hn|].
        exists (x :: done), it, rest. cbn [map succeeded app].
        unfold replay in *. cbn [fold_left]. rewrite Haf.
        split; [reflexivity|].
        split; [rewrite Ht, <- app_assoc; reflexivity|]. now repeat split.
Qed.

(** X18: a failure of the directory writer reaches the caller of
    [serialize_tree_node] as [SQFS_ERROR_INTERNAL], whatever its code.
    When [write_dir_entries] returns [NULL] for a directory, it has made
    the calls of the directory's listing, in their order, up to the first
    one that fails: every call before it has returned 0, and the last
    thing passed to [sqfs_perror] is what this call has returned in the
    state the calls before it have led to, [SQFS_ERROR_ALLOC] when it is
    the making of the inode that has returned [NULL].
    [serialize_tree_node] then returns [SQFS_ERROR_INTERNAL], leaves the
    node as it was, and looks up no identifier and writes no inode. *)
Theorem directory_writer_errors_become_internal (parent : option Z)
    (n : tree_node) (wr wr' : writer) :
  S_ISDIR (mode n) = true ->
  write_dir_entries E parent n wr = (None, wr') ->
  serialize_tree_node E parent n wr = Ret (SQFS_ERROR_INTERNAL, n, wr')
  /\ idtbl wr' = idtbl wr
  /\ exists pre last post code,
       trace wr' = trace wr ++ pre ++ [last; Ev_perror code]
       /\ pre ++ last :: post = listing parent n
       /\ succeeded E pre (world wr)
       /\ status E (replay E pre (world wr)) last = code
       /\ code <> 0
       /\ written (pre ++ [last]) = [] /\ looked_up (pre ++ [last]) = [].
Proof.
  intros Hd Hw. split.
  { unfold serialize_tree_node. now rewrite Hd, Hw. }
  assert (Hquiet : forall l : list tree_node,
             written (map entry_of l) = []
             /\ looked_up (map entry_of l) = []).
  { induction l as [|x l [IH1 IH2]]; [now split|]. now split. }
  revert Hw. unfold write_dir_entries, listing.
  destruct (sqfs_dir_writer_begin E (world wr)) as [r0 w0] eqn:Hb.
  destruct (negb (r0 =? 0)) eqn:H0.
  { intros H. injection H as <-. split; [reflexivity|].
    exists [], Ev_dir_begin, (map entry_of (dir_children n)
                              ++ [Ev_dir_end;
                                  Ev_dir_create_inode (xattr_idx n)
                                    match parent with
                                    | Some p => p
                                    | None => 0
                                    end]), r0.
    cbn [trace log app]. rewrite <- app_assoc.
    split; [reflexivity|]. split; [reflexivity|]. split; [exact I|].
    split; [cbn; now rewrite Hb|].
    split; [apply negb_true_iff in H0; now apply Z.eqb_neq|]. now split. }
  apply negb_false_iff, Z.eqb_eq in H0. subst r0.
  assert (Hb0 : status E (world wr) Ev_dir_begin = 0)
    by (cbn; now rewrite Hb).
  assert (Hb1 : after E (world wr) Ev_dir_begin = w0)
    by (cbn; now rewrite Hb).
  destruct (add_entries E (dir_children n) (log wr w0 Ev_dir_begin))
    as [r1 wr1] eqn:Ha.
  pose proof Ha as Hi1. apply add_entries_run in Hi1 as (_ & _ & _ & _ & Hi1).
  cbn [idtbl log] in Hi1.
  apply add_entries_calls in Ha. cbn [trace world log] in Ha.
  destruct Ha as [(-> & Ht & Hs & Hw1)
                 |(Hn & done & it & rest & Hl & Ht & Hs & Hc)].
  2:{ apply Z.eqb_neq in Hn. rewrite Hn. cbn [negb].
      intros H. injection H as <-. split; [exact Hi1|].
      exists (Ev_dir_begin :: map entry_of done), (entry_of it),
        (map entry_of rest
         ++ [Ev_dir_end;
             Ev_dir_create_inode (xattr_idx n)
               match parent with Some p => p | None => 0 end]), r1.
      cbn [trace log]. rewrite Ht, Hl, map_app. cbn [map app succeeded].
      unfold replay in *. cbn [fold_left]. rewrite Hb1.
      rewrite <- !app_assoc. cbn [app].
      split; [reflexivity|]. split; [reflexivity|].
      split; [now split|]. split; [exact Hc|].
      split; [now apply Z.eqb_neq|].
      destruct (Hquiet (done ++ [it])) as [Q1 Q2].
      rewrite map_app in Q1, Q2. cbn [map] in Q1, Q2.
      split; [exact Q1|exact Q2]. }
  cbn [negb Z.eqb].
  destruct (sqfs_dir_writer_end E (world wr1)) as [r2 w2] eqn:He.
  destruct (Hquiet (dir_children n)) as [Q1 Q2].
  destruct (negb (r2 =? 0)) eqn:H2.
  { intros H. injection H as <-. split; [exact Hi1|].
    exists (Ev_dir_begin :: map entry_of (dir_children n)), Ev_dir_end,
      [Ev_dir_create_inode (xattr_idx n)
         match parent with Some p => p | None => 0 end], r2.
    cbn [trace log]. rewrite Ht. cbn [app succeeded].
    unfold replay in *. cbn [fold_left]. rewrite Hb1, <- Hw1.
    rewrite <- !app_assoc. cbn [app].
    split; [reflexivity|]. split; [reflexivity|].
    split; [now split|]. split; [cbn; now rewrite He|].
    split; [apply negb_true_iff in H2; now apply Z.eqb_neq|].
    change (Ev_dir_begin :: map entry_of (dir_children n) ++ [Ev_dir_end])
      with ([Ev_dir_begin] ++ map entry_of (dir_children n) ++ [Ev_dir_end]).
    rewrite !written_app, !looked_up_app, Q1, Q2. now split. }
  apply negb_false_iff, Z.eqb_eq in H2. subst r2.
  cbn [world log].
  destruct (sqfs_dir_writer_create_inode E w2 0 (xattr_idx n) _) as [i|] eqn:Hc.
  { destruct (is_dir_type (type (base i))); discriminate. }
  intros H. injection H as <-. split; [exact Hi1|].
  exists (Ev_dir_begin :: map entry_of (dir_children n) ++ [Ev_dir_end]),
    (Ev_dir_create_inode (xattr_idx n)
       match parent with Some p => p | None => 0 end), [], SQFS_ERROR_ALLOC.
  cbn [trace log]. rewrite Ht.
  assert (Hrep : replay E
                   (Ev_dir_begin :: map entry_of (dir_children n)
                    ++ [Ev_dir_end]) (world wr) = w2).
  { change (Ev_dir_begin :: map entry_of (dir_children n) ++ [Ev_dir_end])
      with ([Ev_dir_begin] ++ map entry_of (dir_children n) ++ [Ev_dir_end]).
    rewrite !replay_app. unfold replay at 3. cbn [fold_left]. rewrite Hb1.
    rewrite <- Hw1. unfold replay. cbn. now rewrite He. }
  rewrite Hrep.
  split;
    [repeat first [rewrite <- app_assoc|progress cbn [app]]; reflexivity|].
  split;
    [repeat first [rewrite <- app_assoc|progress cbn [app]]; reflexivity|].
  split.
  { change (Ev_dir_begin :: map entry_of (dir_children n) ++ [Ev_dir_end])
      with ([Ev_dir_begin] ++ map entry_of (dir_children n) ++ [Ev_dir_end]).
    apply succeeded_app. split; [cbn; now split|].
    apply succeeded_app. unfold replay at 1 3. cbn [fold_left]. rewrite Hb1.
    split; [exact Hs|]. rewrite <- Hw1. cbn. rewrite He. now split. }
  split; [cbn; now rewrite Hc|].
  split; [discriminate|].
  change ((Ev_dir_begin :: map entry_of (dir_children n) ++ [Ev_dir_end])
          ++ [Ev_dir_create_inode (xattr_idx n)
                match parent with Some p => p | None => 0 end])
    with (([Ev_dir_begin] ++ map entry_of (dir_children n) ++ [Ev_dir_end])
          ++ [Ev_dir_create_inode (xattr_idx n)
                match parent with Some p => p | None => 0 end]).
  rewrite !written_app, !looked_up_app, Q1, Q2. now split.
Qed.

End EveryRun.

(** ** Every node of a run that succeeds *)

Section EveryNode.
Import Sink Serialize.
Local Open Scope list_scope.

Context {W IDT : Type}.
Variable E : writer_ops W IDT.

Local Abbreviation writer := (sqfs_writer_t W IDT).

(** A property of a trace, the inode number of a parent and a node that
    goes on to hold when the trace is extended at either end, and that
    holds of the calls of [serialize_tree_node] and the node it leaves
    when it returns 0. *)
Variable Q : list event -> option Z -> tree_node -> Prop.

Hypothesis Q_extends : forall pre post evs p n,
  Q evs p n -> Q (pre ++ evs ++ post) p n.

Hypothesis Q_node : forall p n n' (wr wr' : writer) evs,
  serialize_tree_node E p n wr = Ret (0, n', wr') ->
  trace wr' = trace wr ++ evs ->
  Q evs p n'.

Lemma Q_left (evs post : list event) (p : option Z) (n : tree_node) :
  Q evs p n -> Q (evs ++ post) p n.
Proof. intros H. exact (Q_extends [] post evs p n H). Qed.

Lemma Q_right (pre evs : list event) (p : option Z) (n : tree_node) :
  Q evs p n -> Q (pre ++ evs) p n.
Proof.
  intros H. pose proof (Q_extends pre [] evs p n H) as H'.
  now rewrite app_nil_r in H'.
Qed.

Lemma AllBelow_left (e post : list event) (n : tree_node) :
  AllBelow (Q e) n -> AllBelow (Q (e ++ post)) n.
Proof. intros H p c Hp Hc. apply Q_left. now apply H. Qed.

Lemma AllBelow_right (pre e : list event) (n : tree_node) :
  AllBelow (Q e) n -> AllBelow (Q (pre ++ e)) n.
Proof. intros H p c Hp Hc. apply Q_right. now apply H. Qed.

(** A node that is no directory has nothing below it. *)
Lemma AllBelow_leaf (e : list event) (n : tree_node) :
  S_ISDIR (mode n) = false -> AllBelow (Q e) n.
Proof.
  intros Hd p c Hp Hc. rewrite nodes_of_eq, Hd in Hp.
  destruct Hp as [<-|[]]. unfold children_of in Hc. now rewrite Hd in Hc.
Qed.

(** What [serialize_tree_node] changes in a node leaves what is below
    the node as it is. *)
Lemma AllBelow_own (e : list event) (n n' : tree_node) :
  strip n' = strip n -> dir_children n' = dir_children n ->
  AllBelow (Q e) n -> AllBelow (Q e) n'.
Proof.
  intros Hs Hc H p c Hp Hch.
  pose proof (strip_mode _ _ Hs) as Hm.
  rewrite nodes_of_eq, Hm, below_eq, Hc in Hp.
  destruct Hp as [<-|Hp].
  - rewrite (strip_inode_num _ _ Hs).
    apply (H n c).
    + rewrite nodes_of_eq. now left.
    + unfold children_of in *. now rewrite <- Hm, <- Hc.
  - apply (H p c); [|exact Hch].
    rewrite nodes_of_eq, below_eq. now right.
Qed.

(** A directory whose children satisfy [Q] under its number, with all
    that is below them. *)
Lemma AllBelow_node (e : list event) (n : tree_node) :
  Forall (fun c => Q e (Some (inode_num n)) c /\ AllBelow (Q e) c)
    (children_of n) ->
  AllBelow (Q e) n.
Proof.
  intros H p c Hp Hc. rewrite nodes_of_eq in Hp.
  destruct Hp as [<-|Hp].
  - rewrite Forall_forall in H. now apply H.
  - unfold children_of in H.
    destruct (S_ISDIR (mode n)); [|now destruct Hp].
    rewrite below_eq in Hp. apply in_flat_map in Hp as (k & Hk & Hpk).
    rewrite Forall_forall in H. destruct (H k Hk) as [_ Hb].
    now apply (Hb p c).
Qed.

Lemma serialize_tree_node_own (parent : option Z) (n n' : tree_node)
    (wr wr' : writer) :
  serialize_tree_node E parent n wr = Ret (0, n', wr') ->
  (exists evs, trace wr' = trace wr ++ evs /\ Q evs parent n')
  /\ strip n' = strip n /\ dir_children n' = dir_children n.
Proof.
  intros H.
  pose proof H as H1. apply serialize_tree_node_run in H1
    as (evs & [Ht _] & _ & _ & Hs & _).
  split; [exists evs; split; [exact Ht|exact (Q_node _ _ _ _ _ _ H Ht)]|].
  split; [exact Hs|].
  revert H. unfold serialize_tree_node.
  assert (Hfin : forall i m m' w w',
             finish_inode E i m w = Ret (0, m', w') ->
             dir_children m' = dir_children m).
  { intros i m m' w w' Hf.
    apply finish_inode_run in Hf as (_ & _ & _ & _ & [r ->]). reflexivity. }
  destruct (S_ISDIR (mode n)).
  - destruct (write_dir_entries E parent n wr) as [[i|] wr1];
      [apply Hfin|discriminate].
  - destruct (S_ISREG (mode n)).
    + destruct (user_ptr_of n) as [i|]; [|discriminate].
      intros Hf. apply Hfin in Hf. rewrite Hf.
      unfold dir_children, clear_user_ptr. cbn [ndata].
      now destruct (ndata n).
    + destruct (tree_node_to_inode E n wr) as [[[i|] wr1]|];
        [apply Hfin| |]; discriminate.
Qed.

Lemma serialize_children_each (parent : option Z) (l : list tree_node) :
  forall (l' : list tree_node) (wr wr' : writer),
    serialize_children E parent l wr = Ret (0, l', wr') ->
    exists evs,
      trace wr' = trace wr ++ evs
      /\ Forall (Q evs parent) l'
      /\ Forall2 (fun n n' => strip n' = strip n
                              /\ dir_children n' = dir_children n) l l'.
Proof.
  induction l as [|it rest IH]; intros l' wr wr'; cbn [serialize_children].
  - intros H. injection H as <- <-. exists [].
    split; [now rewrite app_nil_r|]. split; constructor.
  - destruct (serialize_tree_node E parent it wr) as [[[r1 it'] wr1]|] eqn:H1;
      [|discriminate].
    destruct (negb (r1 =? 0)) eqn:Hr1.
    { intros H. injection H as -> _ _. discriminate. }
    apply negb_false_iff, Z.eqb_eq in Hr1. subst r1.
    destruct (serialize_children E parent rest wr1) as [[[r2 rest'] wr2]|] eqn:H2;
      [|discriminate].
    intros H. injection H as -> <- <-.
    apply serialize_tree_node_own in H1 as ((e1 & Ht1 & Hq1) & Hs1 & Hc1).
    apply IH in H2 as (e2 & Ht2 & Hq2 & Hf2).
    exists (e1 ++ e2). split; [now rewrite Ht2, Ht1, app_assoc|].
    split.
    + constructor; [now apply Q_left|].
      eapply Forall_impl; [|exact Hq2]. intros a. apply Q_right.
    + constructor; [now split|exact Hf2].
Qed.

Lemma visit_subdirs_each
    (rec : tree_node -> writer -> res (Z * tree_node * writer))
    (l : list tree_node) :
  Forall (fun it => forall wr r' wr',
              rec it wr = Ret (0, r', wr') ->
              exists evs, trace wr' = trace wr ++ evs
                          /\ AllBelow (Q evs) r' /\ strip r' = strip it) l ->
  forall (l' : list tree_node) (wr wr' : writer),
    visit_subdirs rec l wr = Ret (0, l', wr') ->
    exists evs,
      trace wr' = trace wr ++ evs
      /\ Forall (fun it' => AllBelow (Q evs) it') l'
      /\ Forall2 (fun n n' => strip n' = strip n) l l'.
Proof.
  induction 1 as [|it rest Hit _ IH]; intros l' wr wr'; cbn [visit_subdirs].
  - intros H. injection H as <- <-. exists [].
    split; [now rewrite app_nil_r|]. split; constructor.
  - destruct (S_ISDIR (mode it)) eqn:Hd.
    + destruct (rec it wr) as [[[r1 it'] wr1]|] eqn:H1; [|discriminate].
      destruct (negb (r1 =? 0)) eqn:Hr1.
      { intros H. injection H as -> _ _. discriminate. }
      apply negb_false_iff, Z.eqb_eq in Hr1. subst r1.
      destruct (visit_subdirs rec rest wr1) as [[[r2 rest'] wr2]|] eqn:H2;
        [|discriminate].
      intros H. injection H as -> <- <-.
      apply Hit in H1 as (e1 & Ht1 & Hq1 & Hs1).
      apply IH in H2 as (e2 & Ht2 & Hq2 & Hf2).
      exists (e1 ++ e2). split; [now rewrite Ht2, Ht1, app_assoc|].
      split; [|now constructor].
      constructor; [now apply AllBelow_left|].
      eapply Forall_impl; [|exact Hq2]. intros a. apply AllBelow_right.
    + destruct (visit_subdirs rec rest wr) as [[[r2 rest'] wr2]|] eqn:H2;
        [|discriminate].
      intros H. injection H as -> <- <-.
      apply IH in H2 as (e2 & Ht2 & Hq2 & Hf2).
      exists e2. split; [exact Ht2|]. split; [|now constructor].
      constructor; [now apply AllBelow_leaf|exact Hq2].
Qed.

Lemma no_subdirs_all (l : list tree_node) :
  existsb (fun it => S_ISDIR (mode it)) l = false ->
  Forall (fun it => S_ISDIR (mode it) = false) l.
Proof.
  induction l as [|x r IH]; [constructor|]. cbn [existsb].
  intros H. apply orb_false_iff in H as [Hx Hr]. constructor; auto.
Qed.

Lemma children_of_set_children (P : tree_node -> Prop) (n : tree_node)
    (c : list tree_node) :
  Forall P c -> Forall P (children_of (set_children n c)).
Proof.
  intros H. unfold children_of.
  destruct (S_ISDIR (mode (set_children n c))); [|constructor].
  rewrite dir_children_set_children. destruct (ndata n); auto.
Qed.

(** [serialize_recursive]: when it returns 0, [Q] holds of every node
    below the root it leaves. *)
Lemma serialize_recursive_each (root : tree_node) :
  forall (wr : writer) (root' : tree_node) (wr' : writer),
    serialize_recursive E root wr = Ret (0, root', wr') ->
    exists evs,
      trace wr' = trace wr ++ evs
      /\ AllBelow (Q evs) root' /\ strip root' = strip root.
Proof.
  induction root as [root IH] using tree_induction.
  intros wr root' wr'. rewrite serialize_recursive_unfold.
  assert (Hfirst : forall kids wr1,
             (if existsb (fun it => S_ISDIR (mode it)) (dir_children root)
              then visit_subdirs (serialize_recursive E) (dir_children root) wr
              else Ret (0, dir_children root, wr)) = Ret (0, kids, wr1) ->
             exists e2,
               trace wr1 = trace wr ++ e2
               /\ Forall (fun it' => AllBelow (Q e2) it') kids
               /\ Forall2 (fun n n' => strip n' = strip n)
                    (dir_children root) kids).
  { intros kids wr1.
    destruct (existsb (fun it => S_ISDIR (mode it)) (dir_children root)) eqn:Hx.
    - apply visit_subdirs_each. exact IH.
    - intros H. injection H as <- <-. exists [].
      split; [now rewrite app_nil_r|]. split.
      + eapply Forall_impl; [|exact (no_subdirs_all _ Hx)].
        intros a. apply AllBelow_leaf.
      + clear. induction (dir_children root); constructor; auto. }
  destruct (if existsb (fun it => S_ISDIR (mode it)) (dir_children root)
            then _ else _) as [[[r kids] wr1]|]; [|discriminate].
  destruct (negb (r =? 0)) eqn:Hr.
  { intros H. injection H as -> _ _. discriminate. }
  apply negb_false_iff, Z.eqb_eq in Hr. subst r.
  destruct (Hfirst kids wr1 eq_refl) as (e2 & Ht2 & Hq2 & Hf2).
  destruct (serialize_children E (Some (inode_num root)) kids wr1)
    as [[[r3 kids2] wr2]|] eqn:H3; [|discriminate].
  intros H. injection H as -> <- <-.
  apply serialize_children_each in H3 as (e3 & Ht3 & Hq3 & Hf3).
  exists (e2 ++ e3). split; [now rewrite Ht3, Ht2, app_assoc|].
  split.
  - apply AllBelow_node. apply children_of_set_children.
    clear - Hq2 Hq3 Hf3 Q_extends.
    induction Hf3 as [|k k2 a b [Hs Hc] _ IHf]; [constructor|].
    inversion Hq2; subst. inversion Hq3; subst.
    constructor; [|now apply IHf].
    split; [now apply Q_right|].
    apply AllBelow_left. now apply (AllBelow_own e2 k k2).
  - apply strip_set_children.
    transitivity (map strip kids); [|exact (Forall2_strip _ _ Hf2)].
    clear - Hf3. induction Hf3 as [|k k2 a b [Hs _] _ IHf]; [reflexivity|].
    cbn [map]. now rewrite Hs, IHf.
Qed.

(** [sqfs_serialize_fstree]: when it returns 0, [Q] holds of the root it
    leaves, without a parent, and of every node below it. *)
Lemma serialize_fstree_each (root root' : tree_node) (wr wr' : writer) :
  sqfs_serialize_fstree E root wr = Ret (0, root', wr') ->
  exists evs,
    trace wr' = trace wr ++ evs
    /\ Q evs None root' /\ AllBelow (Q evs) root'.
Proof.
  unfold sqfs_serialize_fstree.
  set (sz := outfile_get_size E (world wr)).
  set (wr0 := log (with_super wr (set_inode_table_start (super wr) sz))
                (world wr) (Ev_get_size sz)).
  assert (Hrec : forall root1 wr1,
             (if S_ISDIR (mode root) then serialize_recursive E root wr0
              else Ret (0, root, wr0)) = Ret (0, root1, wr1) ->
             exists e1, trace wr1 = trace wr0 ++ e1
                        /\ AllBelow (Q e1) root1 /\ strip root1 = strip root).
  { intros root1 wr1. destruct (S_ISDIR (mode root)) eqn:Hd.
    - apply serialize_recursive_each.
    - intros H. injection H as <- <-. exists [].
      split; [now rewrite app_nil_r|].
      split; [now apply AllBelow_leaf|reflexivity]. }
  destruct (if S_ISDIR (mode root) then serialize_recursive E root wr0
            else Ret (0, root, wr0)) as [[[r1 root1] wr1]|]; [|discriminate].
  destruct (negb (r1 =? 0)) eqn:Hr1;
    [intros H; injection H as -> _ _; discriminate|].
  apply negb_false_iff, Z.eqb_eq in Hr1. subst r1.
  destruct (Hrec root1 wr1 eq_refl) as (e1 & Ht1 & Hq1 & Hs1). clear Hrec.
  destruct (serialize_tree_node E None root1 wr1) as [[[r2 root2] wr2]|] eqn:H2;
    [|discriminate].
  destruct (negb (r2 =? 0)) eqn:Hr2;
    [intros H; injection H as -> _ _; discriminate|].
  apply negb_false_iff, Z.eqb_eq in Hr2. subst r2.
  apply serialize_tree_node_own in H2 as ((e2 & Ht2 & Hq2) & Hs2 & Hc2).
  destruct (sqfs_meta_writer_flush E (world wr2) IM) as [r3 w3].
  destruct (negb (r3 =? 0)) eqn:Hr3;
    [intros H; injection H as -> _ _; discriminate|].
  cbn [world log].
  destruct (sqfs_meta_writer_flush E w3 DM) as [r4 w4].
  destruct (negb (r4 =? 0)) eqn:Hr4;
    [intros H; injection H as -> _ _; discriminate|].
  cbn [world log with_super].
  destruct (sqfs_meta_write_write_to_file E w4 DM) as [r5 w5].
  destruct (negb (r5 =? 0)) eqn:Hr5;
    [intros H; injection H as -> _ _; discriminate|].
  intros H. injection H as _ <- <-.
  exists (([Ev_get_size sz] ++ e1) ++ e2
          ++ [Ev_flush IM; Ev_flush DM;
              Ev_get_size (outfile_get_size E w4); Ev_write_to_file DM]).
  split; [|split].
  - cbn [trace log with_super]. rewrite Ht2, Ht1. unfold wr0.
    cbn [trace log with_super]. rewrite <- !app_assoc. reflexivity.
  - now apply Q_extends.
  - apply AllBelow_left.
    apply (AllBelow_own _ root1 root2 Hs2 Hc2). now apply AllBelow_right.
Qed.

End EveryNode.

(** ** What a run that succeeds has done for every node *)

Section NodesOfARun.
Import Sink Serialize.
Local Open Scope list_scope.

Context {W IDT : Type}.
Variable E : writer_ops W IDT.

Local Abbreviation writer := (sqfs_writer_t W IDT).

(** Every node of a tree is the root or the child of a node of the
    tree. *)
Lemma node_has_parent (root : tree_node) :
  forall n, In n (nodes_of root) ->
            n = root
            \/ exists p, In p (nodes_of root) /\ In n (children_of p).
Proof.
  induction root as [root IH] using tree_induction. intros n Hn.
  rewrite nodes_of_eq in Hn. destruct Hn as [<-|Hn]; [now left|right].
  destruct (S_ISDIR (mode root)) eqn:Hd; [|contradiction].
  assert (Hroot : In root (nodes_of root)) by (rewrite nodes_of_eq; now left).
  assert (Hkids : children_of root = dir_children root)
    by (unfold children_of; now rewrite Hd).
  apply in_below in Hn as (ci & Hci & [->|[Hdc Hn]]).
  - exists root. rewrite Hkids. now split.
  - rewrite Forall_forall in IH.
    destruct (IH ci Hci n) as [->|(p & Hp & Hc)].
    + rewrite nodes_of_eq, Hdc. now right.
    + exists root. rewrite Hkids. now split.
    + exists p. split; [|exact Hc].
      rewrite nodes_of_eq, Hd, below_eq. right.
      apply in_flat_map. now exists ci.
Qed.

Lemma all_nodes (P : tree_node -> Prop) (root : tree_node) :
  P root ->
  (forall p c, In p (nodes_of root) -> In c (children_of p) -> P c) ->
  Forall P (nodes_of root).
Proof.
  intros Hr Hc. apply Forall_forall. intros n Hn.
  apply node_has_parent in Hn as [->|(p & Hp & Hn)]; [exact Hr|].
  now apply (Hc p).
Qed.

Lemma Listed_extends (pre post evs : list event) (p : option Z)
    (n : tree_node) :
  Listed evs p n -> Listed (pre ++ evs ++ post) p n.
Proof.
  intros H Hd. destruct (H Hd) as (a & b & ->).
  exists (pre ++ a), (b ++ post).
  rewrite <- !app_assoc. cbn [app]. rewrite <- !app_assoc. reflexivity.
Qed.

Lemma add_entries_trace (l : list tree_node) :
  forall wr wr' : writer,
    add_entries E l wr = (0, wr') ->
    trace wr' = trace wr ++ map entry_of l.
Proof.
  induction l as [|it rest IH]; intros wr wr'; cbn [add_entries map].
  - intros H. injection H as <-. now rewrite app_nil_r.
  - destruct (sqfs_dir_writer_add_entry E (world wr) (name it) (inode_num it)
                (inode_ref it) (mode it)) as [r w].
    destruct (negb (r =? 0)) eqn:Hr.
    + intros H. injection H as -> _. discriminate.
    + intros H. apply IH in H. rewrite H. cbn [trace log].
      rewrite <- app_assoc. reflexivity.
Qed.

Lemma write_dir_entries_trace (parent : option Z) (n : tree_node)
    (wr wr' : writer) (ino : sqfs_inode_generic_t) :
  write_dir_entries E parent n wr = (Some ino, wr') ->
  trace wr'
  = trace wr
    ++ Ev_dir_begin :: map entry_of (dir_children n)
    ++ [Ev_dir_end;
        Ev_dir_create_inode (xattr_idx n)
          (match parent with Some p => p | None => 0 end)].
Proof.
  unfold write_dir_entries.
  destruct (sqfs_dir_writer_begin E (world wr)) as [r0 w0].
  destruct (negb (r0 =? 0)); [discriminate|].
  destruct (add_entries E (dir_children n) (log wr w0 Ev_dir_begin))
    as [r1 wr1] eqn:Ha.
  destruct (negb (r1 =? 0)) eqn:Hr1; [discriminate|].
  apply negb_false_iff, Z.eqb_eq in Hr1. subst r1.
  apply add_entries_trace in Ha. cbn [trace log] in Ha.
  destruct (sqfs_dir_writer_end E (world wr1)) as [r2 w2].
  destruct (negb (r2 =? 0)); [discriminate|].
  destruct (sqfs_dir_writer_create_inode E _ 0 (xattr_idx n) _) as [i|];
    [|discriminate].
  intros H.
  assert (Hwr : trace wr'
                = (trace wr1 ++ [Ev_dir_end])
                  ++ [Ev_dir_create_inode (xattr_idx n)
                        (match parent with Some p => p | None => 0 end)]).
  { destruct (is_dir_type (type (base i))); injection H as _ <-; reflexivity. }
  rewrite Hwr, Ha, <- !app_assoc. reflexivity.
Qed.

Lemma dir_is_no_file (m : Z) : S_ISDIR m = true -> S_ISREG m = false.
Proof.
  unfold S_ISDIR, S_ISREG. intros H. apply Z.eqb_eq in H. rewrite H.
  reflexivity.
Qed.

Lemma link_is_no_dir_or_file (m : Z) :
  S_ISLNK m = true -> S_ISDIR m = false /\ S_ISREG m = false.
Proof.
  unfold S_ISDIR, S_ISREG, S_ISLNK. intros H. apply Z.eqb_eq in H. rewrite H.
  split; reflexivity.
Qed.

Lemma Listed_node (p : option Z) (n n' : tree_node) (wr wr' : writer)
    (evs : list event) :
  serialize_tree_node E p n wr = Ret (0, n', wr') ->
  trace wr' = trace wr ++ evs ->
  Listed evs p n'.
Proof.
  intros H Ht Hd.
  pose proof (serialize_tree_node_any E _ _ _ _ _ _ H) as [_ Hs].
  rewrite (strip_mode _ _ Hs) in Hd.
  unfold serialize_tree_node in H. rewrite Hd in H.
  destruct (write_dir_entries E p n wr) as [[i|] wr1] eqn:Hw;
    [|discriminate].
  apply write_dir_entries_trace in Hw.
  pose proof H as Hf. apply finish_inode_any in Hf as [[[e2 He2] _] _].
  apply finish_inode_run in H as (_ & _ & _ & _ & [r ->]).
  rewrite He2, Hw, <- app_assoc in Ht. apply app_inv_head in Ht. subst evs.
  exists [], e2. cbn [app]. rewrite <- !app_assoc. reflexivity.
Qed.

(** X19: what a run of [sqfs_serialize_fstree] that returns 0 hands to
    the directory writer. For the root and for every directory below it
    the trace holds, one behind the other, the opening of a listing, one
    entry for each child of the directory in the order of the child list,
    the closing, and the making of the directory's inode with the inode
    number of the directory it hangs on, 0 for the root. The entry of a
    child holds the child's name, number and mode and the reference the
    child has in the tree the run leaves; and that reference is the
    position at which the child's inode was written: [(block << 16) |
    offset] of the position the inode writer reported in the state the
    calls before had led to. *)
Theorem directories_list_their_children_at_their_references
    (root root' : tree_node) (wr wr' : writer) :
  sqfs_serialize_fstree E root wr = Ret (0, root', wr') ->
  exists evs,
    trace wr' = trace wr ++ evs
    /\ Listed evs None root'
    /\ (forall p c, In p (nodes_of root') -> In c (children_of p) ->
                    Listed evs (Some (inode_num p)) c)
    /\ Forall (Emitted E (world wr) evs) (nodes_of root').
Proof.
  intros H.
  destruct (serialize_fstree_each E Listed Listed_extends Listed_node
              root root' wr wr' H) as (evs & Ht & Hr & Hb).
  exists evs. split; [exact Ht|]. split; [exact Hr|]. split; [exact Hb|].
  destruct (serialize_fstree_run E root root' wr wr' H) as (body & Hrun).
  cbv zeta in Hrun. destruct Hrun as (Ht' & _ & _ & _ & _ & He & _).
  rewrite Ht' in Ht. apply app_inv_head in Ht. subst evs.
  eapply Forall_impl; [|exact He]. intros n Hn.
  apply Emitted_app. exact Hn.
Qed.

Lemma Headed_extends (pre post evs : list event) (p : option Z)
    (n : tree_node) :
  Headed evs n -> Headed (pre ++ evs ++ post) n.
Proof.
  intros (ino & Hi & H). exists ino. split; [|exact H].
  apply in_or_app. right. apply in_or_app. now left.
Qed.

Lemma finish_inode_head (i : sqfs_inode_generic_t) (n n' : tree_node)
    (wr wr' : writer) :
  finish_inode E i n wr = Ret (0, n', wr') ->
  exists ino evs,
    trace wr' = trace wr ++ evs
    /\ In (Ev_write_inode ino) evs
    /\ inode_number (base ino) = inode_num n
    /\ imode (base ino) = mode n
    /\ imod_time (base ino) = mod_time n
    /\ extra ino = extra i.
Proof.
  unfold finish_inode, id_to_index.
  destruct (sqfs_inode_set_xattr_index E _ _ _) as [ty d].
  destruct (sqfs_id_table_id_to_index E (idtbl wr) (uid n)) as [[r1 uidx] t1].
  destruct (negb (r1 =? 0)) eqn:H1.
  { intros H. injection H as -> _ _. discriminate. }
  cbn [idtbl world super trace].
  destruct (sqfs_id_table_id_to_index E t1 (gid n)) as [[r2 gidx] t2].
  destruct (negb (r2 =? 0)) eqn:H2.
  { intros H. injection H as -> _ _. discriminate. }
  cbn [idtbl world super trace].
  destruct (sqfs_meta_writer_get_position E (world wr) IM) as [b o].
  unfold log. cbn [idtbl world super trace].
  match goal with
  | |- context [sqfs_meta_writer_write_inode E ?w ?m ?i] =>
      destruct (sqfs_meta_writer_write_inode E w m i) as [r3 w3]
  end.
  intros H. injection H as _ _ <-. cbn [trace].
  eexists. eexists. split; [rewrite <- !app_assoc; reflexivity|].
  split.
  - apply in_or_app. right. apply in_or_app. right. apply in_or_app. right.
    left. reflexivity.
  - repeat split.
Qed.

Lemma Headed_node (p : option Z) (n n' : tree_node) (wr wr' : writer)
    (evs : list event) :
  serialize_tree_node E p n wr = Ret (0, n', wr') ->
  trace wr' = trace wr ++ evs ->
  Headed evs n'.
Proof.
  intros H Ht. unfold serialize_tree_node in H.
  assert (Hfin : forall i m (w : writer) pre,
             trace w = trace wr ++ pre ->
             finish_inode E i m w = Ret (0, n', wr') ->
             mode m = mode n ->
             (S_ISLNK (mode n) = true ->
              extra i = take (CStr.strlen (target_of m)) (target_of m)) ->
             Headed evs n').
  { intros i m w pre Hpre Hf Hm Hx.
    pose proof Hf as Hf'. apply finish_inode_run in Hf'
      as (_ & _ & _ & _ & [r ->]).
    apply finish_inode_head in Hf
      as (ino & e2 & He2 & Hin & Hnum & Hmode & Htime & Hex).
    rewrite He2, Hpre, <- app_assoc in Ht. apply app_inv_head in Ht.
    subst evs. exists ino. split; [apply in_or_app; now right|].
    cbn [inode_num mode mod_time set_inode_ref].
    repeat split; try assumption.
    intros Hl. rewrite Hex. rewrite Hm in Hl. exact (Hx Hl). }
  destruct (S_ISDIR (mode n)) eqn:Hd.
  - destruct (write_dir_entries E p n wr) as [[i|] wr1] eqn:Hw;
      [|discriminate].
    apply write_dir_entries_any in Hw as [[pre Hpre] _].
    apply (Hfin i n wr1 pre Hpre H eq_refl).
    intros Hl. apply link_is_no_dir_or_file in Hl as [Hl _]. congruence.
  - destruct (S_ISREG (mode n)) eqn:Hr.
    + destruct (user_ptr_of n) as [i|]; [|discriminate].
      apply (Hfin i (clear_user_ptr n) wr []);
        [now rewrite app_nil_r|exact H|reflexivity|].
      intros Hl. apply link_is_no_dir_or_file in Hl as [_ Hl]. congruence.
    + unfold tree_node_to_inode in H. cbv zeta in H.
      destruct (negb (calloc E (world wr) _));
        [injection H as H _ _; discriminate H|].
      destruct (Z.land (mode n) S_IFMT =? S_IFSOCK) eqn:T1.
      { eapply (Hfin _ n wr []); [now rewrite app_nil_r|exact H|reflexivity|].
        unfold S_ISLNK. apply Z.eqb_eq in T1. rewrite T1. discriminate. }
      destruct (Z.land (mode n) S_IFMT =? S_IFIFO) eqn:T2.
      { eapply (Hfin _ n wr []); [now rewrite app_nil_r|exact H|reflexivity|].
        unfold S_ISLNK. apply Z.eqb_eq in T2. rewrite T2. discriminate. }
      destruct (Z.land (mode n) S_IFMT =? S_IFLNK) eqn:T3.
      { eapply (Hfin _ n wr []); [now rewrite app_nil_r|exact H|reflexivity|].
        intros Hl. rewrite Hl. reflexivity. }
      assert (Hnl : S_ISLNK (mode n) = true -> False).
      { unfold S_ISLNK. rewrite T3. discriminate. }
      destruct (Z.land (mode n) S_IFMT =? S_IFBLK).
      { eapply (Hfin _ n wr []); [now rewrite app_nil_r|exact H|reflexivity|].
        intros Hl. now elim Hnl. }
      destruct (Z.land (mode n) S_IFMT =? S_IFCHR); [|discriminate].
      eapply (Hfin _ n wr []); [now rewrite app_nil_r|exact H|reflexivity|].
      intros Hl. now elim Hnl.
Qed.

(** X20: the inode a run that returns 0 writes for a node is the
    node's. For every node of the tree the trace holds the writing of an
    inode that has the node's inode number, its mode and its modification
    time; and for a symbolic link the bytes behind that inode are the
    target of the link, up to its first NUL. *)
Theorem every_inode_carries_its_node (root root' : tree_node)
    (wr wr' : writer) :
  sqfs_serialize_fstree E root wr = Ret (0, root', wr') ->
  exists evs,
    trace wr' = trace wr ++ evs
    /\ Forall (Headed evs) (nodes_of root').
Proof.
  intros H.
  destruct (serialize_fstree_each E (fun evs _ n => Headed evs n)
              (fun pre post evs p n => Headed_extends pre post evs p n)
              Headed_node root root' wr wr' H) as (evs & Ht & Hr & Hb).
  exists evs. split; [exact Ht|]. apply all_nodes; [exact Hr|].
  intros p c Hp Hc. exact (Hb p c Hp Hc).
Qed.

Lemma Spent_node (p : option Z) (n n' : tree_node) (wr wr' : writer)
    (evs : list event) :
  serialize_tree_node E p n wr = Ret (0, n', wr') ->
  trace wr' = trace wr ++ evs ->
  Spent n'.
Proof.
  intros H _ Hreg.
  pose proof (serialize_tree_node_any E _ _ _ _ _ _ H) as [_ Hs].
  rewrite (strip_mode _ _ Hs) in Hreg.
  unfold serialize_tree_node in H.
  destruct (S_ISDIR (mode n)) eqn:Hd.
  { apply dir_is_no_file in Hd. congruence. }
  rewrite Hreg in H. destruct (user_ptr_of n) as [i|]; [|discriminate].
  apply finish_inode_run in H as (_ & _ & _ & _ & [r ->]).
  unfold user_ptr_of, set_inode_ref, clear_user_ptr. cbn [ndata].
  now destruct (ndata n).
Qed.

(** X21: the inode the data writer has made for a file is handed over
    once. After a run of [sqfs_serialize_fstree] that returns 0 no
    regular file of the tree holds an inode any more; and for a regular
    file that holds none [serialize_tree_node] returns
    [SQFS_ERROR_INTERNAL] without a single call, so the tree a run has
    left cannot be serialised a second time from a regular file on. *)
Theorem file_inodes_are_handed_over_once :
  (forall (root root' : tree_node) (wr wr' : writer),
      sqfs_serialize_fstree E root wr = Ret (0, root', wr') ->
      Forall Spent (nodes_of root'))
  /\ forall (p : option Z) (n : tree_node) (wr : writer),
       S_ISREG (mode n) = true -> user_ptr_of n = None ->
       serialize_tree_node E p n wr
       = Ret (SQFS_ERROR_INTERNAL, clear_user_ptr n, wr)
       /\ forall wr', sqfs_serialize_fstree E n wr <> Ret (0, n, wr').
Proof.
  split.
  - intros root root' wr wr' H.
    destruct (serialize_fstree_each E (fun _ _ n => Spent n)
                (fun _ _ _ _ n Hn => Hn) Spent_node root root' wr wr' H)
      as (evs & _ & Hr & Hb).
    apply all_nodes; [exact Hr|]. intros p c Hp Hc. exact (Hb p c Hp Hc).
  - intros p n wr Hreg Hnone.
    assert (Hd : S_ISDIR (mode n) = false).
    { destruct (S_ISDIR (mode n)) eqn:Hd; [|reflexivity].
      apply dir_is_no_file in Hd. congruence. }
    assert (Hnode : forall q w,
               serialize_tree_node E q n w
               = Ret (SQFS_ERROR_INTERNAL, clear_user_ptr n, w)).
    { intros q w. unfold serialize_tree_node. now rewrite Hd, Hreg, Hnone. }
    split; [apply Hnode|].
    intros wr' H. unfold sqfs_serialize_fstree in H.
    rewrite Hd in H. change (negb (0 =? 0)) with false in H. cbv iota in H.
    rewrite Hnode in H. discriminate.
Qed.

End NodesOfARun.

(** ** Inode references *)

Section InodeReferences.
Import Serialize.

Lemma land_shifted_small (b o : Z) :
  0 <= o < 2 ^ 16 -> Z.land (b * 2 ^ 16) o = 0.
Proof.
  intros Ho. apply Z.bits_inj'. intros n Hn.
  rewrite Z.land_spec, Z.bits_0.
  destruct (Z.lt_ge_cases n 16) as [Hlt|Hge].
  - rewrite <- Z.shiftl_mul_pow2 by lia.
    rewrite Z.shiftl_spec_low by lia. reflexivity.
  - assert (Hb : Z.testbit o n = false).
    { destruct (Z.eq_dec o 0) as [->|Hz]; [apply Z.bits_0|].
      apply Z.bits_above_log2; [lia|].
      apply Z.log2_lt_pow2; [lia|].
      assert (2 ^ 16 <= 2 ^ n) by (apply Z.pow_le_mono_r; lia). lia. }
    rewrite Hb. apply andb_false_r.
Qed.

Lemma inode_ref_of_sum (block offset : Z) :
  0 <= block < 2 ^ 48 -> 0 <= offset < 2 ^ 16 ->
  inode_ref_of block offset = block * 2 ^ 16 + offset.
Proof.
  intros Hb Ho. unfold inode_ref_of.
  rewrite (u64_small block) by (unfold Int.two64; lia).
  rewrite Z.shiftl_mul_pow2 by lia.
  rewrite (u64_small (block * 2 ^ 16)) by (unfold Int.two64; lia).
  rewrite (u32_small offset) by (unfold Int.two32; lia).
  rewrite <- Z.lxor_lor by now apply land_shifted_small.
  symmetry. apply Z.add_nocarry_lxor. now apply land_shifted_small.
Qed.

(** X22: an inode reference names one position. For a block start
    below 2 ^ 48 and an offset below 2 ^ 16, as the meta data writer
    reports them, [(block << 16) | offset] is [block * 65536 + offset]:
    shifting it right by 16 gives the block back and its low 16 bits the
    offset, so two positions with the same reference are the same. An
    offset of 2 ^ 16 or more would run into the bits of the block. *)
Theorem inode_reference_names_one_position (block offset : Z) :
  0 <= block < 2 ^ 48 -> 0 <= offset < 2 ^ 16 ->
  Z.shiftr (inode_ref_of block offset) 16 = block
  /\ Z.land (inode_ref_of block offset) 65535 = offset
  /\ (forall block' offset',
        0 <= block' < 2 ^ 48 -> 0 <= offset' < 2 ^ 16 ->
        inode_ref_of block' offset' = inode_ref_of block offset ->
        block' = block /\ offset' = offset)
  /\ inode_ref_of 0 65536 = inode_ref_of 1 0.
Proof.
  intros Hb Ho.
  assert (Hdec : forall b o,
             0 <= b < 2 ^ 48 -> 0 <= o < 2 ^ 16 ->
             Z.shiftr (inode_ref_of b o) 16 = b
             /\ Z.land (inode_ref_of b o) 65535 = o).
  { intros b o Hb' Ho'. rewrite inode_ref_of_sum by assumption. split.
    - rewrite Z.shiftr_div_pow2 by lia.
      rewrite Z.div_add_l by lia. rewrite Z.div_small by lia. lia.
    - change 65535 with (Z.ones 16). rewrite Z.land_ones by lia.
      rewrite Z.add_comm, Z.mod_add by lia. apply Z.mod_small. lia. }
  destruct (Hdec block offset Hb Ho) as [H1 H2].
  split; [exact H1|]. split; [exact H2|]. split; [|reflexivity].
  intros b' o' Hb' Ho' Heq.
  destruct (Hdec b' o' Hb' Ho') as [H3 H4].
  rewrite Heq in H3, H4. split; congruence.
Qed.

Lemma inode_reference_names_one_position_witness :
  Z.shiftr (inode_ref_of 8194 96) 16 = 8194
  /\ Z.land (inode_ref_of 8194 96) 65535 = 96.
Proof.
  destruct (inode_reference_names_one_position 8194 96
              ltac:(split; [discriminate|reflexivity])
              ltac:(split; [discriminate|reflexivity]))
    as (H1 & H2 & _).
  split; [exact H1|exact H2].
Defined.

End InodeReferences.

(** ** The runs of the serialiser on a small tree *)

Section RunsOnASmallTree.
Import Sink Serialize Samples.
Local Open Scope list_scope.

Lemma serialize_fstree_reports_every_failure_witness :
  exists root' wr' pre,
    sqfs_serialize_fstree refusing_writer numbered_tree plain_start
    = Ret (-4, root', wr')
    /\ strip root' = strip numbered_tree
    /\ trace wr'
       = trace plain_start ++ Ev_get_size 96 :: pre ++ [Ev_perror (-4)].
Proof.
  assert (H : exists root' wr',
             sqfs_serialize_fstree refusing_writer numbered_tree plain_start
             = Ret (-4, root', wr')).
  { vm_compute. eexists. eexists. reflexivity. }
  destruct H as (root' & wr' & H).
  destruct (serialize_fstree_reports_every_failure refusing_writer
              numbered_tree root' plain_start wr' (-4) H)
    as (Hs & (evs & Ht & Hp) & _).
  destruct (Hp ltac:(discriminate)) as (pre & ->).
  exists root', wr', pre. split; [exact H|]. split; [exact Hs|exact Ht].
Defined.

Lemma known_file_types_never_reach_the_assert_witness :
  Forall (fun n => known_type (mode n) = true) (nodes_of numbered_tree)
  /\ sqfs_serialize_fstree refusing_writer numbered_tree plain_start
     <> Aborted
  /\ serialize_tree_node plain_writer None odd_node plain_start = Aborted
  /\ serialize_tree_node starved_writer None odd_node plain_start
     = Ret (SQFS_ERROR_ALLOC, odd_node,
            log plain_start (world plain_start)
              (Ev_libc_perror "creating inode")).
Proof.
  assert (Hk : Forall (fun n => known_type (mode n) = true)
                 (nodes_of numbered_tree)).
  { apply Forall_forall. intros n Hn.
    assert (Hb : forallb (fun n => known_type (mode n))
                   (nodes_of numbered_tree) = true) by (vm_compute; reflexivity).
    exact (proj1 (forallb_forall _ _) Hb n Hn). }
  destruct (known_file_types_never_reach_the_assert refusing_writer)
    as (_ & _ & H2).
  destruct (known_file_types_never_reach_the_assert plain_writer)
    as (H1 & _ & _).
  destruct (known_file_types_never_reach_the_assert starved_writer)
    as (_ & H3 & _).
  split; [exact Hk|]. split; [exact (H2 numbered_tree plain_start Hk)|].
  split; [apply H1; split; reflexivity|].
  apply H3; reflexivity.
Defined.

Lemma directory_writer_errors_become_internal_witness :
  exists wr',
    serialize_tree_node refusing_writer None small_dir plain_start
    = Ret (SQFS_ERROR_INTERNAL, small_dir, wr')
    /\ trace wr'
       = [Ev_dir_begin; Ev_dir_add_entry "p" 0 0 4516; Ev_perror (-7)]
    /\ status refusing_writer
         (replay refusing_writer [Ev_dir_begin] (world plain_start))
         (Ev_dir_add_entry "p" 0 0 4516) = -7.
Proof.
  eexists.
  destruct (directory_writer_errors_become_internal refusing_writer None
              small_dir plain_start _ eq_refl eq_refl) as [H _].
  split; [exact H|]. split; reflexivity.
Defined.

Lemma directories_list_their_children_at_their_references_witness :
  exists root' wr' evs,
    sqfs_serialize_fstree plain_writer numbered_tree plain_start
    = Ret (0, root', wr')
    /\ trace wr' = trace plain_start ++ evs
    /\ Listed evs None root'
    /\ map entry_of (dir_children root')
       = [Ev_dir_add_entry "a" 1 32 33188; Ev_dir_add_entry "d" 4 64 16877;
          Ev_dir_add_entry "l" 2 96 41471]
    /\ Forall (Emitted plain_writer (world plain_start) evs) (nodes_of root').
Proof.
  assert (H : exists root' wr',
             sqfs_serialize_fstree plain_writer numbered_tree plain_start
             = Ret (0, root', wr')
             /\ map entry_of (dir_children root')
                = [Ev_dir_add_entry "a" 1 32 33188;
                   Ev_dir_add_entry "d" 4 64 16877;
                   Ev_dir_add_entry "l" 2 96 41471]).
  { vm_compute. eexists. eexists. split; reflexivity. }
  destruct H as (root' & wr' & H & Hl).
  destruct (directories_list_their_children_at_their_references plain_writer
              numbered_tree root' plain_start wr' H)
    as (evs & Ht & Hr & _ & He).
  exists root', wr', evs. repeat split; assumption.
Defined.

Lemma every_inode_carries_its_node_witness :
  exists root' wr' evs,
    sqfs_serialize_fstree plain_writer numbered_tree plain_start
    = Ret (0, root', wr')
    /\ trace wr' = trace plain_start ++ evs
    /\ Forall (Headed evs) (nodes_of root').
Proof.
  assert (H : exists root' wr',
             sqfs_serialize_fstree plain_writer numbered_tree plain_start
             = Ret (0, root', wr')).
  { vm_compute. eexists. eexists. reflexivity. }
  destruct H as (root' & wr' & H).
  destruct (every_inode_carries_its_node plain_writer numbered_tree root'
              plain_start wr' H) as (evs & Ht & Hh).
  exists root', wr', evs. split; [exact H|]. split; [exact Ht|exact Hh].
Defined.

Lemma file_inodes_are_handed_over_once_witness :
  exists root' wr',
    sqfs_serialize_fstree plain_writer numbered_tree plain_start
    = Ret (0, root', wr')
    /\ Forall Spent (nodes_of root')
    /\ serialize_tree_node plain_writer None bare_file plain_start
       = Ret (SQFS_ERROR_INTERNAL, clear_user_ptr bare_file, plain_start).
Proof.
  assert (H : exists root' wr',
             sqfs_serialize_fstree plain_writer numbered_tree plain_start
             = Ret (0, root', wr')).
  { vm_compute. eexists. eexists. reflexivity. }
  destruct H as (root' & wr' & H).
  destruct (file_inodes_are_handed_over_once plain_writer) as [H1 H2].
  exists root', wr'. split; [exact H|]. split; [exact (H1 _ _ _ _ H)|].
  exact (proj1 (H2 None bare_file plain_start eq_refl eq_refl)).
Defined.

End RunsOnASmallTree.

(** ** A writer that does not fail *)

Section WillingWriter.
Import Sink Serialize.
Local Open Scope list_scope.

Context {W IDT : Type}.
Variable E : writer_ops W IDT.
Hypothesis willing : Cooperative E.

Local Abbreviation writer := (sqfs_writer_t W IDT).

Lemma add_entries_ok (l : list tree_node) :
  forall wr : writer, fst (add_entries E l wr) = 0.
Proof.
  destruct willing as (_ & Ha & _).
  induction l as [|it rest IH]; intros wr; cbn [add_entries]; [reflexivity|].
  specialize (Ha (world wr) (name it) (inode_num it) (inode_ref it) (mode it)).
  destruct (sqfs_dir_writer_add_entry E (world wr) (name it) (inode_num it)
              (inode_ref it) (mode it)) as [r w].
  cbn [fst] in Ha. subst r. change (negb (0 =? 0)) with false. cbv iota.
  apply IH.
Qed.

Lemma write_dir_entries_ok (parent : option Z) (n : tree_node) (wr : writer) :
  exists i wr', write_dir_entries E parent n wr = (Some i, wr').
Proof.
  destruct willing as (Hb & _ & He & Hc & _).
  unfold write_dir_entries.
  specialize (Hb (world wr)).
  destruct (sqfs_dir_writer_begin E (world wr)) as [r0 w0].
  cbn [fst] in Hb. subst r0. change (negb (0 =? 0)) with false. cbv iota.
  pose proof (add_entries_ok (dir_children n) (log wr w0 Ev_dir_begin)) as Ha.
  destruct (add_entries E (dir_children n) (log wr w0 Ev_dir_begin))
    as [r1 wr1].
  cbn [fst] in Ha. subst r1. change (negb (0 =? 0)) with false. cbv iota.
  specialize (He (world wr1)).
  destruct (sqfs_dir_writer_end E (world wr1)) as [r2 w2].
  cbn [fst] in He. subst r2. change (negb (0 =? 0)) with false. cbv iota.
  cbn [world log].
  match goal with
  | |- context [sqfs_dir_writer_create_inode E ?a ?b ?c ?d] =>
      specialize (Hc a b c d);
      destruct (sqfs_dir_writer_create_inode E a b c d) as [i|];
      [|now elim Hc]
  end.
  destruct (is_dir_type (type (base i))); eauto.
Qed.

Lemma finish_inode_ok (i : sqfs_inode_generic_t) (n : tree_node)
    (wr : writer) :
  exists n' wr', finish_inode E i n wr = Ret (0, n', wr').
Proof.
  destruct willing as (_ & _ & _ & _ & Hid & Hwi & _).
  unfold finish_inode, id_to_index.
  destruct (sqfs_inode_set_xattr_index E _ _ _) as [ty d].
  pose proof (Hid (idtbl wr) (uid n)) as H1.
  destruct (sqfs_id_table_id_to_index E (idtbl wr) (uid n)) as [[r1 u] t1].
  cbn [fst] in H1. subst r1. change (negb (0 =? 0)) with false. cbv iota.
  cbn [idtbl world super trace].
  pose proof (Hid t1 (gid n)) as H2.
  destruct (sqfs_id_table_id_to_index E t1 (gid n)) as [[r2 g] t2].
  cbn [fst] in H2. subst r2. change (negb (0 =? 0)) with false. cbv iota.
  cbn [idtbl world super trace].
  destruct (sqfs_meta_writer_get_position E (world wr) IM) as [b o].
  match goal with
  | |- context [sqfs_meta_writer_write_inode E ?a ?m ?j] =>
      pose proof (Hwi a m j) as H3;
      destruct (sqfs_meta_writer_write_inode E a m j) as [r3 w3]
  end.
  cbn [fst] in H3. subst r3. eauto.
Qed.

Lemma serialize_tree_node_ok (parent : option Z) (n : tree_node)
    (wr : writer) :
  Ready n ->
  exists n' wr', serialize_tree_node E parent n wr = Ret (0, n', wr').
Proof.
  intros [Hk Hf]. unfold serialize_tree_node.
  destruct (S_ISDIR (mode n)) eqn:Hd.
  { destruct (write_dir_entries_ok parent n wr) as (i & wr1 & ->).
    apply finish_inode_ok. }
  destruct (S_ISREG (mode n)) eqn:Hr.
  { specialize (Hf eq_refl).
    destruct (user_ptr_of n) as [i|]; [apply finish_inode_ok|now elim Hf]. }
  destruct willing as (_ & _ & _ & _ & _ & _ & _ & _ & Hcal).
  unfold tree_node_to_inode. rewrite Hcal. cbn [negb]. cbv zeta.
  unfold known_type, S_ISDIR, S_ISREG in *. rewrite Hd, Hr in Hk.
  cbn [orb] in Hk.
  destruct (Z.land (mode n) S_IFMT =? S_IFSOCK); [apply finish_inode_ok|].
  destruct (Z.land (mode n) S_IFMT =? S_IFIFO); [apply finish_inode_ok|].
  destruct (Z.land (mode n) S_IFMT =? S_IFLNK); [apply finish_inode_ok|].
  destruct (Z.land (mode n) S_IFMT =? S_IFBLK); [apply finish_inode_ok|].
  destruct (Z.land (mode n) S_IFMT =? S_IFCHR); [apply finish_inode_ok|].
  discriminate Hk.
Qed.

Lemma serialize_children_ok (parent : option Z) (l : list tree_node) :
  Forall Ready l ->
  forall wr : writer,
    exists l' wr', serialize_children E parent l wr = Ret (0, l', wr').
Proof.
  induction 1 as [|it rest Hit _ IH]; intros wr; cbn [serialize_children];
    [eauto|].
  destruct (serialize_tree_node_ok parent it wr Hit) as (it' & wr1 & ->).
  change (negb (0 =? 0)) with false. cbv iota.
  destruct (IH wr1) as (rest' & wr2 & ->). eauto.
Qed.

(** A directory stays ready when nothing but what the serialiser stores
    in the tree is changed. *)
Lemma Ready_dir (n n' : tree_node) :
  S_ISDIR (mode n) = true -> strip n' = strip n -> Ready n -> Ready n'.
Proof.
  intros Hd Hs [Hk _]. pose proof (strip_mode _ _ Hs) as Hm.
  split; [now rewrite Hm|].
  rewrite Hm. intros Hr. apply dir_is_no_file in Hd. congruence.
Qed.

Lemma visit_subdirs_ok
    (rec : tree_node -> writer -> res (Z * tree_node * writer))
    (l : list tree_node) :
  Forall (fun it => S_ISDIR (mode it) = true ->
                    forall wr, exists r' wr',
                      rec it wr = Ret (0, r', wr') /\ strip r' = strip it) l ->
  Forall Ready l ->
  forall wr : writer,
    exists l' wr',
      visit_subdirs rec l wr = Ret (0, l', wr') /\ Forall Ready l'.
Proof.
  induction 1 as [|it rest Hit _ IH]; intros Hr wr; cbn [visit_subdirs];
    [eauto|].
  inversion Hr as [|? ? Hrit Hrrest]; subst.
  destruct (S_ISDIR (mode it)) eqn:Hd.
  - destruct (Hit eq_refl wr) as (it' & wr1 & -> & Hs).
    change (negb (0 =? 0)) with false. cbv iota.
    destruct (IH Hrrest wr1) as (rest' & wr2 & -> & Hall).
    eexists. eexists. split; [reflexivity|].
    constructor; [exact (Ready_dir it it' Hd Hs Hrit)|exact Hall].
  - destruct (IH Hrrest wr) as (rest' & wr2 & -> & Hall).
    eexists. eexists. split; [reflexivity|]. now constructor.
Qed.

Lemma all_below (P : tree_node -> Prop) (n : tree_node) :
  S_ISDIR (mode n) = true ->
  Forall P (nodes_of n) ->
  Forall (fun c => P c /\ Forall P (nodes_of c)) (dir_children n).
Proof.
  intros Hd H. rewrite nodes_of_eq, Hd, below_eq in H.
  inversion H as [|? ? _ Hb]; subst. clear H.
  induction (dir_children n) as [|c r IH]; [constructor|].
  cbn [flat_map] in Hb. apply Forall_app in Hb as [Hc Hr].
  constructor; [|now apply IH].
  split; [|exact Hc].
  rewrite nodes_of_eq in Hc. now inversion Hc.
Qed.

Lemma serialize_recursive_ok (root : tree_node) :
  S_ISDIR (mode root) = true ->
  Forall Ready (nodes_of root) ->
  forall wr : writer,
    exists root' wr',
      serialize_recursive E root wr = Ret (0, root', wr')
      /\ strip root' = strip root.
Proof.
  induction root as [root IH] using tree_induction.
  intros Hd Hk wr.
  assert (Hret : exists r' wr', serialize_recursive E root wr = Ret (0, r', wr')).
  { rewrite serialize_recursive_unfold.
    pose proof (all_below Ready root Hd Hk) as Hc.
    assert (Hkids : Forall Ready (dir_children root)).
    { eapply Forall_impl; [|exact Hc]. now intros a [Ha _]. }
    destruct (existsb (fun it => S_ISDIR (mode it)) (dir_children root)).
    - assert (Hsub : Forall
                       (fun it => S_ISDIR (mode it) = true ->
                                  forall w, exists r' wr',
                                    serialize_recursive E it w
                                    = Ret (0, r', wr')
                                    /\ strip r' = strip it)
                       (dir_children root)).
      { clear - IH Hc. induction IH as [|c r Hc1 _ IHr]; [constructor|].
        inversion Hc as [|? ? [_ Hn] Hr]; subst.
        constructor; [|now apply IHr].
        intros Hdir w. now apply Hc1. }
      destruct (visit_subdirs_ok _ _ Hsub Hkids wr)
        as (kids & wr1 & -> & Hready).
      change (negb (0 =? 0)) with false. cbv iota.
      destruct (serialize_children_ok (Some (inode_num root)) kids Hready wr1)
        as (kids2 & wr2 & ->).
      eauto.
    - change (negb (0 =? 0)) with false. cbv iota.
      destruct (serialize_children_ok (Some (inode_num root))
                  (dir_children root) Hkids wr) as (kids2 & wr2 & ->).
      eauto. }
  destruct Hret as (r' & wr' & H). exists r', wr'. split; [exact H|].
  now apply serialize_recursive_any in H.
Qed.

(** With a writer that does not fail, [sqfs_serialize_fstree] returns 0
    on every tree whose nodes are ready. *)
Lemma serialize_fstree_ok (root : tree_node) (wr : writer) :
  Forall Ready (nodes_of root) ->
  exists root' wr', sqfs_serialize_fstree E root wr = Ret (0, root', wr').
Proof.
  intros Hk. unfold sqfs_serialize_fstree.
  match goal with
  | |- context [serialize_recursive E root ?w] => set (wr0 := w)
  end.
  assert (Hroot : Ready root)
    by (rewrite nodes_of_eq in Hk; now inversion Hk).
  assert (Hrec : exists root1 wr1,
             (if S_ISDIR (mode root) then serialize_recursive E root wr0
              else Ret (0, root, wr0)) = Ret (0, root1, wr1)
             /\ Ready root1).
  { destruct (S_ISDIR (mode root)) eqn:Hd.
    - destruct (serialize_recursive_ok root Hd Hk wr0) as (r1 & w1 & H & Hs).
      exists r1, w1. split; [exact H|]. exact (Ready_dir root r1 Hd Hs Hroot).
    - eauto. }
  destruct Hrec as (root1 & wr1 & -> & Hr1).
  change (negb (0 =? 0)) with false. cbv iota.
  destruct (serialize_tree_node_ok None root1 wr1 Hr1) as (root2 & wr2 & ->).
  change (negb (0 =? 0)) with false. cbv iota.
  destruct willing as (_ & _ & _ & _ & _ & _ & Hfl & Hwf & _).
  pose proof (Hfl (world wr2) IM) as H3.
  destruct (sqfs_meta_writer_flush E (world wr2) IM) as [r3 w3].
  cbn [fst] in H3. subst r3. change (negb (0 =? 0)) with false. cbv iota.
  cbn [world log].
  pose proof (Hfl w3 DM) as H4.
  destruct (sqfs_meta_writer_flush E w3 DM) as [r4 w4].
  cbn [fst] in H4. subst r4. change (negb (0 =? 0)) with false. cbv iota.
  cbn [world log with_super].
  pose proof (Hwf w4 DM) as H5.
  destruct (sqfs_meta_write_write_to_file E w4 DM) as [r5 w5].
  cbn [fst] in H5. subst r5. change (negb (0 =? 0)) with false. cbv iota.
  eauto.
Qed.

End WillingWriter.

(** ** The numbers of a tree and the order of a run *)

Section NumbersOfARun.
Import Sink Serialize.
Local Open Scope list_scope.

Lemma zrange_nodup (n : nat) : forall lo, NoDup (zrange lo n).
Proof.
  induction n as [|n IH]; intros lo; [constructor|].
  rewrite zrange_S. constructor; [|apply IH].
  rewrite in_zrange. lia.
Qed.

(** In a list without repetitions a member stands at one place. *)
Lemma one_place {A : Type} (x : A) (a b c d : list A) :
  NoDup (a ++ x :: b) -> a ++ x :: b = c ++ x :: d -> a = c /\ b = d.
Proof.
  revert c. induction a as [|y a IH]; intros c Hn He.
  - destruct c as [|z c]; cbn [app] in *.
    + injection He as <-. now split.
    + injection He as <- ->. inversion Hn as [|? ? Hx _]; subst.
      elim Hx. apply in_or_app. right. now left.
  - destruct c as [|z c]; cbn [app] in *.
    + injection He as -> <-. inversion Hn as [|? ? Hx _]; subst.
      elim Hx. apply in_or_app. right. now left.
    + injection He as <- He. inversion Hn as [|? ? _ Hr]; subst.
      destruct (IH c Hr He) as [-> ->]. now split.
Qed.

Lemma before_trans {A : Type} (x y z : A) (l : list A) :
  NoDup l -> before x y l -> before y z l -> before x z l.
Proof.
  intros Hn (a1 & a2 & a3 & H1) (b1 & b2 & b3 & H2).
  assert (H : (a1 ++ x :: a2) ++ y :: a3 = b1 ++ y :: b2 ++ z :: b3).
  { rewrite <- H2, H1, <- app_assoc. reflexivity. }
  apply one_place in H as [<- ->].
  - exists a1, (a2 ++ y :: b2), b3. rewrite H1.
    rewrite <- !app_assoc. reflexivity.
  - rewrite <- app_assoc. cbn [app]. now rewrite <- H1.
Qed.

(** The nodes of a node of a tree are nodes of the tree. *)
Lemma nodes_of_trans (t : tree_node) :
  forall p d, In p (nodes_of t) -> In d (nodes_of p) -> In d (nodes_of t).
Proof.
  induction t as [t IH] using tree_induction. intros p d Hp Hd.
  rewrite nodes_of_eq in Hp. destruct Hp as [<-|Hp]; [exact Hd|].
  destruct (S_ISDIR (mode t)) eqn:Hdir; [|contradiction].
  rewrite below_eq in Hp. apply in_flat_map in Hp as (c & Hc & Hp).
  rewrite nodes_of_eq, Hdir, below_eq. right.
  apply in_flat_map. exists c. split; [exact Hc|].
  rewrite Forall_forall in IH. exact (IH c Hc p d Hp Hd).
Qed.

(** When every node stands behind its children in a list without
    repetitions, it stands behind all that is below it. *)
Lemma all_below_first (l : list Z) (t : tree_node) :
  NoDup l ->
  (forall p c, In p (nodes_of t) -> In c (children_of p) ->
               before (inode_num c) (inode_num p) l) ->
  forall p, In p (nodes_of t) ->
            forall d, In d (tl (nodes_of p)) ->
                      before (inode_num d) (inode_num p) l.
Proof.
  intros Hn Hc p. induction p as [p IH] using tree_induction.
  intros Hp d Hd. rewrite nodes_of_eq in Hd. cbn [tl] in Hd.
  destruct (S_ISDIR (mode p)) eqn:Hdir; [|contradiction].
  rewrite below_eq in Hd. apply in_flat_map in Hd as (c & Hcp & Hd).
  assert (Hchild : In c (children_of p))
    by (unfold children_of; now rewrite Hdir).
  pose proof (Hc p c Hp Hchild) as Hbefore.
  rewrite nodes_of_eq in Hd. destruct Hd as [<-|Hd]; [exact Hbefore|].
  apply (before_trans _ (inode_num c)); [exact Hn| |exact Hbefore].
  rewrite Forall_forall in IH. apply (IH c Hcp).
  - apply (nodes_of_trans t p c Hp).
    rewrite nodes_of_eq, Hdir, below_eq. right. apply in_flat_map.
    exists c. split; [exact Hcp|]. rewrite nodes_of_eq. now left.
  - rewrite nodes_of_eq. exact Hd.
Qed.

(** [main] over the tree alone: it runs to its end and stores the number
    of the nodes as [inode_count]. *)
Lemma tree_main_counts (t0 : tree_node) (o : Args.options) :
  exists super f,
    Main.main_body Samples.tree_main o t0
    = Main.Main_end Args.EXIT_SUCCESS super f
    /\ inode_count super
       = Z.of_nat (List.length (nodes_of (fst (gen_inode_table t0)))).
Proof.
  unfold Main.main_body, Main.main_head, Main.main_tail, Main.run,
    Samples.tree_main, Samples.idle_stage, sqfs_super_write, padd_sqfs.
  cbn [Main.compressor_cfg_init_options Main.sqfs_open_file Main.fstree_init
       Main.sqfs_compressor_create Main.fs_defaults_st_mtime
       Main.sqfs_super_init Main.cmp_write_options
       Main.SQFS_FLAG_COMPRESSOR_OPTIONS Main.data_writer_create
       Main.sqfs_id_table_create Main.process_tar_ball Main.data_writer_sync
       Main.tree_node_sort_recursive Main.fstree_gen_inode_table
       Main.fs_inode_tbl_size Main.fstree_xattr_deduplicate
       Main.sqfs_serialize_fstree Main.data_writer_write_fragment_table
       Main.write_export_table Main.sqfs_id_table_write Main.write_xattr
       negb Z.eqb Z.ltb Z.gtb Z.compare Main.apply_writes fold_left].
  destruct (Args.exportable o);
    cbv beta iota zeta; cbn [negb Z.eqb]; cbv beta iota zeta;
    match goal with
    | |- context [if ?b then _ else _] => destruct b
    end;
    cbv beta iota zeta; cbn [negb Z.eqb]; cbv beta iota zeta;
    (eexists; eexists; split; [reflexivity|]);
    cbn [inode_count set_bytes_used set_inode_count bytes_used]; lia.
Qed.



End NumbersOfARun.

(** ** The count of a large identifier table *)

Section IdCount.
Import Sink Serialize.
Local Open Scope list_scope.

(** The table that the look-ups of the identifiers from 0 to [n - 1]
    leave holds these [n] identifiers, and [id_table_write] stores the low
    16 bits of [n] as its [id_count]. *)
Lemma id_count_of_a_range (n : nat) :
  Z.of_nat n <= Int.two32 ->
  IdTable.num_ids
    (IdTable.insert_all IdTable.id_table_create (zrange 0 n)) = Z.of_nat n
  /\ NoDup (IdTable.ids
              (IdTable.insert_all IdTable.id_table_create (zrange 0 n)))
  /\ id_count
       (snd (IdTable.id_table_write false
               (fun (w : unit) s _ _ _ _ => (0, w, s))
               (IdTable.insert_all IdTable.id_table_create (zrange 0 n)) tt
               Samples.blank_super)) = Z.of_nat n mod 2 ^ 16.
Proof.
  intros Hn.
  assert (Hnd : NoDup (zrange 0 n)) by apply zrange_nodup.
  assert (Hids : IdTable.ids
                   (IdTable.insert_all IdTable.id_table_create (zrange 0 n))
                 = zrange 0 n).
  { rewrite insert_all_ids. cbn [IdTable.ids IdTable.id_table_create app].
    assert (Hm : map Int.u32 (zrange 0 n) = zrange 0 n).
    { rewrite <- (map_id (zrange 0 n)) at 2. apply map_ext_in.
      intros a Ha. apply in_zrange in Ha. unfold Int.u32.
      apply Z.mod_small. lia. }
    rewrite Hm. apply distinct_fresh; [exact Hnd|]. intros x _ []. }
  assert (Hlen : IdTable.num_ids
                   (IdTable.insert_all IdTable.id_table_create (zrange 0 n))
                 = Z.of_nat n).
  { unfold IdTable.num_ids. rewrite Hids. unfold zrange.
    now rewrite length_map, length_seq. }
  split; [exact Hlen|]. split; [now rewrite Hids|].
  unfold IdTable.id_table_write. cbn [snd id_count set_id_count].
  unfold IdTable.num_ids in *. cbn [IdTable.ids]. rewrite length_map, Hlen.
  reflexivity.
Qed.


End IdCount.
